(** * QOpenGLContext: contexts, share groups and deferred resource deletion

    A shallow embedding of src/gui/kernel/qopenglcontext.cpp.

    Objects live in heaps indexed by their address; a nullable pointer is an
    [option] of an address.  Every member function becomes a function of the
    executing thread, the receiver and the arguments in a state-and-failure
    monad over the [World]: a call either returns ([Done]), aborts the
    process through qFatal ([Fatal]), or dereferences a null or dangling
    pointer ([Undefined]).  Calls into the platform plugin, into OpenGL,
    into virtual functions of subclasses and into the destroy callbacks of
    the helpers are recorded, in order, in the world's [log]; the code behind
    them is not part of the file and is taken not to call back into it.  The
    answers of the platform plugin, of OpenGL and of the environment are data
    of the world.
    The mutexes of the source are recursive and every member function is
    taken as one atomic step, so locking is not represented. *)

From stdpp Require Import gmap strings list fin_maps.

Open Scope Z_scope.

(** ** Addresses *)

Abbreviation thread_id := nat (only parsing).
Abbreviation ctx_ptr := nat (only parsing).
Abbreviation grp_ptr := nat (only parsing).
Abbreviation res_ptr := nat (only parsing).
Abbreviation mgr_ptr := nat (only parsing).
Abbreviation pctx_ptr := nat (only parsing).
Abbreviation surf_ptr := nat (only parsing).
Abbreviation psurf_ptr := nat (only parsing).
Abbreviation fn_ptr := nat (only parsing).

(** ** Objects *)

(** QGuiGLThreadContext: the per-thread record, one context pointer. *)
Record QGuiGLThreadContext := { context : option ctx_ptr }.

(** QOpenGLExtensions, the class behind [d->functions]: what this file
    knows of it is the context handed to its constructor. *)
Record QOpenGLExtensions := { extensions_context : option ctx_ptr }.

(** The members of QOpenGLContextPrivate that the modelled functions use,
    and the thread affinity of the QObject ([QObject::thread()]).  The
    function wrapper [functions] is allocated and deleted by the context
    itself and is kept in place; [versionFunctions], [textureFunctions] and
    [vaoHelper] point to objects made elsewhere, and the two callbacks are
    std::function objects, empty ([None]) or holding a target. *)
Record QOpenGLContext := {
  platformGLContext : option pctx_ptr;
  shareContext : option ctx_ptr;
  shareGroup : option grp_ptr;
  surface : option surf_ptr;
  functions : option QOpenGLExtensions;
  versionFunctions : option fn_ptr;
  textureFunctions : option fn_ptr;
  textureFunctionsDestroyCallback : option fn_ptr;
  vaoHelper : option fn_ptr;
  vaoHelperDestroyCallback : option fn_ptr;
  workaround_brokenFBOReadBack : bool;
  thread : option thread_id
}.

(** QOpenGLContextGroup with its private part. *)
Record QOpenGLContextGroup := {
  m_shares : list ctx_ptr;
  m_refs : Z;
  m_context : option ctx_ptr;
  m_resources : list (mgr_ptr * res_ptr);
  m_sharedResources : list res_ptr;
  m_pendingDeletion : list res_ptr;
  group_thread : option thread_id
}.

Record QOpenGLSharedResource := { m_group : option grp_ptr }.

Record QOpenGLMultiGroupSharedResource := {
  active : Z;
  m_groups : list grp_ptr
}.

(** What the platform plugin answers for one QPlatformOpenGLContext. *)
Record QPlatformOpenGLContext := {
  platform_isValid : bool;
  platform_isSharing : bool;
  platform_makeCurrent : psurf_ptr -> bool
}.

(** What a QSurface answers; [singleBuffer] stands for
    [format().swapBehavior() == QSurfaceFormat::SingleBuffer]. *)
Record QSurface := {
  surfaceHandle : option psurf_ptr;
  supportsOpenGL : bool;
  singleBuffer : bool
}.

(** ** Calls that leave the file *)

Inductive Event :=
| qWarning (msg : string)
(** [qWarning() << msg << surface] *)
| qWarning_surface (msg : string) (s : surf_ptr)
| signal_aboutToBeDestroyed (c : ctx_ptr)
| call_setContext (p : pctx_ptr) (c : ctx_ptr)
| call_initialize (p : pctx_ptr)
| call_makeCurrent (p : pctx_ptr) (h : psurf_ptr) (ok : bool)
| call_doneCurrent (p : pctx_ptr)
| call_swapBuffers (p : pctx_ptr) (h : psurf_ptr)
| call_glFlush
| call_glGetString_GL_RENDERER
| call_textureFunctionsDestroyCallback (f : fn_ptr)
| call_vaoHelperDestroyCallback (f : fn_ptr) (helper : option fn_ptr)
| delete_versionFunctions (v : fn_ptr)
| call_freeResource (r : res_ptr) (c : ctx_ptr)
| call_invalidateResource (r : res_ptr)
| delete_platformContext (p : pctx_ptr).

(** ** The world *)

Record World := {
  contexts : gmap nat QOpenGLContext;
  groups : gmap nat QOpenGLContextGroup;
  resources : gmap nat QOpenGLSharedResource;
  multiResources : gmap nat QOpenGLMultiGroupSharedResource;
  platformContexts : gmap nat QPlatformOpenGLContext;
  surfaces : gmap nat QSurface;
  (** Q_GLOBAL_STATIC(QThreadStorage<QGuiGLThreadContext *>, ...) *)
  qwindow_context_storage : gmap nat QGuiGLThreadContext;
  (** whether QThread::currentThread() is non-null in a given thread *)
  has_QThread : thread_id -> bool;
  (** qApp->testAttribute(Qt::AA_DontCheckOpenGLContextThreadAffinity) *)
  AA_DontCheckOpenGLContextThreadAffinity : bool;
  (** the function-local statics of makeCurrent *)
  needsWorkaroundSet : bool;
  needsWorkaround : bool;
  (** whether Q_OS_ANDROID is defined *)
  Q_OS_ANDROID : bool;
  (** qgetenv(name): the value of the variable, empty when it is not set *)
  qgetenv : string -> string;
  (** what glGetString(GL_RENDERER) returns: a C string or nullptr *)
  GL_RENDERER : option string;
  (** QOpenGLContextPrivate::makeCurrentTracker, used unless QT_NO_DEBUG *)
  QT_NO_DEBUG : bool;
  makeCurrentTracker : gmap nat bool;
  (** groups handed to QObject::deleteLater() *)
  deleteLater_queue : list grp_ptr;
  log : list Event
}.

Definition set_contexts (f : gmap nat QOpenGLContext -> gmap nat QOpenGLContext) (w : World) : World :=
  {| contexts := f (contexts w); groups := groups w; resources := resources w;
     multiResources := multiResources w; platformContexts := platformContexts w;
     surfaces := surfaces w; qwindow_context_storage := qwindow_context_storage w;
     has_QThread := has_QThread w;
     AA_DontCheckOpenGLContextThreadAffinity := AA_DontCheckOpenGLContextThreadAffinity w;
     needsWorkaroundSet := needsWorkaroundSet w; needsWorkaround := needsWorkaround w;
     Q_OS_ANDROID := Q_OS_ANDROID w; qgetenv := qgetenv w; GL_RENDERER := GL_RENDERER w;
     QT_NO_DEBUG := QT_NO_DEBUG w; makeCurrentTracker := makeCurrentTracker w;
     deleteLater_queue := deleteLater_queue w; log := log w |}.

Definition set_groups (f : gmap nat QOpenGLContextGroup -> gmap nat QOpenGLContextGroup) (w : World) : World :=
  {| contexts := contexts w; groups := f (groups w); resources := resources w;
     multiResources := multiResources w; platformContexts := platformContexts w;
     surfaces := surfaces w; qwindow_context_storage := qwindow_context_storage w;
     has_QThread := has_QThread w;
     AA_DontCheckOpenGLContextThreadAffinity := AA_DontCheckOpenGLContextThreadAffinity w;
     needsWorkaroundSet := needsWorkaroundSet w; needsWorkaround := needsWorkaround w;
     Q_OS_ANDROID := Q_OS_ANDROID w; qgetenv := qgetenv w; GL_RENDERER := GL_RENDERER w;
     QT_NO_DEBUG := QT_NO_DEBUG w; makeCurrentTracker := makeCurrentTracker w;
     deleteLater_queue := deleteLater_queue w; log := log w |}.

Definition set_resources (f : gmap nat QOpenGLSharedResource -> gmap nat QOpenGLSharedResource) (w : World) : World :=
  {| contexts := contexts w; groups := groups w; resources := f (resources w);
     multiResources := multiResources w; platformContexts := platformContexts w;
     surfaces := surfaces w; qwindow_context_storage := qwindow_context_storage w;
     has_QThread := has_QThread w;
     AA_DontCheckOpenGLContextThreadAffinity := AA_DontCheckOpenGLContextThreadAffinity w;
     needsWorkaroundSet := needsWorkaroundSet w; needsWorkaround := needsWorkaround w;
     Q_OS_ANDROID := Q_OS_ANDROID w; qgetenv := qgetenv w; GL_RENDERER := GL_RENDERER w;
     QT_NO_DEBUG := QT_NO_DEBUG w; makeCurrentTracker := makeCurrentTracker w;
     deleteLater_queue := deleteLater_queue w; log := log w |}.

Definition set_multiResources
    (f : gmap nat QOpenGLMultiGroupSharedResource -> gmap nat QOpenGLMultiGroupSharedResource)
    (w : World) : World :=
  {| contexts := contexts w; groups := groups w; resources := resources w;
     multiResources := f (multiResources w); platformContexts := platformContexts w;
     surfaces := surfaces w; qwindow_context_storage := qwindow_context_storage w;
     has_QThread := has_QThread w;
     AA_DontCheckOpenGLContextThreadAffinity := AA_DontCheckOpenGLContextThreadAffinity w;
     needsWorkaroundSet := needsWorkaroundSet w; needsWorkaround := needsWorkaround w;
     Q_OS_ANDROID := Q_OS_ANDROID w; qgetenv := qgetenv w; GL_RENDERER := GL_RENDERER w;
     QT_NO_DEBUG := QT_NO_DEBUG w; makeCurrentTracker := makeCurrentTracker w;
     deleteLater_queue := deleteLater_queue w; log := log w |}.

Definition set_platformContexts
    (f : gmap nat QPlatformOpenGLContext -> gmap nat QPlatformOpenGLContext) (w : World) : World :=
  {| contexts := contexts w; groups := groups w; resources := resources w;
     multiResources := multiResources w; platformContexts := f (platformContexts w);
     surfaces := surfaces w; qwindow_context_storage := qwindow_context_storage w;
     has_QThread := has_QThread w;
     AA_DontCheckOpenGLContextThreadAffinity := AA_DontCheckOpenGLContextThreadAffinity w;
     needsWorkaroundSet := needsWorkaroundSet w; needsWorkaround := needsWorkaround w;
     Q_OS_ANDROID := Q_OS_ANDROID w; qgetenv := qgetenv w; GL_RENDERER := GL_RENDERER w;
     QT_NO_DEBUG := QT_NO_DEBUG w; makeCurrentTracker := makeCurrentTracker w;
     deleteLater_queue := deleteLater_queue w; log := log w |}.

Definition set_storage
    (f : gmap nat QGuiGLThreadContext -> gmap nat QGuiGLThreadContext) (w : World) : World :=
  {| contexts := contexts w; groups := groups w; resources := resources w;
     multiResources := multiResources w; platformContexts := platformContexts w;
     surfaces := surfaces w; qwindow_context_storage := f (qwindow_context_storage w);
     has_QThread := has_QThread w;
     AA_DontCheckOpenGLContextThreadAffinity := AA_DontCheckOpenGLContextThreadAffinity w;
     needsWorkaroundSet := needsWorkaroundSet w; needsWorkaround := needsWorkaround w;
     Q_OS_ANDROID := Q_OS_ANDROID w; qgetenv := qgetenv w; GL_RENDERER := GL_RENDERER w;
     QT_NO_DEBUG := QT_NO_DEBUG w; makeCurrentTracker := makeCurrentTracker w;
     deleteLater_queue := deleteLater_queue w; log := log w |}.

Definition set_needsWorkaround (set value : bool) (w : World) : World :=
  {| contexts := contexts w; groups := groups w; resources := resources w;
     multiResources := multiResources w; platformContexts := platformContexts w;
     surfaces := surfaces w; qwindow_context_storage := qwindow_context_storage w;
     has_QThread := has_QThread w;
     AA_DontCheckOpenGLContextThreadAffinity := AA_DontCheckOpenGLContextThreadAffinity w;
     needsWorkaroundSet := set; needsWorkaround := value;
     Q_OS_ANDROID := Q_OS_ANDROID w; qgetenv := qgetenv w; GL_RENDERER := GL_RENDERER w;
     QT_NO_DEBUG := QT_NO_DEBUG w; makeCurrentTracker := makeCurrentTracker w;
     deleteLater_queue := deleteLater_queue w; log := log w |}.

Definition set_makeCurrentTracker (f : gmap nat bool -> gmap nat bool) (w : World) : World :=
  {| contexts := contexts w; groups := groups w; resources := resources w;
     multiResources := multiResources w; platformContexts := platformContexts w;
     surfaces := surfaces w; qwindow_context_storage := qwindow_context_storage w;
     has_QThread := has_QThread w;
     AA_DontCheckOpenGLContextThreadAffinity := AA_DontCheckOpenGLContextThreadAffinity w;
     needsWorkaroundSet := needsWorkaroundSet w; needsWorkaround := needsWorkaround w;
     Q_OS_ANDROID := Q_OS_ANDROID w; qgetenv := qgetenv w; GL_RENDERER := GL_RENDERER w;
     QT_NO_DEBUG := QT_NO_DEBUG w; makeCurrentTracker := f (makeCurrentTracker w);
     deleteLater_queue := deleteLater_queue w; log := log w |}.

Definition set_deleteLater_queue (f : list grp_ptr -> list grp_ptr) (w : World) : World :=
  {| contexts := contexts w; groups := groups w; resources := resources w;
     multiResources := multiResources w; platformContexts := platformContexts w;
     surfaces := surfaces w; qwindow_context_storage := qwindow_context_storage w;
     has_QThread := has_QThread w;
     AA_DontCheckOpenGLContextThreadAffinity := AA_DontCheckOpenGLContextThreadAffinity w;
     needsWorkaroundSet := needsWorkaroundSet w; needsWorkaround := needsWorkaround w;
     Q_OS_ANDROID := Q_OS_ANDROID w; qgetenv := qgetenv w; GL_RENDERER := GL_RENDERER w;
     QT_NO_DEBUG := QT_NO_DEBUG w; makeCurrentTracker := makeCurrentTracker w;
     deleteLater_queue := f (deleteLater_queue w); log := log w |}.

Definition set_log (f : list Event -> list Event) (w : World) : World :=
  {| contexts := contexts w; groups := groups w; resources := resources w;
     multiResources := multiResources w; platformContexts := platformContexts w;
     surfaces := surfaces w; qwindow_context_storage := qwindow_context_storage w;
     has_QThread := has_QThread w;
     AA_DontCheckOpenGLContextThreadAffinity := AA_DontCheckOpenGLContextThreadAffinity w;
     needsWorkaroundSet := needsWorkaroundSet w; needsWorkaround := needsWorkaround w;
     Q_OS_ANDROID := Q_OS_ANDROID w; qgetenv := qgetenv w; GL_RENDERER := GL_RENDERER w;
     QT_NO_DEBUG := QT_NO_DEBUG w; makeCurrentTracker := makeCurrentTracker w;
     deleteLater_queue := deleteLater_queue w; log := f (log w) |}.

(** ** The monad of member functions *)

Inductive outcome (A : Type) : Type :=
| Done (a : A) (w : World)
| Fatal
| Undefined.
Arguments Done {A} a w.
Arguments Fatal {A}.
Arguments Undefined {A}.

Definition M (A : Type) : Type := World -> outcome A.

Definition ret {A} (a : A) : M A := fun w => Done a w.

Definition bind {A B} (m : M A) (k : A -> M B) : M B :=
  fun w => match m w with
           | Done a w' => k a w'
           | Fatal => Fatal
           | Undefined => Undefined
           end.

Declare Scope qt_scope.
Delimit Scope qt_scope with qt.
Notation "'let!' x := m 'in' k" := (bind m (fun x => k))
  (at level 10, x pattern, m at level 100, k at level 200) : qt_scope.
Notation "m ;;; k" := (bind m (fun _ => k))
  (at level 100, k at level 200, right associativity) : qt_scope.
Open Scope qt_scope.

Definition gets {A} (f : World -> A) : M A := fun w => Done (f w) w.
Definition modify (f : World -> World) : M unit := fun w => Done tt (f w).
Definition qFatal {A} : M A := fun _ => Fatal.
Definition undefined {A} : M A := fun _ => Undefined.
Definition emit (e : Event) : M unit := modify (set_log (fun l => l ++ [e])).
Definition when (b : bool) (m : M unit) : M unit := if b then m else ret tt.

(** Dereferencing: [p->...] on a pointer that holds no object is undefined. *)
Definition deref {A} (o : option A) : M A :=
  match o with Some a => ret a | None => undefined end.

Definition the_context (c : ctx_ptr) : M QOpenGLContext :=
  let! w := gets contexts in deref (w !! c).
Definition the_group (g : grp_ptr) : M QOpenGLContextGroup :=
  let! w := gets groups in deref (w !! g).
Definition the_resource (r : res_ptr) : M QOpenGLSharedResource :=
  let! w := gets resources in deref (w !! r).
Definition the_multiResource (m : mgr_ptr) : M QOpenGLMultiGroupSharedResource :=
  let! w := gets multiResources in deref (w !! m).
Definition the_platformContext (p : pctx_ptr) : M QPlatformOpenGLContext :=
  let! w := gets platformContexts in deref (w !! p).
Definition the_surface (s : surf_ptr) : M QSurface :=
  let! w := gets surfaces in deref (w !! s).

Definition store_context (c : ctx_ptr) (C : QOpenGLContext) : M unit :=
  modify (set_contexts <[c := C]>).
Definition store_group (g : grp_ptr) (G : QOpenGLContextGroup) : M unit :=
  modify (set_groups <[g := G]>).
Definition store_resource (r : res_ptr) (R : QOpenGLSharedResource) : M unit :=
  modify (set_resources <[r := R]>).
Definition store_multiResource (m : mgr_ptr) (R : QOpenGLMultiGroupSharedResource) : M unit :=
  modify (set_multiResources <[m := R]>).

(** ** Helpers for the Qt containers and integers *)

(** QList::removeOne: drops the first occurrence, if there is one. *)
Fixpoint removeOne (x : nat) (l : list nat) : list nat :=
  match l with
  | [] => []
  | y :: l' => if decide (x = y) then l' else y :: removeOne x l'
  end.

(** QAtomicInt is a 32-bit int. *)
Definition int32 (z : Z) : Z := (z + 2 ^ 31) `mod` 2 ^ 32 - 2 ^ 31.

Definition set_pendingDeletion (l : list res_ptr) (G : QOpenGLContextGroup) : QOpenGLContextGroup :=
  {| m_shares := m_shares G; m_refs := m_refs G; m_context := m_context G;
     m_resources := m_resources G; m_sharedResources := m_sharedResources G;
     m_pendingDeletion := l; group_thread := group_thread G |}.

Definition set_sharedResources (l : list res_ptr) (G : QOpenGLContextGroup) : QOpenGLContextGroup :=
  {| m_shares := m_shares G; m_refs := m_refs G; m_context := m_context G;
     m_resources := m_resources G; m_sharedResources := l;
     m_pendingDeletion := m_pendingDeletion G; group_thread := group_thread G |}.

Definition set_m_resources (l : list (mgr_ptr * res_ptr)) (G : QOpenGLContextGroup) : QOpenGLContextGroup :=
  {| m_shares := m_shares G; m_refs := m_refs G; m_context := m_context G;
     m_resources := l; m_sharedResources := m_sharedResources G;
     m_pendingDeletion := m_pendingDeletion G; group_thread := group_thread G |}.

Definition set_shares (l : list ctx_ptr) (refs : Z) (first : option ctx_ptr)
    (G : QOpenGLContextGroup) : QOpenGLContextGroup :=
  {| m_shares := l; m_refs := refs; m_context := first;
     m_resources := m_resources G; m_sharedResources := m_sharedResources G;
     m_pendingDeletion := m_pendingDeletion G; group_thread := group_thread G |}.

Definition set_platformGLContext (p : option pctx_ptr) (C : QOpenGLContext) : QOpenGLContext :=
  {| platformGLContext := p; shareContext := shareContext C; shareGroup := shareGroup C;
     surface := surface C; functions := functions C; versionFunctions := versionFunctions C;
     textureFunctions := textureFunctions C;
     textureFunctionsDestroyCallback := textureFunctionsDestroyCallback C;
     vaoHelper := vaoHelper C; vaoHelperDestroyCallback := vaoHelperDestroyCallback C;
     workaround_brokenFBOReadBack := workaround_brokenFBOReadBack C; thread := thread C |}.

Definition set_shareContext (sc : option ctx_ptr) (C : QOpenGLContext) : QOpenGLContext :=
  {| platformGLContext := platformGLContext C; shareContext := sc;
     shareGroup := shareGroup C; surface := surface C; functions := functions C;
     versionFunctions := versionFunctions C; textureFunctions := textureFunctions C;
     textureFunctionsDestroyCallback := textureFunctionsDestroyCallback C;
     vaoHelper := vaoHelper C; vaoHelperDestroyCallback := vaoHelperDestroyCallback C;
     workaround_brokenFBOReadBack := workaround_brokenFBOReadBack C; thread := thread C |}.

Definition set_shareGroup (g : option grp_ptr) (C : QOpenGLContext) : QOpenGLContext :=
  {| platformGLContext := platformGLContext C; shareContext := shareContext C;
     shareGroup := g; surface := surface C; functions := functions C;
     versionFunctions := versionFunctions C; textureFunctions := textureFunctions C;
     textureFunctionsDestroyCallback := textureFunctionsDestroyCallback C;
     vaoHelper := vaoHelper C; vaoHelperDestroyCallback := vaoHelperDestroyCallback C;
     workaround_brokenFBOReadBack := workaround_brokenFBOReadBack C; thread := thread C |}.

Definition set_surface (s : option surf_ptr) (C : QOpenGLContext) : QOpenGLContext :=
  {| platformGLContext := platformGLContext C; shareContext := shareContext C;
     shareGroup := shareGroup C; surface := s; functions := functions C;
     versionFunctions := versionFunctions C; textureFunctions := textureFunctions C;
     textureFunctionsDestroyCallback := textureFunctionsDestroyCallback C;
     vaoHelper := vaoHelper C; vaoHelperDestroyCallback := vaoHelperDestroyCallback C;
     workaround_brokenFBOReadBack := workaround_brokenFBOReadBack C; thread := thread C |}.

Definition set_functions (f : option QOpenGLExtensions) (C : QOpenGLContext) : QOpenGLContext :=
  {| platformGLContext := platformGLContext C; shareContext := shareContext C;
     shareGroup := shareGroup C; surface := surface C; functions := f;
     versionFunctions := versionFunctions C; textureFunctions := textureFunctions C;
     textureFunctionsDestroyCallback := textureFunctionsDestroyCallback C;
     vaoHelper := vaoHelper C; vaoHelperDestroyCallback := vaoHelperDestroyCallback C;
     workaround_brokenFBOReadBack := workaround_brokenFBOReadBack C; thread := thread C |}.

Definition set_versionFunctions (v : option fn_ptr) (C : QOpenGLContext) : QOpenGLContext :=
  {| platformGLContext := platformGLContext C; shareContext := shareContext C;
     shareGroup := shareGroup C; surface := surface C; functions := functions C;
     versionFunctions := v; textureFunctions := textureFunctions C;
     textureFunctionsDestroyCallback := textureFunctionsDestroyCallback C;
     vaoHelper := vaoHelper C; vaoHelperDestroyCallback := vaoHelperDestroyCallback C;
     workaround_brokenFBOReadBack := workaround_brokenFBOReadBack C; thread := thread C |}.

Definition set_textureFunctions (h : option fn_ptr) (C : QOpenGLContext) : QOpenGLContext :=
  {| platformGLContext := platformGLContext C; shareContext := shareContext C;
     shareGroup := shareGroup C; surface := surface C; functions := functions C;
     versionFunctions := versionFunctions C; textureFunctions := h;
     textureFunctionsDestroyCallback := textureFunctionsDestroyCallback C;
     vaoHelper := vaoHelper C; vaoHelperDestroyCallback := vaoHelperDestroyCallback C;
     workaround_brokenFBOReadBack := workaround_brokenFBOReadBack C; thread := thread C |}.

Definition set_textureFunctionsDestroyCallback (f : option fn_ptr) (C : QOpenGLContext) : QOpenGLContext :=
  {| platformGLContext := platformGLContext C; shareContext := shareContext C;
     shareGroup := shareGroup C; surface := surface C; functions := functions C;
     versionFunctions := versionFunctions C; textureFunctions := textureFunctions C;
     textureFunctionsDestroyCallback := f; vaoHelper := vaoHelper C;
     vaoHelperDestroyCallback := vaoHelperDestroyCallback C;
     workaround_brokenFBOReadBack := workaround_brokenFBOReadBack C; thread := thread C |}.

Definition set_vaoHelper (h : option fn_ptr) (C : QOpenGLContext) : QOpenGLContext :=
  {| platformGLContext := platformGLContext C; shareContext := shareContext C;
     shareGroup := shareGroup C; surface := surface C; functions := functions C;
     versionFunctions := versionFunctions C; textureFunctions := textureFunctions C;
     textureFunctionsDestroyCallback := textureFunctionsDestroyCallback C; vaoHelper := h;
     vaoHelperDestroyCallback := vaoHelperDestroyCallback C;
     workaround_brokenFBOReadBack := workaround_brokenFBOReadBack C; thread := thread C |}.

Definition set_vaoHelperDestroyCallback (f : option fn_ptr) (C : QOpenGLContext) : QOpenGLContext :=
  {| platformGLContext := platformGLContext C; shareContext := shareContext C;
     shareGroup := shareGroup C; surface := surface C; functions := functions C;
     versionFunctions := versionFunctions C; textureFunctions := textureFunctions C;
     textureFunctionsDestroyCallback := textureFunctionsDestroyCallback C;
     vaoHelper := vaoHelper C; vaoHelperDestroyCallback := f;
     workaround_brokenFBOReadBack := workaround_brokenFBOReadBack C; thread := thread C |}.

Definition set_workaround (b : bool) (C : QOpenGLContext) : QOpenGLContext :=
  {| platformGLContext := platformGLContext C; shareContext := shareContext C;
     shareGroup := shareGroup C; surface := surface C; functions := functions C;
     versionFunctions := versionFunctions C; textureFunctions := textureFunctions C;
     textureFunctionsDestroyCallback := textureFunctionsDestroyCallback C;
     vaoHelper := vaoHelper C; vaoHelperDestroyCallback := vaoHelperDestroyCallback C;
     workaround_brokenFBOReadBack := b; thread := thread C |}.

(** ** QOpenGLContextPrivate::setCurrentContext, QOpenGLContext::currentContext *)

(** QThread::currentThread(), as seen from thread [t]. *)
Definition currentThread_of (w : World) (t : thread_id) : option thread_id :=
  if has_QThread w t then Some t else None.

Definition QThread_currentThread (t : thread_id) : M (option thread_id) :=
  gets (fun w => currentThread_of w t).

(** [qwindow_context_storage()->localData()] in thread [t]. *)
Definition localData (t : thread_id) : M (option QGuiGLThreadContext) :=
  gets (fun w => qwindow_context_storage w !! t).

(** Returns the previously current context. *)
Definition setCurrentContext (t : thread_id) (ctx : option ctx_ptr) : M (option ctx_ptr) :=
  let! threadContext := localData t in
  match threadContext with
  | None =>
      let! qthread := QThread_currentThread t in
      match qthread, ctx with
      | None, _ =>
          emit (qWarning "No QTLS available. currentContext won't work");;;
          ret None
      | Some _, None => ret None
      | Some _, Some _ =>
          (* new QGuiGLThreadContext, whose context starts as nullptr;
             setLocalData; previous = nullptr; threadContext->context = ctx *)
          modify (set_storage <[t := {| context := ctx |}]>);;;
          ret None
      end
  | Some tc =>
      modify (set_storage <[t := {| context := ctx |}]>);;;
      ret (context tc)
  end.

Definition currentContext (t : thread_id) : M (option ctx_ptr) :=
  let! threadContext := localData t in
  match threadContext with
  | Some tc => ret (context tc)
  | None => ret None
  end.

(** The same read, as a function of the world, for use in statements. *)
Definition current (w : World) (t : thread_id) : option ctx_ptr :=
  match qwindow_context_storage w !! t with
  | Some tc => context tc
  | None => None
  end.

(** ** QOpenGLContext::areSharing, shareGroup, isValid, handle, surface *)

Definition get_shareGroup (c : ctx_ptr) : M (option grp_ptr) :=
  let! C := the_context c in ret (shareGroup C).

Definition areSharing (first second : ctx_ptr) : M bool :=
  let! g1 := get_shareGroup first in
  let! g2 := get_shareGroup second in
  ret (bool_decide (g1 = g2)).

Definition handle (c : ctx_ptr) : M (option pctx_ptr) :=
  let! C := the_context c in ret (platformGLContext C).

Definition get_surface (c : ctx_ptr) : M (option surf_ptr) :=
  let! C := the_context c in ret (surface C).

Definition get_shareContext (c : ctx_ptr) : M (option ctx_ptr) :=
  let! C := the_context c in ret (shareContext C).

(** [d->platformGLContext && d->platformGLContext->isValid()] *)
Definition isValid (c : ctx_ptr) : M bool :=
  let! C := the_context c in
  match platformGLContext C with
  | None => ret false
  | Some p => let! P := the_platformContext p in ret (platform_isValid P)
  end.

(** QOpenGLContext::functions(): the wrapper is allocated on first use,
    for the context that is current in the calling thread at that moment. *)
Definition get_functions (t : thread_id) (c : ctx_ptr) : M QOpenGLExtensions :=
  let! C := the_context c in
  match functions C with
  | Some f => ret f
  | None =>
      let! cur := currentContext t in
      let f := {| extensions_context := cur |} in
      store_context c (set_functions (Some f) C);;;
      ret f
  end.

(** QOpenGLContext::textureFunctions, setTextureFunctions *)
Definition get_textureFunctions (c : ctx_ptr) : M (option fn_ptr) :=
  let! C := the_context c in ret (textureFunctions C).

Definition setTextureFunctions (c : ctx_ptr) (textureFuncs destroyCallback : option fn_ptr) : M unit :=
  let! C := the_context c in
  store_context c (set_textureFunctionsDestroyCallback destroyCallback
                     (set_textureFunctions textureFuncs C)).

(** ** The C string functions used on GL_RENDERER *)

(** [qstrncmp(str1, str2, len) == 0]: the first [len] characters agree,
    or both strings end together before that. *)
Fixpoint qstrncmp_is_0 (str1 str2 : string) (len : nat) : bool :=
  match len with
  | O => true
  | S len =>
      match str1, str2 with
      | EmptyString, EmptyString => true
      | String a rest1, String b rest2 => Ascii.eqb a b && qstrncmp_is_0 rest1 rest2 len
      | _, _ => false
      end
  end.

(** [qstrcmp(str1, str2) == 0] *)
Definition qstrcmp_is_0 (str1 str2 : string) : bool := String.eqb str1 str2.

(** [strstr(haystack, needle) != nullptr] *)
Fixpoint strstr_finds (haystack needle : string) : bool :=
  String.prefix needle haystack ||
  match haystack with
  | EmptyString => false
  | String _ rest => strstr_finds rest needle
  end.

(** The renderers for which makeCurrent switches the workaround on. *)
Definition renderer_needs_workaround (rendererString : string) : bool :=
  qstrncmp_is_0 rendererString "Mali-4xx" 6
  || qstrcmp_is_0 rendererString "Mali-T880"
  || qstrncmp_is_0 rendererString "Adreno (TM) 2xx" 13
  || qstrncmp_is_0 rendererString "Adreno 2xx" 8
  || qstrncmp_is_0 rendererString "Adreno (TM) 3xx" 13
  || qstrncmp_is_0 rendererString "Adreno 3xx" 8
  || qstrncmp_is_0 rendererString "Adreno (TM) 4xx" 13
  || qstrncmp_is_0 rendererString "Adreno 4xx" 8
  || qstrncmp_is_0 rendererString "Adreno (TM) 5xx" 13
  || qstrncmp_is_0 rendererString "Adreno 5xx" 8
  || qstrncmp_is_0 rendererString "Adreno (TM) 6xx" 13
  || qstrncmp_is_0 rendererString "Adreno 6xx" 8
  || qstrcmp_is_0 rendererString "GC800 core"
  || qstrcmp_is_0 rendererString "GC1000 core"
  || strstr_finds rendererString "GC2000"
  || qstrcmp_is_0 rendererString "Immersion.16"
  || qstrncmp_is_0 rendererString "Apple Mx" 7.

(** Assignment to the static [needsWorkaround] of makeCurrent. *)
Definition assign_needsWorkaround (value : bool) : M unit :=
  modify (fun w => set_needsWorkaround (needsWorkaroundSet w) value w).

(** ** QOpenGLContextGroupPrivate::deletePendingResources, QOpenGLSharedResource::free *)

(** The loop over the copied pending list: each resource gets its
    freeResource(ctx) call and is then deleted. *)
Fixpoint freeResources (pending : list res_ptr) (ctx : ctx_ptr) : M unit :=
  match pending with
  | [] => ret tt
  | r :: rest =>
      the_resource r;;;
      emit (call_freeResource r ctx);;;
      modify (set_resources (delete r));;;
      freeResources rest ctx
  end.

Definition deletePendingResources (g : grp_ptr) (ctx : ctx_ptr) : M unit :=
  let! G := the_group g in
  let pending := m_pendingDeletion G in
  store_group g (set_pendingDeletion [] G);;;
  freeResources pending ctx.

Definition free (t : thread_id) (r : res_ptr) : M unit :=
  let! R := the_resource r in
  match m_group R with
  | None => modify (set_resources (delete r))
  | Some g =>
      let! G := the_group g in
      store_group g (set_pendingDeletion (m_pendingDeletion G ++ [r])
                       (set_sharedResources (removeOne r (m_sharedResources G)) G));;;
      (* can we delete right away? *)
      let! cur := currentContext t in
      match cur with
      | None => ret tt
      | Some cc =>
          let! g' := get_shareGroup cc in
          if decide (g' = Some g) then deletePendingResources g cc else ret tt
      end
  end.

(** ** QOpenGLContext::doneCurrent, makeCurrent, swapBuffers *)

Definition update_context (c : ctx_ptr) (f : QOpenGLContext -> QOpenGLContext) : M unit :=
  let! C := the_context c in store_context c (f C).

Definition doneCurrent (t : thread_id) (c : ctx_ptr) : M unit :=
  let! valid := isValid c in
  if negb valid then ret tt else
  let! cur := currentContext t in
  (if decide (cur = Some c)
   then let! g := get_shareGroup c in
        let! g := deref g in
        deletePendingResources g c
   else ret tt);;;
  let! p := handle c in
  let! p := deref p in
  emit (call_doneCurrent p);;;
  setCurrentContext t None;;;
  update_context c (set_surface None).

(** Declared in qopenglcontext_p.h: stores the new value for the context and
    returns the value stored before, false when there was none. *)
Definition toggleMakeCurrentTracker (c : ctx_ptr) (value : bool) : M bool :=
  let! tracker := gets makeCurrentTracker in
  modify (set_makeCurrentTracker <[c := value]>);;;
  ret (default false (tracker !! c)).

(** The body of [if (!needsWorkaroundSet) { ... }] in makeCurrent: the
    environment decides first, then the renderer, asked through
    functions(); at the end [needsWorkaroundSet] is true. *)
Definition decide_needsWorkaround (t : thread_id) (c : ctx_ptr) : M unit :=
  let! android := gets Q_OS_ANDROID in
  (if android
   then let! env := gets (fun w => qgetenv w "QT_ANDROID_DISABLE_GLYPH_CACHE_WORKAROUND") in
        assign_needsWorkaround
          (String.eqb env EmptyString || String.eqb env "0" || String.eqb env "false")
   else ret tt);;;
  let! env := gets (fun w => qgetenv w "QT_ENABLE_GLYPH_CACHE_WORKAROUND") in
  (if String.eqb env "1" || String.eqb env "true"
   then assign_needsWorkaround true
   else ret tt);;;
  let! needs := gets needsWorkaround in
  (if needs then ret tt else
     get_functions t c;;;
     emit call_glGetString_GL_RENDERER;;;
     let! rendererString := gets GL_RENDERER in
     match rendererString with
     | Some rendererString =>
         assign_needsWorkaround (renderer_needs_workaround rendererString)
     | None => ret tt
     end);;;
  modify (fun w => set_needsWorkaround true (needsWorkaround w) w).

Definition makeCurrent (t : thread_id) (c : ctx_ptr) (surf : option surf_ptr) : M bool :=
  let! valid := isValid c in
  if negb valid then ret false else
  let! dontCheck := gets AA_DontCheckOpenGLContextThreadAffinity in
  let! C := the_context c in
  let! qthread := QThread_currentThread t in
  if negb dontCheck && negb (bool_decide (thread C = qthread))
  then qFatal (* "Cannot make QOpenGLContext current in a different thread" *)
  else
  match surf with
  | None => doneCurrent t c;;; ret true
  | Some s =>
      let! sf := the_surface s in
      match surfaceHandle sf with
      | None => ret false
      | Some h =>
          if negb (supportsOpenGL sf)
          then emit (qWarning_surface
                       "QOpenGLContext::makeCurrent() called with non-opengl surface" s);;;
               ret false
          else
          let! p := deref (platformGLContext C) in
          let! P := the_platformContext p in
          let ok := platform_makeCurrent P h in
          emit (call_makeCurrent p h ok);;;
          if negb ok then ret false else
          setCurrentContext t (Some c);;;
          let! nodebug := gets QT_NO_DEBUG in
          (if nodebug then ret tt else toggleMakeCurrentTracker c true;;; ret tt);;;
          update_context c (set_surface (Some s));;;
          let! isSet := gets needsWorkaroundSet in
          (if isSet then ret tt else decide_needsWorkaround t c);;;
          let! needs := gets needsWorkaround in
          (if needs then update_context c (set_workaround true) else ret tt);;;
          let! g := get_shareGroup c in
          let! g := deref g in
          deletePendingResources g c;;;
          ret true
      end
  end.

Definition swapBuffers (t : thread_id) (c : ctx_ptr) (surf : option surf_ptr) : M unit :=
  let! valid := isValid c in
  if negb valid then ret tt else
  match surf with
  | None => emit (qWarning "QOpenGLContext::swapBuffers() called with null argument")
  | Some s =>
      let! sf := the_surface s in
      if negb (supportsOpenGL sf)
      then emit (qWarning "QOpenGLContext::swapBuffers() called with non-opengl surface")
      else
      match surfaceHandle sf with
      | None => ret tt
      | Some h =>
          let! nodebug := gets QT_NO_DEBUG in
          (if nodebug then ret tt else
             let! before := toggleMakeCurrentTracker c false in
             if negb before
             then emit (qWarning "QOpenGLContext::swapBuffers() called without corresponding makeCurrent()")
             else ret tt);;;
          (if singleBuffer sf then get_functions t c;;; emit call_glFlush else ret tt);;;
          let! p := handle c in
          let! p := deref p in
          emit (call_swapBuffers p h)
      end
  end.

(** ** QOpenGLContextGroupPrivate::addContext, cleanup, removeContext *)

Definition addContext (g : grp_ptr) (c : ctx_ptr) : M unit :=
  let! G := the_group g in
  store_group g (set_shares (m_shares G ++ [c]) (int32 (m_refs G + 1)) (m_context G) G).

(** QOpenGLMultiGroupSharedResource::cleanup(group, value); the Q_ASSERT
    aborts in builds without QT_NO_DEBUG. *)
Definition multiGroup_cleanup (t : thread_id) (m : mgr_ptr) (g : grp_ptr) (value : res_ptr) : M unit :=
  the_resource value;;;
  emit (call_invalidateResource value);;;
  free t value;;;
  let! R := the_multiResource m in
  let! nodebug := gets QT_NO_DEBUG in
  if negb nodebug && negb (bool_decide (g ∈ m_groups R))
  then qFatal
  else store_multiResource m {| active := int32 (active R - 1);
                                m_groups := removeOne g (m_groups R) |}.

(** The three loops of QOpenGLContextGroupPrivate::cleanup. *)
Fixpoint cleanup_resources (t : thread_id) (g : grp_ptr) (l : list (mgr_ptr * res_ptr)) : M unit :=
  match l with
  | [] => ret tt
  | (m, value) :: rest => multiGroup_cleanup t m g value;;; cleanup_resources t g rest
  end.

Fixpoint invalidate_all (l : list res_ptr) : M unit :=
  match l with
  | [] => ret tt
  | r :: rest =>
      the_resource r;;;
      emit (call_invalidateResource r);;;
      store_resource r {| m_group := None |};;;
      invalidate_all rest
  end.

Fixpoint qDeleteAll (l : list res_ptr) : M unit :=
  match l with
  | [] => ret tt
  | r :: rest =>
      the_resource r;;;
      modify (set_resources (delete r));;;
      qDeleteAll rest
  end.

Definition update_group (g : grp_ptr) (f : QOpenGLContextGroup -> QOpenGLContextGroup) : M unit :=
  let! G := the_group g in store_group g (f G).

Definition cleanup (t : thread_id) (g : grp_ptr) : M unit :=
  let! G := the_group g in
  cleanup_resources t g (m_resources G);;;
  update_group g (set_m_resources []);;;
  let! G := the_group g in
  invalidate_all (m_sharedResources G);;;
  update_group g (set_sharedResources []);;;
  let! G := the_group g in
  qDeleteAll (m_pendingDeletion G);;;
  update_group g (set_pendingDeletion []).

Definition removeContext (t : thread_id) (g : grp_ptr) (c : ctx_ptr) : M unit :=
  let! G := the_group g in
  let shares := removeOne c (m_shares G) in
  let first := if decide (m_context G = Some c ∧ shares ≠ [])
               then head shares else m_context G in
  let refs := int32 (m_refs G - 1) in
  store_group g (set_shares shares refs first G);;;
  if decide (refs = 0)
  then
    cleanup t g;;;
    let! G := the_group g in
    let! qthread := QThread_currentThread t in
    if decide (group_thread G = qthread)
    then (* delete q; the destructor of the group calls cleanup once more *)
         cleanup t g;;; modify (set_groups (delete g))
    else (* q->deleteLater() *)
         modify (set_deleteLater_queue (fun q => q ++ [g]))
  else ret tt.

(** ** QOpenGLContextPrivate::adopt, QOpenGLContext::destroy, create *)

(** [new QOpenGLContextGroup]; the constructor of the private part is in
    qopenglcontext_p.h and starts with no context, no reference and empty
    lists.  The object belongs to the constructing thread. *)
Definition new_QOpenGLContextGroup (t : thread_id) : M grp_ptr :=
  let! gs := gets groups in
  let! qthread := QThread_currentThread t in
  let g := fresh (dom gs) in
  store_group g {| m_shares := []; m_refs := 0; m_context := None; m_resources := [];
                   m_sharedResources := []; m_pendingDeletion := [];
                   group_thread := qthread |};;;
  ret g.

Definition adopt (t : thread_id) (c : ctx_ptr) (p : pctx_ptr) : M unit :=
  update_context c (set_platformGLContext (Some p));;;
  let! P := the_platformContext p in
  emit (call_setContext p c);;;
  emit (call_initialize p);;;
  (if negb (platform_isSharing P) then update_context c (set_shareContext None) else ret tt);;;
  let! sc := get_shareContext c in
  let! g := match sc with
            | Some sc => get_shareGroup sc
            | None => let! g := new_QOpenGLContextGroup t in ret (Some g)
            end in
  update_context c (set_shareGroup g);;;
  let! g := deref g in
  addContext g c.

(** [delete d->versionFunctions; d->versionFunctions = nullptr;] *)
Definition delete_the_versionFunctions (c : ctx_ptr) : M unit :=
  let! C := the_context c in
  (match versionFunctions C with
   | Some v => emit (delete_versionFunctions v)
   | None => ret tt
   end);;;
  update_context c (set_versionFunctions None).

(** The part of destroy() headed "Invoke callbacks for helpers and
    invalidate"; the Q_ASSERT aborts in builds without QT_NO_DEBUG. *)
Definition invalidate_helpers (c : ctx_ptr) : M unit :=
  let! C := the_context c in
  (match textureFunctionsDestroyCallback C with
   | Some f =>
       emit (call_textureFunctionsDestroyCallback f);;;
       update_context c (set_textureFunctionsDestroyCallback None)
   | None => ret tt
   end);;;
  update_context c (set_textureFunctions None);;;
  delete_the_versionFunctions c;;;
  let! C := the_context c in
  (match vaoHelperDestroyCallback C with
   | Some f =>
       let! nodebug := gets QT_NO_DEBUG in
       if negb nodebug && negb (bool_decide (is_Some (vaoHelper C)))
       then qFatal
       else emit (call_vaoHelperDestroyCallback f (vaoHelper C));;;
            update_context c (set_vaoHelperDestroyCallback None)
   | None => ret tt
   end);;;
  update_context c (set_vaoHelper None).

(** The part of destroy() headed "Tear down function wrappers".  The
    wrapper of functions() is held in the context record itself, so
    [delete d->functions] is the field going back to null. *)
Definition tear_down_function_wrappers (c : ctx_ptr) : M unit :=
  delete_the_versionFunctions c;;;
  update_context c (set_functions None).

Definition destroy (t : thread_id) (c : ctx_ptr) : M unit :=
  let! p := handle c in
  (match p with
   | Some _ => emit (signal_aboutToBeDestroyed c)
   | None => ret tt
   end);;;
  invalidate_helpers c;;;
  tear_down_function_wrappers c;;;
  let! cur := currentContext t in
  (if decide (cur = Some c) then doneCurrent t c else ret tt);;;
  let! g := get_shareGroup c in
  (match g with
   | Some g => removeContext t g c
   | None => ret tt
   end);;;
  update_context c (set_shareGroup None);;;
  let! p := handle c in
  (match p with
   | Some p => the_platformContext p;;;
               emit (delete_platformContext p);;;
               modify (set_platformContexts (delete p))
   | None => ret tt
   end);;;
  update_context c (set_platformGLContext None).

(** [made] is what QPlatformIntegration::createPlatformOpenGLContext(this)
    returns: a new platform context, or nullptr. *)
Definition create (t : thread_id) (c : ctx_ptr) (made : option QPlatformOpenGLContext) : M bool :=
  let! p := handle c in
  (match p with
   | Some _ => destroy t c
   | None => ret tt
   end);;;
  match made with
  | None => ret false
  | Some P =>
      let! ps := gets platformContexts in
      let p := fresh (dom ps) in
      modify (set_platformContexts <[p := P]>);;;
      adopt t c p;;;
      isValid c
  end.

(** ** Constructors and setters used to build worlds *)

(** QOpenGLContext::QOpenGLContext: nothing created yet; the object belongs
    to the constructing thread. *)
Definition new_QOpenGLContext (t : thread_id) : M ctx_ptr :=
  let! cs := gets contexts in
  let! qthread := QThread_currentThread t in
  let c := fresh (dom cs) in
  store_context c {| platformGLContext := None; shareContext := None; shareGroup := None;
                     surface := None; functions := None; versionFunctions := None;
                     textureFunctions := None; textureFunctionsDestroyCallback := None;
                     vaoHelper := None; vaoHelperDestroyCallback := None;
                     workaround_brokenFBOReadBack := false; thread := qthread |};;;
  ret c.

Definition setShareContext (c : ctx_ptr) (sc : option ctx_ptr) : M unit :=
  update_context c (set_shareContext sc).

(** QOpenGLSharedResource::QOpenGLSharedResource(group) *)
Definition new_QOpenGLSharedResource (g : grp_ptr) : M res_ptr :=
  let! rs := gets resources in
  let r := fresh (dom rs) in
  store_resource r {| m_group := Some g |};;;
  let! G := the_group g in
  store_group g (set_sharedResources (m_sharedResources G ++ [r]) G);;;
  ret r.

(** The empty world of a release build: no object, no thread-local data. *)
Definition empty_world : World :=
  {| contexts := ∅; groups := ∅; resources := ∅; multiResources := ∅;
     platformContexts := ∅; surfaces := ∅; qwindow_context_storage := ∅;
     has_QThread := fun _ => true;
     AA_DontCheckOpenGLContextThreadAffinity := false;
     needsWorkaroundSet := false; needsWorkaround := false;
     Q_OS_ANDROID := false; qgetenv := fun _ => EmptyString; GL_RENDERER := None;
     QT_NO_DEBUG := true; makeCurrentTracker := ∅;
     deleteLater_queue := []; log := [] |}.

(** * Notions used in the statements *)

(** The world after the loop of deletePendingResources has gone through
    the list [l] with context [ctx]. *)
Definition drained (l : list res_ptr) (ctx : ctx_ptr) (w : World) : World :=
  set_log (fun lg => lg ++ map (fun r => call_freeResource r ctx) l)
    (set_resources (fun m => foldl (fun m r => delete r m) m l) w).

(** The pending-deletion list of a group, empty for a pointer that holds no group. *)
Definition pending (w : World) (g : grp_ptr) : list res_ptr :=
  match groups w !! g with
  | Some G => m_pendingDeletion G
  | None => []
  end.

(** The events a run has added to the log of [w]. *)
Definition added (w w' : World) : list Event := drop (length (log w)) (log w').

(** The resources handed to freeResource in a list of events, with the context. *)
Definition freed (evs : list Event) : list (res_ptr * ctx_ptr) :=
  omap (fun e => match e with call_freeResource r c => Some (r, c) | _ => None end) evs.

(** The thread-affinity check of makeCurrent lets the call through. *)
Definition affinity_passes (w : World) (t : thread_id) (C : QOpenGLContext) : Prop :=
  AA_DontCheckOpenGLContextThreadAffinity w = true \/
  thread C = currentThread_of w t.

(** The pending list of group [g] can be drained: every entry is a live
    resource and occurs once. *)
Definition drainable (w : World) (g : grp_ptr) : Prop :=
  exists G, groups w !! g = Some G /\ NoDup (m_pendingDeletion G) /\
            forall r, r ∈ m_pendingDeletion G -> is_Some (resources w !! r).

(** A context object whose pointers lead to live objects: a platform
    context and a share group, set together by adopt. *)
Definition context_ok (w : World) (C : QOpenGLContext) : Prop :=
  match platformGLContext C with
  | None => True
  | Some p => is_Some (platformContexts w !! p) /\
              exists g, shareGroup C = Some g /\ drainable w g
  end.

(** ** A world to run the functions in

    One created context, 0, that lives in thread 1, with platform context 0
    and share group 0.  The group tracks resource 0 and has resource 1
    waiting for deletion.  Surface 0 can be rendered to, surface 1 has no
    native handle, surface 2 does not support OpenGL. *)

Definition sample_platformContext : QPlatformOpenGLContext :=
  {| platform_isValid := true; platform_isSharing := false;
     platform_makeCurrent := fun _ => true |}.

Definition sample_context : QOpenGLContext :=
  {| platformGLContext := Some 0%nat; shareContext := None; shareGroup := Some 0%nat;
     surface := None; functions := None; versionFunctions := None;
     textureFunctions := None; textureFunctionsDestroyCallback := None;
     vaoHelper := None; vaoHelperDestroyCallback := None;
     workaround_brokenFBOReadBack := false; thread := Some 1%nat |}.

Definition sample_group : QOpenGLContextGroup :=
  {| m_shares := [0%nat]; m_refs := 1; m_context := None; m_resources := [];
     m_sharedResources := [0%nat]; m_pendingDeletion := [1%nat];
     group_thread := Some 1%nat |}.

Definition sample_world : World :=
  {| contexts := {[ 0%nat := sample_context ]};
     groups := {[ 0%nat := sample_group ]};
     resources := {[ 0%nat := {| m_group := Some 0%nat |};
                     1%nat := {| m_group := Some 0%nat |} ]};
     multiResources := ∅;
     platformContexts := {[ 0%nat := sample_platformContext ]};
     surfaces := {[ 0%nat := {| surfaceHandle := Some 7%nat; supportsOpenGL := true;
                                singleBuffer := false |};
                    1%nat := {| surfaceHandle := None; supportsOpenGL := true;
                                singleBuffer := false |};
                    2%nat := {| surfaceHandle := Some 8%nat; supportsOpenGL := false;
                                singleBuffer := false |} ]};
     qwindow_context_storage := ∅;
     has_QThread := fun _ => true;
     AA_DontCheckOpenGLContextThreadAffinity := false;
     needsWorkaroundSet := false; needsWorkaround := false;
     Q_OS_ANDROID := false; qgetenv := fun _ => EmptyString; GL_RENDERER := None;
     QT_NO_DEBUG := true; makeCurrentTracker := ∅;
     deleteLater_queue := []; log := [] |}.

(** The calls that lead to the sample world: a context constructed and
    created in thread 1, two shared resources of its group, the second one
    freed while no context is current. *)
Definition sample_run : M unit :=
  let! c := new_QOpenGLContext 1 in
  create 1 c (Some sample_platformContext);;;
  let! g := get_shareGroup c in
  match g with
  | Some g =>
      new_QOpenGLSharedResource g;;;
      let! r := new_QOpenGLSharedResource g in
      free 1 r
  | None => undefined
  end.

(** A second context constructed in thread 1, made to share with context
    [c], and created, on a platform that reports whether it shares. *)
Definition sharing_run (c : ctx_ptr) (sharing : bool) : M bool :=
  let! c2 := new_QOpenGLContext 1 in
  setShareContext c2 (Some c);;;
  create 1 c2 (Some {| platform_isValid := true; platform_isSharing := sharing;
                       platform_makeCurrent := fun _ => true |});;;
  areSharing c c2.

(** ** Runs that return

    [returns m w Q]: run from [w], [m] returns, with a result and a world
    that satisfy [Q]. *)

Definition returns {A} (m : M A) (w : World) (Q : A -> World -> Prop) : Prop :=
  exists a w', m w = Done a w' /\ Q a w'.

(** The warning of setCurrentContext, when there is one. *)
Definition QTLS_warning : Event := qWarning "No QTLS available. currentContext won't work".

(** What a call of doneCurrent on context [c] in thread [t] leaves behind. *)
Definition doneCurrent_post (t : thread_id) (c : ctx_ptr) (w w' : World) : Prop :=
  (isValid c w = Done false w /\ w' = w) \/
  (isValid c w = Done true w /\
   exists C p, contexts w !! c = Some C /\ platformGLContext C = Some p /\
     current w' t = None /\
     (forall t', t' <> t -> current w' t' = current w t') /\
     contexts w' = <[c := set_surface None C]> (contexts w) /\
     platformContexts w' = platformContexts w /\
     has_QThread w' = has_QThread w /\ deleteLater_queue w' = deleteLater_queue w /\
     exists tls, (tls = [] \/ tls = [QTLS_warning]) /\
       ((current w t = Some c /\
         exists g G, shareGroup C = Some g /\ groups w !! g = Some G /\
           groups w' = <[g := set_pendingDeletion [] G]> (groups w) /\
           resources w' = foldl (fun m r => delete r m) (resources w) (m_pendingDeletion G) /\
           log w' = log w ++ map (fun r => call_freeResource r c) (m_pendingDeletion G)
                          ++ call_doneCurrent p :: tls)
        \/
        (current w t <> Some c /\ groups w' = groups w /\ resources w' = resources w /\
         log w' = log w ++ call_doneCurrent p :: tls))).

(** ** Claims that hold only with a further condition, as they are worded *)

(** makeCurrent(nullptr) on a valid context is doneCurrent() followed by
    returning true; on an invalid context it returns false and leaves the
    thread's current context alone. *)
Definition null_surface_claim (w : World) (t : thread_id) (c : ctx_ptr) : Prop :=
  (isValid c w = Done true w ->
   makeCurrent t c None w = (doneCurrent t c;;; ret true) w) /\
  (isValid c w = Done false w ->
   exists w', makeCurrent t c None w = Done false w' /\ current w' t = current w t).

(** The function wrapper that functions() allocates in thread [t]. *)
Definition new_functions (w : World) (t : thread_id) : QOpenGLExtensions :=
  {| extensions_context := current w t |}.

(** What a step leaves behind that may call functions() on context [c],
    talk to OpenGL and write the statics of makeCurrent: the only object
    that may have changed is the context [c], whose function wrapper was
    allocated if it had none; the log has grown by [evs]. *)
Definition functions_step (t : thread_id) (c : ctx_ptr) (evs : list Event) (w w' : World) : Prop :=
  log w' = log w ++ evs /\
  groups w' = groups w /\ resources w' = resources w /\
  multiResources w' = multiResources w /\ platformContexts w' = platformContexts w /\
  surfaces w' = surfaces w /\ qwindow_context_storage w' = qwindow_context_storage w /\
  has_QThread w' = has_QThread w /\
  AA_DontCheckOpenGLContextThreadAffinity w' = AA_DontCheckOpenGLContextThreadAffinity w /\
  QT_NO_DEBUG w' = QT_NO_DEBUG w /\ makeCurrentTracker w' = makeCurrentTracker w /\
  deleteLater_queue w' = deleteLater_queue w /\
  (contexts w' = contexts w \/
   exists C, contexts w !! c = Some C /\ functions C = None /\
     contexts w' = <[c := set_functions (Some (new_functions w t)) C]> (contexts w)).

(** What a call of makeCurrent with a surface that returned true leaves
    behind.  [tls] is the warning of setCurrentContext, if there was one,
    [gl] the call of glGetString, if the statics were still to be set and
    the environment had not decided. *)
Definition makeCurrent_true_post (t : thread_id) (c : ctx_ptr) (s : surf_ptr) (w w' : World) : Prop :=
  exists C p P sf h g G tls C' gl,
    contexts w !! c = Some C /\ platformGLContext C = Some p /\
    platformContexts w !! p = Some P /\ platform_isValid P = true /\
    affinity_passes w t C /\
    surfaces w !! s = Some sf /\ surfaceHandle sf = Some h /\ supportsOpenGL sf = true /\
    platform_makeCurrent P h = true /\
    shareGroup C = Some g /\ groups w !! g = Some G /\
    log w' = log w ++ call_makeCurrent p h true :: tls ++ gl
                   ++ map (fun r => call_freeResource r c) (m_pendingDeletion G) /\
    ((tls = [] /\ current w' t = Some c) \/
     (tls = [QTLS_warning] /\ qwindow_context_storage w !! t = None /\
      has_QThread w t = false /\ current w' t = None)) /\
    (forall t', t' <> t -> current w' t' = current w t') /\
    groups w' = <[g := set_pendingDeletion [] G]> (groups w) /\
    resources w' = foldl (fun m r => delete r m) (resources w) (m_pendingDeletion G) /\
    platformContexts w' = platformContexts w /\
    contexts w' = <[c := C']> (contexts w) /\
    surface C' = Some s /\ shareGroup C' = Some g /\ platformGLContext C' = Some p /\
    shareContext C' = shareContext C /\ thread C' = thread C /\
    (gl = [] \/ gl = [call_glGetString_GL_RENDERER]) /\
    (tls = [] -> has_QThread w t = true \/ is_Some (qwindow_context_storage w !! t)).

(** One of the conditions under which makeCurrent, called with surface [s],
    gives up: the context is invalid, the surface has no native handle, the
    surface does not support OpenGL, or the platform's makeCurrent fails. *)
Definition makeCurrent_fails_for (w : World) (c : ctx_ptr) (s : surf_ptr) : Prop :=
  isValid c w = Done false w \/
  exists sf, surfaces w !! s = Some sf /\
    (surfaceHandle sf = None \/ supportsOpenGL sf = false \/
     exists C p P h, contexts w !! c = Some C /\ platformGLContext C = Some p /\
       platformContexts w !! p = Some P /\ surfaceHandle sf = Some h /\
       platform_makeCurrent P h = false).

(** makeCurrent returns false exactly under these conditions, and true in
    every other case. *)
Definition makeCurrent_result_claim (w : World) (t : thread_id) (c : ctx_ptr) (s : surf_ptr) : Prop :=
  ((exists w', makeCurrent t c (Some s) w = Done false w') <-> makeCurrent_fails_for w c s) /\
  (~ makeCurrent_fails_for w c s -> exists w', makeCurrent t c (Some s) w = Done true w').

(** After a successful makeCurrent with a surface the thread's current
    context is that context; after doneCurrent on the current context there
    is none. *)
Definition one_current_context_claim (w : World) (t : thread_id) (c : ctx_ptr) : Prop :=
  (forall s w', makeCurrent t c (Some s) w = Done true w' -> current w' t = Some c) /\
  (current w t = Some c -> forall w', doneCurrent t c w = Done tt w' -> current w' t = None).

(** The sample world where no thread has a QThread and the affinity check
    is switched off. *)
Definition no_QTLS_world : World :=
  {| contexts := contexts sample_world; groups := groups sample_world;
     resources := resources sample_world; multiResources := ∅;
     platformContexts := platformContexts sample_world;
     surfaces := surfaces sample_world; qwindow_context_storage := ∅;
     has_QThread := fun _ => false;
     AA_DontCheckOpenGLContextThreadAffinity := true;
     needsWorkaroundSet := false; needsWorkaround := false;
     Q_OS_ANDROID := false; qgetenv := fun _ => EmptyString; GL_RENDERER := None;
     QT_NO_DEBUG := true; makeCurrentTracker := ∅;
     deleteLater_queue := []; log := [] |}.

(** The sample world after context 0 was made current in thread 1 and the
    platform then lost the native context: isValid() has become false. *)
Definition lost_context_world : World :=
  {| contexts := {[ 0%nat := set_surface (Some 0%nat) sample_context ]};
     groups := groups sample_world;
     resources := resources sample_world; multiResources := ∅;
     platformContexts :=
       {[ 0%nat := {| platform_isValid := false; platform_isSharing := false;
                      platform_makeCurrent := fun _ => false |} ]};
     surfaces := surfaces sample_world;
     qwindow_context_storage := {[ 1%nat := {| context := Some 0%nat |} ]};
     has_QThread := fun _ => true;
     AA_DontCheckOpenGLContextThreadAffinity := false;
     needsWorkaroundSet := true; needsWorkaround := false;
     Q_OS_ANDROID := false; qgetenv := fun _ => EmptyString; GL_RENDERER := None;
     QT_NO_DEBUG := true; makeCurrentTracker := ∅;
     deleteLater_queue := []; log := [] |}.

(** The conditions under which swapBuffers reaches the platform's swap. *)
Definition swap_passes_through (w : World) (c : ctx_ptr) (surf : option surf_ptr)
    (p : pctx_ptr) (h : psurf_ptr) : Prop :=
  isValid c w = Done true w /\
  exists C s sf, contexts w !! c = Some C /\ platformGLContext C = Some p /\
    surf = Some s /\ surfaces w !! s = Some sf /\
    supportsOpenGL sf = true /\ surfaceHandle sf = Some h.

Definition is_swap (e : Event) : Prop := exists p h, e = call_swapBuffers p h.

(** C7 as it is worded: the native swap is made only under the four
    conditions, and a call with a null surface or with a surface that does
    not support OpenGL gets a warning. *)
Definition swapBuffers_claim (w : World) (t : thread_id) (c : ctx_ptr)
    (surf : option surf_ptr) : Prop :=
  forall w', swapBuffers t c surf w = Done tt w' ->
    ((exists e, e ∈ added w w' /\ is_swap e) ->
     exists p h, swap_passes_through w c surf p h) /\
    (surf = None -> exists msg, qWarning msg ∈ added w w') /\
    (forall s sf, surf = Some s -> surfaces w !! s = Some sf -> supportsOpenGL sf = false ->
       exists msg, qWarning msg ∈ added w w').

(** ** Deferred deletion *)

(** Context [c] belongs to the share group of resource [r]. *)
Definition in_group_of (w : World) (r : res_ptr) (c : ctx_ptr) : Prop :=
  exists R C g, resources w !! r = Some R /\ m_group R = Some g /\
                contexts w !! c = Some C /\ shareGroup C = Some g.

(** Every resource waiting on a group's pending-deletion list is a live
    resource of that group. *)
Definition pending_wf (w : World) : Prop :=
  forall g G r, groups w !! g = Some G -> r ∈ m_pendingDeletion G ->
    exists R, resources w !! r = Some R /\ m_group R = Some g.

(** The thread's current context is in the share group [g]. *)
Definition current_in_group (w : World) (t : thread_id) (g : grp_ptr) (cc : ctx_ptr) : Prop :=
  current w t = Some cc /\ exists CC, contexts w !! cc = Some CC /\ shareGroup CC = Some g.

(** free() on resource [r] of the live group [g]. *)
Definition free_defers (w : World) (t : thread_id) : Prop :=
  forall r R g G u w',
    resources w !! r = Some R -> m_group R = Some g -> groups w !! g = Some G ->
    free t r w = Done u w' ->
    (exists cc, current_in_group w t g cc /\
       log w' = log w ++ map (fun r' => call_freeResource r' cc) (m_pendingDeletion G ++ [r]) /\
       (forall r', r' ∈ m_pendingDeletion G ++ [r] -> in_group_of w r' cc) /\
       current w' t = Some cc /\ pending w' g = []) \/
    ((forall cc, ~ current_in_group w t g cc) /\
     log w' = log w /\ pending w' g = m_pendingDeletion G ++ [r] /\
     resources w' = resources w).

(** The thread can record a current context: it has QThread data, or its
    thread-local record exists already. *)
Definition has_QTLS (w : World) (t : thread_id) : Prop :=
  has_QThread w t = true \/ is_Some (qwindow_context_storage w !! t).

(** makeCurrent(surface) on context [c]: nothing is freed when it returns
    false; when it returns true the pending list of the context's group is
    drained with [c], after the platform's makeCurrent.  The context has
    then become the thread's current one if the thread can record it; in a
    thread that cannot, the list is drained all the same and
    currentContext() stays null. *)
Definition makeCurrent_drains (w : World) (t : thread_id) : Prop :=
  forall c s b w', makeCurrent t c (Some s) w = Done b w' ->
    (b = false /\ freed (added w w') = []) \/
    (b = true /\
     exists C p h g G pre,
       contexts w !! c = Some C /\ platformGLContext C = Some p /\
       shareGroup C = Some g /\ groups w !! g = Some G /\
       log w' = log w ++ call_makeCurrent p h true :: pre
                      ++ map (fun r => call_freeResource r c) (m_pendingDeletion G) /\
       freed pre = [] /\
       (forall r, r ∈ m_pendingDeletion G -> in_group_of w r c) /\
       pending w' g = [] /\
       ((has_QTLS w t /\ current w' t = Some c) \/
        (~ has_QTLS w t /\ current w' t = None /\ QTLS_warning ∈ pre))).

(** C1 as it is worded: freeResource is called only while a context of
    the resource's share group is the thread's current context, which for
    free() is the context current at the call, for makeCurrent the context
    that has become current, and for doneCurrent the context that is current
    until the call returns. *)
Definition deferred_deletion_claim (w : World) (t : thread_id) : Prop :=
  (forall r u w' r' cc, free t r w = Done u w' -> (r', cc) ∈ freed (added w w') ->
     current w t = Some cc /\ in_group_of w r' cc) /\
  (forall c s b w' r' cc, makeCurrent t c (Some s) w = Done b w' ->
     (r', cc) ∈ freed (added w w') -> current w' t = Some cc /\ in_group_of w r' cc) /\
  (forall c u w' r' cc, doneCurrent t c w = Done u w' -> (r', cc) ∈ freed (added w w') ->
     current w t = Some cc /\ in_group_of w r' cc).

(** doneCurrent() on context [c]. *)
Definition doneCurrent_drains (w : World) (t : thread_id) : Prop :=
  forall c u w', doneCurrent t c w = Done u w' ->
    ((isValid c w = Done false w \/ current w t <> Some c) /\ freed (added w w') = []) \/
    (isValid c w = Done true w /\ current w t = Some c /\
     exists C p g G tls,
       contexts w !! c = Some C /\ platformGLContext C = Some p /\
       shareGroup C = Some g /\ groups w !! g = Some G /\
       log w' = log w ++ map (fun r => call_freeResource r c) (m_pendingDeletion G)
                      ++ call_doneCurrent p :: tls /\
       freed tls = [] /\
       (forall r, r ∈ m_pendingDeletion G -> in_group_of w r c) /\
       current w' t = None /\ pending w' g = []).

(** free() returns when what it dereferences is alive: the group with its
    pending resources, the resource itself not yet pending, and the
    thread's current context. *)
Definition free_returns (w : World) (t : thread_id) : Prop :=
  forall r R g, resources w !! r = Some R -> m_group R = Some g ->
    drainable w g -> r ∉ pending w g ->
    (forall cc, current w t = Some cc -> is_Some (contexts w !! cc)) ->
    exists w', free t r w = Done tt w'.

(** The three calls keep the pending lists well formed. *)
Definition pending_wf_kept (w : World) (t : thread_id) : Prop :=
  (forall r u w', free t r w = Done u w' -> pending_wf w') /\
  (forall c s b w', makeCurrent t c (Some s) w = Done b w' -> pending_wf w') /\
  (forall c u w', doneCurrent t c w = Done u w' -> pending_wf w').

(** ** Share-group membership *)

(** The part of a group that says who its members are. *)
Definition membership (G : QOpenGLContextGroup) :
    list ctx_ptr * Z * option ctx_ptr * option thread_id :=
  (m_shares G, m_refs G, m_context G, group_thread G).

(** Two worlds with the same contexts, platform contexts, thread-local
    data and deferred deletions, and the same members in every group. *)
Definition same_membership (w w' : World) : Prop :=
  contexts w' = contexts w /\ platformContexts w' = platformContexts w /\
  qwindow_context_storage w' = qwindow_context_storage w /\
  has_QThread w' = has_QThread w /\ QT_NO_DEBUG w' = QT_NO_DEBUG w /\
  deleteLater_queue w' = deleteLater_queue w /\
  forall g, membership <$> (groups w' !! g) = membership <$> (groups w !! g).

(** What removing the last or a further reference does to group [g], whose
    members were [shares] and whose reference count was [refs], when the
    removal runs in thread [t] of world [w]. *)
Definition group_after_removal (t : thread_id) (g : grp_ptr) (c : ctx_ptr)
    (G : QOpenGLContextGroup) (w w' : World) : Prop :=
  if decide (int32 (m_refs G - 1) = 0)
  then if decide (group_thread G = currentThread_of w t)
       then (* delete q *)
            groups w' !! g = None /\ deleteLater_queue w' = deleteLater_queue w
       else (* q->deleteLater() *)
            deleteLater_queue w' = deleteLater_queue w ++ [g] /\
            exists G', groups w' !! g = Some G' /\
                       m_shares G' = removeOne c (m_shares G) /\ m_refs G' = 0
  else deleteLater_queue w' = deleteLater_queue w /\
       exists G', groups w' !! g = Some G' /\
                  m_shares G' = removeOne c (m_shares G) /\
                  m_refs G' = int32 (m_refs G - 1) /\
                  group_thread G' = group_thread G.

Definition removeContext_post (t : thread_id) (g : grp_ptr) (c : ctx_ptr) (w w' : World) : Prop :=
  exists G, groups w !! g = Some G /\
    contexts w' = contexts w /\ platformContexts w' = platformContexts w /\
    qwindow_context_storage w' = qwindow_context_storage w /\
    has_QThread w' = has_QThread w /\
    (forall g', g' <> g -> membership <$> (groups w' !! g') = membership <$> (groups w !! g')) /\
    group_after_removal t g c G w w'.

(** The context object after destroy() has invalidated the helpers and
    torn down the function wrappers. *)
Definition torn_down (C : QOpenGLContext) : QOpenGLContext :=
  {| platformGLContext := platformGLContext C; shareContext := shareContext C;
     shareGroup := shareGroup C; surface := surface C;
     functions := None; versionFunctions := None; textureFunctions := None;
     textureFunctionsDestroyCallback := None; vaoHelper := None;
     vaoHelperDestroyCallback := None;
     workaround_brokenFBOReadBack := workaround_brokenFBOReadBack C; thread := thread C |}.

(** The callbacks and the deletion made on the way, in their order. *)
Definition teardown_events (C : QOpenGLContext) : list Event :=
  match textureFunctionsDestroyCallback C with
  | Some f => [call_textureFunctionsDestroyCallback f]
  | None => []
  end ++
  match versionFunctions C with
  | Some v => [delete_versionFunctions v]
  | None => []
  end ++
  match vaoHelperDestroyCallback C with
  | Some f => [call_vaoHelperDestroyCallback f (vaoHelper C)]
  | None => []
  end.

(** The world after that part of destroy(). *)
Definition teardown (c : ctx_ptr) (C : QOpenGLContext) (w : World) : World :=
  set_log (fun l => l ++ teardown_events C) (set_contexts <[c := torn_down C]> w).

(** The Q_ASSERT of destroy() holds or is compiled out: a context with a
    destroy callback for the vertex-array helper has the helper. *)
Definition helpers_ok (w : World) (C : QOpenGLContext) : Prop :=
  QT_NO_DEBUG w = true \/ vaoHelperDestroyCallback C = None \/ is_Some (vaoHelper C).

(** What destroy() leaves behind. *)
Definition destroy_post (t : thread_id) (c : ctx_ptr) (w w' : World) : Prop :=
  exists C C', contexts w !! c = Some C /\
    contexts w' = <[c := C']> (contexts w) /\
    platformGLContext C' = None /\ shareGroup C' = None /\
    shareContext C' = shareContext C /\ thread C' = thread C /\
    platformContexts w' = match platformGLContext C with
                          | Some p => delete p (platformContexts w)
                          | None => platformContexts w
                          end /\
    has_QThread w' = has_QThread w /\
    match shareGroup C with
    | None => deleteLater_queue w' = deleteLater_queue w /\
              forall g, membership <$> (groups w' !! g) = membership <$> (groups w !! g)
    | Some g =>
        exists G, groups w !! g = Some G /\
          (forall g', g' <> g ->
             membership <$> (groups w' !! g') = membership <$> (groups w !! g')) /\
          group_after_removal t g c G w w'
    end.

(** The context object after adopt: platform context [p], share context
    [sc], share group [g]. *)
Definition adopted (p : pctx_ptr) (sc : option ctx_ptr) (g : grp_ptr) (C : QOpenGLContext) :
    QOpenGLContext :=
  {| platformGLContext := Some p; shareContext := sc; shareGroup := Some g;
     surface := surface C; functions := functions C; versionFunctions := versionFunctions C;
     textureFunctions := textureFunctions C;
     textureFunctionsDestroyCallback := textureFunctionsDestroyCallback C;
     vaoHelper := vaoHelper C; vaoHelperDestroyCallback := vaoHelperDestroyCallback C;
     workaround_brokenFBOReadBack := workaround_brokenFBOReadBack C; thread := thread C |}.

(** A group as [new QOpenGLContextGroup] followed by addContext(c) leaves it. *)
Definition singleton_group (c : ctx_ptr) (th : option thread_id) : QOpenGLContextGroup :=
  {| m_shares := [c]; m_refs := 1; m_context := None; m_resources := [];
     m_sharedResources := []; m_pendingDeletion := []; group_thread := th |}.

(** What adopt leaves behind. *)
Definition adopt_post (t : thread_id) (c : ctx_ptr) (p : pctx_ptr) (w w' : World) : Prop :=
  exists C P, contexts w !! c = Some C /\ platformContexts w !! p = Some P /\
    let sc := if platform_isSharing P then shareContext C else None in
    exists g G', contexts w' = <[c := adopted p sc g C]> (contexts w) /\
      platformContexts w' = platformContexts w /\
      has_QThread w' = has_QThread w /\ deleteLater_queue w' = deleteLater_queue w /\
      qwindow_context_storage w' = qwindow_context_storage w /\
      groups w' = <[g := G']> (groups w) /\
      match sc with
      | None => g = fresh (dom (groups w)) /\ groups w !! g = None /\
                G' = singleton_group c (currentThread_of w t)
      | Some s => exists SC G, contexts w !! s = Some SC /\ shareGroup SC = Some g /\
                    groups w !! g = Some G /\
                    G' = set_shares (m_shares G ++ [c]) (int32 (m_refs G + 1)) (m_context G) G
      end.

(** What create() leaves behind, and what it returns. *)
Definition create_post (t : thread_id) (c : ctx_ptr) (made : option QPlatformOpenGLContext)
    (w : World) (b : bool) (w' : World) : Prop :=
  exists C w1, contexts w !! c = Some C /\
    match platformGLContext C with
    | Some _ => destroy t c w = Done tt w1
    | None => w1 = w
    end /\
    match made with
    | None => b = false /\ w' = w1
    | Some P =>
        let p := fresh (dom (platformContexts w1)) in
        adopt_post t c p (set_platformContexts <[p := P]> w1) w' /\
        b = platform_isValid P
    end.

(** adopt can find the group to join: with the platform answer [P], a
    share context that stays in force is a live context with a live group. *)
Definition share_context_ok (w : World) (C : QOpenGLContext) (P : QPlatformOpenGLContext) : Prop :=
  match (if platform_isSharing P then shareContext C else None) with
  | None => True
  | Some s => exists SC g, contexts w !! s = Some SC /\ shareGroup SC = Some g /\
                           is_Some (groups w !! g)
  end.

(** The group can be cleaned up: no multi-group resource is registered
    with it, and the resources on its two lists are alive, each pending one
    listed once, none both tracked and pending. *)
Definition group_disposable (w : World) (G : QOpenGLContextGroup) : Prop :=
  m_resources G = [] /\ NoDup (m_pendingDeletion G) /\
  (forall r, r ∈ m_pendingDeletion G -> is_Some (resources w !! r)) /\
  (forall r, r ∈ m_sharedResources G -> is_Some (resources w !! r) /\ r ∉ m_pendingDeletion G).

(** destroy() can go through: the context's pointers lead to live objects,
    the assertion on the helpers holds, and the context's group either keeps
    other references or can be cleaned up. *)
Definition destroy_ok (w : World) (C : QOpenGLContext) : Prop :=
  context_ok w C /\ helpers_ok w C /\
  match shareGroup C with
  | None => True
  | Some g => exists G, groups w !! g = Some G /\
                (int32 (m_refs G - 1) <> 0 \/ group_disposable w G)
  end.

(** The reference count of a group counts its members. *)
Definition counts_members (G : QOpenGLContextGroup) : Prop :=
  m_refs G = Z.of_nat (length (m_shares G)) /\ Z.of_nat (length (m_shares G)) < 2 ^ 31.

(** The group object after its last member has left: deleted, when the
    removal ran in the group's own thread; handed to deleteLater()
    otherwise, and then still there, without member and without reference. *)
Definition group_disposed_of (t : thread_id) (g : grp_ptr) (G : QOpenGLContextGroup)
    (w w' : World) : Prop :=
  (group_thread G = currentThread_of w t /\ groups w' !! g = None /\
   deleteLater_queue w' = deleteLater_queue w) \/
  (group_thread G <> currentThread_of w t /\
   deleteLater_queue w' = deleteLater_queue w ++ [g] /\
   exists G', groups w' !! g = Some G' /\ m_shares G' = [] /\ m_refs G' = 0).

(** C8 as it is worded, for destroy(): the context leaves its group,
    shareGroup() is null afterwards, and the group object is deleted when
    the context was its last member. *)
Definition last_member_claim (w : World) (t : thread_id) (c : ctx_ptr) : Prop :=
  forall C g G w', contexts w !! c = Some C -> shareGroup C = Some g ->
    groups w !! g = Some G -> m_shares G = [c] -> destroy t c w = Done tt w' ->
    get_shareGroup c w' = Done None w' /\ groups w' !! g = None.

(** create() with a platform context: the share group of the context. *)
Definition create_joins_group (w : World) (t : thread_id) (c : ctx_ptr) (C : QOpenGLContext) : Prop :=
  forall P b w', create t c (Some P) w = Done b w' ->
    exists w1 C' g G',
      (w1 = w \/ destroy t c w = Done tt w1) /\
      contexts w' !! c = Some C' /\ shareGroup C' = Some g /\
      groups w' !! g = Some G' /\ c ∈ m_shares G' /\
      match (if platform_isSharing P then shareContext C else None) with
      | None =>
          shareContext C' = None /\ groups w1 !! g = None /\
          m_shares G' = [c] /\ m_refs G' = 1
      | Some sc =>
          shareContext C' = Some sc /\
          exists SC SC' G1,
            contexts w1 !! sc = Some SC /\ shareGroup SC = Some g /\
            contexts w' !! sc = Some SC' /\ shareGroup SC' = Some g /\
            groups w1 !! g = Some G1 /\
            m_shares G' = m_shares G1 ++ [c] /\ m_refs G' = int32 (m_refs G1 + 1)
      end.

(** destroy(): the context leaves its group. *)
Definition destroy_leaves_group (w : World) (t : thread_id) (c : ctx_ptr) (C : QOpenGLContext) : Prop :=
  forall w', destroy t c w = Done tt w' ->
    get_shareGroup c w' = Done None w' /\ handle c w' = Done None w' /\
    forall g G, shareGroup C = Some g -> groups w !! g = Some G ->
      group_after_removal t g c G w w' /\
      (counts_members G -> c ∈ m_shares G ->
       if decide (m_shares G = [c])
       then group_disposed_of t g G w w'
       else exists G', groups w' !! g = Some G' /\
                       m_shares G' = removeOne c (m_shares G) /\ counts_members G').
(** * The rest of the file: further member functions *)

(** ** QOpenGLContext::shareHandle, QOpenGLContextGroup::shares and
       QOpenGLContextGroup::currentContextGroup *)

Definition shareHandle (c : ctx_ptr) : M (option pctx_ptr) :=
  let! C := the_context c in
  match shareContext C with
  | Some sc => handle sc
  | None => ret None
  end.

Definition shares (g : grp_ptr) : M (list ctx_ptr) :=
  let! G := the_group g in ret (m_shares G).

Definition currentContextGroup (t : thread_id) : M (option grp_ptr) :=
  let! cur := currentContext t in
  match cur with
  | Some c => get_shareGroup c
  | None => ret None
  end.

(** ** QOpenGLContext::~QOpenGLContext *)

(** Declared in qopenglcontext_p.h: forgets the tracker's entry of the context. *)
Definition cleanMakeCurrentTracker (c : ctx_ptr) : M unit :=
  modify (set_makeCurrentTracker (delete c)).

(** The destructor, followed by the release of the object. *)
Definition delete_QOpenGLContext (t : thread_id) (c : ctx_ptr) : M unit :=
  destroy t c;;;
  let! nodebug := gets QT_NO_DEBUG in
  (if nodebug then ret tt else cleanMakeCurrentTracker c);;;
  modify (set_contexts (delete c)).

(** ** QOpenGLMultiGroupSharedResource

    [m_resources] of a group is a QHash from the multi-group resource to the
    group's instance: a list of pairs with at most one pair per key. *)

Fixpoint hash_value (m : mgr_ptr) (l : list (mgr_ptr * res_ptr)) : option res_ptr :=
  match l with
  | [] => None
  | (k, v) :: rest => if decide (k = m) then Some v else hash_value m rest
  end.

Definition hash_contains (m : mgr_ptr) (l : list (mgr_ptr * res_ptr)) : bool :=
  bool_decide (is_Some (hash_value m l)).

(** QHash::insert: the value of an existing key is replaced. *)
Definition hash_insert (m : mgr_ptr) (v : res_ptr) (l : list (mgr_ptr * res_ptr)) :
    list (mgr_ptr * res_ptr) :=
  if hash_contains m l
  then map (fun kv => if decide (kv.1 = m) then (m, v) else kv) l
  else l ++ [(m, v)].

Definition hash_remove (m : mgr_ptr) (l : list (mgr_ptr * res_ptr)) : list (mgr_ptr * res_ptr) :=
  filter (fun kv => kv.1 <> m) l.

Definition new_QOpenGLMultiGroupSharedResource : M mgr_ptr :=
  let! ms := gets multiResources in
  let m := fresh (dom ms) in
  store_multiResource m {| active := 0; m_groups := [] |};;;
  ret m.

(** insert(context, value); the Q_ASSERT aborts in builds without QT_NO_DEBUG. *)
Definition multiGroup_insert (m : mgr_ptr) (c : ctx_ptr) (value : res_ptr) : M unit :=
  let! g := get_shareGroup c in
  let! g := deref g in
  let! G := the_group g in
  let! nodebug := gets QT_NO_DEBUG in
  if negb nodebug && hash_contains m (m_resources G)
  then qFatal
  else
  store_group g (set_m_resources (hash_insert m value (m_resources G)) G);;;
  let! R := the_multiResource m in
  store_multiResource m {| active := int32 (active R + 1); m_groups := m_groups R ++ [g] |}.

(** value(context): the instance of the context's group, or nullptr. *)
Definition multiGroup_value (m : mgr_ptr) (c : ctx_ptr) : M (option res_ptr) :=
  let! g := get_shareGroup c in
  let! g := deref g in
  let! G := the_group g in
  ret (hash_value m (m_resources G)).

(** The loop of resources() over [m_groups]. *)
Fixpoint collect_resources (m : mgr_ptr) (gs : list grp_ptr) : M (list res_ptr) :=
  match gs with
  | [] => ret []
  | g :: rest =>
      let! G := the_group g in
      let! result := collect_resources m rest in
      ret (match hash_value m (m_resources G) with
           | Some r => r :: result
           | None => result
           end)
  end.

Definition multiGroup_resources (m : mgr_ptr) : M (list res_ptr) :=
  let! R := the_multiResource m in
  collect_resources m (m_groups R).

(** The loop of the destructor over [m_groups]. *)
Fixpoint release_groups (t : thread_id) (m : mgr_ptr) (gs : list grp_ptr) : M unit :=
  match gs with
  | [] => ret tt
  | g :: rest =>
      let! G := the_group g in
      (match m_shares G with
       | [] => ret tt
       | first :: _ =>
           let! resource := multiGroup_value m first in
           match resource with
           | Some r => free t r
           | None => ret tt
           end
       end);;;
      update_group g (fun G => set_m_resources (hash_remove m (m_resources G)) G);;;
      let! R := the_multiResource m in
      store_multiResource m {| active := int32 (active R - 1); m_groups := m_groups R |};;;
      release_groups t m rest
  end.

Definition leak_warning : string :=
  String.concat (String (Ascii.ascii_of_nat 10) EmptyString)
    ["QtGui: Resources are still available at program shutdown.";
     "          This is possibly caused by a leaked QOpenGLWidget, ";
     "          QOpenGLFramebufferObject or QOpenGLPixelBuffer."].

(** The destructor, followed by the release of the object; the warning is
    compiled in unless QT_NO_DEBUG is defined. *)
Definition delete_QOpenGLMultiGroupSharedResource (t : thread_id) (m : mgr_ptr) : M unit :=
  let! R := the_multiResource m in
  release_groups t m (m_groups R);;;
  let! nodebug := gets QT_NO_DEBUG in
  let! R := the_multiResource m in
  (if negb nodebug && negb (bool_decide (active R = 0))
   then emit (qWarning leak_warning)
   else ret tt);;;
  modify (set_multiResources (delete m)).

(** * Notions used in the statements about these functions *)

(** Every run of [m] that returns takes a world to an [R]-related one. *)
Definition preserves {A} (R : World -> World -> Prop) (m : M A) : Prop :=
  forall w a w', m w = Done a w' -> R w w'.

(** The world a run leaves behind, for building worlds out of runs. *)
Definition world_after {A} (m : M A) (w : World) : World :=
  match m w with
  | Done _ w' => w'
  | _ => w
  end.

(** What currentContext() returns in the threads other than [t] is the same. *)
Definition other_threads_keep (t : thread_id) (w w' : World) : Prop :=
  forall t', t' <> t -> current w' t' = current w t'.

(** No object other than a context has changed: share groups, resources,
    multi-group resources, platform contexts, surfaces, the thread-local
    data and the deleteLater queue are as they were. *)
Definition same_objects (w w' : World) : Prop :=
  groups w' = groups w /\ resources w' = resources w /\
  multiResources w' = multiResources w /\ platformContexts w' = platformContexts w /\
  surfaces w' = surfaces w /\ qwindow_context_storage w' = qwindow_context_storage w /\
  deleteLater_queue w' = deleteLater_queue w.

(** The contexts are as they were, but that context [c] may have been given
    the function wrapper it lacked, allocated by functions() in thread [t]. *)
Definition at_most_functions (t : thread_id) (c : ctx_ptr) (w w' : World) : Prop :=
  contexts w' = contexts w \/
  exists C, contexts w !! c = Some C /\ functions C = None /\
    contexts w' = <[c := set_functions (Some (new_functions w t)) C]> (contexts w).

(** The log has grown, by events of the kind [ok] only. *)
Definition log_grows_by (ok : Event -> Prop) (w w' : World) : Prop :=
  exists evs, log w' = log w ++ evs /\ Forall ok evs.




Definition free_events (e : Event) : Prop :=
  match e with
  | call_freeResource _ _ => True
  | _ => False
  end.


(** The sample world after context 0 was made current on surface 0 in thread 1. *)
Definition current_world : World :=
  world_after (makeCurrent 1 0 (Some 0%nat)) sample_world.


(** [current_world] with a second context, 1, created in thread 1 with a
    share group of its own; context 0 is still the current one. *)
Definition two_contexts_world : World :=
  world_after (sharing_run 0 false) current_world.

(** A platform context like the sample one that reports sharing. *)
Definition sharing_platformContext : QPlatformOpenGLContext :=
  {| platform_isValid := true; platform_isSharing := true;
     platform_makeCurrent := fun _ => true |}.

(** The sample world with a second context, 1, constructed in thread 1 and
    asked to share with context 0, before its create(). *)
Definition share_request_world : World :=
  world_after (let! c2 := new_QOpenGLContext 1 in setShareContext c2 (Some 0%nat))
    sample_world.

(** The calls made while a group is cleaned up. *)
Definition cleanup_events (e : Event) : Prop :=
  match e with
  | call_freeResource _ _ | call_invalidateResource _ => True
  | _ => False
  end.

(** What the removal of a context from its group leaves alone: the
    contexts and the thread-local data; the log grows by calls of the
    cleanup only. *)
Definition removal_frame (w w' : World) : Prop :=
  contexts w' = contexts w /\ qwindow_context_storage w' = qwindow_context_storage w /\
  log_grows_by cleanup_events w w'.

(** What destroy() does first, and what it does last: the signal followed
    by the callbacks of the helpers, and the deletion of the platform
    context. *)
Definition destroy_prologue (c : ctx_ptr) (C : QOpenGLContext) : list Event :=
  match platformGLContext C with
  | Some _ => [signal_aboutToBeDestroyed c]
  | None => []
  end ++ teardown_events C.

(** The world after that first part: the helpers invalidated and the
    function wrappers torn down. *)
Definition destroy_start (c : ctx_ptr) (C : QOpenGLContext) (w : World) : World :=
  set_log (fun l => l ++ destroy_prologue c C) (set_contexts <[c := torn_down C]> w).

Definition destroy_epilogue (C : QOpenGLContext) : list Event :=
  match platformGLContext C with
  | Some p => [delete_platformContext p]
  | None => []
  end.

(** The resources after the loop of cleanup() that invalidates the list [l]. *)
Definition invalidated (l : list res_ptr) (m : gmap nat QOpenGLSharedResource) :
    gmap nat QOpenGLSharedResource :=
  foldl (fun m r => <[r := {| m_group := None |}]> m) m l.

(** A group after cleanup(). *)
Definition cleaned (G : QOpenGLContextGroup) : QOpenGLContextGroup :=
  set_pendingDeletion [] (set_sharedResources [] (set_m_resources [] G)).

(** The sample world with a multi-group resource, 0, and a third shared
    resource of group 0, the one with address 2, to be its instance there. *)
Definition multi_start_world : World :=
  world_after (new_QOpenGLMultiGroupSharedResource;;; new_QOpenGLSharedResource 0)
    sample_world.

(** The same after insert(context 0, resource 2). *)
Definition multi_world : World :=
  world_after (multiGroup_insert 0 0 2) multi_start_world.

(** The multi-group resources are as they were, and the log has only grown. *)
Definition multi_kept (w w' : World) : Prop :=
  multiResources w' = multiResources w /\ exists evs, log w' = log w ++ evs.

(** A multi-group resource after cleanup(group, value). *)
Definition unregistered (g : grp_ptr) (R : QOpenGLMultiGroupSharedResource) :
    QOpenGLMultiGroupSharedResource :=
  {| active := int32 (active R - 1); m_groups := removeOne g (m_groups R) |}.

(** The groups are the same objects and hold the same instances of
    multi-group resources. *)
Definition entries_kept (w w' : World) : Prop :=
  forall g, m_resources <$> (groups w' !! g) = m_resources <$> (groups w !! g).

(** [n] times [active.deref()]. *)
Definition deref_times (n : nat) (a : Z) : Z := Nat.iter n (fun a => int32 (a - 1)) a.

(** The build flag is the same and the log has grown by calls of
    freeResource only. *)
Definition frees_only (w w' : World) : Prop :=
  QT_NO_DEBUG w' = QT_NO_DEBUG w /\ log_grows_by free_events w w'.

(** * QOpenGLContextPrivate::maxTextureSize

    The function talks to OpenGL only: what the driver answers is data.
    [GL_MAX_TEXTURE_SIZE] is the value glGetIntegerv stores, [proxy_width n]
    the GL_TEXTURE_WIDTH glGetTexLevelParameteriv reports for the proxy
    texture after glTexImage2D(GL_PROXY_TEXTURE_2D, ..., n, n, ...). *)

Record GLDriver := {
  GL_MAX_TEXTURE_SIZE : Z;
  proxy_width : Z -> Z
}.

(** The outcome of the do-while loop: the size found; or the signed
    overflow of [size * 2] on a GLint, undefined in C++; or a model that
    ran out of steps. *)
Inductive probed :=
| Found (size : Z)
| SignedOverflow
| NoFuel.

Definition fits_GLint (z : Z) : bool := (- 2 ^ 31 <=? z) && (z <? 2 ^ 31).

(** The do-while loop, entered with the value of [next]; [max] is the
    member max_texture_size.  One unit of [fuel] per iteration. *)
Fixpoint probe (fuel : nat) (gl : GLDriver) (max next : Z) : probed :=
  match fuel with
  | O => NoFuel
  | S fuel =>
      let size := next in
      if negb (fits_GLint (size * 2)) then SignedOverflow else
      let next := size * 2 in
      if next >? max then Found size else
      let next := proxy_width gl next in
      if next >? size then probe fuel gl max next else Found size
  end.

(** maxTextureSize(): the value returned and the member max_texture_size
    afterwards.  [opengles2] is the build option QT_CONFIG(opengles2),
    [isOpenGLES] what q->isOpenGLES() answers. *)
Definition maxTextureSize (fuel : nat) (gl : GLDriver) (opengles2 isOpenGLES : bool)
    (max_texture_size : Z) : probed * Z :=
  if negb (max_texture_size =? -1) then (Found max_texture_size, max_texture_size) else
  let max_texture_size := GL_MAX_TEXTURE_SIZE gl in
  if opengles2 || isOpenGLES then (Found max_texture_size, max_texture_size) else
  let size := proxy_width gl 64 in
  if size =? 0 then (Found max_texture_size, max_texture_size) else
  match probe fuel gl max_texture_size 64 with
  | Found size => (Found size, size)
  | stuck => (stuck, max_texture_size)
  end.

(** A driver that follows the OpenGL rule for proxy textures: the width
    reported is the one asked for, or 0 when the texture cannot be had. *)
Definition proxy_rule (gl : GLDriver) : Prop :=
  forall n, proxy_width gl n = n \/ proxy_width gl n = 0.

(** A driver that accepts proxy textures up to 4096 and reports 5000 as
    GL_MAX_TEXTURE_SIZE. *)
Definition sample_driver : GLDriver :=
  {| GL_MAX_TEXTURE_SIZE := 5000;
     proxy_width := fun n => if n <=? 4096 then n else 0 |}.

(** * The share groups and the contexts agree

    A context points to a group exactly when the group lists it; a group
    lists every member once and counts its members; a context without a
    platform context has no group; and there are fewer than 2^31 context
    objects. *)
Definition sharing_wf (w : World) : Prop :=
  (forall c C g, contexts w !! c = Some C -> shareGroup C = Some g ->
     exists G, groups w !! g = Some G /\ c ∈ m_shares G) /\
  (forall g G c, groups w !! g = Some G -> c ∈ m_shares G ->
     exists C, contexts w !! c = Some C /\ shareGroup C = Some g) /\
  (forall g G, groups w !! g = Some G ->
     NoDup (m_shares G) /\ m_refs G = Z.of_nat (length (m_shares G))) /\
  (forall c C, contexts w !! c = Some C -> platformGLContext C = None ->
     shareGroup C = None) /\
  Z.of_nat (size (dom (contexts w))) < 2 ^ 31.

(** * The resources a group tracks

    The resources of a group are those on its two lists.  Every resource on
    a list is a live object that belongs to the group and is listed once;
    every live object that belongs to a live group is on one of the lists. *)
Definition tracked (G : QOpenGLContextGroup) : list res_ptr :=
  m_sharedResources G ++ m_pendingDeletion G.

Definition tracking_wf (w : World) : Prop :=
  (forall g G, groups w !! g = Some G -> NoDup (tracked G)) /\
  (forall g G r, groups w !! g = Some G -> r ∈ tracked G ->
     exists R, resources w !! r = Some R /\ m_group R = Some g) /\
  (forall r R g G, resources w !! r = Some R -> m_group R = Some g ->
     groups w !! g = Some G -> r ∈ tracked G).
(** * Reasoning about runs *)

Lemma bind_inv {A B} (m : M A) (k : A -> M B) w b w' :
  bind m k w = Done b w' -> exists a w1, m w = Done a w1 /\ k a w1 = Done b w'.
Proof.
  unfold bind. destruct (m w) as [a w1| |] eqn:E; try discriminate.
  intros H. exists a, w1. split; [reflexivity | exact H].
Qed.

Lemma bind_Done {A B} (m : M A) (k : A -> M B) w a w1 :
  m w = Done a w1 -> bind m k w = k a w1.
Proof. unfold bind. intros ->. reflexivity. Qed.

Lemma bind_Fatal_inv {A B} (m : M A) (k : A -> M B) w :
  bind m k w = Fatal -> m w = Fatal \/ exists a w1, m w = Done a w1 /\ k a w1 = Fatal.
Proof.
  unfold bind. destruct (m w) as [a w1| |] eqn:E; try discriminate.
  - intros H. right. exists a, w1. split; [reflexivity | exact H].
  - intros _. left. reflexivity.
Qed.

(** Reads leave the world as it is. *)
Lemma isValid_reads c w b w' : isValid c w = Done b w' -> w' = w.
Proof.
  unfold isValid, the_context, the_platformContext, bind, gets, deref, ret, undefined.
  intros H. repeat case_match; simplify_eq; reflexivity.
Qed.

Lemma isValid_not_Fatal c w : isValid c w <> Fatal.
Proof.
  unfold isValid, the_context, the_platformContext, bind, gets, deref, ret, undefined.
  repeat case_match; discriminate.
Qed.

Lemma isValid_true c w :
  isValid c w = Done true w <->
  exists C p P, contexts w !! c = Some C /\ platformGLContext C = Some p /\
                platformContexts w !! p = Some P /\ platform_isValid P = true.
Proof.
  unfold isValid, the_context, the_platformContext, bind, gets, deref, ret, undefined.
  split.
  - intros H. repeat case_match; simplify_eq. eauto 10.
  - intros (C & p & P & -> & -> & -> & ->). reflexivity.
Qed.

Lemma isValid_false c w :
  isValid c w = Done false w <->
  exists C, contexts w !! c = Some C /\
    (platformGLContext C = None \/
     exists p P, platformGLContext C = Some p /\ platformContexts w !! p = Some P /\
                 platform_isValid P = false).
Proof.
  unfold isValid, the_context, the_platformContext, bind, gets, deref, ret, undefined.
  split.
  - intros H. repeat case_match; simplify_eq; eauto 10.
  - intros (C & -> & [-> | (p & P & -> & -> & ->)]); reflexivity.
Qed.

(** ** Stepping through a run *)

Ltac inv_prim H :=
  unfold get_shareGroup, get_surface, get_shareContext, handle, currentContext, localData,
    QThread_currentThread, currentThread_of,
    the_context, the_group, the_resource, the_multiResource, the_platformContext,
    the_surface, store_context, store_group, store_resource, store_multiResource,
    emit, deref, bind, gets, modify, ret, undefined, qFatal in H;
  simpl in H;
  repeat match type of H with
         | context [match ?x with _ => _ end] =>
             lazymatch x with
             | context [match _ with _ => _ end] => fail
             | _ => destruct x eqn:?; simpl in H
             end
         end;
  repeat match goal with
         | E : (if ?b then _ else _) = _ |- _ => destruct b eqn:?; simpl in E
         end;
  simplify_eq.

Ltac step H :=
  let H1 := fresh "Hstep" in
  apply bind_inv in H as (? & ? & H1 & H); inv_prim H1.

Ltac world_eq :=
  unfold drained, set_log, set_resources, set_groups, set_contexts, set_storage,
    set_platformContexts, set_multiResources, set_makeCurrentTracker,
    set_deleteLater_queue, set_needsWorkaround; simpl; f_equal.

(** ** deletePendingResources *)

Lemma drained_nil c w : drained [] c w = w.
Proof. destruct w. world_eq. apply app_nil_r. Qed.

Lemma drained_cons r l c w :
  drained l c (set_resources (delete r) (set_log (fun lg => lg ++ [call_freeResource r c]) w))
  = drained (r :: l) c w.
Proof. destruct w. world_eq. by rewrite <- app_assoc. Qed.

Lemma freeResources_inv l c w u w' :
  freeResources l c w = Done u w' -> w' = drained l c w.
Proof.
  revert w. induction l as [|r l IH]; intros w H; simpl in H.
  - inv_prim H. by rewrite drained_nil.
  - step H. step H. step H. apply IH in H. by rewrite H, drained_cons.
Qed.

Lemma freeResources_not_Fatal l c w : freeResources l c w <> Fatal.
Proof.
  revert w. induction l as [|r l IH]; intros w H; simpl in H.
  - inv_prim H.
  - unfold bind at 1 in H. destruct (the_resource r w) eqn:E; inv_prim E; try discriminate.
    unfold bind at 1 in H. simpl in H. unfold bind at 1 in H. simpl in H.
    by apply IH in H.
Qed.

Lemma lookup_foldl_delete (l : list nat) (m : gmap nat QOpenGLSharedResource) (r : nat) :
  foldl (fun m r => delete r m) m l !! r = if decide (r ∈ l) then None else m !! r.
Proof.
  revert m. induction l as [|x l IH]; intros m; cbn [foldl].
  - destruct (decide (r ∈ [])) as [Hin|_]; [by apply elem_of_nil in Hin | done].
  - rewrite IH. destruct (decide (r ∈ x :: l)) as [Hin|Hnin].
    + destruct (decide (r ∈ l)) as [|Hnl]; [done |].
      apply elem_of_cons in Hin as [->|]; [apply lookup_delete_eq | done].
    + apply not_elem_of_cons in Hnin as [Hne Hnl].
      destruct (decide (r ∈ l)); [done |]. by apply lookup_delete_ne.
Qed.

Lemma freeResources_Done l c w :
  NoDup l -> (forall r, r ∈ l -> is_Some (resources w !! r)) ->
  freeResources l c w = Done tt (drained l c w).
Proof.
  revert w. induction l as [|r l IH]; intros w Hnd Hlive; simpl.
  - by rewrite drained_nil.
  - destruct (Hlive r) as [R HR]; [set_solver |].
    apply NoDup_cons in Hnd as [Hr Hnd].
    unfold bind at 1. unfold the_resource, bind, gets, deref. simpl. rewrite HR. simpl.
    fold (@bind unit unit).
    rewrite <- drained_cons. apply IH; [done |].
    intros r' Hr'. simpl. rewrite lookup_delete_ne; [| set_solver].
    apply Hlive. set_solver.
Qed.

Lemma deletePendingResources_inv g c w u w' :
  deletePendingResources g c w = Done u w' ->
  exists G, groups w !! g = Some G /\
    w' = drained (m_pendingDeletion G) c (set_groups <[g := set_pendingDeletion [] G]> w).
Proof.
  unfold deletePendingResources. intros H. step H. step H.
  apply freeResources_inv in H. eauto.
Qed.

Lemma deletePendingResources_not_Fatal g c w : deletePendingResources g c w <> Fatal.
Proof.
  unfold deletePendingResources. intros H.
  apply bind_Fatal_inv in H as [H | (G & w1 & H1 & H)]; [inv_prim H |].
  apply bind_Fatal_inv in H as [H | (? & w2 & H2 & H)]; [inv_prim H |].
  by apply freeResources_not_Fatal in H.
Qed.

Lemma deletePendingResources_Done g c w G :
  groups w !! g = Some G -> NoDup (m_pendingDeletion G) ->
  (forall r, r ∈ m_pendingDeletion G -> is_Some (resources w !! r)) ->
  deletePendingResources g c w
  = Done tt (drained (m_pendingDeletion G) c (set_groups <[g := set_pendingDeletion [] G]> w)).
Proof.
  intros HG Hnd Hlive. unfold deletePendingResources, the_group, store_group.
  unfold bind, gets, deref, modify, ret. rewrite HG. simpl.
  by apply freeResources_Done.
Qed.

Lemma setCurrentContext_inv t ctx w prev w' :
  setCurrentContext t ctx w = Done prev w' ->
  prev = current w t /\
  contexts w' = contexts w /\ groups w' = groups w /\ resources w' = resources w /\
  platformContexts w' = platformContexts w /\ surfaces w' = surfaces w /\
  has_QThread w' = has_QThread w /\ deleteLater_queue w' = deleteLater_queue w /\
  ((qwindow_context_storage w !! t = None /\ has_QThread w t = false /\
    qwindow_context_storage w' = qwindow_context_storage w /\
    log w' = log w ++ [qWarning "No QTLS available. currentContext won't work"])
   \/
   ((is_Some (qwindow_context_storage w !! t) \/ has_QThread w t = true) /\
    current w' t = ctx /\ log w' = log w /\
    forall t', t' <> t -> current w' t' = current w t')).
Proof.
  unfold setCurrentContext. intros H. inv_prim H; unfold current; simpl.
  all: rewrite ?lookup_insert_eq; try match goal with E : qwindow_context_storage _ !! _ = _ |- _ => rewrite E end.
  all: repeat split; try done.
  all: first
    [ left; repeat split; done
    | right; split; [by eauto |]; repeat split; try done;
      intros t' Ht'; rewrite ?lookup_insert_ne by done; done ].
Qed.

Lemma setCurrentContext_not_Fatal t ctx w : setCurrentContext t ctx w <> Fatal.
Proof.
  unfold setCurrentContext. intros H. inv_prim H.
Qed.

(** ** makeCurrent: the failure paths *)

Lemma set_log_self w : w = set_log (fun _ => log w) w.
Proof. by destruct w. Qed.

Lemma set_log_frame f w : set_log f w = set_log (fun _ => log (set_log f w)) w.
Proof. by destruct w. Qed.

(** A call of makeCurrent with a surface that returns false has changed
    nothing but the log. *)
Lemma makeCurrent_false_frame t c s w w' :
  makeCurrent t c (Some s) w = Done false w' ->
  w' = set_log (fun _ => log w') w.
Proof.
  unfold makeCurrent. intros H.
  apply bind_inv in H as (valid & w1 & Hv & H).
  apply isValid_reads in Hv as Hw. subst w1.
  destruct valid; simpl in H; [| inv_prim H; apply set_log_self].
  step H. step H. step H.
  all: destruct (negb _ && negb _); [inv_prim H |].
  all: step H; destruct (surfaceHandle _) as [h|]; [| inv_prim H; apply set_log_self].
  all: destruct (supportsOpenGL _); simpl in H; [| inv_prim H; apply set_log_frame].
  all: step H; step H; step H.
  all: destruct (platform_makeCurrent _ h); simpl in H; [| inv_prim H; apply set_log_frame].
  all: repeat (apply bind_inv in H as (? & ? & _ & H)); inv_prim H.
Qed.

(** ** Where qFatal can be reached *)

Ltac no_fatal H :=
  repeat first
    [ match type of H with
      | isValid _ _ = Fatal => by apply isValid_not_Fatal in H
      | freeResources _ _ _ = Fatal => by apply freeResources_not_Fatal in H
      | deletePendingResources _ _ _ = Fatal =>
          by apply deletePendingResources_not_Fatal in H
      | setCurrentContext _ _ _ = Fatal => by apply setCurrentContext_not_Fatal in H
      | (if ?b then _ else _) _ = Fatal => destruct b
      | match ?x with _ => _ end _ = Fatal => destruct x
      end
    | apply bind_Fatal_inv in H as [H | (? & ? & _ & H)]
    | solve [inv_prim H] ].

Lemma doneCurrent_not_Fatal t c w : doneCurrent t c w <> Fatal.
Proof.
  unfold doneCurrent, update_context. intros H. no_fatal H.
Qed.

Lemma makeCurrent_Fatal_inv t c surf w :
  makeCurrent t c surf w = Fatal ->
  exists C, contexts w !! c = Some C /\ isValid c w = Done true w /\
            AA_DontCheckOpenGLContextThreadAffinity w = false /\
            thread C <> currentThread_of w t.
Proof.
  unfold makeCurrent. intros H.
  apply bind_Fatal_inv in H as [H | (valid & w1 & Hv & H)];
    [by apply isValid_not_Fatal in H |].
  apply isValid_reads in Hv as Hw. subst w1.
  destruct valid; simpl in H; [| inv_prim H].
  apply bind_Fatal_inv in H as [H | (dc & w1 & H1 & H)]; [inv_prim H |].
  apply bind_Fatal_inv in H as [H | (C & w2 & H2 & H)]; [inv_prim H |].
  apply bind_Fatal_inv in H as [H | (q & w3 & H3 & H)]; [inv_prim H |].
  unfold gets in H1. unfold QThread_currentThread, gets in H3.
  unfold the_context, bind, gets, deref, ret in H2.
  destruct (contexts w1 !! c) as [C'|] eqn:HC; [| discriminate H2].
  simplify_eq.
  destruct (AA_DontCheckOpenGLContextThreadAffinity w3) eqn:Hdc; simpl in H.
  - exfalso. unfold update_context in H. by no_fatal H; apply doneCurrent_not_Fatal in H.
  - destruct (bool_decide (thread C = currentThread_of w3 t)) eqn:Hth; simpl in H.
    + exfalso. unfold update_context in H. by no_fatal H; apply doneCurrent_not_Fatal in H.
    + apply bool_decide_eq_false in Hth. eauto.
Qed.

Lemma makeCurrent_is_Fatal t c surf w C :
  contexts w !! c = Some C -> isValid c w = Done true w ->
  AA_DontCheckOpenGLContextThreadAffinity w = false ->
  thread C <> currentThread_of w t ->
  makeCurrent t c surf w = Fatal.
Proof.
  intros HC Hv Hdc Hth. unfold makeCurrent.
  rewrite (bind_Done _ _ _ _ _ Hv). simpl.
  unfold the_context, QThread_currentThread, bind, gets, deref, ret.
  rewrite HC, Hdc. simpl. by rewrite bool_decide_eq_false_2.
Qed.

(** ** C4 *)

(** C4. For a valid context, makeCurrent called from a thread other than
    the one the context object belongs to, while the application attribute
    Qt::AA_DontCheckOpenGLContextThreadAffinity is not set, ends in qFatal;
    called on the thread the context belongs to, it never reaches qFatal. *)
Theorem makeCurrent_thread_affinity
    (w : World) (t : thread_id) (c : ctx_ptr) (surf : option surf_ptr) (C : QOpenGLContext) :
  contexts w !! c = Some C ->
  (isValid c w = Done true w ->
   AA_DontCheckOpenGLContextThreadAffinity w = false ->
   thread C <> currentThread_of w t ->
   makeCurrent t c surf w = Fatal)
  /\ (thread C = currentThread_of w t -> makeCurrent t c surf w <> Fatal).
Proof.
  intros HC. split.
  - intros Hv Hdc Hth. by eapply makeCurrent_is_Fatal.
  - intros Hth HF. apply makeCurrent_Fatal_inv in HF as (C' & HC' & _ & _ & Hne).
    congruence.
Qed.

Lemma makeCurrent_thread_affinity_witness :
  makeCurrent 2 0 (Some 0%nat) sample_world = Fatal /\
  makeCurrent 1 0 (Some 0%nat) sample_world <> Fatal.
Proof.
  split.
  - apply (makeCurrent_thread_affinity sample_world 2 0 (Some 0%nat) sample_context).
    + reflexivity.
    + reflexivity.
    + reflexivity.
    + discriminate.
  - apply (makeCurrent_thread_affinity sample_world 1 0 (Some 0%nat) sample_context).
    + reflexivity.
    + reflexivity.
Defined.

(** ** C9 *)

(** C9. Whenever makeCurrent is called with a non-null surface and
    returns false, the thread's current context and the surface recorded in
    the context are what they were before the call (nothing but the log of
    warnings and platform calls has changed). *)
Theorem makeCurrent_failure_is_atomic
    (w w' : World) (t : thread_id) (c : ctx_ptr) (s : surf_ptr) :
  makeCurrent t c (Some s) w = Done false w' ->
  (forall v, currentContext t w = Done v w -> currentContext t w' = Done v w') /\
  (forall v, get_surface c w = Done v w -> get_surface c w' = Done v w') /\
  (forall t', current w' t' = current w t') /\
  contexts w' = contexts w /\
  w' = set_log (fun _ => log w') w.
Proof.
  intros H. apply makeCurrent_false_frame in H.
  set (lg := log w') in *. clearbody lg. subst w'.
  repeat split.
  - intros v Hv. unfold currentContext, localData, bind, gets, ret in *. simpl in *.
    destruct (qwindow_context_storage w !! t); by simplify_eq.
  - intros v Hv. unfold get_surface, the_context, bind, gets, deref, ret, undefined in *.
    simpl in *. destruct (contexts w !! c); by simplify_eq.
Qed.

Lemma makeCurrent_failure_is_atomic_witness :
  exists w', makeCurrent 1 0 (Some 1%nat) sample_world = Done false w' /\
             current w' 1%nat = current sample_world 1%nat /\
             contexts w' = contexts sample_world.
Proof.
  exists sample_world.
  assert (H : makeCurrent 1 0 (Some 1%nat) sample_world = Done false sample_world)
    by reflexivity.
  split; [exact H |].
  destruct (makeCurrent_failure_is_atomic sample_world sample_world 1 0 1 H)
    as (_ & _ & Hcur & Hctx & _).
  split; [apply Hcur | exact Hctx].
Defined.

(** ** Rules for [returns] *)

Section Rules.
Context {A B : Type}.
Implicit Types (m : M A) (k : A -> M B) (w : World).

Lemma returns_bind m k w (Q : B -> World -> Prop) :
  returns m w (fun a w1 => returns (k a) w1 Q) -> returns (bind m k) w Q.
Proof.
  intros (a & w1 & Hm & b & w' & Hk & HQ). exists b, w'.
  split; [| exact HQ]. by rewrite (bind_Done _ _ _ _ _ Hm).
Qed.

Lemma returns_ret (a : A) w (Q : A -> World -> Prop) : Q a w -> returns (ret a) w Q.
Proof. intros HQ. by exists a, w. Qed.

Lemma returns_gets (f : World -> A) w (Q : A -> World -> Prop) :
  Q (f w) w -> returns (gets f) w Q.
Proof. intros HQ. by exists (f w), w. Qed.

Lemma returns_deref (o : option A) a w (Q : A -> World -> Prop) :
  o = Some a -> Q a w -> returns (deref o) w Q.
Proof. intros -> HQ. by exists a, w. Qed.

Lemma returns_mono m w (Q Q' : A -> World -> Prop) :
  returns m w Q -> (forall a w', Q a w' -> Q' a w') -> returns m w Q'.
Proof. intros (a & w' & Hm & HQ) HQQ. exists a, w'. auto. Qed.







End Rules.

Lemma returns_modify f w (Q : unit -> World -> Prop) : Q tt (f w) -> returns (modify f) w Q.
Proof. intros HQ. by exists tt, (f w). Qed.

Lemma returns_emit e w (Q : unit -> World -> Prop) :
  Q tt (set_log (fun l => l ++ [e]) w) -> returns (emit e) w Q.
Proof. apply returns_modify. Qed.





Lemma returns_intro {A} (m : M A) w (Q : A -> World -> Prop) :
  (exists a w', m w = Done a w') -> (forall a w', m w = Done a w' -> Q a w') ->
  returns m w Q.
Proof. intros (a & w' & H) HQ. exists a, w'. split; [done | by apply HQ]. Qed.

(** ** doneCurrent *)

Lemma update_context_Done c f w C :
  contexts w !! c = Some C ->
  update_context c f w = Done tt (set_contexts <[c := f C]> w).
Proof.
  intros HC. unfold update_context, the_context, store_context, bind, gets, deref, modify.
  by rewrite HC.
Qed.

Lemma update_context_inv c f w u w' :
  update_context c f w = Done u w' ->
  exists C, contexts w !! c = Some C /\ w' = set_contexts <[c := f C]> w.
Proof. unfold update_context. intros H. step H. inv_prim H. eauto. Qed.

Lemma setCurrentContext_Done t ctx w :
  exists prev w', setCurrentContext t ctx w = Done prev w'.
Proof.
  unfold setCurrentContext, localData, QThread_currentThread, emit, bind, gets, modify, ret.
  simpl. destruct (qwindow_context_storage w !! t); [by eauto |].
  destruct (currentThread_of w t); destruct ctx; by eauto.
Qed.


Lemma current_read t w v w' : currentContext t w = Done v w' -> v = current w t /\ w' = w.
Proof. unfold current. intros H. inv_prim H; by rewrite ?Heqo. Qed.

Lemma the_context_inv c w C w' :
  the_context c w = Done C w' -> contexts w !! c = Some C /\ w' = w.
Proof. intros H. inv_prim H. done. Qed.

Lemma the_group_inv g w G w' :
  the_group g w = Done G w' -> groups w !! g = Some G /\ w' = w.
Proof. intros H. inv_prim H. done. Qed.

Lemma the_resource_inv r w R w' :
  the_resource r w = Done R w' -> resources w !! r = Some R /\ w' = w.
Proof. intros H. inv_prim H. done. Qed.

Lemma the_platformContext_inv p w P w' :
  the_platformContext p w = Done P w' -> platformContexts w !! p = Some P /\ w' = w.
Proof. intros H. inv_prim H. done. Qed.

Lemma the_surface_inv s w sf w' :
  the_surface s w = Done sf w' -> surfaces w !! s = Some sf /\ w' = w.
Proof. intros H. inv_prim H. done. Qed.

Lemma handle_inv c w p w' :
  handle c w = Done p w' ->
  exists C, contexts w !! c = Some C /\ p = platformGLContext C /\ w' = w.
Proof. intros H. inv_prim H. eauto. Qed.

Lemma get_shareGroup_inv c w g w' :
  get_shareGroup c w = Done g w' ->
  exists C, contexts w !! c = Some C /\ g = shareGroup C /\ w' = w.
Proof. intros H. inv_prim H. eauto. Qed.

Lemma get_shareContext_inv c w sc w' :
  get_shareContext c w = Done sc w' ->
  exists C, contexts w !! c = Some C /\ sc = shareContext C /\ w' = w.
Proof. intros H. inv_prim H. eauto. Qed.

Lemma deref_inv {A} (o : option A) w a w' : deref o w = Done a w' -> o = Some a /\ w' = w.
Proof. intros H. destruct o; inv_prim H. done. Qed.

Lemma emit_inv e w u w' : emit e w = Done u w' -> w' = set_log (fun l => l ++ [e]) w.
Proof. intros H. inv_prim H. done. Qed.

Lemma gets_inv {A} (f : World -> A) w a w' : gets f w = Done a w' -> a = f w /\ w' = w.
Proof. intros H. inv_prim H. done. Qed.

Lemma modify_inv f w u w' : modify f w = Done u w' -> w' = f w.
Proof. intros H. inv_prim H. done. Qed.

Lemma ret_inv {A} (a : A) w b w' : ret a w = Done b w' -> b = a /\ w' = w.
Proof. intros H. inv_prim H. done. Qed.

Lemma doneCurrent_spec t c w u w' :
  doneCurrent t c w = Done u w' -> doneCurrent_post t c w w'.
Proof.
  intros H. unfold doneCurrent in H.
  apply bind_inv in H as (valid & w1 & Hv & H).
  apply isValid_reads in Hv as Hw. subst w1.
  destruct valid; simpl in H; [| apply ret_inv in H as [_ ->]; by left].
  right. split; [done |].
  apply isValid_true in Hv as Hv'. destruct Hv' as (C & p & P & HC & Hp & HP & HPv).
  exists C, p. split; [done |]. split; [done |].
  apply bind_inv in H as (cur & w1 & Hcur & H).
  apply current_read in Hcur as [-> ->].
  apply bind_inv in H as ([] & w1 & Hd & H).
  apply bind_inv in H as (p' & w2 & Hh & H).
  apply bind_inv in H as (p'' & w3 & Hdr & H).
  apply bind_inv in H as ([] & w4 & He & H).
  apply bind_inv in H as (prev & w5 & Hset & H).
  apply update_context_inv in H as (C5 & HC5 & ->).
  apply setCurrentContext_inv in Hset
    as (_ & Hc & Hg & Hr & Hpc & _ & Hq & Hdl & Hset).
  apply emit_inv in He. apply deref_inv in Hdr as [-> ->].
  apply handle_inv in Hh as (C2 & HC2 & Hp2 & ->). subst w4. simpl in *.
  assert (Hfr : contexts w1 = contexts w /\ platformContexts w1 = platformContexts w /\
                qwindow_context_storage w1 = qwindow_context_storage w /\
                has_QThread w1 = has_QThread w /\
                deleteLater_queue w1 = deleteLater_queue w).
  { destruct (decide (current w t = Some c)); [| apply ret_inv in Hd as [_ ->]; done].
    apply bind_inv in Hd as (g & wa & Hga & Hd).
    apply bind_inv in Hd as (g' & wb & Hgb & Hd).
    apply deletePendingResources_inv in Hd as (G & HG & ->).
    apply deref_inv in Hgb as [-> ->].
    apply get_shareGroup_inv in Hga as (? & ? & ? & ->). done. }
  destruct Hfr as (HC1 & HP1 & HS1 & HQ1 & HD1).
  rewrite HC1, HC in HC2. simplify_eq. rewrite Hp in Hp2. simplify_eq.
  rewrite Hc, HC1, HC in HC5. simplify_eq.
  assert (Hcur' : current w5 t = None /\
                  (forall t', t' <> t -> current w5 t' = current w t') /\
                  exists tls, (tls = [] \/ tls = [QTLS_warning]) /\
                              log w5 = log w1 ++ call_doneCurrent p :: tls).
  { destruct Hset as [(Hn & _ & Hst & Hlg) | (_ & Hcu & Hlg & Hot)].
    - split; [| split].
      + unfold current. by rewrite Hst, Hn.
      + intros t' _. unfold current. by rewrite Hst, HS1.
      + exists [QTLS_warning]. split; [by right |]. by rewrite Hlg, <- app_assoc.
    - split; [done | split].
      + intros t' Ht'. rewrite (Hot t' Ht'). unfold current. simpl. by rewrite HS1.
      + exists []. split; [by left | done]. }
  destruct Hcur' as (Hcu & Hot & tls & Htls & Hlog).
  split; [exact Hcu |]. split; [exact Hot |].
  split; [simpl; by rewrite Hc, HC1 |].
  split; [simpl; by rewrite Hpc, HP1 |].
  split; [simpl; by rewrite Hq, <- HQ1 |].
  split; [simpl; by rewrite Hdl, <- HD1 |].
  exists tls. split; [done |]. simpl. rewrite Hlog, Hg, Hr.
  destruct (decide (current w t = Some c)) as [e|n].
  - left. split; [done |].
    apply bind_inv in Hd as (g & wa & Hga & Hd).
    apply bind_inv in Hd as (g' & wb & Hgb & Hd).
    apply deletePendingResources_inv in Hd as (G & HG & ->).
    apply deref_inv in Hgb as [-> ->].
    apply get_shareGroup_inv in Hga as (C' & HC' & Hg' & ->).
    rewrite HC in HC'. simplify_eq. exists g', G. simpl.
    repeat split; try done. by rewrite <- app_assoc.
  - right. apply ret_inv in Hd as [_ ->]. done.
Qed.

(** ** Existence of a result, step by step *)

Ltac returns_step :=
  cbv beta iota zeta delta [negb];
  lazymatch goal with
  | |- returns (bind _ _) _ _ => apply returns_bind
  | |- returns (ret _) _ _ => apply returns_ret
  | |- returns (gets _) _ _ => apply returns_gets
  | |- returns (modify _) _ _ => apply returns_modify
  | |- returns (emit _) _ _ => apply returns_emit
  | |- returns (QThread_currentThread _) _ _ =>
      unfold QThread_currentThread; apply returns_gets
  | |- returns (store_context _ _) _ _ => unfold store_context; apply returns_modify
  | |- returns (store_group _ _) _ _ => unfold store_group; apply returns_modify
  | |- returns (store_resource _ _) _ _ => unfold store_resource; apply returns_modify
  | |- returns (store_multiResource _ _) _ _ =>
      unfold store_multiResource; apply returns_modify
  end.

Lemma returns_the_context c w C (Q : QOpenGLContext -> World -> Prop) :
  contexts w !! c = Some C -> Q C w -> returns (the_context c) w Q.
Proof. intros HC HQ. unfold the_context. do 2 returns_step. by eapply returns_deref. Qed.

Lemma returns_the_group g w G (Q : QOpenGLContextGroup -> World -> Prop) :
  groups w !! g = Some G -> Q G w -> returns (the_group g) w Q.
Proof. intros HG HQ. unfold the_group. do 2 returns_step. by eapply returns_deref. Qed.

Lemma returns_the_resource r w R (Q : QOpenGLSharedResource -> World -> Prop) :
  resources w !! r = Some R -> Q R w -> returns (the_resource r) w Q.
Proof. intros HR HQ. unfold the_resource. do 2 returns_step. by eapply returns_deref. Qed.

Lemma returns_the_platformContext p w P (Q : QPlatformOpenGLContext -> World -> Prop) :
  platformContexts w !! p = Some P -> Q P w -> returns (the_platformContext p) w Q.
Proof.
  intros HP HQ. unfold the_platformContext. do 2 returns_step. by eapply returns_deref.
Qed.

Lemma returns_the_surface s w sf (Q : QSurface -> World -> Prop) :
  surfaces w !! s = Some sf -> Q sf w -> returns (the_surface s) w Q.
Proof. intros Hs HQ. unfold the_surface. do 2 returns_step. by eapply returns_deref. Qed.

Lemma returns_handle c w C (Q : option pctx_ptr -> World -> Prop) :
  contexts w !! c = Some C -> Q (platformGLContext C) w -> returns (handle c) w Q.
Proof.
  intros HC HQ. unfold handle. returns_step. eapply returns_the_context; [done |].
  by returns_step.
Qed.

Lemma returns_get_shareGroup c w C (Q : option grp_ptr -> World -> Prop) :
  contexts w !! c = Some C -> Q (shareGroup C) w -> returns (get_shareGroup c) w Q.
Proof.
  intros HC HQ. unfold get_shareGroup. returns_step. eapply returns_the_context; [done |].
  by returns_step.
Qed.

Lemma returns_get_shareContext c w C (Q : option ctx_ptr -> World -> Prop) :
  contexts w !! c = Some C -> Q (shareContext C) w -> returns (get_shareContext c) w Q.
Proof.
  intros HC HQ. unfold get_shareContext. returns_step. eapply returns_the_context; [done |].
  by returns_step.
Qed.

Lemma returns_currentContext t w (Q : option ctx_ptr -> World -> Prop) :
  Q (current w t) w -> returns (currentContext t) w Q.
Proof.
  intros HQ. unfold currentContext, localData, current in *. do 2 returns_step.
  destruct (qwindow_context_storage w !! t); by returns_step.
Qed.

Lemma returns_update_context c f w C (Q : unit -> World -> Prop) :
  contexts w !! c = Some C -> Q tt (set_contexts <[c := f C]> w) ->
  returns (update_context c f) w Q.
Proof. intros HC HQ. exists tt. eexists. split; [by apply update_context_Done | done]. Qed.

Lemma returns_setCurrentContext t ctx w (Q : option ctx_ptr -> World -> Prop) :
  (forall prev w', setCurrentContext t ctx w = Done prev w' -> Q prev w') ->
  returns (setCurrentContext t ctx) w Q.
Proof. intros HQ. apply returns_intro; [apply setCurrentContext_Done | exact HQ]. Qed.

Lemma returns_deletePendingResources g c w G (Q : unit -> World -> Prop) :
  groups w !! g = Some G -> NoDup (m_pendingDeletion G) ->
  (forall r, r ∈ m_pendingDeletion G -> is_Some (resources w !! r)) ->
  Q tt (drained (m_pendingDeletion G) c (set_groups <[g := set_pendingDeletion [] G]> w)) ->
  returns (deletePendingResources g c) w Q.
Proof.
  intros HG Hnd Hl HQ. exists tt. eexists.
  split; [by apply deletePendingResources_Done | done].
Qed.

(** The value isValid returns for a context object, given the platform's answers. *)
Lemma returns_isValid c w C (Q : bool -> World -> Prop) :
  contexts w !! c = Some C ->
  match platformGLContext C with
  | None => Q false w
  | Some p => exists P, platformContexts w !! p = Some P /\ Q (platform_isValid P) w
  end ->
  returns (isValid c) w Q.
Proof.
  intros HC H. unfold isValid. returns_step. eapply returns_the_context; [done |].
  destruct (platformGLContext C) as [p|]; [| by returns_step].
  destruct H as (P & HP & HQ). returns_step. eapply returns_the_platformContext; [done |].
  by returns_step.
Qed.

Lemma doneCurrent_returns t c w C :
  contexts w !! c = Some C -> context_ok w C ->
  returns (doneCurrent t c) w (fun _ w' => doneCurrent_post t c w w').
Proof.
  intros HC Hok. apply returns_intro; [| intros a w'; apply doneCurrent_spec].
  cut (returns (doneCurrent t c) w (fun _ _ => True)).
  { intros (a & w' & H & _). eauto. }
  unfold context_ok in Hok. unfold doneCurrent. returns_step.
  eapply returns_isValid; [done |].
  destruct (platformGLContext C) as [p|] eqn:Hp; [| by returns_step].
  destruct Hok as ([P HP] & g & Hg & G & HG & Hnd & Hlive).
  exists P. split; [done |].
  destruct (platform_isValid P); simpl; [| by returns_step].
  returns_step. apply returns_currentContext. returns_step.
  assert (Hd : returns (if decide (current w t = Some c)
                        then let! g := get_shareGroup c in let! g := deref g in
                             deletePendingResources g c
                        else ret tt) w (fun _ w1 => contexts w1 = contexts w)).
  { destruct (decide (current w t = Some c)); [| by returns_step].
    returns_step. eapply returns_get_shareGroup; [done |]. returns_step.
    eapply returns_deref; [done |].
    by eapply returns_deletePendingResources. }
  eapply returns_mono; [exact Hd |]. intros [] w1 Hc1. simpl in Hc1.
  returns_step. eapply returns_handle; [by rewrite Hc1 |].
  returns_step. eapply returns_deref; [done |].
  do 3 returns_step. apply returns_setCurrentContext. intros prev w2 Hset.
  apply setCurrentContext_inv in Hset as (_ & Hc2 & _).
  eapply returns_update_context; [| done]. rewrite Hc2. simpl. by rewrite Hc1.
Qed.

(** ** C10 *)

Lemma makeCurrent_passes_check t c surf w C :
  contexts w !! c = Some C -> isValid c w = Done true w -> affinity_passes w t C ->
  makeCurrent t c surf w =
  match surf with
  | None => (doneCurrent t c;;; ret true) w
  | Some s =>
      (let! sf := the_surface s in
       match surfaceHandle sf with
       | None => ret false
       | Some h =>
           if negb (supportsOpenGL sf)
           then emit (qWarning_surface
                        "QOpenGLContext::makeCurrent() called with non-opengl surface" s);;;
                ret false
           else
           let! p := deref (platformGLContext C) in
           let! P := the_platformContext p in
           let ok := platform_makeCurrent P h in
           emit (call_makeCurrent p h ok);;;
           if negb ok then ret false else
           setCurrentContext t (Some c);;;
           let! nodebug := gets QT_NO_DEBUG in
           (if nodebug then ret tt else toggleMakeCurrentTracker c true;;; ret tt);;;
           update_context c (set_surface (Some s));;;
           let! isSet := gets needsWorkaroundSet in
           (if isSet then ret tt else decide_needsWorkaround t c);;;
           let! needs := gets needsWorkaround in
           (if needs then update_context c (set_workaround true) else ret tt);;;
           let! g := get_shareGroup c in
           let! g := deref g in
           deletePendingResources g c;;;
           ret true
       end) w
  end.
Proof.
  intros HC Hv Haff. unfold makeCurrent.
  rewrite (bind_Done _ _ _ _ _ Hv). simpl.
  unfold the_context at 1, QThread_currentThread.
  unfold bind at 1. unfold gets at 1. unfold bind at 1. unfold bind at 1.
  unfold gets at 1. rewrite HC. unfold deref at 1, ret at 1. unfold bind at 1.
  unfold gets at 1.
  assert (negb (AA_DontCheckOpenGLContextThreadAffinity w)
          && negb (bool_decide (thread C = currentThread_of w t)) = false) as ->.
  { destruct Haff as [-> | Hth]; [done |].
    rewrite (bool_decide_eq_true_2 _ Hth). apply andb_false_r. }
  by destruct surf.
Qed.

Lemma makeCurrent_invalid t c surf w :
  isValid c w = Done false w -> makeCurrent t c surf w = Done false w.
Proof. intros Hv. unfold makeCurrent. by rewrite (bind_Done _ _ _ _ _ Hv). Qed.

(** C10, as worded, fails: called from a thread that is not the context's,
    makeCurrent(nullptr) on a valid context ends in qFatal, where
    doneCurrent() returns. *)
Lemma null_surface_claim_fails : ~ null_surface_claim sample_world 2 0.
Proof.
  intros [H _]. specialize (H eq_refl).
  assert (HF : makeCurrent 2 0 None sample_world = Fatal) by reflexivity.
  rewrite HF in H. vm_compute in H. discriminate H.
Qed.

(** C10, amended. On a valid context, called from a thread that passes
    the thread-affinity check, makeCurrent(nullptr) is doneCurrent()
    followed by returning true, and it does return when the context's
    pointers lead to live objects; on an invalid context it returns false
    and leaves the whole world, so also the thread's current context, as it
    was. *)
Theorem makeCurrent_null_surface
    (w : World) (t : thread_id) (c : ctx_ptr) (C : QOpenGLContext) :
  contexts w !! c = Some C ->
  (isValid c w = Done true w -> affinity_passes w t C ->
   makeCurrent t c None w = (doneCurrent t c;;; ret true) w /\
   (context_ok w C ->
    exists w', doneCurrent t c w = Done tt w' /\ makeCurrent t c None w = Done true w'))
  /\ (isValid c w = Done false w -> makeCurrent t c None w = Done false w).
Proof.
  intros HC. split.
  - intros Hv Haff.
    pose proof (makeCurrent_passes_check t c None w C HC Hv Haff) as Heq. simpl in Heq.
    split; [exact Heq |]. intros Hok.
    destruct (doneCurrent_returns t c w C HC Hok) as ([] & w' & Hd & _).
    exists w'. split; [exact Hd |]. rewrite Heq. by rewrite (bind_Done _ _ _ _ _ Hd).
  - apply makeCurrent_invalid.
Qed.

Lemma makeCurrent_null_surface_witness :
  makeCurrent 1 0 None sample_world = (doneCurrent 1 0;;; ret true) sample_world /\
  exists w', makeCurrent 1 0 None sample_world = Done true w'.
Proof.
  assert (HC : contexts sample_world !! 0%nat = Some sample_context) by reflexivity.
  assert (Hv : isValid 0 sample_world = Done true sample_world) by reflexivity.
  assert (Haff : affinity_passes sample_world 1 sample_context) by (right; reflexivity).
  assert (Hok : context_ok sample_world sample_context).
  { split; [by eexists |]. exists 0%nat. split; [reflexivity |].
    exists sample_group. split; [reflexivity |]. split.
    - apply NoDup_singleton.
    - intros r Hr. apply list_elem_of_singleton in Hr as ->. by eexists. }
  destruct (makeCurrent_null_surface sample_world 1 0 sample_context HC) as [H _].
  destruct (H Hv Haff) as [Heq Hret]. split; [exact Heq |].
  destruct (Hret Hok) as (w' & _ & Hm). by exists w'.
Defined.

(** ** makeCurrent: the path that returns true *)

Lemma tracker_step_inv c (b : bool) w u w' :
  (if b then ret tt else toggleMakeCurrentTracker c true;;; ret tt) w = Done u w' ->
  w' = w \/ w' = set_makeCurrentTracker <[c := true]> w.
Proof.
  destruct b; intros H.
  - apply ret_inv in H as [_ ->]. by left.
  - unfold toggleMakeCurrentTracker in H. inv_prim H. by right.
Qed.

Lemma get_functions_inv t c w f w' :
  get_functions t c w = Done f w' ->
  exists C, contexts w !! c = Some C /\
    ((functions C = Some f /\ w' = w) \/
     (functions C = None /\ f = new_functions w t /\
      w' = set_contexts <[c := set_functions (Some f) C]> w)).
Proof.
  intros H. unfold get_functions in H.
  apply bind_inv in H as (C & w1 & HC & H). apply the_context_inv in HC as [HC ->].
  exists C. split; [done |].
  destruct (functions C) as [f0|] eqn:Hf.
  - apply ret_inv in H as [-> ->]. by left.
  - apply bind_inv in H as (cur & w1 & Hcur & H).
    apply current_read in Hcur as [Hcur ->].
    apply bind_inv in H as ([] & w1 & Hst & H). apply modify_inv in Hst as ->.
    apply ret_inv in H as [-> ->]. right. unfold new_functions. by rewrite Hcur.
Qed.

Lemma functions_step_refl t c w : functions_step t c [] w w.
Proof. unfold functions_step. rewrite app_nil_r. repeat split; try done. by left. Qed.

Lemma functions_step_statics t c evs w w' a b :
  functions_step t c evs w w' -> functions_step t c evs w (set_needsWorkaround a b w').
Proof. intros H. exact H. Qed.

Lemma functions_step_statics_first t c evs w w' a b :
  functions_step t c evs (set_needsWorkaround a b w) w' -> functions_step t c evs w w'.
Proof. intros H. exact H. Qed.

Lemma assign_needsWorkaround_inv v w u w' :
  assign_needsWorkaround v w = Done u w' ->
  w' = set_needsWorkaround (needsWorkaroundSet w) v w.
Proof. intros H. by apply modify_inv in H. Qed.

Lemma decide_needsWorkaround_inv t c w u w' :
  decide_needsWorkaround t c w = Done u w' ->
  exists gl, (gl = [] \/ gl = [call_glGetString_GL_RENDERER]) /\ functions_step t c gl w w'.
Proof.
  intros H. unfold decide_needsWorkaround in H.
  apply bind_inv in H as (android & w0 & Ha & H). apply gets_inv in Ha as [-> ->].
  apply bind_inv in H as ([] & w1 & H1 & H).
  assert (S1 : functions_step t c [] w w1).
  { destruct (Q_OS_ANDROID w).
    - apply bind_inv in H1 as (env & w0 & He & H1). apply gets_inv in He as [-> ->].
      apply assign_needsWorkaround_inv in H1 as ->.
      apply functions_step_statics, functions_step_refl.
    - apply ret_inv in H1 as [_ ->]. apply functions_step_refl. }
  clear H1.
  apply bind_inv in H as (env & w0 & He & H). apply gets_inv in He as [-> ->].
  apply bind_inv in H as ([] & w2 & H2 & H).
  assert (S2 : functions_step t c [] w w2).
  { destruct (_ || _).
    - apply assign_needsWorkaround_inv in H2 as ->. by apply functions_step_statics.
    - by apply ret_inv in H2 as [_ ->]. }
  clear H2 S1.
  apply bind_inv in H as (needs & w0 & Hn & H). apply gets_inv in Hn as [-> ->].
  apply bind_inv in H as ([] & w3 & H3 & H). apply modify_inv in H as ->.
  destruct (needsWorkaround w2).
  { apply ret_inv in H3 as [_ ->]. exists []. split; [by left |].
    by apply functions_step_statics. }
  exists [call_glGetString_GL_RENDERER]. split; [by right |].
  apply bind_inv in H3 as (f & w4 & Hf & H3).
  apply bind_inv in H3 as ([] & w5 & He & H3). apply emit_inv in He.
  apply bind_inv in H3 as (rs & w6 & Hr & H3). apply gets_inv in Hr as [-> ->].
  assert (S3 : functions_step t c [call_glGetString_GL_RENDERER] w w5).
  { subst w5. destruct S2 as (L & G & R & MR & PC & SF & ST & QT & AA & ND & TR & DL & CT).
    apply get_functions_inv in Hf as (C & HC & [(Hsome & ->) | (Hnone & -> & ->)]).
    - unfold functions_step. simpl. rewrite L, app_nil_r. repeat split; try done.
    - unfold functions_step. simpl. rewrite L, app_nil_r. repeat split; try done.
      destruct CT as [CT | (C0 & HC0 & Hf0 & CT)].
      + right. exists C. rewrite CT in HC. split; [done |]. split; [done |].
        rewrite CT. unfold new_functions, current. by rewrite ST.
      + exfalso. rewrite CT, lookup_insert_eq in HC. injection HC as <-. discriminate Hnone. }
  apply functions_step_statics.
  destruct (GL_RENDERER w5).
  - apply assign_needsWorkaround_inv in H3 as ->. by apply functions_step_statics.
  - apply ret_inv in H3 as [_ ->]. exact S3.
Qed.

Lemma statics_step_inv t c (b : bool) w u w' :
  (if b then ret tt else decide_needsWorkaround t c) w = Done u w' ->
  exists gl, (gl = [] \/ gl = [call_glGetString_GL_RENDERER]) /\ functions_step t c gl w w'.
Proof.
  destruct b; intros H.
  - apply ret_inv in H as [_ ->]. exists []. split; [by left | apply functions_step_refl].
  - by eapply decide_needsWorkaround_inv.
Qed.

Lemma workaround_step_inv c (b : bool) w u w' :
  (if b then update_context c (set_workaround true) else ret tt) w = Done u w' ->
  w' = w \/ exists C, contexts w !! c = Some C /\ w' = set_contexts <[c := set_workaround true C]> w.
Proof.
  destruct b; intros H.
  - apply update_context_inv in H. by right.
  - apply ret_inv in H as [_ ->]. by left.
Qed.

Lemma makeCurrent_true_spec t c s w w' :
  makeCurrent t c (Some s) w = Done true w' -> makeCurrent_true_post t c s w w'.
Proof.
  intros H.
  assert (Hv : isValid c w = Done true w).
  { unfold makeCurrent in H. apply bind_inv in H as (valid & w1 & Hv & H).
    apply isValid_reads in Hv as Hw. subst w1.
    destruct valid; [done |]. simpl in H. by apply ret_inv in H as [? _]. }
  apply isValid_true in Hv as Hv'. destruct Hv' as (C & p & P & HC & Hp & HP & HPv).
  assert (Haff : affinity_passes w t C).
  { unfold affinity_passes.
    destruct (AA_DontCheckOpenGLContextThreadAffinity w) eqn:Hdc; [by left |].
    destruct (decide (thread C = currentThread_of w t)) as [|Hne]; [by right |].
    rewrite (makeCurrent_is_Fatal t c (Some s) w C HC Hv Hdc Hne) in H. discriminate H. }
  rewrite (makeCurrent_passes_check t c (Some s) w C HC Hv Haff) in H.
  apply bind_inv in H as (sf & w1 & Hsf & H). apply the_surface_inv in Hsf as [Hsf ->].
  destruct (surfaceHandle sf) as [h|] eqn:Hh; [| by apply ret_inv in H as [? _]].
  destruct (supportsOpenGL sf) eqn:Hgl; simpl in H.
  2:{ apply bind_inv in H as (? & ? & _ & H). by apply ret_inv in H as [? _]. }
  apply bind_inv in H as (p' & w1 & Hd & H). apply deref_inv in Hd as [Hd ->].
  assert (p' = p) as -> by congruence. clear Hd.
  apply bind_inv in H as (P' & w1 & HP' & H).
  apply the_platformContext_inv in HP' as [HP' ->].
  assert (P' = P) as -> by congruence. clear HP'.
  apply bind_inv in H as ([] & w1 & He & H). apply emit_inv in He. subst w1.
  destruct (platform_makeCurrent P h) eqn:Hmc; simpl in H;
    [| by apply ret_inv in H as [? _]].
  apply bind_inv in H as (prev & w2 & Hset & H).
  apply setCurrentContext_inv in Hset as (_ & Hc2 & Hg2 & Hr2 & Hp2 & _ & _ & _ & Hset).
  simpl in *.
  apply bind_inv in H as (nodebug & w2' & Hnd & H). apply gets_inv in Hnd as [-> ->].
  apply bind_inv in H as ([] & w3 & Htr & H). apply tracker_step_inv in Htr.
  apply bind_inv in H as ([] & w4 & Hup & H).
  apply update_context_inv in Hup as (C3 & HC3 & ->).
  apply bind_inv in H as (isSet & w4' & His & H). apply gets_inv in His as [-> ->].
  apply bind_inv in H as ([] & w5 & Hst & H).
  apply statics_step_inv in Hst as (gl & Hgle & Hst).
  apply bind_inv in H as (needs & w5' & Hn & H). apply gets_inv in Hn as [-> ->].
  apply bind_inv in H as ([] & w6 & Hwa & H). apply workaround_step_inv in Hwa.
  apply bind_inv in H as (g' & w6' & Hg & H).
  apply get_shareGroup_inv in Hg as (C6 & HC6 & -> & ->).
  apply bind_inv in H as (g & w6' & Hd & H). apply deref_inv in Hd as [Hg6 ->].
  apply bind_inv in H as ([] & w7 & Hdel & H). apply ret_inv in H as [_ ->].
  apply deletePendingResources_inv in Hdel as (G & HG & ->).
  assert (HC3' : C3 = C).
  { destruct Htr as [-> | ->]; simpl in HC3; rewrite Hc2, HC in HC3; congruence. }
  subst C3.
  assert (H4 : contexts (set_contexts <[c := set_surface (Some s) C]> w3)
                 = <[c := set_surface (Some s) C]> (contexts w2) /\
               groups (set_contexts <[c := set_surface (Some s) C]> w3) = groups w2 /\
               resources (set_contexts <[c := set_surface (Some s) C]> w3) = resources w2 /\
               platformContexts (set_contexts <[c := set_surface (Some s) C]> w3)
                 = platformContexts w2 /\
               qwindow_context_storage (set_contexts <[c := set_surface (Some s) C]> w3)
                 = qwindow_context_storage w2 /\
               log (set_contexts <[c := set_surface (Some s) C]> w3) = log w2).
  { destruct Htr as [-> | ->]; simpl; done. }
  destruct H4 as (Hc4 & Hg4 & Hr4 & Hp4 & Hs4 & Hl4).
  destruct Hst as (Hl5 & Hg5 & Hr5 & _ & Hp5 & _ & Hs5 & _ & _ & _ & _ & _ & Hc5).
  rewrite Hl4 in Hl5. rewrite Hg4 in Hg5. rewrite Hr4 in Hr5. rewrite Hp4 in Hp5.
  rewrite Hs4 in Hs5.
  assert (H5 : exists C5, contexts w5 = <[c := C5]> (contexts w2) /\
                  surface C5 = Some s /\ shareGroup C5 = shareGroup C /\
                  platformGLContext C5 = Some p /\ shareContext C5 = shareContext C /\
                  thread C5 = thread C).
  { destruct Hc5 as [Hc5 | (C4 & HC4 & _ & Hc5)].
    - exists (set_surface (Some s) C). rewrite Hc5, Hc4. done.
    - rewrite Hc4, lookup_insert_eq in HC4. injection HC4 as <-.
      eexists. rewrite Hc5, Hc4, insert_insert_eq. split; [reflexivity |]. done. }
  clear Hc5. destruct H5 as (C5 & Hc5 & Hsu5 & Hsg5 & Hpg5 & Hsc5 & Hth5).
  assert (H6 : exists C', contexts w6 = <[c := C']> (contexts w2) /\
                  contexts w6 !! c = Some C' /\
                  surface C' = Some s /\ shareGroup C' = shareGroup C /\
                  platformGLContext C' = Some p /\ shareContext C' = shareContext C /\
                  thread C' = thread C /\
                  groups w6 = groups w2 /\ resources w6 = resources w2 /\
                  platformContexts w6 = platformContexts w2 /\
                  qwindow_context_storage w6 = qwindow_context_storage w2 /\
                  log w6 = log w2 ++ gl).
  { destruct Hwa as [-> | (C5' & HC5 & ->)].
    - exists C5. rewrite Hc5, lookup_insert_eq. done.
    - rewrite Hc5, lookup_insert_eq in HC5. injection HC5 as <-.
      exists (set_workaround true C5). simpl.
      rewrite Hc5, insert_insert_eq, lookup_insert_eq. done. }
  destruct H6 as (C' & Hc6 & HC6' & Hsu & Hsg & Hpg & Hsc & Hth & Hg6' & Hr6 & Hp6 & Hs6 & Hl6).
  assert (C6 = C') as -> by congruence. rewrite Hsg in Hg6.
  rewrite Hg6', Hg2 in HG.
  assert (Hcur : forall t', current (drained (m_pendingDeletion G) c
                     (set_groups <[g:=set_pendingDeletion [] G]> w6)) t' = current w2 t').
  { intros t'. unfold current. simpl. by rewrite Hs6. }
  assert (Htls : exists tls,
    log w2 = log w ++ call_makeCurrent p h true :: tls /\
    ((tls = [] /\ current w2 t = Some c) \/
     (tls = [QTLS_warning] /\ qwindow_context_storage w !! t = None /\
      has_QThread w t = false /\ current w2 t = None)) /\
    (forall t', t' <> t -> current w2 t' = current w t') /\
    (tls = [] -> has_QThread w t = true \/ is_Some (qwindow_context_storage w !! t))).
  { destruct Hset as [(Hn & Hq & Hst2 & Hlg) | (Hq & Hcu & Hlg & Hot)].
    - exists [QTLS_warning]. split; [by rewrite Hlg, <- app_assoc |]. split; [| split].
      + right. repeat split; try done. unfold current. by rewrite Hst2, Hn.
      + intros t' _. unfold current. by rewrite Hst2.
      + intros Hnil. discriminate Hnil.
    - exists []. split; [done |]. split; [by left |]. split; [exact Hot |].
      intros _. destruct Hq as [Hq | Hq]; [by right | by left]. }
  destruct Htls as (tls & Hlog & Htls & Hot & Hrec).
  exists C, p, P, sf, h, g, G, tls, C', gl.
  repeat split; try done.
  - simpl. rewrite Hl6, Hlog. by rewrite <- !app_assoc.
  - rewrite Hcur. exact Htls.
  - intros t' Ht'. rewrite Hcur. by apply Hot.
  - simpl. by rewrite Hg6', Hg2.
  - simpl. by rewrite Hr6, Hr2.
  - simpl. by rewrite Hp6, Hp2.
  - simpl. by rewrite Hc6, Hc2.
  - by rewrite Hsg.
Qed.

(** ** makeCurrent: the result *)

Lemma returns_True {A} (m : M A) w :
  returns m w (fun _ _ => True) <-> exists a w', m w = Done a w'.
Proof.
  split.
  - intros (a & w' & H & _). eauto.
  - intros (a & w' & H). by exists a, w'.
Qed.

Lemma makeCurrent_false_inv t c s w w' :
  makeCurrent t c (Some s) w = Done false w' -> makeCurrent_fails_for w c s.
Proof.
  intros H. unfold makeCurrent in H.
  apply bind_inv in H as (valid & w1 & Hv & H).
  apply isValid_reads in Hv as Hw. subst w1.
  destruct valid; simpl in H; [| by left].
  apply isValid_true in Hv as Hv'. destruct Hv' as (C & p & P & HC & Hp & HP & HPv).
  apply bind_inv in H as (dc & w1 & Hdc & H). apply gets_inv in Hdc as [-> ->].
  apply bind_inv in H as (C' & w1 & HC' & H). apply the_context_inv in HC' as [HC' ->].
  assert (C' = C) as -> by congruence. clear HC'.
  apply bind_inv in H as (q & w1 & Hq & H). apply gets_inv in Hq as [-> ->].
  destruct (negb _ && negb _); [discriminate H |].
  apply bind_inv in H as (sf & w1 & Hsf & H). apply the_surface_inv in Hsf as [Hsf ->].
  right. exists sf. split; [done |].
  destruct (surfaceHandle sf) as [h|] eqn:Hh; [| by left].
  destruct (supportsOpenGL sf) eqn:Hgl; [| by right; left].
  simpl in H. right. right.
  apply bind_inv in H as (p' & w1 & Hd & H). apply deref_inv in Hd as [Hd ->].
  assert (p' = p) as -> by congruence. clear Hd.
  apply bind_inv in H as (P' & w1 & HP' & H).
  apply the_platformContext_inv in HP' as [HP' ->].
  assert (P' = P) as -> by congruence. clear HP'.
  apply bind_inv in H as ([] & w1 & He & H).
  destruct (platform_makeCurrent P h) eqn:Hmc; [| by eauto 10].
  simpl in H. exfalso.
  repeat (apply bind_inv in H as (? & ? & _ & H)). by apply ret_inv in H as [? _].
Qed.

Lemma makeCurrent_true_not_fails t c s w w' :
  makeCurrent t c (Some s) w = Done true w' -> ~ makeCurrent_fails_for w c s.
Proof.
  intros H. apply makeCurrent_true_spec in H
    as (C & p & P & sf & h & g & G & tls & C' & gl & HC & Hp & HP & HPv & _ & Hsf & Hh & Hgl
        & Hmc & _).
  intros [Hf | (sf' & Hsf' & Hf)].
  - apply isValid_false in Hf as (C2 & HC2 & [Hn | (p2 & P2 & Hp2 & HP2 & Hv2)]);
      congruence.
  - assert (sf' = sf) as -> by congruence.
    destruct Hf as [Hf | [Hf | (C2 & p2 & P2 & h2 & HC2 & Hp2 & HP2 & Hh2 & Hmc2)]];
      congruence.
Qed.

Lemma returns_tracker_step c (b : bool) w (Q : unit -> World -> Prop) :
  (forall w', w' = w \/ w' = set_makeCurrentTracker <[c := true]> w -> Q tt w') ->
  returns (if b then ret tt else toggleMakeCurrentTracker c true;;; ret tt) w Q.
Proof.
  intros HQ. destruct b.
  - returns_step. apply HQ. by left.
  - unfold toggleMakeCurrentTracker. repeat returns_step. apply HQ. by right.
Qed.

Lemma get_functions_Done t c w C :
  contexts w !! c = Some C -> exists f w', get_functions t c w = Done f w'.
Proof.
  intros HC. apply returns_True. unfold get_functions.
  returns_step. eapply returns_the_context; [done |].
  destruct (functions C); [by returns_step |].
  returns_step. apply returns_currentContext. by do 3 returns_step.
Qed.

Lemma decide_needsWorkaround_Done t c w C :
  contexts w !! c = Some C -> exists u w', decide_needsWorkaround t c w = Done u w'.
Proof.
  intros HC. apply returns_True. unfold decide_needsWorkaround, assign_needsWorkaround.
  do 3 returns_step.
  assert (H1 : returns
            (if Q_OS_ANDROID w
             then let! env := gets (fun w => qgetenv w "QT_ANDROID_DISABLE_GLYPH_CACHE_WORKAROUND") in
                  modify (fun w => set_needsWorkaround (needsWorkaroundSet w)
                    (String.eqb env EmptyString || String.eqb env "0" || String.eqb env "false") w)
             else ret tt) w (fun _ w1 => contexts w1 = contexts w)).
  { destruct (Q_OS_ANDROID w); by repeat returns_step. }
  eapply returns_mono; [exact H1 |]. intros [] w1 Hc1. do 3 returns_step.
  assert (H2 : returns
            (if String.eqb (qgetenv w1 "QT_ENABLE_GLYPH_CACHE_WORKAROUND") "1"
                || String.eqb (qgetenv w1 "QT_ENABLE_GLYPH_CACHE_WORKAROUND") "true"
             then modify (fun w => set_needsWorkaround (needsWorkaroundSet w) true w)
             else ret tt) w1 (fun _ w2 => contexts w2 = contexts w)).
  { destruct (_ || _); by repeat returns_step. }
  eapply returns_mono; [exact H2 |]. intros [] w2 Hc2. do 3 returns_step.
  destruct (needsWorkaround w2); [by do 2 returns_step |].
  returns_step.
  destruct (get_functions_Done t c w2 C) as (f & w3 & Hf); [by rewrite Hc2 |].
  apply returns_intro; [by eauto |]. intros f' w3' _.
  do 4 returns_step. destruct (GL_RENDERER _); by repeat returns_step.
Qed.

Lemma makeCurrent_returns t c s w C sf :
  contexts w !! c = Some C -> surfaces w !! s = Some sf -> context_ok w C ->
  (isValid c w = Done true w -> affinity_passes w t C) ->
  exists b w', makeCurrent t c (Some s) w = Done b w'.
Proof.
  intros HC Hsf Hok Haff. unfold context_ok in Hok.
  destruct (platformGLContext C) as [p|] eqn:Hp.
  2:{ exists false, w. apply makeCurrent_invalid. apply isValid_false. eauto. }
  destruct Hok as ([P HP] & g & Hg & G & HG & Hnd & Hlive).
  destruct (platform_isValid P) eqn:HPv.
  2:{ exists false, w. apply makeCurrent_invalid. apply isValid_false. eauto 10. }
  assert (Hv : isValid c w = Done true w) by (apply isValid_true; eauto 10).
  rewrite (makeCurrent_passes_check t c (Some s) w C HC Hv (Haff Hv)).
  apply returns_True. returns_step. eapply returns_the_surface; [done |].
  destruct (surfaceHandle sf) as [h|]; [| by returns_step].
  destruct (supportsOpenGL sf); [| by do 3 returns_step].
  returns_step. eapply returns_deref; [done |].
  returns_step. eapply returns_the_platformContext; [done |].
  do 2 returns_step.
  destruct (platform_makeCurrent P h); [| by returns_step].
  returns_step. apply returns_setCurrentContext. intros prev w2 Hset.
  apply setCurrentContext_inv in Hset as (_ & Hc2 & Hg2 & Hr2 & _). simpl in *.
  do 3 returns_step. apply returns_tracker_step. intros w3 Hw3.
  assert (H3 : contexts w3 = contexts w /\ groups w3 = groups w /\ resources w3 = resources w).
  { destruct Hw3 as [-> | ->]; simpl; by rewrite Hc2, Hg2, Hr2. }
  destruct H3 as (Hc3 & Hg3 & Hr3).
  returns_step. eapply returns_update_context; [by rewrite Hc3 |].
  do 3 returns_step.
  set (w4 := set_contexts <[c:=set_surface (Some s) C]> w3).
  assert (Hstat : returns (if needsWorkaroundSet w4 then ret tt
                           else decide_needsWorkaround t c) w4
            (fun _ w5 => exists C5, contexts w5 !! c = Some C5 /\ shareGroup C5 = Some g /\
                         groups w5 = groups w4 /\ resources w5 = resources w4)).
  { apply returns_intro.
    - destruct (needsWorkaroundSet w4); [by eauto |].
      eapply (decide_needsWorkaround_Done t c w4). subst w4. simpl. apply lookup_insert_eq.
    - intros [] w5 H5. apply statics_step_inv in H5
        as (gl & _ & _ & Hg5 & Hr5 & _ & _ & _ & _ & _ & _ & _ & _ & _ & Hc5).
      destruct Hc5 as [Hc5 | (C4 & HC4 & _ & Hc5)].
      + exists (set_surface (Some s) C). rewrite Hc5. subst w4. simpl.
        rewrite lookup_insert_eq. done.
      + subst w4. simpl in HC4. rewrite lookup_insert_eq in HC4. injection HC4 as <-.
        eexists. rewrite Hc5, lookup_insert_eq. done. }
  eapply returns_mono; [exact Hstat |]. intros [] w5 (C5 & HC5 & Hsg5 & Hg5 & Hr5). simpl in *.
  do 3 returns_step.
  assert (Hwa : returns (if needsWorkaround w5
                         then update_context c (set_workaround true) else ret tt) w5
            (fun _ w6 => exists C6, contexts w6 !! c = Some C6 /\ shareGroup C6 = Some g /\
                         groups w6 = groups w5 /\ resources w6 = resources w5)).
  { destruct (needsWorkaround w5).
    - eapply returns_update_context; [done |].
      eexists. simpl. rewrite lookup_insert_eq. done.
    - returns_step. by exists C5. }
  eapply returns_mono; [exact Hwa |]. intros [] w6 (C6 & HC6 & Hg6 & Hgr6 & Hr6).
  returns_step. eapply returns_get_shareGroup; [done |].
  returns_step. eapply returns_deref; [done |].
  returns_step. eapply returns_deletePendingResources.
  - by rewrite Hgr6, Hg5, Hg3.
  - done.
  - intros r Hr. rewrite Hr6, Hr5, Hr3. by apply Hlive.
  - by returns_step.
Qed.

(** ** C3 *)

(** C3, as worded, fails: when the thread-affinity check stops the call,
    makeCurrent returns neither false nor true, although none of the listed
    conditions holds. *)
Lemma makeCurrent_result_claim_fails : ~ makeCurrent_result_claim sample_world 2 0 0.
Proof.
  intros [_ H]. destruct H as [w' Hw'].
  - intros [Hf | (sf & Hsf & Hf)].
    + discriminate Hf.
    + vm_compute in Hsf. injection Hsf as <-.
      destruct Hf as [Hf | [Hf | (C & p & P & h & HC & Hp & HP & Hh & Hmc)]];
        try discriminate.
      vm_compute in HC. injection HC as <-. injection Hp as <-.
      vm_compute in HP. injection HP as <-. discriminate Hmc.
  - assert (HF : makeCurrent 2 0 (Some 0%nat) sample_world = Fatal) by reflexivity.
    rewrite HF in Hw'. discriminate Hw'.
Qed.

Lemma makeCurrent_non_opengl_surface t c s w C sf h :
  contexts w !! c = Some C -> surfaces w !! s = Some sf ->
  isValid c w = Done true w -> affinity_passes w t C ->
  surfaceHandle sf = Some h -> supportsOpenGL sf = false ->
  makeCurrent t c (Some s) w
  = Done false (set_log (fun l => l ++
      [qWarning_surface "QOpenGLContext::makeCurrent() called with non-opengl surface" s]) w).
Proof.
  intros HC Hsf Hv Haff Hh Hgl.
  rewrite (makeCurrent_passes_check t c (Some s) w C HC Hv Haff).
  unfold the_surface, bind, gets, deref, ret. rewrite Hsf. simpl. rewrite Hh, Hgl.
  reflexivity.
Qed.

(** C3, amended. For a context and a non-null surface that are live
    objects, when the call passes the thread-affinity check (the attribute
    is set, or the caller is the context's thread), makeCurrent returns, and
    it returns false if and only if the context is invalid, the surface has
    no native handle, the surface does not support OpenGL, or the platform's
    makeCurrent fails; it returns true in every other case.  On a valid
    context, a surface with a handle that does not support OpenGL gets the
    warning. *)
Theorem makeCurrent_result
    (w : World) (t : thread_id) (c : ctx_ptr) (s : surf_ptr)
    (C : QOpenGLContext) (sf : QSurface) :
  contexts w !! c = Some C -> surfaces w !! s = Some sf -> context_ok w C ->
  (isValid c w = Done true w -> affinity_passes w t C) ->
  exists b w', makeCurrent t c (Some s) w = Done b w' /\
    (b = false <-> makeCurrent_fails_for w c s) /\
    (b = true <-> ~ makeCurrent_fails_for w c s) /\
    (isValid c w = Done true w -> is_Some (surfaceHandle sf) -> supportsOpenGL sf = false ->
     log w' = log w ++ [qWarning_surface
                          "QOpenGLContext::makeCurrent() called with non-opengl surface" s]).
Proof.
  intros HC Hsf Hok Haff.
  destruct (makeCurrent_returns t c s w C sf HC Hsf Hok Haff) as (b & w' & H).
  exists b, w'. split; [exact H |].
  assert (Hiff : b = false <-> makeCurrent_fails_for w c s).
  { split.
    - intros ->. by eapply makeCurrent_false_inv.
    - intros Hf. destruct b; [| done].
      by apply makeCurrent_true_not_fails in H. }
  split; [exact Hiff |]. split.
  - split.
    + intros -> Hf. apply Hiff in Hf. discriminate Hf.
    + intros Hnf. destruct b; [done |]. exfalso. apply Hnf. by apply Hiff.
  - intros Hv [h Hh] Hgl.
    rewrite (makeCurrent_non_opengl_surface t c s w C sf h HC Hsf Hv (Haff Hv) Hh Hgl) in H.
    by injection H as <- <-.
Qed.

Lemma sample_context_ok : context_ok sample_world sample_context.
Proof.
  split; [by eexists |]. exists 0%nat. split; [reflexivity |].
  exists sample_group. split; [reflexivity |]. split.
  - apply NoDup_singleton.
  - intros r Hr. apply list_elem_of_singleton in Hr as ->. by eexists.
Defined.

Lemma makeCurrent_result_witness :
  exists b w', makeCurrent 1 0 (Some 2%nat) sample_world = Done b w' /\
    (b = false <-> makeCurrent_fails_for sample_world 0 2).
Proof.
  destruct (makeCurrent_result sample_world 1 0 2 sample_context
              {| surfaceHandle := Some 8%nat; supportsOpenGL := false; singleBuffer := false |})
    as (b & w' & H & Hiff & _).
  - reflexivity.
  - reflexivity.
  - exact sample_context_ok.
  - intros _. right. reflexivity.
  - exists b, w'. split; [exact H | exact Hiff].
Defined.

(** ** C2 *)

(** C2, as worded, fails twice.  In a thread without QThread data
    setCurrentContext only warns, so a successful makeCurrent leaves
    currentContext() null; and doneCurrent on a current context that is no
    longer valid returns at once, so the context stays current. *)
Lemma one_current_context_claim_fails :
  ~ one_current_context_claim no_QTLS_world 3 0 /\
  ~ one_current_context_claim lost_context_world 1 0.
Proof.
  split.
  - intros [H _].
    destruct (makeCurrent 3 0 (Some 0%nat) no_QTLS_world) as [b w'| |] eqn:E;
      try (vm_compute in E; discriminate E).
    assert (Hb : b = true) by (vm_compute in E; by injection E as <- _).
    subst b. specialize (H 0%nat w' E).
    assert (Hn : current w' 3%nat = None) by (vm_compute in E; by injection E as <-).
    congruence.
  - intros [_ H].
    assert (Hcur : current lost_context_world 1%nat = Some 0%nat) by reflexivity.
    specialize (H Hcur lost_context_world eq_refl). discriminate H.
Qed.

(** C2, amended. The per-thread storage holds one context pointer.  After
    a makeCurrent with a surface that returned true, in a thread that has
    QThread data or already has its thread-local record, currentContext()
    is that context, whatever was current before.  After doneCurrent() on
    the current context, if that context is still valid, currentContext() is
    null; and the call does return when the context's pointers lead to live
    objects. *)
Theorem one_current_context_per_thread (w : World) (t : thread_id) (c : ctx_ptr) :
  (forall c1 c2, currentContext t w = Done (Some c1) w ->
                 currentContext t w = Done (Some c2) w -> c1 = c2) /\
  (forall s w', makeCurrent t c (Some s) w = Done true w' ->
     has_QThread w t = true \/ is_Some (qwindow_context_storage w !! t) ->
     currentContext t w' = Done (Some c) w') /\
  (forall w', current w t = Some c -> isValid c w = Done true w ->
     doneCurrent t c w = Done tt w' -> currentContext t w' = Done None w') /\
  (forall C, contexts w !! c = Some C -> context_ok w C ->
     exists w', doneCurrent t c w = Done tt w').
Proof.
  assert (Hread : forall w0 v, current w0 t = v -> currentContext t w0 = Done v w0).
  { intros w0 v <-. unfold currentContext, localData, current, bind, gets, ret.
    by destruct (qwindow_context_storage w0 !! t). }
  split; [| split; [| split]].
  - intros c1 c2 H1 H2. congruence.
  - intros s w' H Htls. apply Hread.
    apply makeCurrent_true_spec in H
      as (C & p & P & sf & h & g & G & tls & C' & gl & _ & _ & _ & _ & _ & _ & _ & _ & _ & _ & _
          & _ & Hcur & _).
    destruct Hcur as [[_ Hcur] | (_ & Hn & Hq & _)]; [exact Hcur |].
    destruct Htls as [Hq' | [x Hx]]; congruence.
  - intros w' Hcur Hv H. apply Hread.
    apply doneCurrent_spec in H as [[Hf _] | (_ & C & p & _ & _ & Hn & _)]; [congruence |].
    exact Hn.
  - intros C HC Hok. destruct (doneCurrent_returns t c w C HC Hok) as ([] & w' & H & _).
    by exists w'.
Qed.

Lemma one_current_context_per_thread_witness :
  exists w1 w2,
    makeCurrent 1 0 (Some 0%nat) sample_world = Done true w1 /\
    currentContext 1 w1 = Done (Some 0%nat) w1 /\
    doneCurrent 1 0 w1 = Done tt w2 /\
    currentContext 1 w2 = Done None w2.
Proof.
  destruct (makeCurrent 1 0 (Some 0%nat) sample_world) as [b w1| |] eqn:E;
    try (vm_compute in E; discriminate E).
  assert (Hb : b = true) by (vm_compute in E; by injection E as <- _). subst b.
  destruct (one_current_context_per_thread sample_world 1 0) as (_ & Hmc & _).
  pose proof (Hmc 0%nat w1 E (or_introl eq_refl)) as Hc1.
  destruct (one_current_context_per_thread w1 1 0) as (_ & _ & Hdc & Hret).
  apply makeCurrent_true_spec in E as HE.
  destruct HE as (C & p & P & sf & h & g & G & tls & C' & gl & HC & Hp & HP & HPv & _ & _ & _ & _
                  & _ & Hg & HG & _ & _ & _ & Hgr & Hres & Hpc & Hctx & _ & Hsg & Hpg & _).
  assert (HC1 : contexts w1 !! 0%nat = Some C') by (by rewrite Hctx, lookup_insert_eq).
  assert (Hok : context_ok w1 C').
  { unfold context_ok. rewrite Hpg, Hpc. split; [by eexists |].
    exists g. split; [done |]. exists (set_pendingDeletion [] G).
    split; [by rewrite Hgr, lookup_insert_eq |]. split; [apply NoDup_nil_2 |].
    intros r Hr. by apply elem_of_nil in Hr. }
  destruct (Hret C' HC1 Hok) as (w2 & Hd).
  assert (Hv1 : isValid 0 w1 = Done true w1).
  { apply isValid_true. exists C', p, P. by rewrite Hpc. }
  assert (Hcur1 : current w1 1%nat = Some 0%nat).
  { apply current_read in Hc1 as [Hc1 _]. done. }
  exists w1, w2. repeat split; try done. by apply Hdc.
Defined.

(** ** swapBuffers *)

Lemma swapBuffers_spec t c surf w u w' :
  swapBuffers t c surf w = Done u w' ->
  exists evs, log w' = log w ++ evs /\
    ((isValid c w = Done false w /\ evs = []) \/
     (isValid c w = Done true w /\ surf = None /\
      evs = [qWarning "QOpenGLContext::swapBuffers() called with null argument"]) \/
     (isValid c w = Done true w /\
      exists s sf, surf = Some s /\ surfaces w !! s = Some sf /\
        ((supportsOpenGL sf = false /\
          evs = [qWarning "QOpenGLContext::swapBuffers() called with non-opengl surface"]) \/
         (supportsOpenGL sf = true /\ surfaceHandle sf = None /\ evs = []) \/
         (supportsOpenGL sf = true /\
          exists p h pre, swap_passes_through w c surf p h /\
            evs = pre ++ [call_swapBuffers p h] /\ Forall (fun e => ~ is_swap e) pre)))).
Proof.
  intros H. unfold swapBuffers in H.
  apply bind_inv in H as (valid & w1 & Hv & H).
  apply isValid_reads in Hv as Hw. subst w1.
  destruct valid; simpl in H.
  2:{ apply ret_inv in H as [_ ->]. exists []. rewrite app_nil_r. split; [done |]. by left. }
  destruct surf as [s|].
  2:{ apply emit_inv in H as ->. eexists. split; [reflexivity |]. right. left. done. }
  apply bind_inv in H as (sf & w1 & Hsf & H). apply the_surface_inv in Hsf as [Hsf ->].
  destruct (supportsOpenGL sf) eqn:Hgl; simpl in H.
  2:{ apply emit_inv in H as ->. eexists. split; [reflexivity |]. right. right.
      split; [done |]. exists s, sf. repeat split; try done. by left. }
  destruct (surfaceHandle sf) as [h|] eqn:Hh.
  2:{ apply ret_inv in H as [_ ->]. exists []. rewrite app_nil_r. split; [done |].
      right. right. split; [done |]. exists s, sf. repeat split; try done. right. by left. }
  apply bind_inv in H as (nodebug & w1 & Hnd & H). apply gets_inv in Hnd as [-> ->].
  apply bind_inv in H as ([] & w1 & Htr & H).
  apply bind_inv in H as ([] & w2 & Hfl & H).
  apply bind_inv in H as (p' & w3 & Hh' & H).
  apply handle_inv in Hh' as (C & HC & -> & ->).
  apply bind_inv in H as (p & w3 & Hd & H). apply deref_inv in Hd as [Hp ->].
  apply emit_inv in H as ->.
  assert (H1 : exists pre1, log w1 = log w ++ pre1 /\ Forall (fun e => ~ is_swap e) pre1 /\
                            contexts w1 = contexts w).
  { destruct (QT_NO_DEBUG w).
    - apply ret_inv in Htr as [_ ->]. exists []. by rewrite app_nil_r.
    - unfold toggleMakeCurrentTracker in Htr.
      apply bind_inv in Htr as (b & wa & Ht & Htr).
      apply bind_inv in Ht as (tr & wb & Hg & Ht). apply gets_inv in Hg as [-> ->].
      apply bind_inv in Ht as ([] & wb & Hm & Ht). apply modify_inv in Hm as ->.
      apply ret_inv in Ht as [-> ->].
      destruct (negb _).
      + apply emit_inv in Htr as ->. eexists. split; [reflexivity |]. split; [| done].
        apply Forall_singleton. intros (? & ? & ?). discriminate.
      + apply ret_inv in Htr as [_ ->]. exists []. by rewrite app_nil_r. }
  destruct H1 as (pre1 & Hl1 & Hpre1 & Hc1).
  assert (H2 : exists pre2, log w2 = log w1 ++ pre2 /\ Forall (fun e => ~ is_swap e) pre2 /\
                 exists C1, contexts w1 !! c = Some C1 /\
                            platformGLContext C1 = platformGLContext C).
  { destruct (singleBuffer sf).
    - apply bind_inv in Hfl as (f & wf & Hf & Hfl). apply emit_inv in Hfl as ->.
      exists [call_glFlush]. split; [| split].
      + apply get_functions_inv in Hf as (C1 & _ & [(_ & ->) | (_ & _ & ->)]); done.
      + apply Forall_singleton. intros (? & ? & ?). discriminate.
      + apply get_functions_inv in Hf as (C1 & HC1 & [(_ & ->) | (_ & _ & ->)]).
        * exists C1. split; [done |]. simpl in HC. congruence.
        * exists C1. split; [done |]. simpl in HC. rewrite lookup_insert_eq in HC.
          by injection HC as <-.
    - apply ret_inv in Hfl as [_ ->]. exists []. rewrite app_nil_r.
      split; [done |]. split; [done |]. by exists C. }
  destruct H2 as (pre2 & Hl2 & Hpre2 & C1 & HC1 & Hp1).
  rewrite Hc1 in HC1. rewrite <- Hp1 in Hp.
  exists ((pre1 ++ pre2) ++ [call_swapBuffers p h]). split.
  { simpl. rewrite Hl2, Hl1. by rewrite <- !app_assoc. }
  right. right. split; [done |]. exists s, sf. repeat split; try done. right. right.
  split; [done |]. exists p, h, (pre1 ++ pre2). split; [| split; [done |]].
  - split; [done |]. exists C1, s, sf. done.
  - by apply Forall_app.
Qed.

Lemma swapBuffers_returns t c surf w C :
  contexts w !! c = Some C ->
  (forall p, platformGLContext C = Some p -> is_Some (platformContexts w !! p)) ->
  (forall s, surf = Some s -> is_Some (surfaces w !! s)) ->
  exists w', swapBuffers t c surf w = Done tt w'.
Proof.
  intros HC HP Hs.
  cut (returns (swapBuffers t c surf) w (fun _ _ => True)).
  { intros ([] & w' & H & _). eauto. }
  unfold swapBuffers. returns_step. eapply returns_isValid; [done |].
  destruct (platformGLContext C) as [p|] eqn:Hp; [| by returns_step].
  destruct (HP p eq_refl) as [P HP']. exists P. split; [done |].
  destruct (platform_isValid P); simpl; [| by returns_step].
  destruct surf as [s|]; [| by returns_step].
  destruct (Hs s eq_refl) as [sf Hsf].
  returns_step. eapply returns_the_surface; [done |].
  destruct (supportsOpenGL sf); simpl; [| by returns_step].
  destruct (surfaceHandle sf) as [h|]; [| by returns_step].
  do 3 returns_step.
  assert (Htr : returns (if QT_NO_DEBUG w then ret tt else
                   let! before := toggleMakeCurrentTracker c false in
                   if negb before
                   then emit (qWarning "QOpenGLContext::swapBuffers() called without corresponding makeCurrent()")
                   else ret tt) w (fun _ w1 => contexts w1 = contexts w)).
  { destruct (QT_NO_DEBUG w); [by returns_step |].
    unfold toggleMakeCurrentTracker. repeat returns_step.
    destruct (makeCurrentTracker w !! c) as [[]|]; simpl; by returns_step. }
  eapply returns_mono; [exact Htr |]. intros [] w1 Hc1. simpl in Hc1.
  returns_step.
  assert (Hfl : returns (if singleBuffer sf then get_functions t c;;; emit call_glFlush
                         else ret tt) w1
                  (fun _ w2 => exists C2, contexts w2 !! c = Some C2 /\
                                 platformGLContext C2 = Some p)).
  { destruct (singleBuffer sf).
    - returns_step. apply returns_intro.
      + apply (get_functions_Done t c w1 C). by rewrite Hc1.
      + intros f wf Hf. returns_step. simpl.
        apply get_functions_inv in Hf as (C1 & HC1 & [(_ & ->) | (_ & _ & ->)]).
        * exists C1. split; [done |]. rewrite Hc1 in HC1. congruence.
        * eexists. simpl. rewrite lookup_insert_eq. split; [done |]. simpl.
          rewrite Hc1 in HC1. congruence.
    - returns_step. exists C. by rewrite Hc1. }
  eapply returns_mono; [exact Hfl |]. intros [] w2 (C2 & HC2 & Hp2).
  returns_step. eapply returns_handle; [done |].
  returns_step. eapply returns_deref; [done |]. by returns_step.
Qed.

(** ** C7 *)

(** C7, as worded, fails: the validity of the context is tested first,
    so on a context that is not valid a null surface, or one that does not
    support OpenGL, gets no warning. *)
Lemma swapBuffers_claim_fails :
  ~ swapBuffers_claim lost_context_world 1 0 None /\
  ~ swapBuffers_claim lost_context_world 1 0 (Some 2%nat).
Proof.
  split.
  - intros H. destruct (H lost_context_world eq_refl) as (_ & Hw & _).
    destruct (Hw eq_refl) as (msg & Hin). vm_compute in Hin. by apply elem_of_nil in Hin.
  - intros H. destruct (H lost_context_world eq_refl) as (_ & _ & Hw).
    destruct (Hw 2%nat {| surfaceHandle := Some 8%nat; supportsOpenGL := false;
                          singleBuffer := false |} eq_refl eq_refl eq_refl) as (msg & Hin).
    vm_compute in Hin. by apply elem_of_nil in Hin.
Qed.

(** C7, amended. swapBuffers(surface) reaches the platform's swapBuffers
    only when the context is valid, the surface is non-null, supports
    OpenGL and has a native handle, and then as its last call, with that
    handle.  In every other case no native swap is made: a valid context
    with a null surface gets the null-argument warning, a valid context with
    a surface that does not support OpenGL gets the non-opengl warning, and
    an invalid context, whatever the surface, or a surface without handle
    gets nothing at all. *)
Theorem swapBuffers_passes_through_only_when_ready
    (w : World) (t : thread_id) (c : ctx_ptr) (surf : option surf_ptr) (C : QOpenGLContext) :
  contexts w !! c = Some C ->
  (forall p, platformGLContext C = Some p -> is_Some (platformContexts w !! p)) ->
  (forall s, surf = Some s -> is_Some (surfaces w !! s)) ->
  exists w' evs, swapBuffers t c surf w = Done tt w' /\ log w' = log w ++ evs /\
    ((exists e, e ∈ evs /\ is_swap e) <-> (exists p h, swap_passes_through w c surf p h)) /\
    (forall p h, swap_passes_through w c surf p h ->
       exists pre, evs = pre ++ [call_swapBuffers p h] /\ Forall (fun e => ~ is_swap e) pre) /\
    (isValid c w = Done true w -> surf = None ->
       evs = [qWarning "QOpenGLContext::swapBuffers() called with null argument"]) /\
    (isValid c w = Done true w ->
     forall s sf, surf = Some s -> surfaces w !! s = Some sf -> supportsOpenGL sf = false ->
       evs = [qWarning "QOpenGLContext::swapBuffers() called with non-opengl surface"]) /\
    (isValid c w = Done false w -> evs = []) /\
    (forall s sf, surf = Some s -> surfaces w !! s = Some sf -> supportsOpenGL sf = true ->
       surfaceHandle sf = None -> evs = []).
Proof.
  intros HC HP Hs.
  destruct (swapBuffers_returns t c surf w C HC HP Hs) as (w' & H).
  destruct (swapBuffers_spec t c surf w tt w' H) as (evs & Hlog & Hcases).
  exists w', evs. split; [exact H |]. split; [exact Hlog |].
  assert (Hnoswap : forall e m, e ∈ [qWarning m] -> ~ is_swap e).
  { intros e m He (p & h & ->). apply list_elem_of_singleton in He. discriminate He. }
  assert (Hpass : forall p h, swap_passes_through w c surf p h ->
            exists pre, evs = pre ++ [call_swapBuffers p h] /\
                        Forall (fun e => ~ is_swap e) pre).
  { intros p h (Hv1 & C1 & s1 & sf1 & HC1 & Hp1 & Hs1 & Hsf1 & Hgl1 & Hh1).
    destruct Hcases as [(Hv & Hev) | [(Hv & Hn & Hev) | (Hv & s & sf & Hs' & Hsf & Hc)]];
      [congruence | congruence |].
    assert (s1 = s) as -> by congruence. assert (sf1 = sf) as -> by congruence.
    destruct Hc as [(Hgl & Hev) | [(Hgl & Hh & Hev) | (Hgl & p2 & h2 & pre & Hp2 & Hev & Hpre)]];
      [congruence | congruence |].
    destruct Hp2 as (_ & C2 & s2 & sf2 & HC2 & Hpp2 & Hs2 & Hsf2 & _ & Hh2).
    assert (p2 = p) as -> by congruence. assert (h2 = h) as -> by congruence.
    by exists pre. }
  split; [| split; [exact Hpass |]].
  { split.
    - intros (e & He & Hsw).
      destruct Hcases as [(Hv & Hev) | [(Hv & Hn & Hev) | (Hv & s & sf & Hs' & Hsf & Hc)]].
      + subst evs. by apply elem_of_nil in He.
      + subst evs. by apply Hnoswap in He.
      + destruct Hc as [(Hgl & Hev) | [(Hgl & Hh & Hev) | (Hgl & p & h & pre & Hp & _)]].
        * subst evs. by apply Hnoswap in He.
        * subst evs. by apply elem_of_nil in He.
        * by exists p, h.
    - intros (p & h & Hp). destruct (Hpass p h Hp) as (pre & -> & _).
      exists (call_swapBuffers p h). split; [| by exists p, h].
      apply elem_of_app. right. by apply list_elem_of_singleton. }
  split; [| split; [| split]].
  - intros Hv1 Hn1.
    destruct Hcases as [(Hv & Hev) | [(Hv & Hn & Hev) | (Hv & s & sf & Hs' & Hsf & Hc)]];
      congruence.
  - intros Hv1 s1 sf1 Hs1 Hsf1 Hgl1.
    destruct Hcases as [(Hv & Hev) | [(Hv & Hn & Hev) | (Hv & s & sf & Hs' & Hsf & Hc)]];
      [congruence | congruence |].
    assert (s1 = s) as -> by congruence. assert (sf1 = sf) as -> by congruence.
    destruct Hc as [(Hgl & Hev) | [(Hgl & Hh & Hev) | (Hgl & _)]]; congruence.
  - intros Hv1.
    destruct Hcases as [(Hv & Hev) | [(Hv & Hn & Hev) | (Hv & _)]]; congruence.
  - intros s1 sf1 Hs1 Hsf1 Hgl1 Hh1.
    destruct (isValid c w) as [valid wv| |] eqn:Hval.
    + destruct Hcases as [(Hv & Hev) | [(Hv & Hn & Hev) | (Hv & s & sf & Hs' & Hsf & Hc)]];
        [done | congruence |].
      assert (s1 = s) as -> by congruence. assert (sf1 = sf) as -> by congruence.
      destruct Hc as [(Hgl & Hev) | [(Hgl & Hh & Hev) | (Hgl & p & h & pre & Hp & _)]];
        [congruence | done |].
      destruct Hp as (_ & C2 & s2 & sf2 & _ & _ & Hs2 & Hsf2 & _ & Hh2). congruence.
    + destruct Hcases as [(Hv & _) | [(Hv & _) | (Hv & _)]]; discriminate Hv.
    + destruct Hcases as [(Hv & _) | [(Hv & _) | (Hv & _)]]; discriminate Hv.
Qed.

Lemma swapBuffers_passes_through_only_when_ready_witness :
  exists w' pre, swapBuffers 1 0 (Some 0%nat) sample_world = Done tt w' /\
                 log w' = pre ++ [call_swapBuffers 0 7].
Proof.
  destruct (swapBuffers_passes_through_only_when_ready sample_world 1 0 (Some 0%nat)
              sample_context) as (w' & evs & H & Hlog & _ & Hpass & _).
  - reflexivity.
  - intros p Hp. injection Hp as <-. by eexists.
  - intros s Hs. injection Hs as <-. by eexists.
  - destruct (Hpass 0%nat 7%nat) as (pre & -> & Hpre).
    + split; [reflexivity |]. exists sample_context, 0%nat. eexists.
      repeat split; reflexivity.
    + exists w', pre. split; [exact H | exact Hlog].
Defined.

(** ** C6 *)

Lemma areSharing_value a b w A B :
  contexts w !! a = Some A -> contexts w !! b = Some B ->
  areSharing a b w = Done (bool_decide (shareGroup A = shareGroup B)) w.
Proof.
  intros HA HB. unfold areSharing, get_shareGroup, the_context, bind, gets, deref, ret.
  by rewrite HA, HB.
Qed.

Lemma areSharing_inv a b w v w' :
  areSharing a b w = Done v w' ->
  exists A B, contexts w !! a = Some A /\ contexts w !! b = Some B /\
              v = bool_decide (shareGroup A = shareGroup B) /\ w' = w.
Proof.
  unfold areSharing. intros H.
  apply bind_inv in H as (g1 & w1 & H1 & H).
  apply get_shareGroup_inv in H1 as (A & HA & -> & ->).
  apply bind_inv in H as (g2 & w1 & H2 & H).
  apply get_shareGroup_inv in H2 as (B & HB & -> & ->).
  apply ret_inv in H as [-> ->]. by exists A, B.
Qed.

(** C6. areSharing(first, second), the equality of the two contexts' share
    groups, is an equivalence relation on the context objects: reflexive,
    symmetric and transitive; two contexts are related exactly when their
    shareGroup() pointers are the same, so the relation partitions the
    contexts by share group. *)
Theorem areSharing_is_an_equivalence (w : World) :
  (forall c C, contexts w !! c = Some C -> areSharing c c w = Done true w) /\
  (forall a b, areSharing a b w = areSharing b a w) /\
  (forall a b c, areSharing a b w = Done true w -> areSharing b c w = Done true w ->
                 areSharing a c w = Done true w) /\
  (forall a b A B, contexts w !! a = Some A -> contexts w !! b = Some B ->
     (areSharing a b w = Done true w <-> shareGroup A = shareGroup B)).
Proof.
  split; [| split; [| split]].
  - intros c C HC. rewrite (areSharing_value c c w C C HC HC). by rewrite bool_decide_eq_true_2.
  - intros a b.
    destruct (contexts w !! a) as [A|] eqn:HA, (contexts w !! b) as [B|] eqn:HB.
    + rewrite (areSharing_value a b w A B HA HB), (areSharing_value b a w B A HB HA).
      f_equal. apply bool_decide_ext. split; congruence.
    + unfold areSharing, get_shareGroup, the_context, bind, gets, deref, ret, undefined.
      rewrite ?HA, ?HB. simpl. by rewrite ?HA, ?HB.
    + unfold areSharing, get_shareGroup, the_context, bind, gets, deref, ret, undefined.
      rewrite ?HA, ?HB. simpl. by rewrite ?HA, ?HB.
    + unfold areSharing, get_shareGroup, the_context, bind, gets, deref, ret, undefined.
      rewrite ?HA, ?HB. simpl. by rewrite ?HA, ?HB.
  - intros a b c Hab Hbc.
    apply areSharing_inv in Hab as (A & B & HA & HB & Hab & _).
    apply areSharing_inv in Hbc as (B' & C & HB' & HC & Hbc & _).
    assert (B' = B) as -> by congruence.
    symmetry in Hab, Hbc. apply bool_decide_eq_true in Hab, Hbc.
    rewrite (areSharing_value a c w A C HA HC). rewrite bool_decide_eq_true_2; congruence.
  - intros a b A B HA HB. rewrite (areSharing_value a b w A B HA HB). split.
    + intros H. injection H as H. by apply bool_decide_eq_true in H.
    + intros H. by rewrite bool_decide_eq_true_2.
Qed.

Lemma areSharing_is_an_equivalence_witness :
  areSharing 0 0 sample_world = Done true sample_world.
Proof.
  destruct (areSharing_is_an_equivalence sample_world) as (Hrefl & _ & Htrans & _).
  apply (Htrans 0%nat 0%nat 0%nat); apply (Hrefl 0%nat sample_context); reflexivity.
Defined.

(** ** free *)

Lemma free_inv t r w u w' R :
  resources w !! r = Some R -> free t r w = Done u w' ->
  match m_group R with
  | None => w' = set_resources (delete r) w
  | Some g =>
      exists G, groups w !! g = Some G /\
        let G1 := set_pendingDeletion (m_pendingDeletion G ++ [r])
                    (set_sharedResources (removeOne r (m_sharedResources G)) G) in
        let w1 := set_groups <[g := G1]> w in
        match current w t with
        | None => w' = w1
        | Some cc =>
            exists CC, contexts w !! cc = Some CC /\
              if decide (shareGroup CC = Some g)
              then w' = drained (m_pendingDeletion G ++ [r]) cc
                          (set_groups <[g := set_pendingDeletion [] G1]> w1)
              else w' = w1
        end
  end.
Proof.
  intros HR H. unfold free in H.
  apply bind_inv in H as (R' & w1 & HR' & H). apply the_resource_inv in HR' as [HR' ->].
  assert (R' = R) as -> by congruence. clear HR'.
  destruct (m_group R) as [g|]; [| by apply modify_inv in H].
  apply bind_inv in H as (G & w1 & HG & H). apply the_group_inv in HG as [HG ->].
  exists G. split; [done |]. cbv zeta.
  apply bind_inv in H as ([] & w1 & Hst & H). apply modify_inv in Hst as ->.
  apply bind_inv in H as (cur & w1 & Hcur & H). apply current_read in Hcur as [-> ->].
  unfold current at 1 in H. simpl in H. fold (current w t) in H.
  destruct (current w t) as [cc|]; [| by apply ret_inv in H as [_ ->]].
  apply bind_inv in H as (g' & w1 & Hg' & H).
  apply get_shareGroup_inv in Hg' as (CC & HCC & -> & ->). simpl in HCC.
  exists CC. split; [done |].
  destruct (decide (shareGroup CC = Some g)); [| by apply ret_inv in H as [_ ->]].
  apply deletePendingResources_inv in H as (G1 & HG1 & ->).
  simpl in HG1. rewrite lookup_insert_eq in HG1. injection HG1 as <-. reflexivity.
Qed.

(** ** C1 *)

Lemma added_app w w' evs : log w' = log w ++ evs -> added w w' = evs.
Proof. intros H. unfold added. rewrite H. by rewrite drop_app_length. Qed.

Lemma makeCurrent_false_log t c s w w' :
  makeCurrent t c (Some s) w = Done false w' ->
  exists evs, log w' = log w ++ evs /\ freed evs = [].
Proof.
  unfold makeCurrent. intros H.
  apply bind_inv in H as (valid & w1 & Hv & H).
  apply isValid_reads in Hv as Hw. subst w1.
  destruct valid; simpl in H.
  2:{ apply ret_inv in H as [_ ->]. exists []. by rewrite app_nil_r. }
  apply bind_inv in H as (dc & w1 & Hdc & H). apply gets_inv in Hdc as [-> ->].
  apply bind_inv in H as (C & w1 & HC & H). apply the_context_inv in HC as [HC ->].
  apply bind_inv in H as (q & w1 & Hq & H). apply gets_inv in Hq as [-> ->].
  destruct (negb _ && negb _); [discriminate H |].
  apply bind_inv in H as (sf & w1 & Hsf & H). apply the_surface_inv in Hsf as [Hsf ->].
  destruct (surfaceHandle sf) as [h|].
  2:{ apply ret_inv in H as [_ ->]. exists []. by rewrite app_nil_r. }
  destruct (supportsOpenGL sf); simpl in H.
  2:{ apply bind_inv in H as ([] & w1 & He & H). apply emit_inv in He as ->.
      apply ret_inv in H as [_ ->]. eexists. split; reflexivity. }
  apply bind_inv in H as (p & w1 & Hd & H). apply deref_inv in Hd as [Hp ->].
  apply bind_inv in H as (P & w1 & HP & H). apply the_platformContext_inv in HP as [HP ->].
  apply bind_inv in H as ([] & w1 & He & H). apply emit_inv in He as ->.
  destruct (platform_makeCurrent P h); simpl in H.
  - exfalso. repeat (apply bind_inv in H as (? & ? & _ & H)). by apply ret_inv in H as [? _].
  - apply ret_inv in H as [_ ->]. eexists. split; reflexivity.
Qed.


Lemma freed_app l1 l2 : freed (l1 ++ l2) = freed l1 ++ freed l2.
Proof. unfold freed. apply omap_app. Qed.

Lemma pending_in_group w c C g G r :
  pending_wf w -> contexts w !! c = Some C -> shareGroup C = Some g ->
  groups w !! g = Some G -> r ∈ m_pendingDeletion G -> in_group_of w r c.
Proof.
  intros Hwf HC Hg HG Hr. destruct (Hwf g G r HG Hr) as (R & HR & HRg).
  by exists R, C, g.
Qed.

Lemma free_defers_holds w t : pending_wf w -> free_defers w t.
Proof.
  intros Hwf r R g G u w' HR HRg HG H.
  pose proof (free_inv t r w u w' R HR H) as Hinv. rewrite HRg in Hinv.
  destruct Hinv as (G' & HG' & Hinv). assert (G' = G) as -> by congruence. clear HG'.
  cbv zeta in Hinv.
  assert (Hpend : pending (set_groups
            <[g := set_pendingDeletion (m_pendingDeletion G ++ [r])
                     (set_sharedResources (removeOne r (m_sharedResources G)) G)]> w) g
          = m_pendingDeletion G ++ [r]).
  { unfold pending. simpl. by rewrite lookup_insert_eq. }
  destruct (current w t) as [cc|] eqn:Hcur.
  - destruct Hinv as (CC & HCC & Hinv).
    destruct (decide (shareGroup CC = Some g)) as [Hin|Hout]; subst w'.
    + left. exists cc. split; [by split; eauto |]. split; [done |]. split; [| split].
      * intros r' Hr'. apply elem_of_app in Hr' as [Hr' | Hr'].
        -- by eapply pending_in_group.
        -- apply list_elem_of_singleton in Hr' as ->. by exists R, CC, g.
      * unfold current in *. simpl. exact Hcur.
      * unfold pending. simpl. by rewrite lookup_insert_eq.
    + right. split; [| done].
      intros cc' (Hcc' & CC' & HCC' & Hg').
      assert (cc' = cc) as -> by congruence. congruence.
  - subst w'. right. split; [| done].
    intros cc' (Hcc' & _). congruence.
Qed.

Lemma makeCurrent_drains_holds w t : pending_wf w -> makeCurrent_drains w t.
Proof.
  intros Hwf c s b w' H. destruct b.
  - right. split; [done |].
    apply makeCurrent_true_spec in H
      as (C & p & P & sf & h & g & G & tls & C' & gl & HC & Hp & HP & HPv & _ & Hsf & Hh & Hgl
          & Hmc & Hg & HG & Hlog & Htls & _ & Hgr & _ & _ & _ & _ & _ & _ & _ & _ & Hgle & Hrec).
    exists C, p, h, g, G, (tls ++ gl).
    assert (Hfgl : freed gl = []) by (by destruct Hgle as [-> | ->]).
    split; [done |]. split; [done |]. split; [done |]. split; [done |].
    split; [by rewrite <- app_assoc |]. split; [| split; [| split]].
    + rewrite freed_app, Hfgl. by destruct Htls as [(-> & _) | (-> & _)].
    + intros r Hr. by eapply pending_in_group.
    + unfold pending. by rewrite Hgr, lookup_insert_eq.
    + destruct Htls as [(-> & Hc) | (-> & Hn & Hq & Hc)].
      * left. split; [by apply Hrec | done].
      * right. split; [| split; [done |]].
        -- intros [Hq' | [x Hx]]; congruence.
        -- apply elem_of_app. left. by apply list_elem_of_singleton.
  - left. split; [done |].
    apply makeCurrent_false_log in H as (evs & Hlog & Hfr).
    by rewrite (added_app _ _ _ Hlog).
Qed.

Lemma doneCurrent_drains_holds w t : pending_wf w -> doneCurrent_drains w t.
Proof.
  intros Hwf c [] w' H.
  apply doneCurrent_spec in H
    as [(Hv & ->) | (Hv & C & p & HC & Hp & Hcur & _ & _ & _ & _ & _ & tls & Htls & Hcase)].
  - left. split; [by left |]. unfold added. by rewrite drop_all.
  - assert (Hft : freed tls = []) by (by destruct Htls as [-> | ->]).
    destruct Hcase as [(Hc & g & G & Hg & HG & Hgr & _ & Hlog) | (Hc & _ & _ & Hlog)].
    + right. split; [done |]. split; [done |].
      exists C, p, g, G, tls. repeat split; try done.
      * intros r Hr. by eapply pending_in_group.
      * unfold pending. by rewrite Hgr, lookup_insert_eq.
    + left. split; [by right |]. rewrite (added_app _ _ _ Hlog).
      change (call_doneCurrent p :: tls) with ([call_doneCurrent p] ++ tls).
      by rewrite freed_app, Hft.
Qed.

Lemma free_returns_holds w t : free_returns w t.
Proof.
  intros r R g HR HRg (G & HG & Hnd & Hlive) Hr Hcur.
  unfold pending in Hr. rewrite HG in Hr.
  cut (returns (free t r) w (fun _ _ => True)).
  { intros ([] & w' & H & _). eauto. }
  unfold free. returns_step. eapply returns_the_resource; [done |]. rewrite HRg.
  returns_step. eapply returns_the_group; [done |].
  returns_step. apply returns_modify.
  returns_step. apply returns_currentContext.
  unfold current at 1. simpl. fold (current w t).
  destruct (current w t) as [cc|] eqn:Hcc; [| by returns_step].
  destruct (Hcur cc eq_refl) as [CC HCC].
  returns_step. eapply returns_get_shareGroup; [done |].
  destruct (decide (shareGroup CC = Some g)); [| by returns_step].
  eapply returns_deletePendingResources.
  - simpl. by rewrite lookup_insert_eq.
  - simpl. apply NoDup_app. split; [done |]. split; [| apply NoDup_singleton].
    intros x Hx Hx'. apply list_elem_of_singleton in Hx' as ->. done.
  - simpl. intros x Hx. apply elem_of_app in Hx as [Hx | Hx]; [by apply Hlive |].
    apply list_elem_of_singleton in Hx as ->. by eexists.
  - done.
Qed.

(** [pending_wf] is kept by draining a pending list, hence by free,
    makeCurrent and doneCurrent. *)
Lemma pending_wf_drained w g G w' :
  pending_wf w -> groups w !! g = Some G ->
  groups w' = <[g := set_pendingDeletion [] G]> (groups w) ->
  resources w' = foldl (fun m r => delete r m) (resources w) (m_pendingDeletion G) ->
  pending_wf w'.
Proof.
  intros Hwf HG Hgr Hres g' G' r HG' Hr. rewrite Hgr in HG'.
  destruct (decide (g' = g)) as [-> | Hne].
  - rewrite lookup_insert_eq in HG'. injection HG' as <-. by apply elem_of_nil in Hr.
  - rewrite lookup_insert_ne in HG' by done.
    destruct (Hwf g' G' r HG' Hr) as (R & HR & HRg). exists R. split; [| done].
    rewrite Hres, lookup_foldl_delete.
    destruct (decide (r ∈ m_pendingDeletion G)) as [Hin|]; [| done].
    destruct (Hwf g G r HG Hin) as (R2 & HR2 & HRg2). congruence.
Qed.

Lemma pending_wf_free w t r u w' :
  pending_wf w -> free t r w = Done u w' -> pending_wf w'.
Proof.
  intros Hwf H.
  destruct (resources w !! r) as [R|] eqn:HR.
  2:{ unfold free in H. apply bind_inv in H as (? & ? & HR' & _).
      apply the_resource_inv in HR' as [HR' _]. congruence. }
  pose proof (free_inv t r w u w' R HR H) as Hinv.
  destruct (m_group R) as [g|] eqn:HRg.
  - destruct Hinv as (G & HG & Hinv). cbv zeta in Hinv.
    set (G1 := set_pendingDeletion (m_pendingDeletion G ++ [r])
                 (set_sharedResources (removeOne r (m_sharedResources G)) G)) in *.
    assert (Hwf1 : pending_wf (set_groups <[g := G1]> w)).
    { intros g' G' r' HG' Hr'. simpl in *.
      destruct (decide (g' = g)) as [-> | Hne].
      - rewrite lookup_insert_eq in HG'. injection HG' as <-. simpl in Hr'.
        apply elem_of_app in Hr' as [Hr' | Hr']; [by eapply Hwf |].
        apply list_elem_of_singleton in Hr' as ->. by exists R.
      - rewrite lookup_insert_ne in HG' by done. by eapply Hwf. }
    destruct (current w t) as [cc|]; [| by subst w'].
    destruct Hinv as (CC & HCC & Hinv).
    destruct (decide (shareGroup CC = Some g)); [| by subst w'].
    subst w'. eapply (pending_wf_drained _ g G1); [exact Hwf1 | | |].
    + simpl. by rewrite lookup_insert_eq.
    + reflexivity.
    + reflexivity.
  - subst w'. intros g' G' r' HG' Hr'. simpl in *.
    destruct (Hwf g' G' r' HG' Hr') as (R' & HR' & HRg'). exists R'. split; [| done].
    rewrite lookup_delete_ne; [done |]. intros ->. congruence.
Qed.

Lemma pending_wf_makeCurrent w t c s b w' :
  pending_wf w -> makeCurrent t c (Some s) w = Done b w' -> pending_wf w'.
Proof.
  intros Hwf H. destruct b.
  - apply makeCurrent_true_spec in H
      as (C & p & P & sf & h & g & G & tls & C' & gl & HC & _ & _ & _ & _ & _ & _ & _
          & _ & Hg & HG & _ & _ & _ & Hgr & Hres & _).
    by eapply (pending_wf_drained w g G).
  - apply makeCurrent_false_frame in H. rewrite H. exact Hwf.
Qed.

Lemma pending_wf_doneCurrent w t c u w' :
  pending_wf w -> doneCurrent t c w = Done u w' -> pending_wf w'.
Proof.
  intros Hwf H. destruct u.
  apply doneCurrent_spec in H
    as [(Hv & ->) | (Hv & C & p & HC & Hp & _ & _ & _ & _ & _ & _ & tls & _ & Hcase)]; [done |].
  destruct Hcase as [(Hc & g & G & Hg & HG & Hgr & Hres & _) | (Hc & Hgr & Hres & _)].
  - by eapply (pending_wf_drained w g G).
  - intros g G r HG Hr. rewrite Hgr in HG. rewrite Hres. by eapply Hwf.
Qed.

(** C1, as worded, fails.  In a thread without QThread data, and without
    a thread-local record yet, setCurrentContext only warns: makeCurrent
    returns true and hands the pending resource to freeResource, while no
    context is current in the sense of currentContext(). *)
Lemma deferred_deletion_claim_fails : ~ deferred_deletion_claim no_QTLS_world 3.
Proof.
  intros (_ & H & _).
  destruct (makeCurrent 3 0 (Some 0%nat) no_QTLS_world) as [b w'| |] eqn:E;
    try (vm_compute in E; discriminate E).
  destruct (H 0%nat 0%nat b w' 1%nat 0%nat E) as [Hcur _].
  - vm_compute in E. injection E as <- <-. vm_compute. apply elem_of_cons. by left.
  - vm_compute in E. injection E as <- <-. vm_compute in Hcur. discriminate Hcur.
Qed.

(** C1, amended.  In a world where each pending resource is a live
    resource of the group it waits on, freeResource is only ever called with
    a context of the resource's share group.  free() puts the resource on
    its group's pending list and drains the list at once, with the thread's
    current context, exactly when that context is in the group; otherwise
    nothing is freed.  makeCurrent drains the pending list of the context's
    group exactly when it returns true, right after the platform made the
    context current: the context is then the thread's current context
    provided the thread has QThread data or already has its thread-local
    record, and in a thread that has neither the list is drained all the same
    while currentContext() stays null.  doneCurrent drains the list exactly
    when the context is valid and is the thread's current context, before
    the platform's doneCurrent.  free() returns whenever what it
    dereferences is alive, and the three calls lead to a world of the same
    kind. *)
Theorem deferred_deletion (w : World) (t : thread_id) :
  pending_wf w ->
  free_defers w t /\ makeCurrent_drains w t /\ doneCurrent_drains w t /\
  free_returns w t /\ pending_wf_kept w t.
Proof.
  intros Hwf. split; [| split; [| split; [| split]]].
  - by apply free_defers_holds.
  - by apply makeCurrent_drains_holds.
  - by apply doneCurrent_drains_holds.
  - apply free_returns_holds.
  - split; [| split]; intros.
    + by eapply pending_wf_free.
    + by eapply pending_wf_makeCurrent.
    + by eapply pending_wf_doneCurrent.
Qed.

Lemma sample_world_pending_wf : pending_wf sample_world.
Proof.
  intros g G r HG Hr. change (groups sample_world) with ({[ 0%nat := sample_group ]} : gmap nat _) in HG.
  apply lookup_singleton_Some in HG as [<- <-].
  apply list_elem_of_singleton in Hr as ->. by eexists.
Defined.

Lemma deferred_deletion_witness :
  (exists w', free 1 0 sample_world = Done tt w' /\
              log w' = [] /\ pending w' 0%nat = [1%nat; 0%nat]) /\
  (exists w', makeCurrent 1 0 (Some 0%nat) sample_world = Done true w' /\
              freed (added sample_world w') = [(1%nat, 0%nat)] /\
              current w' 1 = Some 0%nat /\ pending w' 0%nat = []).
Proof.
  destruct (deferred_deletion sample_world 1 sample_world_pending_wf)
    as (Hfree & Hmc & _ & Hret & _).
  split.
  - destruct (Hret 0%nat {| m_group := Some 0%nat |} 0%nat) as (w' & H).
    + reflexivity.
    + reflexivity.
    + exists sample_group. split; [reflexivity |]. split; [apply NoDup_singleton |].
      intros r Hr. apply list_elem_of_singleton in Hr as ->. by eexists.
    + intros Hin. apply list_elem_of_singleton in Hin. discriminate Hin.
    + intros cc Hcc. discriminate Hcc.
    + exists w'. split; [exact H |].
      destruct (Hfree 0%nat {| m_group := Some 0%nat |} 0%nat sample_group tt w')
        as [(cc & (Hcc & _) & _) | (_ & Hlog & Hpend & _)];
        [reflexivity | reflexivity | reflexivity | exact H | discriminate Hcc |].
      split; [exact Hlog | exact Hpend].
  - assert (E : exists w', makeCurrent 1 0 (Some 0%nat) sample_world = Done true w')
      by (eexists; vm_compute; reflexivity).
    destruct E as [w' E]. exists w'. split; [exact E |].
    destruct (Hmc 0%nat 0%nat true w' E)
      as [(Hb & _) | (_ & C & p & h & g & G & pre & HC & Hp & Hg & HG & Hlog & Hpre & _
                      & Hpend & Hcur)]; [discriminate Hb |].
    injection HC as <-. injection Hg as <-. injection HG as <-.
    split; [| split].
    + rewrite (added_app _ _ _ Hlog).
      change (call_makeCurrent p h true :: pre ++ ?l)
        with ([call_makeCurrent p h true] ++ pre ++ l).
      rewrite !freed_app, Hpre. reflexivity.
    + destruct Hcur as [(_ & Hc) | (Hn & _)]; [exact Hc |].
      exfalso. apply Hn. by left.
    + exact Hpend.
Defined.

(** ** cleanup keeps the members of every group *)

Lemma same_membership_refl w : same_membership w w.
Proof. by repeat split. Qed.

Lemma same_membership_trans w1 w2 w3 :
  same_membership w1 w2 -> same_membership w2 w3 -> same_membership w1 w3.
Proof.
  intros (H1 & H2 & H3 & H4 & H5 & H6 & H7) (K1 & K2 & K3 & K4 & K5 & K6 & K7).
  do 6 (split; [congruence |]). intros g. by rewrite K7, H7.
Qed.

Lemma same_membership_store_group w g G G' :
  groups w !! g = Some G -> membership G' = membership G ->
  same_membership w (set_groups <[g := G']> w).
Proof.
  intros HG Hm. do 6 (split; [done |]). intros g'. simpl.
  destruct (decide (g' = g)) as [-> | Hne].
  - rewrite lookup_insert_eq, HG. simpl. by rewrite Hm.
  - by rewrite lookup_insert_ne.
Qed.

Lemma same_membership_drained w l c : same_membership w (drained l c w).
Proof. by repeat split. Qed.

Lemma same_membership_resources w f : same_membership w (set_resources f w).
Proof. by repeat split. Qed.

Lemma same_membership_log w f : same_membership w (set_log f w).
Proof. by repeat split. Qed.

Lemma same_membership_multi w f : same_membership w (set_multiResources f w).
Proof. by repeat split. Qed.


Lemma free_same_membership t r w u w' :
  free t r w = Done u w' -> same_membership w w'.
Proof.
  intros H.
  destruct (resources w !! r) as [R|] eqn:HR.
  2:{ unfold free in H. apply bind_inv in H as (? & ? & HR' & _).
      apply the_resource_inv in HR' as [HR' _]. congruence. }
  pose proof (free_inv t r w u w' R HR H) as Hinv.
  destruct (m_group R) as [g|].
  2:{ subst w'. apply same_membership_resources. }
  destruct Hinv as (G & HG & Hinv). cbv zeta in Hinv.
  set (G1 := set_pendingDeletion (m_pendingDeletion G ++ [r])
               (set_sharedResources (removeOne r (m_sharedResources G)) G)) in *.
  assert (H1 : same_membership w (set_groups <[g := G1]> w)).
  { by eapply same_membership_store_group. }
  destruct (current w t) as [cc|]; [| by subst w'].
  destruct Hinv as (CC & HCC & Hinv).
  destruct (decide (shareGroup CC = Some g)); [| by subst w'].
  subst w'. eapply same_membership_trans; [exact H1 |].
  eapply same_membership_trans; [| apply same_membership_drained].
  eapply same_membership_store_group; [simpl; apply lookup_insert_eq | reflexivity].
Qed.

Lemma the_multiResource_inv m w R w' :
  the_multiResource m w = Done R w' -> multiResources w !! m = Some R /\ w' = w.
Proof. intros H. inv_prim H. done. Qed.

Lemma multiGroup_cleanup_same_membership t m g value w u w' :
  multiGroup_cleanup t m g value w = Done u w' -> same_membership w w'.
Proof.
  unfold multiGroup_cleanup. intros H.
  apply bind_inv in H as (R & w1 & HR & H). apply the_resource_inv in HR as [_ ->].
  apply bind_inv in H as ([] & w1 & He & H). apply emit_inv in He as ->.
  apply bind_inv in H as ([] & w2 & Hf & H). apply free_same_membership in Hf.
  apply bind_inv in H as (MR & w3 & HM & H). apply the_multiResource_inv in HM as [_ ->].
  apply bind_inv in H as (nd & w3 & Hnd & H). apply gets_inv in Hnd as [-> ->].
  destruct (negb _ && negb _); [discriminate H |].
  apply modify_inv in H as ->.
  eapply same_membership_trans; [apply (same_membership_log w) |].
  eapply same_membership_trans; [exact Hf |]. apply same_membership_multi.
Qed.

Lemma cleanup_resources_same_membership t g l w u w' :
  cleanup_resources t g l w = Done u w' -> same_membership w w'.
Proof.
  revert w. induction l as [|[m value] l IH]; intros w H; simpl in H.
  - apply ret_inv in H as [_ ->]. apply same_membership_refl.
  - apply bind_inv in H as ([] & w1 & H1 & H).
    apply multiGroup_cleanup_same_membership in H1. apply IH in H.
    by eapply same_membership_trans.
Qed.

Lemma invalidate_all_same_membership l w u w' :
  invalidate_all l w = Done u w' -> same_membership w w'.
Proof.
  revert w. induction l as [|r l IH]; intros w H; simpl in H.
  - apply ret_inv in H as [_ ->]. apply same_membership_refl.
  - apply bind_inv in H as (R & w1 & HR & H). apply the_resource_inv in HR as [_ ->].
    apply bind_inv in H as ([] & w1 & He & H). apply emit_inv in He as ->.
    apply bind_inv in H as ([] & w1 & Hs & H). apply modify_inv in Hs as ->.
    apply IH in H.
    eapply same_membership_trans; [apply (same_membership_log w) |].
    eapply same_membership_trans; [apply same_membership_resources |]. exact H.
Qed.

Lemma qDeleteAll_same_membership l w u w' :
  qDeleteAll l w = Done u w' -> same_membership w w'.
Proof.
  revert w. induction l as [|r l IH]; intros w H; simpl in H.
  - apply ret_inv in H as [_ ->]. apply same_membership_refl.
  - apply bind_inv in H as (R & w1 & HR & H). apply the_resource_inv in HR as [_ ->].
    apply bind_inv in H as ([] & w1 & Hs & H). apply modify_inv in Hs as ->.
    apply IH in H.
    eapply same_membership_trans; [apply same_membership_resources |]. exact H.
Qed.

Lemma update_group_inv g f w u w' :
  update_group g f w = Done u w' ->
  exists G, groups w !! g = Some G /\ w' = set_groups <[g := f G]> w.
Proof.
  unfold update_group. intros H.
  apply bind_inv in H as (G & w1 & HG & H). apply the_group_inv in HG as [HG ->].
  apply modify_inv in H as ->. eauto.
Qed.

Lemma cleanup_same_membership t g w u w' :
  cleanup t g w = Done u w' -> same_membership w w'.
Proof.
  unfold cleanup. intros H.
  apply bind_inv in H as (G & w1 & HG & H). apply the_group_inv in HG as [HG ->].
  apply bind_inv in H as ([] & w1 & H1 & H). apply cleanup_resources_same_membership in H1.
  apply bind_inv in H as ([] & w2 & H2 & H).
  apply update_group_inv in H2 as (G1 & HG1 & ->).
  apply bind_inv in H as (G2 & w3 & HG2 & H). apply the_group_inv in HG2 as [HG2 ->].
  apply bind_inv in H as ([] & w3 & H3 & H). apply invalidate_all_same_membership in H3.
  apply bind_inv in H as ([] & w4 & H4 & H).
  apply update_group_inv in H4 as (G3 & HG3 & ->).
  apply bind_inv in H as (G4 & w5 & HG4 & H). apply the_group_inv in HG4 as [HG4 ->].
  apply bind_inv in H as ([] & w5 & H5 & H). apply qDeleteAll_same_membership in H5.
  apply update_group_inv in H as (G5 & HG5 & ->).
  eapply same_membership_trans; [exact H1 |].
  eapply same_membership_trans;
    [exact (same_membership_store_group w1 g G1 (set_m_resources [] G1) HG1 eq_refl) |].
  eapply same_membership_trans; [exact H3 |].
  eapply same_membership_trans;
    [exact (same_membership_store_group w3 g G3 (set_sharedResources [] G3) HG3 eq_refl) |].
  eapply same_membership_trans; [exact H5 |].
  exact (same_membership_store_group w5 g G5 (set_pendingDeletion [] G5) HG5 eq_refl).
Qed.

(** ** removeContext and destroy *)

Lemma removeContext_spec t g c w u w' :
  removeContext t g c w = Done u w' -> removeContext_post t g c w w'.
Proof.
  unfold removeContext. intros H.
  apply bind_inv in H as (G & w1 & HG & H). apply the_group_inv in HG as [HG ->].
  cbv zeta in H.
  set (shares := removeOne c (m_shares G)) in *.
  set (refs := int32 (m_refs G - 1)) in *.
  set (first := if decide (m_context G = Some c /\ shares <> [])
                then head shares else m_context G) in *.
  apply bind_inv in H as ([] & w1 & Hs & H). apply modify_inv in Hs as ->.
  exists G. split; [done |]. unfold group_after_removal. fold refs. fold shares.
  assert (Hother : forall (w2 : World),
            same_membership (set_groups <[g := set_shares shares refs first G]> w) w2 ->
            forall g', g' <> g ->
              membership <$> (groups w2 !! g') = membership <$> (groups w !! g')).
  { intros w2 (_ & _ & _ & _ & _ & _ & Hm) g' Hne. rewrite Hm. simpl.
    by rewrite lookup_insert_ne. }
  destruct (decide (refs = 0)) as [H0 | Hn0].
  2:{ apply ret_inv in H as [_ ->]. simpl. repeat split; try done.
      - intros g' Hne. by rewrite lookup_insert_ne.
      - eexists. rewrite lookup_insert_eq. done. }
  apply bind_inv in H as ([] & w2 & Hc1 & H). apply cleanup_same_membership in Hc1.
  apply bind_inv in H as (G2 & w2' & HG2 & H). apply the_group_inv in HG2 as [HG2 ->].
  apply bind_inv in H as (q & w2' & Hq & H). apply gets_inv in Hq as [-> ->].
  pose proof Hc1 as (Hk1 & Hk2 & Hk3 & Hk4 & Hk5 & Hk6 & Hk7).
  pose proof (Hk7 g) as HG2m. rewrite HG2 in HG2m. simpl in HG2m.
  rewrite lookup_insert_eq in HG2m. unfold membership in HG2m. simpl in HG2m.
  injection HG2m as Hsh Hrf _ Hth.
  assert (Hcur : currentThread_of w2 t = currentThread_of w t).
  { unfold currentThread_of. by rewrite Hk4. }
  rewrite Hth, Hcur in H.
  destruct (decide (group_thread G = currentThread_of w t)) as [Heq | Hne].
  - apply bind_inv in H as ([] & w3 & Hc2 & H). apply cleanup_same_membership in Hc2.
    apply modify_inv in H as ->.
    pose proof (same_membership_trans _ _ _ Hc1 Hc2) as (Hj1 & Hj2 & Hj3 & Hj4 & Hj5 & Hj6 & Hj7).
    simpl in *. repeat split; try done.
    + intros g' Hg'. rewrite lookup_delete_ne by done. rewrite Hj7.
      by rewrite lookup_insert_ne.
    + apply lookup_delete_eq.
  - apply modify_inv in H as ->. simpl in *. repeat split; try done.
    + by apply Hother.
    + by rewrite Hk6.
    + exists G2. split; [done |]. by rewrite Hsh, Hrf, H0.
Qed.

Lemma doneCurrent_membership_frame t c w u w' C :
  doneCurrent t c w = Done u w' -> contexts w !! c = Some C ->
  exists C2, contexts w' = <[c := C2]> (contexts w) /\
    platformGLContext C2 = platformGLContext C /\ shareGroup C2 = shareGroup C /\
    shareContext C2 = shareContext C /\ thread C2 = thread C /\
    platformContexts w' = platformContexts w /\ has_QThread w' = has_QThread w /\
    deleteLater_queue w' = deleteLater_queue w /\
    forall g, membership <$> (groups w' !! g) = membership <$> (groups w !! g).
Proof.
  intros H HC. destruct u.
  apply doneCurrent_spec in H
    as [(Hv & ->) | (Hv & C' & p & HC' & Hp & _ & _ & Hctx & Hpc & Hq & Hdl & tls & _ & Hcase)].
  - exists C. rewrite insert_id by done. done.
  - assert (C' = C) as -> by congruence.
    exists (set_surface None C). do 8 (split; [done |]). intros g.
    destruct Hcase as [(_ & g0 & G & _ & HG & -> & _) | (_ & -> & _)]; [| done].
    destruct (decide (g = g0)) as [-> | Hne].
    + by rewrite lookup_insert_eq, HG.
    + by rewrite lookup_insert_ne.
Qed.

Lemma group_after_removal_proper t g c G G2 w w2 w3 w' :
  membership G2 = membership G -> has_QThread w2 = has_QThread w ->
  deleteLater_queue w2 = deleteLater_queue w ->
  groups w' = groups w3 -> deleteLater_queue w' = deleteLater_queue w3 ->
  group_after_removal t g c G2 w2 w3 -> group_after_removal t g c G w w'.
Proof.
  intros Hm Hq Hdl Hg' Hdl'. unfold membership in Hm. injection Hm as Hsh Hrf _ Hth.
  unfold group_after_removal, currentThread_of.
  by rewrite Hsh, Hrf, Hth, Hq, Hdl, Hg', Hdl'.
Qed.

Lemma world_ext (w1 w2 : World) :
  contexts w1 = contexts w2 -> log w1 = log w2 ->
  groups w1 = groups w2 -> resources w1 = resources w2 ->
  multiResources w1 = multiResources w2 -> platformContexts w1 = platformContexts w2 ->
  surfaces w1 = surfaces w2 -> qwindow_context_storage w1 = qwindow_context_storage w2 ->
  has_QThread w1 = has_QThread w2 ->
  AA_DontCheckOpenGLContextThreadAffinity w1 = AA_DontCheckOpenGLContextThreadAffinity w2 ->
  needsWorkaroundSet w1 = needsWorkaroundSet w2 -> needsWorkaround w1 = needsWorkaround w2 ->
  Q_OS_ANDROID w1 = Q_OS_ANDROID w2 -> qgetenv w1 = qgetenv w2 ->
  GL_RENDERER w1 = GL_RENDERER w2 -> QT_NO_DEBUG w1 = QT_NO_DEBUG w2 ->
  makeCurrentTracker w1 = makeCurrentTracker w2 ->
  deleteLater_queue w1 = deleteLater_queue w2 -> w1 = w2.
Proof. destruct w1, w2. simpl. intros. subst. reflexivity. Qed.

Ltac world_ext := apply world_ext; [| | reflexivity ..].

Lemma delete_the_versionFunctions_inv c w u w' :
  delete_the_versionFunctions c w = Done u w' ->
  exists C, contexts w !! c = Some C /\
    w' = set_contexts <[c := set_versionFunctions None C]>
           (set_log (fun l => l ++ match versionFunctions C with
                                   | Some v => [delete_versionFunctions v]
                                   | None => []
                                   end) w).
Proof.
  intros H. unfold delete_the_versionFunctions in H.
  apply bind_inv in H as (C & w0 & HC & H). apply the_context_inv in HC as [HC ->].
  exists C. split; [done |].
  apply bind_inv in H as ([] & w1 & He & H).
  destruct (versionFunctions C).
  - apply emit_inv in He as ->. apply update_context_inv in H as (C1 & HC1 & ->).
    simpl in HC1. assert (C1 = C) as -> by congruence. reflexivity.
  - apply ret_inv in He as [_ ->]. apply update_context_inv in H as (C1 & HC1 & ->).
    assert (C1 = C) as -> by congruence. world_ext; [reflexivity |].
    cbn [log set_log set_contexts]. by rewrite app_nil_r.
Qed.

Lemma teardown_inv c w u1 w1 u2 w2 :
  invalidate_helpers c w = Done u1 w1 -> tear_down_function_wrappers c w1 = Done u2 w2 ->
  exists C, contexts w !! c = Some C /\ w2 = teardown c C w /\ helpers_ok w C.
Proof.
  intros H1 H2. unfold invalidate_helpers in H1.
  apply bind_inv in H1 as (C & w0 & HC & H1). apply the_context_inv in HC as [HC ->].
  exists C. split; [done |].
  apply bind_inv in H1 as ([] & wa & Ha & H1).
  assert (Ea : wa = set_contexts <[c := set_textureFunctionsDestroyCallback None C]>
                 (set_log (fun l => l ++ match textureFunctionsDestroyCallback C with
                                   | Some f => [call_textureFunctionsDestroyCallback f]
                                   | None => []
                                   end) w)).
  { destruct (textureFunctionsDestroyCallback C) eqn:E.
    - apply bind_inv in Ha as ([] & w0 & He & Ha). apply emit_inv in He as ->.
      apply update_context_inv in Ha as (C1 & HC1 & ->).
      assert (C1 = C) as -> by (cbn [contexts set_log] in HC1; congruence). reflexivity.
    - apply ret_inv in Ha as [_ ->]. world_ext.
      + cbn [contexts set_log set_contexts]. symmetry. apply insert_id. rewrite HC. f_equal.
        revert E. clear. destruct C. cbn. by intros ->.
      + cbn [log set_log set_contexts]. by rewrite app_nil_r. }
  subst wa.
  apply bind_inv in H1 as ([] & wb & Hb & H1).
  apply update_context_inv in Hb as (Cb & HCb & ->).
  cbn [contexts set_log set_contexts] in HCb. rewrite lookup_insert_eq in HCb.
  injection HCb as <-.
  apply bind_inv in H1 as ([] & wc & Hc & H1).
  apply delete_the_versionFunctions_inv in Hc as (Cc & HCc & ->).
  cbn [contexts set_log set_contexts] in HCc. rewrite lookup_insert_eq in HCc.
  injection HCc as <-.
  apply bind_inv in H1 as (Cd & w0 & HCd & H1). apply the_context_inv in HCd as [HCd ->].
  cbn [contexts set_log set_contexts] in HCd. rewrite lookup_insert_eq in HCd.
  injection HCd as <-.
  apply bind_inv in H1 as ([] & we & He & H1).
  apply update_context_inv in H1 as (Cf & HCf & ->).
  unfold tear_down_function_wrappers in H2.
  apply bind_inv in H2 as ([] & wg & Hg & H2).
  apply delete_the_versionFunctions_inv in Hg as (Cg & HCg & ->).
  apply update_context_inv in H2 as (Ch & HCh & ->).
  cbn [contexts set_log set_contexts] in HCg. rewrite lookup_insert_eq in HCg.
  injection HCg as <-.
  cbn [contexts set_log set_contexts] in HCh. rewrite lookup_insert_eq in HCh.
  injection HCh as <-.
  change (vaoHelperDestroyCallback _) with (vaoHelperDestroyCallback C) in He.
  change (vaoHelper (set_versionFunctions _ _)) with (vaoHelper C) in He.
  destruct (vaoHelperDestroyCallback C) as [f|] eqn:Ecb.
  - apply bind_inv in He as (nodebug & w0 & Hnd & He). apply gets_inv in Hnd as [-> ->].
    cbn [QT_NO_DEBUG set_log set_contexts] in He.
    destruct (negb (QT_NO_DEBUG w) && negb (bool_decide (is_Some (vaoHelper C)))) eqn:Eas;
      [discriminate He |].
    apply bind_inv in He as ([] & w0 & Hev & He). apply emit_inv in Hev as ->.
    apply update_context_inv in He as (Ce & HCe & ->).
    cbn [contexts set_log set_contexts] in HCe. rewrite lookup_insert_eq in HCe.
    injection HCe as <-.
    cbn [contexts set_log set_contexts] in HCf. rewrite lookup_insert_eq in HCf.
    injection HCf as <-.
    split.
    + unfold teardown. world_ext.
      * cbn [contexts set_log set_contexts]. rewrite !insert_insert_eq. reflexivity.
      * cbn [log set_log set_contexts]. unfold teardown_events. rewrite Ecb.
        cbn [versionFunctions set_versionFunctions set_textureFunctions
             set_textureFunctionsDestroyCallback set_vaoHelper set_vaoHelperDestroyCallback].
        by rewrite <- !app_assoc, app_nil_r.
    + unfold helpers_ok. apply andb_false_iff in Eas as [E | E].
      * left. by destruct (QT_NO_DEBUG w).
      * right. right. apply negb_false_iff in E. by apply bool_decide_eq_true in E.
  - apply ret_inv in He as [_ ->].
    cbn [contexts set_log set_contexts] in HCf. rewrite lookup_insert_eq in HCf.
    injection HCf as <-.
    split; [| right; by left].
    unfold teardown. world_ext.
    + cbn [contexts set_log set_contexts]. rewrite !insert_insert_eq. f_equal.
      revert Ecb. clear. destruct C. cbn. by intros ->.
    + cbn [log set_log set_contexts]. unfold teardown_events. rewrite Ecb.
      cbn [versionFunctions set_versionFunctions set_textureFunctions
           set_textureFunctionsDestroyCallback set_vaoHelper set_vaoHelperDestroyCallback].
      by rewrite <- !app_assoc, !app_nil_r.
Qed.

Lemma delete_the_versionFunctions_Done c w C :
  contexts w !! c = Some C ->
  exists w', delete_the_versionFunctions c w = Done tt w' /\ is_Some (contexts w' !! c).
Proof.
  intros HC.
  cut (returns (delete_the_versionFunctions c) w (fun _ w' => is_Some (contexts w' !! c))).
  { intros ([] & w' & H & HQ). eauto. }
  unfold delete_the_versionFunctions. returns_step. eapply returns_the_context; [done |].
  returns_step.
  assert (H1 : returns (match versionFunctions C with
                        | Some v => emit (delete_versionFunctions v)
                        | None => ret tt
                        end) w (fun _ w1 => contexts w1 = contexts w)).
  { destruct (versionFunctions C); by returns_step. }
  eapply returns_mono; [exact H1 |]. intros [] w1 Hc1.
  eapply returns_update_context; [by rewrite Hc1 |]. simpl. rewrite lookup_insert_eq. by eexists.
Qed.

Lemma teardown_Done c w C :
  contexts w !! c = Some C -> helpers_ok w C ->
  exists w1, invalidate_helpers c w = Done tt w1 /\
             tear_down_function_wrappers c w1 = Done tt (teardown c C w).
Proof.
  intros HC Hok.
  assert (H1 : returns (invalidate_helpers c) w (fun _ w1 => is_Some (contexts w1 !! c))).
  { unfold invalidate_helpers. returns_step. eapply returns_the_context; [done |].
    returns_step.
    assert (Ha : returns (match textureFunctionsDestroyCallback C with
                          | Some f => emit (call_textureFunctionsDestroyCallback f);;;
                                      update_context c (set_textureFunctionsDestroyCallback None)
                          | None => ret tt
                          end) w
                   (fun _ wa => exists Ca, contexts wa !! c = Some Ca /\
                      vaoHelper Ca = vaoHelper C /\
                      vaoHelperDestroyCallback Ca = vaoHelperDestroyCallback C /\
                      QT_NO_DEBUG wa = QT_NO_DEBUG w)).
    { destruct (textureFunctionsDestroyCallback C).
      - do 2 returns_step. eapply returns_update_context; [done |].
        eexists. simpl. rewrite lookup_insert_eq. done.
      - returns_step. by exists C. }
    eapply returns_mono; [exact Ha |]. intros [] wa (Ca & HCa & Hva & Hcb & Hnd).
    returns_step. eapply returns_update_context; [done |].
    returns_step.
    destruct (delete_the_versionFunctions_Done c
                (set_contexts <[c := set_textureFunctions None Ca]> wa)
                (set_textureFunctions None Ca)) as (wc & Hc & _);
      [simpl; apply lookup_insert_eq |].
    apply returns_intro; [by eauto |]. clear wc Hc. intros [] wc Hc.
    apply delete_the_versionFunctions_inv in Hc as (Cc & HCc & ->).
    simpl in HCc. rewrite lookup_insert_eq in HCc. injection HCc as <-.
    returns_step. eapply returns_the_context; [simpl; apply lookup_insert_eq |].
    returns_step. simpl. rewrite Hcb, Hva.
    assert (He : returns
              (match vaoHelperDestroyCallback C with
               | Some f =>
                   let! nodebug := gets QT_NO_DEBUG in
                   if negb nodebug && negb (bool_decide (is_Some (vaoHelper C)))
                   then qFatal
                   else emit (call_vaoHelperDestroyCallback f (vaoHelper C));;;
                        update_context c (set_vaoHelperDestroyCallback None)
               | None => ret tt
               end)
              (set_contexts <[c := set_versionFunctions None (set_textureFunctions None Ca)]>
                 (set_log (fun l => l ++ match versionFunctions (set_textureFunctions None Ca) with
                                          | Some v => [delete_versionFunctions v]
                                          | None => []
                                          end)
                    (set_contexts <[c := set_textureFunctions None Ca]> wa)))
              (fun _ we => is_Some (contexts we !! c))).
    { destruct (vaoHelperDestroyCallback C) as [f|] eqn:Ecb.
      - do 2 returns_step. simpl. rewrite Hnd.
        assert ((if QT_NO_DEBUG w then false else true)
                && (if bool_decide (is_Some (vaoHelper C)) then false else true) = false)
          as ->.
        { destruct Hok as [-> | [Hn | Hs]]; [done | congruence |].
          rewrite (bool_decide_eq_true_2 _ Hs). apply andb_false_r. }
        do 2 returns_step. eapply returns_update_context; [simpl; apply lookup_insert_eq |].
        simpl. rewrite lookup_insert_eq. by eexists.
      - returns_step. simpl. rewrite lookup_insert_eq. by eexists. }
    eapply returns_mono; [exact He |]. intros [] we [Ce HCe].
    eapply returns_update_context; [done |]. simpl. rewrite lookup_insert_eq. by eexists. }
  destruct H1 as ([] & w1 & Hih & [C1 HC1]). exists w1. split; [exact Hih |].
  assert (H2 : exists w2, tear_down_function_wrappers c w1 = Done tt w2).
  { cut (returns (tear_down_function_wrappers c) w1 (fun _ _ => True)).
    { intros ([] & w2 & H & _). eauto. }
    unfold tear_down_function_wrappers. returns_step.
    destruct (delete_the_versionFunctions_Done c w1 C1 HC1) as (wg & Hg & [Cg HCg]).
    exists tt, wg. split; [exact Hg |]. by eapply returns_update_context. }
  destruct H2 as (w2 & Htd). rewrite Htd. f_equal.
  destruct (teardown_inv c w tt w1 tt w2 Hih Htd) as (C0 & HC0 & -> & _). congruence.
Qed.

Lemma destroy_spec t c w u w' : destroy t c w = Done u w' -> destroy_post t c w w'.
Proof.
  unfold destroy. intros H.
  apply bind_inv in H as (p0 & w0 & Hh & H). apply handle_inv in Hh as (C & HC & -> & ->).
  apply bind_inv in H as ([] & w1 & Hsig & H).
  assert (Hw1 : exists f, w1 = set_log f w).
  { destruct (platformGLContext C).
    - apply emit_inv in Hsig as ->. eauto.
    - apply ret_inv in Hsig as [_ ->]. exists (fun l => l). by destruct w. }
  destruct Hw1 as (f1 & ->).
  apply bind_inv in H as ([] & wa & Hih & H).
  apply bind_inv in H as ([] & wt & Htd & H).
  destruct (teardown_inv _ _ _ _ _ _ Hih Htd) as (C0 & HC0 & -> & _).
  simpl in HC0. assert (C0 = C) as -> by congruence. clear HC0 Hih Htd wa.
  apply bind_inv in H as (cur & w1' & Hcur & H). apply current_read in Hcur as [-> ->].
  apply bind_inv in H as ([] & w2 & Hdc & H).
  assert (H2 : exists C2, contexts w2 = <[c := C2]> (contexts w) /\
    platformGLContext C2 = platformGLContext C /\ shareGroup C2 = shareGroup C /\
    shareContext C2 = shareContext C /\ thread C2 = thread C /\
    platformContexts w2 = platformContexts w /\ has_QThread w2 = has_QThread w /\
    deleteLater_queue w2 = deleteLater_queue w /\
    forall g, membership <$> (groups w2 !! g) = membership <$> (groups w !! g)).
  { destruct (decide (current (teardown c C (set_log f1 w)) t = Some c)).
    - apply (doneCurrent_membership_frame t c _ tt w2 (torn_down C)) in Hdc
        as (C2 & Hc2 & Hrest); [| simpl; apply lookup_insert_eq].
      exists C2. simpl in Hc2. rewrite insert_insert_eq in Hc2. split; [exact Hc2 |].
      exact Hrest.
    - apply ret_inv in Hdc as [_ ->]. exists (torn_down C). done. }
  destruct H2 as (C2 & Hc2 & Hp2 & Hg2 & Hsc2 & Hth2 & Hpc2 & Hq2 & Hdl2 & Hm2).
  assert (HC2 : contexts w2 !! c = Some C2) by (by rewrite Hc2, lookup_insert_eq).
  apply bind_inv in H as (g & w2' & Hg & H).
  apply get_shareGroup_inv in Hg as (C2' & HC2' & -> & ->).
  assert (C2' = C2) as -> by congruence. clear HC2'.
  apply bind_inv in H as ([] & w3 & Hrm & H).
  apply bind_inv in H as ([] & w4 & Hup & H).
  apply update_context_inv in Hup as (C3 & HC3 & ->).
  apply bind_inv in H as (p & w4' & Hh & H).
  apply handle_inv in Hh as (C4 & HC4 & -> & ->).
  simpl in HC4. rewrite lookup_insert_eq in HC4. injection HC4 as <-. simpl in H.
  apply bind_inv in H as ([] & w5 & Hdel & H).
  apply update_context_inv in H as (C5 & HC5 & ->).
  assert (H3 : contexts w3 = contexts w2 /\ platformContexts w3 = platformContexts w2 /\
               has_QThread w3 = has_QThread w2 /\
               match shareGroup C with
               | None => deleteLater_queue w3 = deleteLater_queue w /\
                   forall g, membership <$> (groups w3 !! g) = membership <$> (groups w !! g)
               | Some g =>
                   exists G, groups w !! g = Some G /\
                     (forall g', g' <> g ->
                        membership <$> (groups w3 !! g') = membership <$> (groups w !! g')) /\
                     group_after_removal t g c G w w3
               end).
  { rewrite Hg2 in Hrm. destruct (shareGroup C) as [g|].
    - apply removeContext_spec in Hrm as (G2 & HG2 & Hk1 & Hk2 & _ & Hk4 & Hk5 & Hk6).
      repeat split; try done.
      pose proof (Hm2 g) as HmG. rewrite HG2 in HmG.
      destruct (groups w !! g) as [G|] eqn:HG; [| discriminate HmG].
      assert (HmG' : membership G2 = membership G).
      { unfold membership in *. simpl in HmG. by injection HmG as -> -> -> ->. }
      exists G. split; [done |]. split.
      + intros g' Hne. by rewrite (Hk5 g' Hne), Hm2.
      + by eapply (group_after_removal_proper t g c G G2 w w2 w3 w3).
    - apply ret_inv in Hrm as [_ ->]. done. }
  destruct H3 as (Hc3 & Hpc3 & Hq3 & Hgrp).
  rewrite Hc3, HC2 in HC3. injection HC3 as <-.
  assert (H5 : contexts w5 = <[c := set_shareGroup None C2]> (contexts w3) /\
               groups w5 = groups w3 /\ deleteLater_queue w5 = deleteLater_queue w3 /\
               has_QThread w5 = has_QThread w3 /\
               platformContexts w5 = match platformGLContext C with
                                     | Some p => delete p (platformContexts w)
                                     | None => platformContexts w
                                     end).
  { rewrite Hp2 in Hdel. destruct (platformGLContext C) as [p|].
    - apply bind_inv in Hdel as (P & wa & HP & Hdel).
      apply the_platformContext_inv in HP as [_ ->].
      apply bind_inv in Hdel as ([] & wa & He & Hdel). apply emit_inv in He as ->.
      apply modify_inv in Hdel as ->. simpl. by rewrite Hpc3, Hpc2.
    - apply ret_inv in Hdel as [_ ->]. simpl. by rewrite Hpc3, Hpc2. }
  destruct H5 as (Hc5 & Hg5 & Hdl5 & Hq5 & Hpc5).
  rewrite Hc5, lookup_insert_eq in HC5. injection HC5 as <-.
  exists C, (set_platformGLContext None (set_shareGroup None C2)).
  split; [done |]. simpl.
  split; [by rewrite Hc5, Hc3, Hc2, !insert_insert_eq |].
  do 4 (split; [done |]). split; [done |].
  split; [by rewrite Hq5, Hq3, Hq2 |].
  destruct (shareGroup C) as [g|].
  - destruct Hgrp as (G & HG & Hoth & Hrem). exists G. split; [done |]. split.
    + intros g' Hne. rewrite Hg5. by apply Hoth.
    + by eapply (group_after_removal_proper t g c G G w w w3).
  - destruct Hgrp as (Hdl3 & Hm3). split; [by rewrite Hdl5 |].
    intros g. by rewrite Hg5.
Qed.

(** ** adopt and create *)

Lemma adopt_spec t c p w u w' : adopt t c p w = Done u w' -> adopt_post t c p w w'.
Proof.
  unfold adopt. intros H.
  apply bind_inv in H as ([] & w1 & Hup & H).
  apply update_context_inv in Hup as (C & HC & ->).
  apply bind_inv in H as (P & w1 & HP & H). apply the_platformContext_inv in HP as [HP ->].
  simpl in HP.
  apply bind_inv in H as ([] & w1 & He & H). apply emit_inv in He as ->.
  apply bind_inv in H as ([] & w1 & He & H). apply emit_inv in He as ->.
  apply bind_inv in H as ([] & w3 & Hsh & H).
  exists C, P. split; [done |]. split; [done |]. cbv zeta.
  set (sc := if platform_isSharing P then shareContext C else None).
  set (C1 := set_platformGLContext (Some p) C) in *.
  assert (H3 : w3 = set_log (fun l => (l ++ [call_setContext p c]) ++ [call_initialize p])
                      (set_contexts <[c := set_shareContext sc C1]> w)).
  { destruct (platform_isSharing P) eqn:HPs; simpl in Hsh.
    - apply ret_inv in Hsh as [_ ->]. subst sc.
      assert (set_shareContext (shareContext C) C1 = C1) as -> by (by destruct C).
      by destruct w.
    - apply update_context_inv in Hsh as (C1' & HC1' & ->). simpl in HC1'.
      rewrite lookup_insert_eq in HC1'. injection HC1' as <-. subst sc.
      destruct w. unfold set_log, set_contexts. simpl. f_equal.
      by rewrite insert_insert_eq. }
  subst w3.
  apply bind_inv in H as (sc' & w3' & Hsc & H).
  apply get_shareContext_inv in Hsc as (C3 & HC3 & -> & ->).
  simpl in HC3. rewrite lookup_insert_eq in HC3. injection HC3 as <-. simpl in H.
  apply bind_inv in H as (og & w4 & Hg & H).
  apply bind_inv in H as ([] & w5 & Hup & H).
  apply update_context_inv in Hup as (C4 & HC4 & ->).
  apply bind_inv in H as (g & w5' & Hd & H). apply deref_inv in Hd as [-> ->].
  unfold addContext in H.
  apply bind_inv in H as (G & w5' & HG & H). apply the_group_inv in HG as [HG ->].
  apply modify_inv in H as ->. simpl in HG.
  destruct sc as [s|].
  - apply get_shareGroup_inv in Hg as (SC3 & HSC3 & Hgs & ->). simpl in *.
    rewrite lookup_insert_eq in HC4. injection HC4 as <-.
    exists g, (set_shares (m_shares G ++ [c]) (int32 (m_refs G + 1)) (m_context G) G).
    simpl. split; [by rewrite insert_insert_eq |]. do 5 (split; [done |]).
    destruct (decide (s = c)) as [-> | Hne].
    + rewrite lookup_insert_eq in HSC3. injection HSC3 as <-. simpl in Hgs.
      exists C, G. done.
    + rewrite lookup_insert_ne in HSC3 by done. exists SC3, G. done.
  - apply bind_inv in Hg as (g' & w4' & Hnew & Hg). apply ret_inv in Hg as [Hg ->].
    injection Hg as ->.
    unfold new_QOpenGLContextGroup in Hnew.
    apply bind_inv in Hnew as (gs & wa & Hgs & Hnew). apply gets_inv in Hgs as [-> ->].
    apply bind_inv in Hnew as (q & wa & Hq & Hnew). apply gets_inv in Hq as [-> ->].
    cbv zeta in Hnew.
    apply bind_inv in Hnew as ([] & wa & Hst & Hnew). apply modify_inv in Hst as ->.
    apply ret_inv in Hnew as [-> ->]. simpl in *.
    rewrite lookup_insert_eq in HC4. injection HC4 as <-.
    rewrite lookup_insert_eq in HG. injection HG as <-.
    eexists _, _. simpl. split; [by rewrite insert_insert_eq |]. do 4 (split; [done |]).
    split; [by rewrite insert_insert_eq |].
    split; [done |]. split; [| done].
    apply not_elem_of_dom. apply is_fresh.
Qed.

Lemma create_spec t c made w b w' :
  create t c made w = Done b w' -> create_post t c made w b w'.
Proof.
  unfold create. intros H.
  apply bind_inv in H as (p0 & w0 & Hh & H). apply handle_inv in Hh as (C & HC & -> & ->).
  apply bind_inv in H as ([] & w1 & Hd & H).
  exists C, w1. split; [done |]. split.
  { destruct (platformGLContext C); [done |]. by apply ret_inv in Hd as [_ ->]. }
  destruct made as [P|]; [| by apply ret_inv in H as [-> ->]].
  apply bind_inv in H as (ps & w1' & Hps & H). apply gets_inv in Hps as [-> ->].
  cbv zeta in *.
  set (p := fresh (dom (platformContexts w1))) in *.
  apply bind_inv in H as ([] & w2 & Hm & H). apply modify_inv in Hm as ->.
  apply bind_inv in H as ([] & w3 & Ha & H).
  apply adopt_spec in Ha as Hpost. split.
  - apply isValid_reads in H as Hw. by subst w'.
  - destruct Hpost as (C1 & P1 & HC1 & HP1 & g & G' & Hctx & Hpc & _).
    simpl in HP1. rewrite lookup_insert_eq in HP1. injection HP1 as <-.
    unfold isValid in H.
    apply bind_inv in H as (C3 & w3' & HC3 & H). apply the_context_inv in HC3 as [HC3 ->].
    rewrite Hctx, lookup_insert_eq in HC3. injection HC3 as <-. simpl in H.
    apply bind_inv in H as (P3 & w3' & HP3 & H).
    apply the_platformContext_inv in HP3 as [HP3 ->].
    rewrite Hpc in HP3. simpl in HP3. rewrite lookup_insert_eq in HP3. injection HP3 as <-.
    by apply ret_inv in H as [-> _].
Qed.

Lemma adopt_returns t c p w C P :
  contexts w !! c = Some C -> platformContexts w !! p = Some P ->
  share_context_ok w C P ->
  exists w', adopt t c p w = Done tt w'.
Proof.
  intros HC HP Hok.
  cut (returns (adopt t c p) w (fun _ _ => True)).
  { intros ([] & w' & H & _). eauto. }
  unfold adopt. returns_step. eapply returns_update_context; [done |].
  returns_step. eapply returns_the_platformContext; [done |].
  do 5 returns_step.
  set (C1 := set_platformGLContext (Some p) C).
  set (w2 := set_log _ _).
  assert (Hc2 : contexts w2 = <[c := C1]> (contexts w)) by done.
  assert (Hg2 : groups w2 = groups w) by done.
  clearbody w2.
  set (sc := if platform_isSharing P then shareContext C else None).
  assert (Hsh : returns (if negb (platform_isSharing P)
                         then update_context c (set_shareContext None) else ret tt) w2
            (fun _ w3 => contexts w3 = <[c := set_shareContext sc C1]> (contexts w) /\
                         groups w3 = groups w)).
  { subst sc. destruct (platform_isSharing P); simpl.
    - returns_step. split; [| done]. rewrite Hc2. by destruct C.
    - eapply returns_update_context; [by rewrite Hc2, lookup_insert_eq |].
      simpl. by rewrite Hc2, insert_insert_eq. }
  eapply returns_mono; [exact Hsh |]. intros [] w3 (Hc3 & Hg3).
  returns_step. eapply returns_get_shareContext; [by rewrite Hc3, lookup_insert_eq |].
  simpl. returns_step. unfold share_context_ok in Hok. fold sc in Hok.
  assert (Hgrp : returns (match sc with
                          | Some sc0 => get_shareGroup sc0
                          | None => let! g := new_QOpenGLContextGroup t in ret (Some g)
                          end) w3
            (fun og w4 => exists g, og = Some g /\ is_Some (groups w4 !! g) /\
                                    contexts w4 = contexts w3)).
  { destruct sc as [s|].
    - destruct Hok as (SC & g & HSC & Hg & Hlive).
      destruct (decide (s = c)) as [-> | Hne].
      + eapply returns_get_shareGroup; [by rewrite Hc3, lookup_insert_eq |].
        simpl. exists g. assert (SC = C) as -> by congruence. by rewrite Hg3.
      + eapply returns_get_shareGroup; [by rewrite Hc3, lookup_insert_ne |].
        exists g. by rewrite Hg3.
    - unfold new_QOpenGLContextGroup. repeat returns_step.
      eexists. split; [done |]. simpl. rewrite lookup_insert_eq.
      split; [by eexists | done]. }
  eapply returns_mono; [exact Hgrp |]. intros og w4 (g & -> & [G HG] & Hc4).
  returns_step. eapply returns_update_context; [by rewrite Hc4, Hc3, lookup_insert_eq |].
  returns_step. eapply returns_deref; [done |].
  unfold addContext. returns_step. eapply returns_the_group; [done |].
  by apply returns_modify.
Qed.

Lemma create_returns_fresh t c made w C :
  contexts w !! c = Some C -> platformGLContext C = None ->
  (forall P, made = Some P -> share_context_ok w C P) ->
  exists b w', create t c made w = Done b w'.
Proof.
  intros HC Hp Hok.
  cut (returns (create t c made) w (fun _ _ => True)).
  { intros (b & w' & H & _). eauto. }
  unfold create. returns_step. eapply returns_handle; [done |]. rewrite Hp.
  do 2 returns_step. destruct made as [P|]; [| by returns_step].
  do 4 returns_step.
  set (p := fresh (dom (platformContexts w))).
  destruct (adopt_returns t c p (set_platformContexts <[p := P]> w) C P) as (w3 & Ha).
  - done.
  - simpl. apply lookup_insert_eq.
  - by apply Hok.
  - returns_step. exists tt, w3. split; [exact Ha |].
    apply adopt_spec in Ha as (C1 & P1 & HC1 & HP1 & g & G' & Hctx & Hpc & _).
    eapply returns_isValid; [by rewrite Hctx, lookup_insert_eq |]. simpl.
    exists P. split; [| done]. rewrite Hpc. simpl. apply lookup_insert_eq.
Qed.

(** ** destroy returns *)

Lemma invalidate_all_returns l w :
  (forall r, r ∈ l -> is_Some (resources w !! r)) ->
  returns (invalidate_all l) w
    (fun _ w' => groups w' = groups w /\ dom (resources w') = dom (resources w)).
Proof.
  revert w. induction l as [|r l IH]; intros w Hlive; simpl.
  - by returns_step.
  - destruct (Hlive r) as [R HR]; [set_solver |].
    returns_step. eapply returns_the_resource; [done |].
    do 4 returns_step.
    eapply returns_mono.
    + apply IH. intros r' Hr'. simpl.
      destruct (decide (r' = r)) as [-> | Hne].
      * rewrite lookup_insert_eq. by eexists.
      * rewrite lookup_insert_ne by done. apply Hlive. set_solver.
    + intros [] w' (Hg & Hd). simpl in *. split; [done |]. rewrite Hd.
      rewrite dom_insert_L. apply elem_of_dom_2 in HR.
      apply subseteq_union_1_L. by apply singleton_subseteq_l.
Qed.

Lemma qDeleteAll_returns l w :
  NoDup l -> (forall r, r ∈ l -> is_Some (resources w !! r)) ->
  returns (qDeleteAll l) w (fun _ w' => groups w' = groups w).
Proof.
  revert w. induction l as [|r l IH]; intros w Hnd Hlive; simpl.
  - by returns_step.
  - destruct (Hlive r) as [R HR]; [set_solver |].
    apply NoDup_cons in Hnd as [Hr Hnd].
    returns_step. eapply returns_the_resource; [done |].
    do 2 returns_step.
    eapply returns_mono.
    + apply IH; [done |]. intros r' Hr'. simpl.
      rewrite lookup_delete_ne by set_solver. apply Hlive. set_solver.
    + intros [] w' Hg. done.
Qed.

Lemma returns_update_group g f w G (Q : unit -> World -> Prop) :
  groups w !! g = Some G -> Q tt (set_groups <[g := f G]> w) ->
  returns (update_group g f) w Q.
Proof.
  intros HG HQ. unfold update_group. returns_step. eapply returns_the_group; [done |].
  by returns_step.
Qed.

Lemma cleanup_returns t g w G :
  groups w !! g = Some G -> group_disposable w G ->
  returns (cleanup t g) w
    (fun _ w' => exists G', groups w' !! g = Some G' /\
       forall w'', groups w'' = groups w' -> group_disposable w'' G').
Proof.
  intros HG (Hres & Hnd & Hpl & Hsl).
  unfold cleanup. returns_step. eapply returns_the_group; [done |]. rewrite Hres.
  cbn [cleanup_resources]. repeat returns_step.
  eapply returns_update_group; [done |].
  returns_step. eapply returns_the_group; [simpl; apply lookup_insert_eq |].
  returns_step. cbn [m_sharedResources set_m_resources].
  eapply returns_mono.
  { apply invalidate_all_returns. intros r Hr. simpl. by apply Hsl. }
  intros [] w3 (Hg3 & Hd3). simpl in Hg3, Hd3.
  returns_step. eapply returns_update_group; [by rewrite Hg3, lookup_insert_eq |].
  returns_step. eapply returns_the_group; [simpl; apply lookup_insert_eq |].
  returns_step. cbn [m_pendingDeletion set_sharedResources set_m_resources].
  eapply returns_mono.
  { apply qDeleteAll_returns; [done |]. intros r Hr. simpl.
    apply elem_of_dom. rewrite Hd3. apply elem_of_dom. by apply Hpl. }
  intros [] w5 Hg5. simpl in Hg5.
  eapply returns_update_group; [by rewrite Hg5, lookup_insert_eq |].
  eexists. simpl. rewrite lookup_insert_eq. split; [reflexivity |].
  intros w'' _. split; [done |]. split; [apply NoDup_nil_2 |]. split.
  - intros r Hr. by apply elem_of_nil in Hr.
  - intros r Hr. by apply elem_of_nil in Hr.
Qed.

Lemma removeContext_returns t g c w G :
  groups w !! g = Some G ->
  (int32 (m_refs G - 1) <> 0 \/ group_disposable w G) ->
  exists w', removeContext t g c w = Done tt w'.
Proof.
  intros HG Hok.
  cut (returns (removeContext t g c) w (fun _ _ => True)).
  { intros ([] & w' & H & _). eauto. }
  unfold removeContext. returns_step. eapply returns_the_group; [done |].
  repeat returns_step.
  destruct (decide (int32 (m_refs G - 1) = 0)) as [H0 | Hn0]; [| by returns_step].
  destruct Hok as [Hn0 | Hdisp]; [done |].
  returns_step. eapply returns_mono.
  { eapply cleanup_returns; [simpl; apply lookup_insert_eq |].
    unfold group_disposable in *. simpl. exact Hdisp. }
  intros [] w2 (G' & HG' & Hdisp'). simpl.
  returns_step. eapply returns_the_group; [done |]. repeat returns_step.
  destruct (decide (group_thread G' = currentThread_of w2 t)); [| by returns_step].
  returns_step. eapply returns_mono.
  { eapply cleanup_returns; [done |]. by apply Hdisp'. }
  intros [] w3 _. by returns_step.
Qed.

Lemma context_ok_frame w w' C :
  platformContexts w' = platformContexts w -> groups w' = groups w ->
  resources w' = resources w -> context_ok w C -> context_ok w' C.
Proof.
  intros Hp Hg Hr. unfold context_ok, drainable. by rewrite Hp, Hg, Hr.
Qed.

Lemma destroy_returns t c w C :
  contexts w !! c = Some C -> destroy_ok w C ->
  exists w', destroy t c w = Done tt w'.
Proof.
  intros HC (Hok & Hhelp & Hgrp).
  cut (returns (destroy t c) w (fun _ _ => True)).
  { intros ([] & w' & H & _). eauto. }
  unfold destroy. returns_step. eapply returns_handle; [done |]. returns_step.
  assert (Hsig : returns (match platformGLContext C with
                          | Some _ => emit (signal_aboutToBeDestroyed c)
                          | None => ret tt
                          end) w
            (fun _ w1 => exists f, w1 = set_log f w)).
  { destruct (platformGLContext C); returns_step; [by eexists |].
    exists (fun l => l). by destruct w. }
  eapply returns_mono; [exact Hsig |]. intros [] w1 (f & ->).
  destruct (teardown_Done c (set_log f w) C HC Hhelp) as (wa & Hih & Htd).
  returns_step. exists tt, wa. split; [exact Hih |].
  returns_step. exists tt, (teardown c C (set_log f w)). split; [exact Htd |].
  clear wa Hih Htd.
  set (wt := teardown c C (set_log f w)).
  assert (HCt : contexts wt !! c = Some (torn_down C)) by (simpl; apply lookup_insert_eq).
  returns_step. apply returns_currentContext. returns_step.
  assert (Hok1 : context_ok wt (torn_down C)).
  { apply (context_ok_frame w wt); done. }
  assert (Hdc : returns (if decide (current wt t = Some c)
                         then doneCurrent t c else ret tt) wt
            (fun _ w2 => exists C2, contexts w2 !! c = Some C2 /\
               shareGroup C2 = shareGroup C /\ platformGLContext C2 = platformGLContext C /\
               platformContexts w2 = platformContexts w /\
               match shareGroup C with
               | None => True
               | Some g => exists G2, groups w2 !! g = Some G2 /\
                   (int32 (m_refs G2 - 1) <> 0 \/ group_disposable w2 G2)
               end)).
  { destruct (decide (current wt t = Some c)).
    2:{ returns_step. exists (torn_down C). do 4 (split; [done |]).
        destruct (shareGroup C) as [g|]; [| done].
        destruct Hgrp as (G & HG & Hor). exists G. split; [done |].
        destruct Hor as [Hn | Hd]; [by left | right].
        unfold group_disposable in *. simpl. exact Hd. }
    eapply returns_mono; [by apply (doneCurrent_returns t c wt (torn_down C)) |].
    intros [] w2 Hpost. simpl in Hpost.
    destruct Hpost
      as [(Hv & ->) | (Hv & C' & p & HC' & Hp & _ & _ & Hctx & Hpc & _ & _ & tls & _ & Hcase)].
    - exists (torn_down C). do 4 (split; [done |]).
      destruct (shareGroup C) as [g|]; [| done].
      destruct Hgrp as (G & HG & Hor). exists G. split; [done |].
      destruct Hor as [Hn | Hd]; [by left | right].
      unfold group_disposable in *. simpl. exact Hd.
    - rewrite HCt in HC'. injection HC' as <-.
      exists (set_surface None (torn_down C)). split; [by rewrite Hctx, lookup_insert_eq |].
      do 3 (split; [done |]).
      destruct (shareGroup C) as [g|] eqn:HgC; [| done].
      destruct Hgrp as (G & HG & Hor).
      destruct Hcase as [(_ & g0 & G0 & Hg0 & HG0 & Hgr & Hres & _) | (_ & Hgr & Hres & _)].
      + simpl in Hg0. rewrite HgC in Hg0. injection Hg0 as <-.
        simpl in HG0. assert (G0 = G) as -> by congruence.
        exists (set_pendingDeletion [] G). split; [by rewrite Hgr, lookup_insert_eq |].
        destruct Hor as [Hn | (H1 & H2 & H3 & H4)]; [by left | right].
        split; [done |]. split; [apply NoDup_nil_2 |]. split.
        * intros r Hr. by apply elem_of_nil in Hr.
        * intros r Hr. simpl in *. split; [| by intros ?%elem_of_nil].
          rewrite Hres, lookup_foldl_delete. destruct (H4 r Hr) as [Hl Hn].
          by destruct (decide (r ∈ m_pendingDeletion G)).
      + exists G. split; [by rewrite Hgr |].
        destruct Hor as [Hn | (H1 & H2 & H3 & H4)]; [by left | right].
        simpl in Hres. repeat split; try done.
        * intros r Hr. rewrite Hres. by apply H3.
        * rewrite Hres. by apply H4.
        * by apply H4. }
  eapply returns_mono; [exact Hdc |].
  intros [] w2 (C2 & HC2 & Hg2 & Hp2 & Hpc2 & Hgrp2).
  returns_step. eapply returns_get_shareGroup; [done |]. rewrite Hg2. returns_step.
  assert (Hrm : returns (match shareGroup C with
                         | Some g => removeContext t g c
                         | None => ret tt
                         end) w2
            (fun _ w3 => contexts w3 = contexts w2 /\
                         platformContexts w3 = platformContexts w2)).
  { destruct (shareGroup C) as [g|]; [| by returns_step].
    destruct Hgrp2 as (G2 & HG2 & Hor).
    destruct (removeContext_returns t g c w2 G2 HG2 Hor) as (w3 & Hr).
    exists tt, w3. split; [done |].
    apply removeContext_spec in Hr as (_ & _ & Hk1 & Hk2 & _). done. }
  eapply returns_mono; [exact Hrm |]. intros [] w3 (Hc3 & Hpc3).
  returns_step. eapply returns_update_context; [by rewrite Hc3 |].
  returns_step. eapply returns_handle; [simpl; apply lookup_insert_eq |].
  simpl. rewrite Hp2. returns_step.
  assert (Hdel : returns (match platformGLContext C with
                          | Some p => the_platformContext p;;;
                                      emit (delete_platformContext p);;;
                                      modify (set_platformContexts (delete p))
                          | None => ret tt
                          end) (set_contexts <[c:=set_shareGroup None C2]> w3)
            (fun _ w5 => contexts w5 = <[c:=set_shareGroup None C2]> (contexts w3))).
  { destruct (platformGLContext C) as [p|] eqn:Hp; [| by returns_step].
    unfold context_ok in Hok. rewrite Hp in Hok. destruct Hok as ([P HP] & _).
    returns_step. eapply returns_the_platformContext; [simpl; by rewrite Hpc3, Hpc2 |].
    by repeat returns_step. }
  eapply returns_mono; [exact Hdel |]. intros [] w5 Hc5.
  eapply returns_update_context; [by rewrite Hc5, lookup_insert_eq |]. done.
Qed.

(** ** C5 *)

Lemma create_returns_again t c made w C :
  contexts w !! c = Some C -> destroy_ok w C ->
  (forall P, made = Some P -> platform_isSharing P = false) ->
  exists b w', create t c made w = Done b w'.
Proof.
  intros HC Hok Hns.
  destruct (platformGLContext C) as [p0|] eqn:Hp0.
  2:{ apply (create_returns_fresh t c made w C HC Hp0).
      intros P HP. unfold share_context_ok. by rewrite (Hns P HP). }
  destruct (destroy_returns t c w C HC Hok) as (w1 & Hd).
  pose proof (destroy_spec t c w tt w1 Hd) as (C0 & C1 & HC0 & Hctx & _).
  cut (returns (create t c made) w (fun _ _ => True)).
  { intros (b & w' & H & _). eauto. }
  unfold create. returns_step. eapply returns_handle; [exact HC |]. rewrite Hp0.
  returns_step. exists tt, w1. split; [exact Hd |].
  destruct made as [P|]; [| by returns_step].
  repeat returns_step.
  set (p := fresh (dom (platformContexts w1))).
  destruct (adopt_returns t c p (set_platformContexts <[p := P]> w1) C1 P) as (w3 & Ha).
  - simpl. by rewrite Hctx, lookup_insert_eq.
  - simpl. apply lookup_insert_eq.
  - unfold share_context_ok. by rewrite (Hns P eq_refl).
  - exists tt, w3. split; [exact Ha |].
    apply adopt_spec in Ha as (C2 & P2 & HC2 & HP2 & g & G' & Hctx2 & Hpc2 & _).
    eapply returns_isValid; [by rewrite Hctx2, lookup_insert_eq |]. simpl.
    exists P. split; [| done]. rewrite Hpc2. simpl. apply lookup_insert_eq.
Qed.

(** C5. create() passes on the failure to create a native context as its
    boolean result: when the platform integration produces no platform
    context it returns false and handle() is null afterwards; otherwise the
    result is isValid() of the platform context it has just adopted.  It
    returns for a context that was not created before, and for one that can
    be destroyed first and is then created without sharing. *)
Theorem create_propagates_failure
    (w : World) (t : thread_id) (c : ctx_ptr) (C : QOpenGLContext) :
  contexts w !! c = Some C ->
  (forall b w', create t c None w = Done b w' ->
     b = false /\ handle c w' = Done None w') /\
  (forall P b w', create t c (Some P) w = Done b w' ->
     b = platform_isValid P /\ isValid c w' = Done b w' /\
     exists p, handle c w' = Done (Some p) w' /\ platformContexts w' !! p = Some P) /\
  (forall made, platformGLContext C = None ->
     (forall P, made = Some P -> share_context_ok w C P) ->
     exists b w', create t c made w = Done b w') /\
  (forall made, destroy_ok w C ->
     (forall P, made = Some P -> platform_isSharing P = false) ->
     exists b w', create t c made w = Done b w').
Proof.
  intros HC. split; [| split; [| split]].
  - intros b w' H. apply create_spec in H as (C0 & w1 & HC0 & Hd & -> & ->).
    split; [done |]. assert (C0 = C) as -> by congruence.
    destruct (platformGLContext C) as [p|] eqn:Hp.
    + apply destroy_spec in Hd as (C1 & C2 & HC1 & Hctx & Hp2 & _).
      unfold handle, the_context, bind, gets, deref, ret.
      by rewrite Hctx, lookup_insert_eq, Hp2.
    + subst w1. unfold handle, the_context, bind, gets, deref, ret. by rewrite HC, Hp.
  - intros P b w' H. apply create_spec in H as (C0 & w1 & HC0 & Hd & Hpost & ->).
    cbv zeta in Hpost.
    destruct Hpost as (C1 & P1 & HC1 & HP1 & g & G' & Hctx & Hpc & _).
    simpl in HP1. rewrite lookup_insert_eq in HP1. injection HP1 as <-.
    set (p := fresh (dom (platformContexts w1))) in *.
    assert (HP' : platformContexts w' !! p = Some P).
    { rewrite Hpc. simpl. apply lookup_insert_eq. }
    split; [done |]. split.
    + unfold isValid, the_context, the_platformContext, bind, gets, deref, ret.
      rewrite Hctx, lookup_insert_eq. simpl. by rewrite HP'.
    + exists p. split; [| done].
      unfold handle, the_context, bind, gets, deref, ret.
      by rewrite Hctx, lookup_insert_eq.
  - intros made Hp Hok. by eapply create_returns_fresh.
  - intros made Hok Hns. by eapply create_returns_again.
Qed.

Lemma sample_group_disposable : group_disposable sample_world sample_group.
Proof.
  split; [reflexivity |]. split; [apply NoDup_singleton |]. split.
  - intros r Hr. apply list_elem_of_singleton in Hr as ->. by eexists.
  - intros r Hr. apply list_elem_of_singleton in Hr as ->.
    split; [by eexists |]. intros Hin. apply list_elem_of_singleton in Hin. discriminate Hin.
Defined.

Lemma sample_destroy_ok : destroy_ok sample_world sample_context.
Proof.
  split; [exact sample_context_ok |]. split; [by left |]. exists sample_group.
  split; [reflexivity |]. right. exact sample_group_disposable.
Defined.

Lemma create_propagates_failure_witness :
  exists w', create 1 0 None sample_world = Done false w' /\ handle 0 w' = Done None w'.
Proof.
  destruct (create_propagates_failure sample_world 1 0 sample_context eq_refl)
    as (Hnone & _ & _ & Hret).
  destruct (Hret None sample_destroy_ok) as (b & w' & H); [discriminate |].
  destruct (Hnone b w' H) as [-> Hh]. by exists w'.
Defined.

(** ** C8 *)

Lemma int32_small z : - 2 ^ 31 <= z < 2 ^ 31 -> int32 z = z.
Proof. intros Hz. unfold int32. rewrite Z.mod_small; lia. Qed.

Lemma removeOne_length c l : c ∈ l -> S (length (removeOne c l)) = length l.
Proof.
  induction l as [|x l IH]; intros Hin; [by apply elem_of_nil in Hin |].
  simpl. destruct (decide (c = x)) as [-> | Hne]; [done |].
  simpl. f_equal. apply IH. apply elem_of_cons in Hin as [-> | Hin]; done.
Qed.

Lemma removeOne_single c l : c ∈ l -> (removeOne c l = [] <-> l = [c]).
Proof.
  intros Hin. split.
  - intros Hr. pose proof (removeOne_length c l Hin) as Hl. rewrite Hr in Hl.
    destruct l as [|x [|y l]]; simpl in Hl; try discriminate Hl.
    apply list_elem_of_singleton in Hin. by subst.
  - intros ->. simpl. by rewrite decide_True.
Qed.

Lemma last_reference c G :
  counts_members G -> c ∈ m_shares G ->
  (int32 (m_refs G - 1) = 0 <-> m_shares G = [c]) /\
  int32 (m_refs G - 1) = Z.of_nat (length (removeOne c (m_shares G))).
Proof.
  intros (Hr & Hb) Hin. pose proof (removeOne_length c (m_shares G) Hin) as Hl.
  assert (Hi : int32 (m_refs G - 1) = Z.of_nat (length (removeOne c (m_shares G)))).
  { rewrite int32_small by lia. lia. }
  split; [| done]. rewrite Hi. rewrite <- (removeOne_single c _ Hin).
  destruct (removeOne c (m_shares G)); simpl; split; intros; try done; lia.
Qed.

Lemma create_joins_group_holds w t c C :
  contexts w !! c = Some C -> create_joins_group w t c C.
Proof.
  intros HC P b w' H. apply create_spec in H as (C0 & w1 & HC0 & Hd & Hpost & _).
  assert (C0 = C) as -> by congruence. clear HC0. cbv zeta in Hpost.
  set (p := fresh (dom (platformContexts w1))) in *.
  destruct Hpost as (C1 & P1 & HC1 & HP1 & g & G' & Hctx & _ & _ & _ & _ & Hgr & Hcase).
  simpl in HP1. rewrite lookup_insert_eq in HP1. injection HP1 as <-. simpl in HC1.
  assert (Hsc1 : shareContext C1 = shareContext C /\ (w1 = w \/ destroy t c w = Done tt w1)).
  { destruct (platformGLContext C) as [p0|].
    - split; [| by right].
      apply destroy_spec in Hd as (C2 & C3 & HC2 & Hctx3 & _ & _ & Hsc3 & _).
      rewrite Hctx3, lookup_insert_eq in HC1. congruence.
    - subst w1. split; [congruence | by left]. }
  destruct Hsc1 as (Hsc1 & Hw1). rewrite Hsc1 in Hcase, Hctx.
  exists w1, (adopted p (if platform_isSharing P then shareContext C else None) g C1), g, G'.
  split; [done |]. split; [by rewrite Hctx, lookup_insert_eq |]. split; [done |].
  split; [by rewrite Hgr, lookup_insert_eq |]. simpl in Hgr, Hcase.
  destruct (if platform_isSharing P then shareContext C else None) as [sc|].
  - destruct Hcase as (SC & G1 & HSC & Hg & HG1 & ->). simpl.
    split; [apply elem_of_app; right; by apply list_elem_of_singleton |].
    split; [done |].
    destruct (decide (sc = c)) as [-> | Hne].
    + eexists SC, _, G1. rewrite Hctx, lookup_insert_eq. done.
    + exists SC, SC, G1. rewrite Hctx, lookup_insert_ne by done. done.
  - destruct Hcase as (_ & Hnew & ->). simpl.
    split; [by apply list_elem_of_singleton |]. done.
Qed.

Lemma destroy_leaves_group_holds w t c C :
  contexts w !! c = Some C -> destroy_leaves_group w t c C.
Proof.
  intros HC w' H.
  apply destroy_spec in H
    as (C0 & C' & HC0 & Hctx & Hp' & Hg' & _ & _ & _ & _ & Hgrp).
  assert (C0 = C) as -> by congruence. clear HC0.
  split; [| split].
  - unfold get_shareGroup, the_context, bind, gets, deref, ret.
    by rewrite Hctx, lookup_insert_eq, Hg'.
  - unfold handle, the_context, bind, gets, deref, ret.
    by rewrite Hctx, lookup_insert_eq, Hp'.
  - intros g G Hg HG. rewrite Hg in Hgrp.
    destruct Hgrp as (G0 & HG0 & _ & Hrem). assert (G0 = G) as -> by congruence.
    split; [exact Hrem |]. intros Hcnt Hin.
    destruct (last_reference c G Hcnt Hin) as (Hlast & Hlen).
    unfold group_after_removal in Hrem.
    destruct (decide (m_shares G = [c])) as [Hone | Hmore].
    + rewrite decide_True in Hrem by (by apply Hlast).
      unfold group_disposed_of.
      destruct (decide (group_thread G = currentThread_of w t)) as [Hth | Hth].
      * left. by destruct Hrem.
      * right. destruct Hrem as (Hq & G' & HG' & Hsh & Hrf). split; [done |].
        split; [done |]. exists G'. split; [done |]. split; [| done].
        rewrite Hsh, Hone. simpl. by rewrite decide_True.
    + rewrite decide_False in Hrem by (by rewrite Hlast).
      destruct Hrem as (_ & G' & HG' & Hsh & Hrf & _).
      exists G'. split; [done |]. split; [done |].
      unfold counts_members. rewrite Hsh, Hrf, Hlen. split; [done |].
      destruct Hcnt as (_ & Hb). pose proof (removeOne_length c _ Hin). lia.
Qed.


Lemma removeOne_NoDup c l : NoDup l -> c ∉ removeOne c l.
Proof.
  induction l as [|y l IH]; simpl; intros Hnd; [by intros ?%elem_of_nil |].
  apply NoDup_cons in Hnd as [Hy Hnd].
  destruct (decide (c = y)) as [-> | Hne]; [done |].
  intros Hin. apply elem_of_cons in Hin as [-> | Hin]; [done |]. by apply IH.
Qed.

(** C8, as worded, fails: when destroy() runs in a thread that is not
    the group's own, the group whose last member leaves is handed to
    deleteLater() and is still there when destroy() returns. *)
Lemma last_member_claim_fails : ~ last_member_claim sample_world 2 0.
Proof.
  intros H.
  destruct (destroy 2 0 sample_world) as [[] w'| |] eqn:E;
    try (vm_compute in E; discriminate E).
  destruct (H sample_context 0%nat sample_group w' eq_refl eq_refl eq_refl eq_refl E)
    as (_ & Hgone).
  vm_compute in E. injection E as <-. vm_compute in Hgone. discriminate Hgone.
Qed.

(** C8, amended. Whenever create() has adopted a platform context,
    shareGroup() is non-null and the context is listed in the shares of that
    group.  If the platform context reports no sharing, shareContext() has
    been reset to null and the group is a new one holding this context
    alone; if it reports sharing with the share context, the context has
    been appended to the existing group of the share context.  destroy()
    takes the context out of its group's shares and leaves shareGroup() and
    handle() null.  When that was the last member and destroy() runs in the
    group's own thread, the group object is deleted; in any other thread it
    is handed to deleteLater() and is still there when destroy() returns,
    without member and without reference.  Both calls return when the
    objects they walk through are alive. *)
Theorem share_group_membership
    (w : World) (t : thread_id) (c : ctx_ptr) (C : QOpenGLContext) :
  contexts w !! c = Some C ->
  create_joins_group w t c C /\
  destroy_leaves_group w t c C /\
  (forall w' g G G', destroy t c w = Done tt w' -> shareGroup C = Some g ->
     groups w !! g = Some G -> groups w' !! g = Some G' -> NoDup (m_shares G) ->
     c ∉ m_shares G') /\
  (forall P, platformGLContext C = None -> share_context_ok w C P ->
     exists b w', create t c (Some P) w = Done b w') /\
  (destroy_ok w C -> exists w', destroy t c w = Done tt w').
Proof.
  intros HC. split; [by apply create_joins_group_holds |].
  split; [by apply destroy_leaves_group_holds |]. split; [| split].
  - intros w' g G G' H Hg HG HG' Hnd.
    destruct (destroy_leaves_group_holds w t c C HC w' H) as (_ & _ & Hrem).
    destruct (Hrem g G Hg HG) as (Hafter & _). unfold group_after_removal in Hafter.
    assert (Hsh : m_shares G' = removeOne c (m_shares G)).
    { destruct (decide (int32 (m_refs G - 1) = 0)).
      - destruct (decide (group_thread G = currentThread_of w t)).
        + destruct Hafter as (Hnone & _). congruence.
        + destruct Hafter as (_ & G2 & HG2 & Hsh & _). congruence.
      - destruct Hafter as (_ & G2 & HG2 & Hsh & _). congruence. }
    rewrite Hsh. by apply removeOne_NoDup.
  - intros P Hp Hok. apply (create_returns_fresh t c (Some P) w C HC Hp).
    intros P' HP'. by injection HP' as <-.
  - by apply destroy_returns.
Qed.

Lemma share_group_membership_witness :
  (exists w', destroy 1 0 sample_world = Done tt w' /\
              get_shareGroup 0 w' = Done None w' /\ groups w' !! 0%nat = None) /\
  (exists w' G', destroy 2 0 sample_world = Done tt w' /\
              get_shareGroup 0 w' = Done None w' /\ deleteLater_queue w' = [0%nat] /\
              groups w' !! 0%nat = Some G' /\ m_shares G' = []).
Proof.
  assert (Hcnt : counts_members sample_group) by (split; [reflexivity | reflexivity]).
  assert (Hin : 0%nat ∈ m_shares sample_group) by (by apply list_elem_of_singleton).
  split.
  - destruct (share_group_membership sample_world 1 0 sample_context eq_refl)
      as (_ & Hleave & _ & _ & Hret).
    destruct (Hret sample_destroy_ok) as (w' & H).
    destruct (Hleave w' H) as (Hnull & _ & Hrem).
    destruct (Hrem 0%nat sample_group eq_refl eq_refl) as (_ & Hlast).
    exists w'. split; [exact H |]. split; [exact Hnull |].
    specialize (Hlast Hcnt Hin). simpl in Hlast.
    destruct Hlast as [(_ & Hgone & _) | (Hne & _)]; [exact Hgone |].
    exfalso. by apply Hne.
  - destruct (share_group_membership sample_world 2 0 sample_context eq_refl)
      as (_ & Hleave & _ & _ & Hret).
    destruct (Hret sample_destroy_ok) as (w' & H).
    destruct (Hleave w' H) as (Hnull & _ & Hrem).
    destruct (Hrem 0%nat sample_group eq_refl eq_refl) as (_ & Hlast).
    specialize (Hlast Hcnt Hin). simpl in Hlast.
    destruct Hlast as [(Heq & _) | (_ & Hq & G' & HG' & Hsh & _)]; [discriminate Heq |].
    exists w', G'. split; [exact H |]. split; [exact Hnull |]. done.
Defined.

(** * The sample world arises from a run *)

Lemma sample_run_reaches_sample_world :
  exists w, sample_run empty_world = Done tt w /\
    contexts w = contexts sample_world /\ groups w = groups sample_world /\
    resources w = resources sample_world /\
    platformContexts w = platformContexts sample_world /\
    qwindow_context_storage w = qwindow_context_storage sample_world /\
    deleteLater_queue w = [] /\
    log w = [call_setContext 0 0; call_initialize 0].
Proof. eexists. split; [vm_compute; reflexivity |]. by vm_compute. Qed.

(** A context created with a share context joins its group when the
    platform shares, and gets a group of its own when it does not. *)
Lemma sharing_run_shares :
  (exists w, sharing_run 0 true sample_world = Done true w /\
     forall G, groups w !! 0%nat = Some G -> m_shares G = [0%nat; 1%nat] /\ m_refs G = 2) /\
  (exists w, sharing_run 0 false sample_world = Done false w /\
     forall G, groups w !! 0%nat = Some G -> m_shares G = [0%nat] /\ m_refs G = 1).
Proof.
  split; (eexists; split; [vm_compute; reflexivity |]);
    intros G HG; vm_compute in HG; by injection HG as <-.
Qed.

(** * Effects of the member functions

    Each lemma of this section says which kinds of writes a function can
    perform: a relation that is reflexive, transitive and kept by these
    writes is kept by the function. *)

Create HintDb effects.

Section Effects.
Variable R : World -> World -> Prop.
Variable t : thread_id.
Variable ok : Event -> Prop.
Hypothesis R_refl : forall w, R w w.
Hypothesis R_trans : forall w1 w2 w3, R w1 w2 -> R w2 w3 -> R w1 w3.
Hypothesis R_emit : forall e w, ok e -> R w (set_log (fun l => l ++ [e]) w).
Hypothesis R_context : forall c C w, R w (set_contexts <[c := C]> w).
Hypothesis R_context_delete : forall c w, R w (set_contexts (delete c) w).
Hypothesis R_group : forall g G w, R w (set_groups <[g := G]> w).
Hypothesis R_group_delete : forall g w, R w (set_groups (delete g) w).
Hypothesis R_resource : forall r X w, R w (set_resources <[r := X]> w).
Hypothesis R_resource_delete : forall r w, R w (set_resources (delete r) w).
Hypothesis R_multi : forall m X w, R w (set_multiResources <[m := X]> w).
Hypothesis R_multi_delete : forall m w, R w (set_multiResources (delete m) w).
Hypothesis R_platform : forall p P w, R w (set_platformContexts <[p := P]> w).
Hypothesis R_platform_delete : forall p w, R w (set_platformContexts (delete p) w).
Hypothesis R_storage : forall v w, R w (set_storage <[t := v]> w).
Hypothesis R_statics : forall a b w, R w (set_needsWorkaround a b w).
Hypothesis R_tracker : forall f w, R w (set_makeCurrentTracker f w).
Hypothesis R_later : forall f w, R w (set_deleteLater_queue f w).
Hypothesis ok_qWarning : forall s, ok (qWarning s).
Hypothesis ok_qWarning_surface : forall m s, ok (qWarning_surface m s).
Hypothesis ok_glGetString : ok call_glGetString_GL_RENDERER.
Hypothesis ok_textureFunctionsDestroyCallback :
  forall f, ok (call_textureFunctionsDestroyCallback f).
Hypothesis ok_vaoHelperDestroyCallback : forall f h, ok (call_vaoHelperDestroyCallback f h).
Hypothesis ok_delete_versionFunctions : forall v, ok (delete_versionFunctions v).
Hypothesis ok_aboutToBeDestroyed : forall c, ok (signal_aboutToBeDestroyed c).
Hypothesis ok_setContext : forall p c, ok (call_setContext p c).
Hypothesis ok_initialize : forall p, ok (call_initialize p).
Hypothesis ok_makeCurrent : forall p h b, ok (call_makeCurrent p h b).
Hypothesis ok_doneCurrent : forall p, ok (call_doneCurrent p).
Hypothesis ok_swapBuffers : forall p h, ok (call_swapBuffers p h).
Hypothesis ok_glFlush : ok call_glFlush.
Hypothesis ok_freeResource : forall r c, ok (call_freeResource r c).
Hypothesis ok_invalidateResource : forall r, ok (call_invalidateResource r).
Hypothesis ok_delete_platformContext : forall p, ok (delete_platformContext p).

Lemma preserves_bind {A B} (m : M A) (k : A -> M B) :
  preserves R m -> (forall a, preserves R (k a)) -> preserves R (bind m k).
Proof.
  intros Hm Hk w b w' H. apply bind_inv in H as (a & w1 & H1 & H2).
  eapply R_trans; [by eapply Hm | by eapply Hk].
Qed.

Lemma preserves_ret {A} (a : A) : preserves R (ret a).
Proof. intros w b w' H. apply ret_inv in H as [_ ->]. apply R_refl. Qed.

Lemma preserves_gets {A} (f : World -> A) : preserves R (gets f).
Proof. intros w b w' H. apply gets_inv in H as [_ ->]. apply R_refl. Qed.

Lemma preserves_deref {A} (o : option A) : preserves R (deref o).
Proof. intros w b w' H. apply deref_inv in H as [_ ->]. apply R_refl. Qed.

Lemma preserves_qFatal {A} : preserves R (@qFatal A).
Proof. intros w b w' H. discriminate H. Qed.

Lemma preserves_undefined {A} : preserves R (@undefined A).
Proof. intros w b w' H. discriminate H. Qed.

Lemma preserves_modify f : (forall w, R w (f w)) -> preserves R (modify f).
Proof. intros Hf w b w' H. apply modify_inv in H as ->. apply Hf. Qed.

Lemma preserves_emit e : ok e -> preserves R (emit e).
Proof. intros He. apply preserves_modify. intros w. by apply R_emit. Qed.

Ltac effects :=
  repeat first
    [ progress cbv beta zeta
    | match goal with
      | |- preserves _ (bind _ _) => apply preserves_bind; [| intros ?]
      | |- preserves _ (ret _) => apply preserves_ret
      | |- preserves _ (gets _) => apply preserves_gets
      | |- preserves _ (deref _) => apply preserves_deref
      | |- preserves _ qFatal => apply preserves_qFatal
      | |- preserves _ undefined => apply preserves_undefined
      | |- preserves _ (emit _) => apply preserves_emit; solve [auto]
      | |- preserves _ (modify _) => apply preserves_modify; solve [auto]
      | |- preserves _ (if ?b then _ else _) => destruct b
      | |- preserves _ (match ?x with _ => _ end) => destruct x
      end
    | solve [eauto 2 with effects] ].

Lemma preserves_the_context c : preserves R (the_context c).
Proof. unfold the_context. effects. Qed.
Local Hint Resolve preserves_the_context : effects.
Lemma preserves_the_group g : preserves R (the_group g).
Proof. unfold the_group. effects. Qed.
Local Hint Resolve preserves_the_group : effects.
Lemma preserves_the_resource r : preserves R (the_resource r).
Proof. unfold the_resource. effects. Qed.
Local Hint Resolve preserves_the_resource : effects.
Lemma preserves_the_multiResource m : preserves R (the_multiResource m).
Proof. unfold the_multiResource. effects. Qed.
Local Hint Resolve preserves_the_multiResource : effects.
Lemma preserves_the_platformContext p : preserves R (the_platformContext p).
Proof. unfold the_platformContext. effects. Qed.
Local Hint Resolve preserves_the_platformContext : effects.
Lemma preserves_the_surface s : preserves R (the_surface s).
Proof. unfold the_surface. effects. Qed.
Local Hint Resolve preserves_the_surface : effects.

Ltac effects_of f := unfold f; effects.

Lemma preserves_handle c : preserves R (handle c).
Proof. effects_of handle. Qed.
Local Hint Resolve preserves_handle : effects.
Lemma preserves_get_shareGroup c : preserves R (get_shareGroup c).
Proof. effects_of get_shareGroup. Qed.
Local Hint Resolve preserves_get_shareGroup : effects.
Lemma preserves_get_shareContext c : preserves R (get_shareContext c).
Proof. effects_of get_shareContext. Qed.
Local Hint Resolve preserves_get_shareContext : effects.
Lemma preserves_get_surface c : preserves R (get_surface c).
Proof. effects_of get_surface. Qed.
Local Hint Resolve preserves_get_surface : effects.
Lemma preserves_isValid c : preserves R (isValid c).
Proof. effects_of isValid. Qed.
Local Hint Resolve preserves_isValid : effects.
Lemma preserves_currentContext t' : preserves R (currentContext t').
Proof. unfold currentContext, localData. effects. Qed.
Local Hint Resolve preserves_currentContext : effects.
Lemma preserves_update_context c f : preserves R (update_context c f).
Proof. unfold update_context, store_context. effects. Qed.
Local Hint Resolve preserves_update_context : effects.
Lemma preserves_update_group g f : preserves R (update_group g f).
Proof. unfold update_group, store_group. effects. Qed.
Local Hint Resolve preserves_update_group : effects.

Lemma preserves_setCurrentContext ctx : preserves R (setCurrentContext t ctx).
Proof. unfold setCurrentContext, localData, QThread_currentThread. effects. Qed.
Local Hint Resolve preserves_setCurrentContext : effects.

Lemma preserves_freeResources l c : preserves R (freeResources l c).
Proof. induction l as [| r l IH]; simpl; effects. Qed.
Local Hint Resolve preserves_freeResources : effects.

Lemma preserves_deletePendingResources g c : preserves R (deletePendingResources g c).
Proof.
  unfold deletePendingResources, store_group. effects.
Qed.
Local Hint Resolve preserves_deletePendingResources : effects.

Lemma preserves_free r : preserves R (free t r).
Proof. unfold free, store_group. effects. Qed.
Local Hint Resolve preserves_free : effects.

Lemma preserves_doneCurrent c : preserves R (doneCurrent t c).
Proof. effects_of doneCurrent. Qed.
Local Hint Resolve preserves_doneCurrent : effects.

Lemma preserves_toggleMakeCurrentTracker c b : preserves R (toggleMakeCurrentTracker c b).
Proof. effects_of toggleMakeCurrentTracker. Qed.
Local Hint Resolve preserves_toggleMakeCurrentTracker : effects.

Lemma preserves_get_functions c : preserves R (get_functions t c).
Proof. unfold get_functions, store_context. effects. Qed.
Local Hint Resolve preserves_get_functions : effects.

Lemma preserves_assign_needsWorkaround v : preserves R (assign_needsWorkaround v).
Proof. unfold assign_needsWorkaround. apply preserves_modify. intros w. apply R_statics. Qed.
Local Hint Resolve preserves_assign_needsWorkaround : effects.

Lemma preserves_decide_needsWorkaround c : preserves R (decide_needsWorkaround t c).
Proof. unfold decide_needsWorkaround. effects. Qed.
Local Hint Resolve preserves_decide_needsWorkaround : effects.

Lemma preserves_makeCurrent c s : preserves R (makeCurrent t c (Some s)).
Proof. unfold makeCurrent, QThread_currentThread. effects. Qed.
Local Hint Resolve preserves_makeCurrent : effects.

Lemma preserves_makeCurrent_null c : preserves R (makeCurrent t c None).
Proof. unfold makeCurrent, QThread_currentThread. effects. Qed.
Local Hint Resolve preserves_makeCurrent_null : effects.

Lemma preserves_swapBuffers c surf : preserves R (swapBuffers t c surf).
Proof. effects_of swapBuffers. Qed.
Local Hint Resolve preserves_swapBuffers : effects.

Lemma preserves_addContext g c : preserves R (addContext g c).
Proof. unfold addContext, store_group. effects. Qed.
Local Hint Resolve preserves_addContext : effects.

Lemma preserves_multiGroup_cleanup m g v : preserves R (multiGroup_cleanup t m g v).
Proof. unfold multiGroup_cleanup, store_multiResource. effects. Qed.
Local Hint Resolve preserves_multiGroup_cleanup : effects.

Lemma preserves_cleanup_resources g l : preserves R (cleanup_resources t g l).
Proof.
  induction l as [| [m v] l IH]; simpl; effects.
Qed.
Local Hint Resolve preserves_cleanup_resources : effects.

Lemma preserves_invalidate_all l : preserves R (invalidate_all l).
Proof. induction l as [| r l IH]; simpl; unfold store_resource; effects. Qed.
Local Hint Resolve preserves_invalidate_all : effects.

Lemma preserves_qDeleteAll l : preserves R (qDeleteAll l).
Proof. induction l as [| r l IH]; simpl; effects. Qed.
Local Hint Resolve preserves_qDeleteAll : effects.

Lemma preserves_cleanup g : preserves R (cleanup t g).
Proof.
  unfold cleanup. effects.
Qed.
Local Hint Resolve preserves_cleanup : effects.

Lemma preserves_removeContext g c : preserves R (removeContext t g c).
Proof.
  unfold removeContext, store_group, QThread_currentThread.
  effects.
Qed.
Local Hint Resolve preserves_removeContext : effects.

Lemma preserves_new_QOpenGLContextGroup : preserves R (new_QOpenGLContextGroup t).
Proof. unfold new_QOpenGLContextGroup, store_group, QThread_currentThread. effects. Qed.
Local Hint Resolve preserves_new_QOpenGLContextGroup : effects.

Lemma preserves_adopt c p : preserves R (adopt t c p).
Proof.
  unfold adopt. effects.
Qed.
Local Hint Resolve preserves_adopt : effects.

Lemma preserves_delete_the_versionFunctions c : preserves R (delete_the_versionFunctions c).
Proof. unfold delete_the_versionFunctions. effects. Qed.
Local Hint Resolve preserves_delete_the_versionFunctions : effects.

Lemma preserves_invalidate_helpers c : preserves R (invalidate_helpers c).
Proof. unfold invalidate_helpers. effects. Qed.
Local Hint Resolve preserves_invalidate_helpers : effects.

Lemma preserves_tear_down_function_wrappers c : preserves R (tear_down_function_wrappers c).
Proof. unfold tear_down_function_wrappers. effects. Qed.
Local Hint Resolve preserves_tear_down_function_wrappers : effects.

Lemma preserves_destroy c : preserves R (destroy t c).
Proof. unfold destroy. effects. Qed.
Local Hint Resolve preserves_destroy : effects.

Lemma preserves_create c made : preserves R (create t c made).
Proof. unfold create. effects. Qed.
Local Hint Resolve preserves_create : effects.

Lemma preserves_new_QOpenGLSharedResource g : preserves R (new_QOpenGLSharedResource g).
Proof. unfold new_QOpenGLSharedResource, store_resource, store_group. effects. Qed.
Local Hint Resolve preserves_new_QOpenGLSharedResource : effects.

Lemma preserves_new_QOpenGLContext : preserves R (new_QOpenGLContext t).
Proof. unfold new_QOpenGLContext, store_context, QThread_currentThread. effects. Qed.

Lemma preserves_setShareContext c sc : preserves R (setShareContext c sc).
Proof. effects_of setShareContext. Qed.

Lemma preserves_setTextureFunctions c h f : preserves R (setTextureFunctions c h f).
Proof. unfold setTextureFunctions, store_context. effects. Qed.

Lemma preserves_get_textureFunctions c : preserves R (get_textureFunctions c).
Proof. effects_of get_textureFunctions. Qed.

Lemma preserves_shareHandle c : preserves R (shareHandle c).
Proof. effects_of shareHandle. Qed.

Lemma preserves_shares g : preserves R (shares g).
Proof. effects_of shares. Qed.

Lemma preserves_currentContextGroup t' : preserves R (currentContextGroup t').
Proof. effects_of currentContextGroup. Qed.

Lemma preserves_delete_QOpenGLContext c : preserves R (delete_QOpenGLContext t c).
Proof. unfold delete_QOpenGLContext, cleanMakeCurrentTracker. effects. Qed.

Lemma preserves_new_QOpenGLMultiGroupSharedResource :
  preserves R new_QOpenGLMultiGroupSharedResource.
Proof. unfold new_QOpenGLMultiGroupSharedResource, store_multiResource. effects. Qed.

Lemma preserves_multiGroup_insert m c v : preserves R (multiGroup_insert m c v).
Proof. unfold multiGroup_insert, store_group, store_multiResource. effects. Qed.

Lemma preserves_multiGroup_value m c : preserves R (multiGroup_value m c).
Proof. effects_of multiGroup_value. Qed.
Local Hint Resolve preserves_multiGroup_value : effects.

Lemma preserves_collect_resources m gs : preserves R (collect_resources m gs).
Proof. induction gs as [| g gs IH]; simpl; effects. Qed.
Local Hint Resolve preserves_collect_resources : effects.

Lemma preserves_multiGroup_resources m : preserves R (multiGroup_resources m).
Proof. effects_of multiGroup_resources. Qed.

Lemma preserves_release_groups m gs : preserves R (release_groups t m gs).
Proof. induction gs as [| g gs IH]; simpl; unfold store_multiResource; effects. Qed.
Local Hint Resolve preserves_release_groups : effects.

Lemma preserves_delete_QOpenGLMultiGroupSharedResource m :
  preserves R (delete_QOpenGLMultiGroupSharedResource t m).
Proof. effects_of delete_QOpenGLMultiGroupSharedResource. Qed.
End Effects.

(** * Relations kept by the writes *)

Lemma other_threads_keep_refl t w : other_threads_keep t w w.
Proof. by intros t' _. Qed.

Lemma other_threads_keep_trans t w1 w2 w3 :
  other_threads_keep t w1 w2 -> other_threads_keep t w2 w3 -> other_threads_keep t w1 w3.
Proof. intros H1 H2 t' Hne. by rewrite H2, H1. Qed.

Lemma other_threads_keep_storage t v w : other_threads_keep t w (set_storage <[t := v]> w).
Proof. intros t' Hne. unfold current. simpl. by rewrite lookup_insert_ne. Qed.

Ltac thread_local :=
  first [ apply other_threads_keep_refl | apply other_threads_keep_trans
        | apply other_threads_keep_storage | by intros; intros ? ? | done ].

Lemma log_grows_by_refl ok w : log_grows_by ok w w.
Proof. exists []. split; [by rewrite app_nil_r | constructor]. Qed.

Lemma log_grows_by_trans ok w1 w2 w3 :
  log_grows_by ok w1 w2 -> log_grows_by ok w2 w3 -> log_grows_by ok w1 w3.
Proof.
  intros (e1 & H1 & F1) (e2 & H2 & F2). exists (e1 ++ e2).
  split; [by rewrite H2, H1, app_assoc | by apply Forall_app].
Qed.

Lemma log_grows_by_emit (ok : Event -> Prop) e w :
  ok e -> log_grows_by ok w (set_log (fun l => l ++ [e]) w).
Proof. intros He. exists [e]. split; [done | by repeat constructor]. Qed.

Lemma log_grows_by_same ok w w' : log w' = log w -> log_grows_by ok w w'.
Proof. intros H. exists []. split; [by rewrite app_nil_r | constructor]. Qed.


Lemma same_objects_refl w : same_objects w w.
Proof. by repeat split. Qed.

Lemma same_objects_trans w1 w2 w3 : same_objects w1 w2 -> same_objects w2 w3 -> same_objects w1 w3.
Proof.
  intros (A2 & A3 & A4 & A5 & A6 & A7 & A8) (B2 & B3 & B4 & B5 & B6 & B7 & B8).
  repeat split; congruence.
Qed.

Lemma same_objects_swapBuffers t c surf : preserves same_objects (swapBuffers t c surf).
Proof.
  apply (preserves_swapBuffers _ t (fun _ => True));
    first [ apply same_objects_refl | apply same_objects_trans | done
          | by intros; repeat split ].
Qed.

Lemma swapBuffers_contexts t c surf w u w' :
  swapBuffers t c surf w = Done u w' ->
  at_most_functions t c w w' /\
  (contexts w' <> contexts w ->
   exists s sf, surf = Some s /\ surfaces w !! s = Some sf /\ singleBuffer sf = true /\
                call_glFlush ∈ added w w').
Proof.
  intros H. pose proof H as Hspec. apply swapBuffers_spec in Hspec as (evs & Hlog & _).
  unfold swapBuffers in H.
  apply bind_inv in H as (valid & w1 & Hv & H).
  apply isValid_reads in Hv as Hw. subst w1.
  assert (Hsame : forall w0, w0 = w \/ (exists e, w0 = set_log (fun l => l ++ [e]) w) ->
            at_most_functions t c w w0 /\
            (contexts w0 <> contexts w ->
             exists s sf, surf = Some s /\ surfaces w !! s = Some sf /\ singleBuffer sf = true /\
                          call_glFlush ∈ added w w0)).
  { intros w0 [-> | (e & ->)]; (split; [by left | done]). }
  destruct valid; simpl in H; [| apply ret_inv in H as [_ ->]; apply Hsame; by left].
  destruct surf as [s|]; [| apply emit_inv in H as ->; apply Hsame; right; by eexists].
  apply bind_inv in H as (sf & w1 & Hsf & H). apply the_surface_inv in Hsf as [Hsf ->].
  destruct (supportsOpenGL sf) eqn:Hgl; simpl in H;
    [| apply emit_inv in H as ->; apply Hsame; right; by eexists].
  destruct (surfaceHandle sf) as [h|] eqn:Hh;
    [| apply ret_inv in H as [_ ->]; apply Hsame; by left].
  apply bind_inv in H as (nodebug & w1 & Hnd & H). apply gets_inv in Hnd as [-> ->].
  apply bind_inv in H as ([] & w1 & Htr & H).
  apply bind_inv in H as ([] & w2 & Hfl & H).
  apply bind_inv in H as (p' & w3 & Hh' & H).
  apply handle_inv in Hh' as (C2 & HC2 & -> & ->).
  apply bind_inv in H as (p & w3 & Hd & H). apply deref_inv in Hd as [Hp ->].
  apply emit_inv in H as ->.
  assert (H1 : contexts w1 = contexts w /\
               qwindow_context_storage w1 = qwindow_context_storage w /\
               exists pre, log w1 = log w ++ pre).
  { destruct (QT_NO_DEBUG w).
    - apply ret_inv in Htr as [_ ->]. split; [done |]. split; [done |]. exists [].
      by rewrite app_nil_r.
    - unfold toggleMakeCurrentTracker in Htr.
      apply bind_inv in Htr as (b & wa & Ht & Htr).
      apply bind_inv in Ht as (tr & wb & Hg & Ht). apply gets_inv in Hg as [-> ->].
      apply bind_inv in Ht as ([] & wb & Hm & Ht). apply modify_inv in Hm as ->.
      apply ret_inv in Ht as [-> ->].
      destruct (negb _).
      + apply emit_inv in Htr as ->. split; [done |]. split; [done |]. by eexists.
      + apply ret_inv in Htr as [_ ->]. split; [done |]. split; [done |]. exists [].
        by rewrite app_nil_r. }
  destruct H1 as (Hc1 & Hs1 & pre & Hl1).
  destruct (singleBuffer sf) eqn:Hsb.
  - apply bind_inv in Hfl as (f & wf & Hf & Hfl). apply emit_inv in Hfl as ->.
    assert (Hflush : call_glFlush ∈ added w
              (set_log (fun l => l ++ [call_swapBuffers p h])
                 (set_log (fun l => l ++ [call_glFlush]) wf))).
    { assert (Hlf : log wf = log w1)
        by (apply get_functions_inv in Hf as (? & _ & [(_ & ->) | (_ & _ & ->)]); done).
      unfold added. simpl. rewrite Hlf, Hl1, <- !app_assoc, drop_app_length.
      apply elem_of_app. right. apply elem_of_cons. by left. }
    apply get_functions_inv in Hf as (C1 & HC1 & [(_ & ->) | (Hnone & -> & ->)]).
    + split; [by left |]. intros Hne. simpl in Hne. congruence.
    + split.
      * right. exists C1. rewrite <- Hc1. split; [done |]. split; [done |]. simpl.
        unfold new_functions, current. by rewrite Hs1.
      * intros _. by exists s, sf.
  - apply ret_inv in Hfl as [_ ->]. split; [by left |]. intros Hne. simpl in Hne. congruence.
Qed.

(** X1. Whatever is called in thread [t], in the other threads
    currentContext() returns what it returned before. *)
Theorem current_context_is_thread_local (t : thread_id) :
  (forall c surf, preserves (other_threads_keep t) (makeCurrent t c surf)) /\
  (forall c, preserves (other_threads_keep t) (doneCurrent t c)) /\
  (forall c surf, preserves (other_threads_keep t) (swapBuffers t c surf)) /\
  (forall r, preserves (other_threads_keep t) (free t r)) /\
  (forall c, preserves (other_threads_keep t) (destroy t c)) /\
  (forall c made, preserves (other_threads_keep t) (create t c made)) /\
  (forall c, preserves (other_threads_keep t) (delete_QOpenGLContext t c)).
Proof.
  repeat split.
  - intros c [s|].
    + apply (preserves_makeCurrent _ t (fun _ => True)); thread_local.
    + apply (preserves_makeCurrent_null _ t (fun _ => True)); thread_local.
  - intros c. apply (preserves_doneCurrent _ t (fun _ => True)); thread_local.
  - intros c surf. apply (preserves_swapBuffers _ t (fun _ => True)); thread_local.
  - intros r. apply (preserves_free _ t (fun _ => True)); thread_local.
  - intros c. apply (preserves_destroy _ t (fun _ => True)); thread_local.
  - intros c made. apply (preserves_create _ t (fun _ => True)); thread_local.
  - intros c. apply (preserves_delete_QOpenGLContext _ t (fun _ => True)); thread_local.
Qed.

Lemma current_context_is_thread_local_witness :
  exists w', doneCurrent 2 0 current_world = Done tt w' /\
             current w' 2 = None /\ current w' 1 = Some 0%nat.
Proof.
  assert (H : exists w', doneCurrent 2 0 current_world = Done tt w')
    by (eexists; vm_compute; reflexivity).
  destruct H as [w' H]. exists w'. split; [exact H |].
  destruct (current_context_is_thread_local 2) as (_ & Hdc & _).
  split; [| by rewrite (Hdc 0%nat _ _ _ H 1%nat)].
  vm_compute in H. injection H as <-. reflexivity.
Defined.

(** X2. swapBuffers changes no object but, at most, the context's own
    function wrapper: share groups, resources, pending deletions, platform
    contexts, surfaces and the current context of every thread are as
    before, and so are the contexts, except that the first call of
    functions(), made for glFlush() on a single-buffered surface, allocates
    the wrapper when the context has none. *)
Theorem swapBuffers_changes_no_object
    (w w' : World) (t : thread_id) (c : ctx_ptr) (surf : option surf_ptr) :
  swapBuffers t c surf w = Done tt w' ->
  same_objects w w' /\ at_most_functions t c w w' /\
  (contexts w' <> contexts w ->
   exists s sf, surf = Some s /\ surfaces w !! s = Some sf /\ singleBuffer sf = true /\
                call_glFlush ∈ added w w').
Proof.
  intros H. split; [by eapply same_objects_swapBuffers |]. by eapply swapBuffers_contexts.
Qed.

Lemma swapBuffers_changes_no_object_witness :
  exists w', swapBuffers 1 0 (Some 0%nat) current_world = Done tt w' /\
             log w' <> log current_world /\ contexts w' = contexts current_world /\
             current w' 1 = Some 0%nat /\ pending w' 0%nat = pending current_world 0%nat.
Proof.
  assert (H : exists w', swapBuffers 1 0 (Some 0%nat) current_world = Done tt w')
    by (eexists; vm_compute; reflexivity).
  destruct H as [w' H]. exists w'. split; [exact H |].
  destruct (swapBuffers_changes_no_object _ _ 1 0 (Some 0%nat) H)
    as ((Hg & _ & _ & _ & _ & Hs & _) & _ & _).
  split; [| split; [| split]].
  - vm_compute in H. injection H as <-. discriminate.
  - vm_compute in H. injection H as <-. vm_compute. reflexivity.
  - unfold current. rewrite Hs. reflexivity.
  - unfold pending. rewrite Hg. reflexivity.
Defined.



(** * Two contexts in one thread *)

Lemma current_Some_storage w t a :
  current w t = Some a -> is_Some (qwindow_context_storage w !! t).
Proof. unfold current. destruct (qwindow_context_storage w !! t); [eauto | done]. Qed.

(** X4. makeCurrent on a context while another one is current in the
    thread: the new context becomes the current one, the platform's
    doneCurrent is not called, the context that was current is not touched
    (its surface() is what it was), and only the pending deletions of the
    new context's group are carried out. *)
Theorem makeCurrent_replaces_without_doneCurrent
    (w w' : World) (t : thread_id) (a c : ctx_ptr) (s : surf_ptr) :
  current w t = Some a -> a <> c ->
  makeCurrent t c (Some s) w = Done true w' ->
  current w' t = Some c /\
  contexts w' !! a = contexts w !! a /\
  (forall p, call_doneCurrent p ∉ added w w') /\
  (forall g, get_shareGroup c w <> Done (Some g) w -> pending w' g = pending w g).
Proof.
  intros Hcur Hne H.
  apply makeCurrent_true_spec in H
    as (C & p & P & sf & h & g & G & tls & C' & gl & HC & Hp & HP & HPv & Haff & Hs & Hh & Hgl
        & Hmk & Hg & HG & Hlog & Htls & Hot & Hgr & Hres & Hpc & Hctx
        & _ & _ & _ & _ & _ & Hgle & _).
  destruct Htls as [[-> Hc] | (_ & Hnone & _)].
  2:{ apply current_Some_storage in Hcur as [? Hcur]. congruence. }
  split; [exact Hc |]. split; [| split].
  - rewrite Hctx. by rewrite lookup_insert_ne.
  - intros p' Hin. rewrite (added_app _ _ _ Hlog) in Hin.
    apply elem_of_cons in Hin as [Hin | Hin]; [discriminate Hin |].
    simpl in Hin. apply elem_of_app in Hin as [Hin | Hin].
    + destruct Hgle as [-> | ->]; [by apply elem_of_nil in Hin |].
      apply list_elem_of_singleton in Hin. discriminate Hin.
    + apply list_elem_of_fmap in Hin as (r & Hr & _). discriminate Hr.
  - intros g' Hg'. unfold pending. rewrite Hgr.
    rewrite lookup_insert_ne; [done |]. intros <-. apply Hg'.
    unfold get_shareGroup, the_context, bind, gets, deref, ret. rewrite HC. simpl.
    by rewrite Hg.
Qed.

Lemma makeCurrent_replaces_without_doneCurrent_witness :
  exists w', makeCurrent 1 1 (Some 0%nat) two_contexts_world = Done true w' /\
             current two_contexts_world 1 = Some 0%nat /\
             current w' 1 = Some 1%nat /\
             get_surface 0 w' = Done (Some 0%nat) w'.
Proof.
  assert (H : exists w', makeCurrent 1 1 (Some 0%nat) two_contexts_world = Done true w')
    by (eexists; vm_compute; reflexivity).
  destruct H as [w' H]. exists w'. split; [exact H |]. split; [reflexivity |].
  destruct (makeCurrent_replaces_without_doneCurrent two_contexts_world w' 1 0 1 0)
    as (Hc & Ha & _); [reflexivity | discriminate | exact H |].
  split; [exact Hc |].
  unfold get_surface, the_context, bind, gets, deref, ret. rewrite Ha. reflexivity.
Defined.

(** X5. doneCurrent on a valid context that is not the thread's current
    one: the platform's doneCurrent is called all the same and the thread
    is left without a current context; the context that was current is not
    touched, and no pending deletion is carried out. *)
Theorem doneCurrent_of_another_context
    (w w' : World) (t : thread_id) (a c : ctx_ptr) :
  isValid c w = Done true w -> current w t = Some a -> a <> c ->
  doneCurrent t c w = Done tt w' ->
  current w' t = None /\
  contexts w' !! a = contexts w !! a /\
  resources w' = resources w /\ (forall g, pending w' g = pending w g) /\
  exists p, handle c w = Done (Some p) w /\ call_doneCurrent p ∈ added w w' /\
            freed (added w w') = [].
Proof.
  intros Hv Hcur Hne H.
  apply doneCurrent_spec in H as [[Hf _] | (_ & C & p & HC & Hp & Hc & _ & Hctx & _ & _ & _
                                           & tls & Htls & Hcase)]; [congruence |].
  destruct Hcase as [(He & _) | (_ & Hgr & Hres & Hlog)]; [congruence |].
  split; [exact Hc |]. split; [| split; [exact Hres | split]].
  - rewrite Hctx. by rewrite lookup_insert_ne.
  - intros g. unfold pending. by rewrite Hgr.
  - exists p. split; [| split].
    + unfold handle, the_context, bind, gets, deref, ret. rewrite HC. simpl. by rewrite Hp.
    + rewrite (added_app _ _ _ Hlog). apply elem_of_cons. by left.
    + rewrite (added_app _ _ _ Hlog). by destruct Htls as [-> | ->].
Qed.

Lemma doneCurrent_of_another_context_witness :
  exists w', doneCurrent 1 1 two_contexts_world = Done tt w' /\
             current two_contexts_world 1 = Some 0%nat /\
             current w' 1 = None /\
             get_surface 0 w' = Done (Some 0%nat) w'.
Proof.
  assert (H : exists w', doneCurrent 1 1 two_contexts_world = Done tt w')
    by (eexists; vm_compute; reflexivity).
  destruct H as [w' H]. exists w'. split; [exact H |]. split; [reflexivity |].
  destruct (doneCurrent_of_another_context two_contexts_world w' 1 0 1)
    as (Hc & Ha & _); [reflexivity | reflexivity | discriminate | exact H |].
  split; [exact Hc |].
  unfold get_surface, the_context, bind, gets, deref, ret. rewrite Ha. reflexivity.
Defined.

(** * currentContextGroup *)

Lemma currentContextGroup_value t w :
  currentContextGroup t w =
  match current w t with
  | None => Done None w
  | Some cc => match contexts w !! cc with
               | Some CC => Done (shareGroup CC) w
               | None => Undefined
               end
  end.
Proof.
  unfold currentContextGroup, currentContext, localData, current, get_shareGroup,
    the_context, bind, gets, deref, ret, undefined.
  destruct (qwindow_context_storage w !! t) as [[[cc|]]|]; simpl; try done.
  by destruct (contexts w !! cc).
Qed.

Lemma freed_free_calls l cc : freed (map (fun r => call_freeResource r cc) l) = map (fun r => (r, cc)) l.
Proof. induction l as [| r l IH]; [done |]. simpl. unfold freed in *. simpl. by rewrite IH. Qed.

(** X6. free() on a resource of a live group deletes right away exactly
    when currentContextGroup() is the resource's group: then freeResource
    is called with the thread's current context, the resource is deleted
    and the group's pending list is left empty; otherwise nothing is freed
    and the resource waits on the pending list. *)
Theorem free_follows_currentContextGroup
    (w w' : World) (t : thread_id) (r : res_ptr) (R : QOpenGLSharedResource) (g : grp_ptr) :
  resources w !! r = Some R -> m_group R = Some g ->
  free t r w = Done tt w' ->
  (currentContextGroup t w = Done (Some g) w ->
   exists cc, current w t = Some cc /\ (r, cc) ∈ freed (added w w') /\
              resources w' !! r = None /\ pending w' g = []) /\
  (currentContextGroup t w <> Done (Some g) w ->
   freed (added w w') = [] /\ resources w' !! r = Some R /\ r ∈ pending w' g).
Proof.
  intros HR Hg H. pose proof (free_inv t r w tt w' R HR H) as Hinv.
  rewrite Hg in Hinv. destruct Hinv as (G & HG & Hinv). cbv zeta in Hinv.
  rewrite currentContextGroup_value.
  assert (Hwait : forall G1, w' = set_groups <[g := set_pendingDeletion (m_pendingDeletion G ++ [r]) G1]> w ->
            freed (added w w') = [] /\ resources w' !! r = Some R /\ r ∈ pending w' g).
  { intros G1 ->. unfold added, pending. simpl. rewrite drop_all, lookup_insert_eq. simpl.
    split; [done |]. split; [done |]. apply elem_of_app. right. by apply list_elem_of_singleton. }
  destruct (current w t) as [cc|]; [| split; [done | by intros _; eapply Hwait]].
  destruct Hinv as (CC & HCC & Hinv). rewrite HCC.
  destruct (decide (shareGroup CC = Some g)) as [e|n].
  - split; [| congruence]. intros _. exists cc. split; [done |]. subst w'.
    split; [| split].
    + unfold added, drained. simpl. rewrite drop_app_length, freed_free_calls.
      apply list_elem_of_fmap. exists r. split; [done |].
      apply elem_of_app. right. by apply list_elem_of_singleton.
    + unfold drained. simpl. rewrite lookup_foldl_delete.
      rewrite decide_True; [done |]. apply elem_of_app. right. by apply list_elem_of_singleton.
    + unfold pending, drained. simpl. by rewrite lookup_insert_eq.
  - split; [intros Hc; congruence |]. intros _. by eapply Hwait.
Qed.

Lemma free_follows_currentContextGroup_witness :
  exists w', free 1 0 current_world = Done tt w' /\
             currentContextGroup 1 current_world = Done (Some 0%nat) current_world /\
             resources w' !! 0%nat = None /\ pending w' 0%nat = [].
Proof.
  assert (H : exists w', free 1 0 current_world = Done tt w')
    by (eexists; vm_compute; reflexivity).
  destruct H as [w' H]. exists w'. split; [exact H |]. split; [reflexivity |].
  destruct (free_follows_currentContextGroup current_world w' 1 0
              {| m_group := Some 0%nat |} 0%nat eq_refl eq_refl H) as (Hnow & _).
  destruct (Hnow eq_refl) as (cc & _ & _ & Hres & Hpend). by split.
Defined.

(** X7. currentContextGroup() after makeCurrent and doneCurrent: once
    makeCurrent(surface) has returned true and recorded the context as the
    current one, currentContextGroup() is that context's share group, which
    is not null; after doneCurrent() on a valid context it is null, as it
    is whenever the thread has no current context. *)
Theorem currentContextGroup_tracks_current (w : World) (t : thread_id) :
  (forall c s w', makeCurrent t c (Some s) w = Done true w' -> current w' t = Some c ->
     exists g, currentContextGroup t w' = Done (Some g) w' /\
               get_shareGroup c w' = Done (Some g) w') /\
  (forall c w', isValid c w = Done true w -> doneCurrent t c w = Done tt w' ->
     currentContextGroup t w' = Done None w') /\
  (current w t = None -> currentContextGroup t w = Done None w).
Proof.
  split; [| split].
  - intros c s w' H Hcur.
    apply makeCurrent_true_spec in H
      as (C & p & P & sf & h & g & G & tls & C' & gl & HC & _ & _ & _ & _ & _ & _ & _
          & _ & _ & _ & _ & _ & _ & _ & _ & _ & Hctx & _ & Hg' & _).
    exists g. rewrite currentContextGroup_value, Hcur.
    unfold get_shareGroup, the_context, bind, gets, deref, ret.
    rewrite Hctx, lookup_insert_eq. simpl. by rewrite Hg'.
  - intros c w' Hv H.
    apply doneCurrent_spec in H as [[Hf _] | (_ & C & p & _ & _ & Hc & _)]; [congruence |].
    by rewrite currentContextGroup_value, Hc.
  - intros Hc. by rewrite currentContextGroup_value, Hc.
Qed.

Lemma currentContextGroup_tracks_current_witness :
  makeCurrent 1 0 (Some 0%nat) sample_world = Done true current_world /\
  currentContextGroup 1 sample_world = Done None sample_world /\
  currentContextGroup 1 current_world = Done (Some 0%nat) current_world.
Proof.
  assert (H : makeCurrent 1 0 (Some 0%nat) sample_world = Done true current_world)
    by (vm_compute; reflexivity).
  split; [exact H |].
  destruct (currentContextGroup_tracks_current sample_world 1) as (Hmc & _ & Hnone).
  split; [by apply Hnone |].
  destruct (Hmc 0%nat 0%nat current_world H eq_refl) as (g & Hcg & Hsg).
  assert (g = 0%nat) as -> by (vm_compute in Hsg; congruence).
  exact Hcg.
Defined.

(** * shareHandle *)

Lemma shareHandle_value c w C :
  contexts w !! c = Some C ->
  shareHandle c w = match shareContext C with
                    | Some sc => handle sc w
                    | None => Done None w
                    end.
Proof.
  intros HC. unfold shareHandle, the_context, bind, gets, deref, ret. rewrite HC. simpl.
  by destruct (shareContext C).
Qed.

Lemma handle_value c w C : contexts w !! c = Some C -> handle c w = Done (platformGLContext C) w.
Proof. intros HC. unfold handle, the_context, bind, gets, deref, ret. by rewrite HC. Qed.

(** X8. shareHandle() of a context whose share context was set to [sc]:
    after create() it is the handle of [sc] when the platform context
    reports sharing and null when it does not; after the share context
    itself was destroyed it is null, although shareContext() still
    returns [sc]. *)
Theorem shareHandle_follows_share_context
    (w : World) (t : thread_id) (c sc : ctx_ptr) (C : QOpenGLContext) :
  contexts w !! c = Some C -> shareContext C = Some sc ->
  (forall P b w', create t c (Some P) w = Done b w' ->
     shareHandle c w' = if platform_isSharing P then handle sc w' else Done None w') /\
  (forall w', c <> sc -> destroy t sc w = Done tt w' ->
     shareHandle c w' = Done None w' /\ get_shareContext c w' = Done (Some sc) w').
Proof.
  intros HC Hsc. split.
  - intros P b w' H. apply create_spec in H as (C0 & w1 & HC0 & Hw1 & Hpost).
    assert (C0 = C) as -> by congruence.
    assert (HC1 : exists C1, contexts w1 !! c = Some C1 /\ shareContext C1 = Some sc).
    { destruct (platformGLContext C).
      - apply destroy_spec in Hw1 as (C2 & C' & HC2 & Hctx & _ & _ & Hsc' & _).
        assert (C2 = C) as -> by congruence.
        exists C'. rewrite Hctx, lookup_insert_eq. split; [done | congruence].
      - subst w1. by exists C. }
    destruct HC1 as (C1 & HC1 & Hsc1).
    destruct Hpost as ((C2 & P2 & HC2 & HP2 & Hpost) & _). cbv zeta in Hpost.
    simpl in HC2, HP2. rewrite lookup_insert_eq in HP2. injection HP2 as <-.
    assert (C2 = C1) as -> by congruence.
    destruct Hpost as (g & G' & Hctx & _).
    rewrite (shareHandle_value c w' _ ltac:(by rewrite Hctx, lookup_insert_eq)). simpl.
    rewrite Hsc1. by destruct (platform_isSharing P).
  - intros w' Hne H.
    apply destroy_spec in H as (SC & SC' & HSC & Hctx & Hp & _).
    assert (HC' : contexts w' !! c = Some C) by (by rewrite Hctx, lookup_insert_ne).
    split.
    + rewrite (shareHandle_value c w' C HC'), Hsc.
      rewrite (handle_value sc w' SC'); [by rewrite Hp | by rewrite Hctx, lookup_insert_eq].
    + unfold get_shareContext, the_context, bind, gets, deref, ret. rewrite HC'. simpl.
      by rewrite Hsc.
Qed.

Lemma shareHandle_follows_share_context_witness :
  let w' := world_after (create 1 1 (Some sharing_platformContext)) share_request_world in
  create 1 1 (Some sharing_platformContext) share_request_world = Done true w' /\
  shareHandle 1 share_request_world = Done (Some 0%nat) share_request_world /\
  shareHandle 1 w' = Done (Some 0%nat) w'.
Proof.
  intros w'.
  assert (H : create 1 1 (Some sharing_platformContext) share_request_world = Done true w')
    by (vm_compute; reflexivity).
  split; [exact H |]. split; [vm_compute; reflexivity |].
  destruct (shareHandle_follows_share_context share_request_world 1 1 0
              {| platformGLContext := None; shareContext := Some 0%nat; shareGroup := None;
                 surface := None; functions := None; versionFunctions := None;
                 textureFunctions := None; textureFunctionsDestroyCallback := None;
                 vaoHelper := None; vaoHelperDestroyCallback := None;
                 workaround_brokenFBOReadBack := false;
                 thread := Some 1%nat |} eq_refl eq_refl) as (Hcreate & _).
  rewrite (Hcreate _ _ _ H). vm_compute. reflexivity.
Defined.

(** * destroy, step by step *)

Lemma removal_frame_removeContext t g c : preserves removal_frame (removeContext t g c).
Proof.
  apply (preserves_removeContext _ t cleanup_events).
  - intros w. repeat split. apply log_grows_by_refl.
  - intros w1 w2 w3 (A1 & A2 & A3) (B1 & B2 & B3).
    split; [congruence |]. split; [congruence |]. by eapply log_grows_by_trans.
  - intros e w He. repeat split. by apply log_grows_by_emit.
  - intros; repeat split; by apply log_grows_by_same.
  - intros; repeat split; by apply log_grows_by_same.
  - intros; repeat split; by apply log_grows_by_same.
  - intros; repeat split; by apply log_grows_by_same.
  - intros; repeat split; by apply log_grows_by_same.
  - intros; repeat split; by apply log_grows_by_same.
  - done.
  - done.
Qed.

(** destroy() in four steps: the signal and the teardown of the helpers;
    doneCurrent() when the context is the thread's current one; the removal
    from the share group; the deletion of the platform context.  The
    context object is left with no helper and no function wrapper. *)
Lemma destroy_steps t c w u w' :
  destroy t c w = Done u w' ->
  exists C w2 w3,
    contexts w !! c = Some C /\
    (let w1 := destroy_start c C w in
     if decide (current w t = Some c) then doneCurrent t c w1 = Done tt w2 else w2 = w1) /\
    match shareGroup C with
    | Some g => removeContext t g c w2 = Done tt w3
    | None => w3 = w2
    end /\
    resources w' = resources w3 /\ groups w' = groups w3 /\
    multiResources w' = multiResources w3 /\
    qwindow_context_storage w' = qwindow_context_storage w3 /\
    log w' = log w3 ++ destroy_epilogue C /\
    helpers_ok w C /\
    exists C', contexts w' !! c = Some C' /\ torn_down C' = C'.
Proof.
  unfold destroy. intros H.
  apply bind_inv in H as (p0 & w0 & Hh & H). apply handle_inv in Hh as (C & HC & -> & ->).
  apply bind_inv in H as ([] & w1 & Hsig & H).
  apply bind_inv in H as ([] & wa & Hih & H).
  apply bind_inv in H as ([] & wt & Htd & H).
  destruct (teardown_inv _ _ _ _ _ _ Hih Htd) as (C0 & HC0 & -> & Hok).
  assert (Hw1 : C0 = C /\ teardown c C0 w1 = destroy_start c C w /\ helpers_ok w C).
  { destruct (platformGLContext C) eqn:Hp.
    - apply emit_inv in Hsig as ->. simpl in HC0. assert (C0 = C) as -> by congruence.
      split; [done |]. split; [| exact Hok]. unfold teardown, destroy_start. world_ext.
      + reflexivity.
      + cbn [log set_log set_contexts]. unfold destroy_prologue. rewrite Hp.
        by rewrite <- app_assoc.
    - apply ret_inv in Hsig as [_ ->]. assert (C0 = C) as -> by congruence.
      split; [done |]. split; [| exact Hok]. unfold teardown, destroy_start. world_ext.
      + reflexivity.
      + cbn [log set_log set_contexts]. unfold destroy_prologue. by rewrite Hp. }
  destruct Hw1 as (-> & Hw1 & Hhelp). rewrite Hw1 in H. clear Hsig Hih Htd HC0 Hw1 Hok wa w1.
  apply bind_inv in H as (cur & w1' & Hcur & H). apply current_read in Hcur as [-> ->].
  apply bind_inv in H as ([] & w2 & Hdc & H).
  change (current (destroy_start c C w) t) with (current w t) in Hdc.
  assert (HCs : contexts (destroy_start c C w) !! c = Some (torn_down C))
    by (simpl; apply lookup_insert_eq).
  assert (H2 : exists C2, contexts w2 !! c = Some C2 /\
                          platformGLContext C2 = platformGLContext C /\
                          shareGroup C2 = shareGroup C /\ torn_down C2 = C2).
  { destruct (decide (current w t = Some c)).
    - apply doneCurrent_spec in Hdc
        as [[_ ->] | (_ & C1 & p & HC1 & _ & _ & _ & Hc2 & _)].
      + by exists (torn_down C).
      + rewrite HCs in HC1. injection HC1 as <-.
        exists (set_surface None (torn_down C)). by rewrite Hc2, lookup_insert_eq.
    - apply ret_inv in Hdc as [_ ->]. by exists (torn_down C). }
  destruct H2 as (C2 & HC2 & Hp2 & Hg2 & Htd2).
  exists C, w2.
  apply bind_inv in H as (g & w2' & Hg & H).
  apply get_shareGroup_inv in Hg as (C2' & HC2' & -> & ->).
  assert (C2' = C2) as -> by congruence.
  apply bind_inv in H as ([] & w3 & Hrm & H).
  exists w3. split; [done |]. split.
  { cbv zeta. destruct (decide (current w t = Some c)); [done |].
    by apply ret_inv in Hdc as [_ ->]. }
  assert (Hc3 : contexts w3 = contexts w2).
  { destruct (shareGroup C2).
    - by apply removal_frame_removeContext in Hrm as (? & _).
    - by apply ret_inv in Hrm as [_ ->]. }
  split.
  { rewrite <- Hg2. destruct (shareGroup C2); [done |]. by apply ret_inv in Hrm as [_ ->]. }
  apply bind_inv in H as ([] & w4 & Hup & H).
  apply update_context_inv in Hup as (C3 & HC3 & ->).
  rewrite Hc3, HC2 in HC3. injection HC3 as <-.
  apply bind_inv in H as (p & w4' & Hh & H).
  apply handle_inv in Hh as (C4 & HC4 & -> & ->).
  simpl in HC4. rewrite lookup_insert_eq in HC4. injection HC4 as <-. simpl in H.
  apply bind_inv in H as ([] & w5 & Hdel & H).
  apply update_context_inv in H as (C5 & HC5 & ->).
  assert (Hc5 : contexts w5 = <[c := set_shareGroup None C2]> (contexts w3)).
  { destruct (platformGLContext C2) as [p|].
    - apply bind_inv in Hdel as (P & wa & HP & Hdel).
      apply the_platformContext_inv in HP as [_ ->].
      apply bind_inv in Hdel as ([] & wa & He & Hdel). apply emit_inv in He as ->.
      by apply modify_inv in Hdel as ->.
    - by apply ret_inv in Hdel as [_ ->]. }
  rewrite Hc5, lookup_insert_eq in HC5. injection HC5 as <-.
  assert (Hfin : exists C', contexts (set_contexts
                     <[c := set_platformGLContext None (set_shareGroup None C2)]> w5) !! c
                   = Some C' /\ torn_down C' = C').
  { eexists. simpl. rewrite lookup_insert_eq. split; [reflexivity |].
    revert Htd2. clear. destruct C2. unfold torn_down. simpl. intros [= -> -> -> -> -> ->].
    reflexivity. }
  unfold destroy_epilogue. rewrite <- Hp2.
  destruct (platformGLContext C2) as [p|].
  - apply bind_inv in Hdel as (P & wa & HP & Hdel).
    apply the_platformContext_inv in HP as [_ ->].
    apply bind_inv in Hdel as ([] & wa & He & Hdel). apply emit_inv in He as ->.
    apply modify_inv in Hdel as ->. done.
  - apply ret_inv in Hdel as [_ ->]. simpl. by rewrite app_nil_r.
Qed.

(** The part of this that the order of the calls rests on. *)
Lemma destroy_trace t c w u w' :
  destroy t c w = Done u w' ->
  exists C w2 mid,
    contexts w !! c = Some C /\
    (let w1 := destroy_start c C w in
     if decide (current w t = Some c) then doneCurrent t c w1 = Done tt w2 else w2 = w1) /\
    qwindow_context_storage w' = qwindow_context_storage w2 /\
    log w' = log w2 ++ mid ++ destroy_epilogue C /\
    Forall cleanup_events mid.
Proof.
  intros H.
  apply destroy_steps in H as (C & w2 & w3 & HC & Hdc & Hrm & _ & _ & _ & Hst & Hlog & _).
  assert (H3 : removal_frame w2 w3).
  { destruct (shareGroup C).
    - by eapply removal_frame_removeContext.
    - subst w3. repeat split. apply log_grows_by_refl. }
  destruct H3 as (_ & Hs3 & mid & Hl3 & Hmid).
  exists C, w2, mid. split; [done |]. split; [done |].
  split; [by rewrite Hst |]. split; [| done]. by rewrite Hlog, Hl3, <- app_assoc.
Qed.


Lemma isValid_set_log c f w b :
  isValid c (set_log f w) = Done b (set_log f w) <-> isValid c w = Done b w.
Proof.
  destruct b.
  - rewrite !isValid_true. done.
  - rewrite !isValid_false. done.
Qed.

Lemma isValid_destroy_start c C w b :
  contexts w !! c = Some C ->
  isValid c (destroy_start c C w) = Done b (destroy_start c C w) <-> isValid c w = Done b w.
Proof.
  intros HC.
  assert (Hv : forall w0 C0, contexts w0 !! c = Some C0 ->
            isValid c w0 = match platformGLContext C0 with
                           | None => Done false w0
                           | Some p => match platformContexts w0 !! p with
                                       | Some P => Done (platform_isValid P) w0
                                       | None => Undefined
                                       end
                           end).
  { intros w0 C0 H0.
    unfold isValid, the_context, the_platformContext, bind, gets, deref, ret, undefined.
    rewrite H0. destruct (platformGLContext C0) as [p|]; [| done].
    by destruct (platformContexts w0 !! p). }
  rewrite (Hv w C HC).
  rewrite (Hv (destroy_start c C w) (torn_down C)) by (simpl; apply lookup_insert_eq).
  simpl. destruct (platformGLContext C) as [p|].
  - destruct (platformContexts w !! p); [| done]. split; intros [= ->]; done.
  - split; intros [= ->]; done.
Qed.

Lemma freed_teardown_events C : freed (teardown_events C) = [].
Proof.
  unfold teardown_events.
  by destruct (textureFunctionsDestroyCallback C), (versionFunctions C),
    (vaoHelperDestroyCallback C).
Qed.

Lemma freed_prologue c C : freed (destroy_prologue c C) = [].
Proof.
  unfold destroy_prologue. rewrite freed_app, freed_teardown_events.
  by destruct (platformGLContext C).
Qed.



(** * The destructor of a context *)

Lemma destroy_current t c w w' :
  destroy t c w = Done tt w' ->
  (isValid c w = Done true w -> current w t = Some c -> current w' t = None) /\
  (isValid c w = Done false w \/ current w t <> Some c -> current w' t = current w t).
Proof.
  intros H. apply destroy_trace in H as (C & w2 & mid & HC & Hdc & Hst & _).
  cbv zeta in Hdc.
  assert (Hcur : forall x, current w2 t = x -> current w' t = x).
  { intros x <-. unfold current. by rewrite Hst. }
  split.
  - intros Hv Hc. apply Hcur. rewrite decide_True in Hdc by done.
    apply doneCurrent_spec in Hdc as [[Hf _] | (_ & _ & _ & _ & _ & Hnone & _)]; [| done].
    apply (isValid_destroy_start c C w false HC) in Hf. congruence.
  - intros Hor. apply Hcur. destruct (decide (current w t = Some c)) as [Hc|Hn].
    + destruct Hor as [Hf | ?]; [| done].
      apply doneCurrent_spec in Hdc as [[_ ->] | (Hv & _)]; [done |].
      apply (isValid_destroy_start c C w true HC) in Hv. congruence.
    + by subst w2.
Qed.

(** X10. Deleting a context object: the object is gone afterwards.  If
    the context was valid, the deleting thread's currentContext() is not
    the deleted object; if it was not valid (the native context was lost,
    or was never created) doneCurrent() does nothing, and a thread whose
    current context it was keeps the pointer to the deleted object. *)
Theorem delete_QOpenGLContext_and_current
    (w w' : World) (t : thread_id) (c : ctx_ptr) :
  delete_QOpenGLContext t c w = Done tt w' ->
  contexts w' !! c = None /\
  (isValid c w = Done true w -> current w' t <> Some c) /\
  (isValid c w = Done false w -> current w' t = current w t).
Proof.
  unfold delete_QOpenGLContext. intros H.
  apply bind_inv in H as ([] & w1 & Hd & H).
  apply bind_inv in H as (nodebug & w1' & Hn & H). apply gets_inv in Hn as [-> ->].
  apply bind_inv in H as ([] & w2 & Htr & H). apply modify_inv in H as ->.
  assert (Hs2 : qwindow_context_storage w2 = qwindow_context_storage w1).
  { destruct (QT_NO_DEBUG w1).
    - by apply ret_inv in Htr as [_ ->].
    - by apply modify_inv in Htr as ->. }
  assert (Hcur : current (set_contexts (delete c) w2) t = current w1 t).
  { unfold current. simpl. by rewrite Hs2. }
  apply destroy_current in Hd as (Hvalid & Hother).
  split; [simpl; apply lookup_delete_eq |]. rewrite Hcur. split.
  - intros Hv. destruct (decide (current w t = Some c)) as [Hc|Hc].
    + by rewrite (Hvalid Hv Hc).
    + rewrite Hother; [done | by right].
  - intros Hf. apply Hother. by left.
Qed.

Lemma delete_QOpenGLContext_and_current_witness :
  (exists w', delete_QOpenGLContext 1 0 current_world = Done tt w' /\
              current current_world 1 = Some 0%nat /\ current w' 1 = None) /\
  (exists w', delete_QOpenGLContext 1 0 lost_context_world = Done tt w' /\
              contexts w' !! 0%nat = None /\ current w' 1 = Some 0%nat).
Proof.
  split.
  - assert (H : exists w', delete_QOpenGLContext 1 0 current_world = Done tt w')
      by (eexists; vm_compute; reflexivity).
    destruct H as [w' H]. exists w'. split; [exact H |]. split; [reflexivity |].
    destruct (delete_QOpenGLContext_and_current current_world w' 1 0 H) as (_ & _ & _).
    vm_compute in H. injection H as <-. reflexivity.
  - assert (H : exists w', delete_QOpenGLContext 1 0 lost_context_world = Done tt w')
      by (eexists; vm_compute; reflexivity).
    destruct H as [w' H]. exists w'. split; [exact H |].
    destruct (delete_QOpenGLContext_and_current lost_context_world w' 1 0 H)
      as (Hgone & _ & Hkeep).
    split; [exact Hgone |]. by rewrite Hkeep.
Defined.

(** * destroy() twice *)

Lemma set_contexts_id c C w : contexts w !! c = Some C -> set_contexts <[c := C]> w = w.
Proof. intros H. destruct w. unfold set_contexts. simpl in *. f_equal. by apply insert_id. Qed.

Lemma get_shareGroup_value c w C :
  contexts w !! c = Some C -> get_shareGroup c w = Done (shareGroup C) w.
Proof. intros HC. unfold get_shareGroup, the_context, bind, gets, deref, ret. by rewrite HC. Qed.

Lemma currentContext_value t w : currentContext t w = Done (current w t) w.
Proof.
  unfold currentContext, localData, current, bind, gets, ret.
  by destruct (qwindow_context_storage w !! t).
Qed.

Lemma torn_down_fields C :
  torn_down C = C ->
  textureFunctionsDestroyCallback C = None /\ versionFunctions C = None /\
  vaoHelperDestroyCallback C = None.
Proof. intros <-. done. Qed.

Lemma teardown_id c C w : contexts w !! c = Some C -> torn_down C = C -> teardown c C w = w.
Proof.
  intros HC Htd. destruct (torn_down_fields C Htd) as (H1 & H2 & H3).
  unfold teardown. world_ext.
  - cbn [contexts set_log set_contexts]. rewrite Htd. by apply insert_id.
  - cbn [log set_log set_contexts]. unfold teardown_events. rewrite H1, H2, H3.
    by rewrite app_nil_r.
Qed.

Lemma destroy_uncreated t c w C :
  contexts w !! c = Some C -> platformGLContext C = None -> shareGroup C = None ->
  torn_down C = C ->
  destroy t c w = Done tt w.
Proof.
  intros HC Hp Hg Htd.
  assert (Hv : isValid c w = Done false w) by (apply isValid_false; eauto).
  assert (Hdone : (if decide (current w t = Some c) then doneCurrent t c else ret tt) w
                  = Done tt w).
  { destruct (decide _); [| done]. unfold doneCurrent. unfold bind at 1. by rewrite Hv. }
  assert (Hupg : update_context c (set_shareGroup None) w = Done tt w).
  { rewrite (update_context_Done c _ w C HC).
    replace (set_shareGroup None C) with C by (destruct C; simpl in *; by subst).
    by rewrite set_contexts_id. }
  assert (Hupp : update_context c (set_platformGLContext None) w = Done tt w).
  { rewrite (update_context_Done c _ w C HC).
    replace (set_platformGLContext None C) with C by (destruct C; simpl in *; by subst).
    by rewrite set_contexts_id. }
  destruct (teardown_Done c w C HC) as (w1 & Hih & Htear).
  { right. left. by apply torn_down_fields. }
  rewrite (teardown_id c C w HC Htd) in Htear.
  unfold destroy.
  rewrite (bind_Done _ _ _ _ _ (handle_value c w C HC)), Hp.
  rewrite (bind_Done (ret tt) _ w tt w eq_refl).
  rewrite (bind_Done _ _ _ _ _ Hih).
  rewrite (bind_Done _ _ _ _ _ Htear).
  rewrite (bind_Done _ _ _ _ _ (currentContext_value t w)).
  rewrite (bind_Done _ _ _ _ _ Hdone).
  rewrite (bind_Done _ _ _ _ _ (get_shareGroup_value c w C HC)), Hg.
  rewrite (bind_Done (ret tt) _ w tt w eq_refl).
  rewrite (bind_Done _ _ _ _ _ Hupg).
  rewrite (bind_Done _ _ _ _ _ (handle_value c w C HC)), Hp.
  rewrite (bind_Done (ret tt) _ w tt w eq_refl).
  exact Hupp.
Qed.

(** X11. destroy() a second time does nothing: run again on the world
    the first call left behind, it returns with that world unchanged and
    makes no call; the same holds on a context that was never created. *)
Theorem destroy_twice (w w' : World) (t : thread_id) (c : ctx_ptr) :
  destroy t c w = Done tt w' -> destroy t c w' = Done tt w'.
Proof.
  intros H. pose proof H as Hsteps.
  apply destroy_steps in Hsteps
    as (_ & _ & _ & _ & _ & _ & _ & _ & _ & _ & _ & _ & C1 & HC1 & Htd).
  apply destroy_spec in H as (C & C' & HC & Hctx & Hp & Hg & _).
  rewrite Hctx, lookup_insert_eq in HC1. injection HC1 as <-.
  apply (destroy_uncreated t c w' C');
    [by rewrite Hctx, lookup_insert_eq | done | done | done].
Qed.

Lemma destroy_twice_witness :
  exists w', destroy 1 0 current_world = Done tt w' /\ w' <> current_world /\
             destroy 1 0 w' = Done tt w'.
Proof.
  assert (H : exists w', destroy 1 0 current_world = Done tt w')
    by (eexists; vm_compute; reflexivity).
  destruct H as [w' H]. exists w'. split; [exact H |].
  split; [| exact (destroy_twice current_world w' 1 0 H)].
  vm_compute in H. injection H as <-. intros Heq.
  apply (f_equal log) in Heq. discriminate Heq.
Defined.

(** * The last context of a group goes away *)

Lemma invalidate_all_inv l w u w' :
  invalidate_all l w = Done u w' ->
  resources w' = invalidated l (resources w) /\
  log w' = log w ++ map call_invalidateResource l /\ groups w' = groups w.
Proof.
  revert w. induction l as [| r l IH]; intros w H; simpl in H.
  - apply ret_inv in H as [_ ->]. by rewrite app_nil_r.
  - apply bind_inv in H as (R & w1 & HR & H). apply the_resource_inv in HR as [_ ->].
    apply bind_inv in H as ([] & w1 & He & H). apply emit_inv in He as ->.
    apply bind_inv in H as ([] & w1 & Hs & H). apply modify_inv in Hs as ->.
    apply IH in H as (Hr & Hl & Hg). simpl in *.
    split; [done |]. split; [| done]. by rewrite Hl, <- app_assoc.
Qed.

Lemma qDeleteAll_inv l w u w' :
  qDeleteAll l w = Done u w' ->
  resources w' = foldl (fun m r => delete r m) (resources w) l /\
  log w' = log w /\ groups w' = groups w.
Proof.
  revert w. induction l as [| r l IH]; intros w H; simpl in H.
  - by apply ret_inv in H as [_ ->].
  - apply bind_inv in H as (R & w1 & HR & H). apply the_resource_inv in HR as [_ ->].
    apply bind_inv in H as ([] & w1 & Hs & H). apply modify_inv in Hs as ->.
    by apply IH in H as (Hr & Hl & Hg).
Qed.

Lemma cleanup_inv t g w u w' G :
  groups w !! g = Some G -> m_resources G = [] ->
  cleanup t g w = Done u w' ->
  groups w' = <[g := cleaned G]> (groups w) /\
  resources w' = foldl (fun m r => delete r m)
                   (invalidated (m_sharedResources G) (resources w)) (m_pendingDeletion G) /\
  log w' = log w ++ map call_invalidateResource (m_sharedResources G).
Proof.
  intros HG Hres H. unfold cleanup in H.
  apply bind_inv in H as (G0 & w0 & HG0 & H). apply the_group_inv in HG0 as [HG0 ->].
  assert (G0 = G) as -> by congruence. rewrite Hres in H. cbn [cleanup_resources] in H.
  apply bind_inv in H as ([] & w0 & Hr & H). apply ret_inv in Hr as [_ ->].
  apply bind_inv in H as ([] & w1 & Hu & H).
  apply update_group_inv in Hu as (G1 & HG1 & ->). assert (G1 = G) as -> by congruence.
  apply bind_inv in H as (G2 & w2 & HG2 & H). apply the_group_inv in HG2 as [HG2 ->].
  simpl in HG2. rewrite lookup_insert_eq in HG2. injection HG2 as <-.
  apply bind_inv in H as ([] & w3 & Hinv & H).
  apply invalidate_all_inv in Hinv as (Hr3 & Hl3 & Hg3). simpl in Hr3, Hl3, Hg3.
  apply bind_inv in H as ([] & w4 & Hu & H).
  apply update_group_inv in Hu as (G3 & HG3 & ->).
  rewrite Hg3, lookup_insert_eq in HG3. injection HG3 as <-.
  apply bind_inv in H as (G4 & w5 & HG4 & H). apply the_group_inv in HG4 as [HG4 ->].
  simpl in HG4. rewrite lookup_insert_eq in HG4. injection HG4 as <-.
  apply bind_inv in H as ([] & w6 & Hdel & H).
  apply qDeleteAll_inv in Hdel as (Hr6 & Hl6 & Hg6). simpl in Hr6, Hl6, Hg6.
  apply update_group_inv in H as (G5 & HG5 & ->).
  rewrite Hg6, lookup_insert_eq in HG5. injection HG5 as <-. simpl.
  split; [| split].
  - rewrite Hg6, Hg3, !insert_insert_eq. f_equal.
  - by rewrite Hr6, Hr3.
  - by rewrite Hl6, Hl3.
Qed.

Lemma removeContext_last t g c w u w' G :
  groups w !! g = Some G -> int32 (m_refs G - 1) = 0 -> m_resources G = [] ->
  removeContext t g c w = Done u w' ->
  resources w' = foldl (fun m r => delete r m)
                   (invalidated (m_sharedResources G) (resources w)) (m_pendingDeletion G) /\
  log w' = log w ++ map call_invalidateResource (m_sharedResources G).
Proof.
  intros HG Href Hres H. unfold removeContext in H.
  apply bind_inv in H as (G0 & w0 & HG0 & H). apply the_group_inv in HG0 as [HG0 ->].
  assert (G0 = G) as -> by congruence. cbv zeta in H.
  apply bind_inv in H as ([] & w1 & Hs & H). apply modify_inv in Hs as ->.
  rewrite decide_True in H by done.
  apply bind_inv in H as ([] & w2 & Hcl & H).
  eapply cleanup_inv in Hcl; [| simpl; apply lookup_insert_eq | exact Hres].
  destruct Hcl as (Hg2 & Hr2 & Hl2). simpl in Hg2, Hr2, Hl2.
  apply bind_inv in H as (G2 & w2' & HG2 & H). apply the_group_inv in HG2 as [HG2 ->].
  rewrite Hg2, lookup_insert_eq in HG2. injection HG2 as <-.
  apply bind_inv in H as (qt & w2' & Hq & H). apply gets_inv in Hq as [-> ->].
  destruct (decide _).
  - apply bind_inv in H as ([] & w3 & Hcl & H).
    eapply cleanup_inv in Hcl; [| by rewrite Hg2, lookup_insert_eq | reflexivity].
    destruct Hcl as (Hg3 & Hr3 & Hl3). simpl in Hr3, Hl3. apply modify_inv in H as ->. simpl.
    rewrite Hr3, Hl3, Hr2, Hl2. by rewrite app_nil_r.
  - apply modify_inv in H as ->. simpl. by rewrite Hr2, Hl2.
Qed.

Lemma lookup_invalidated l m r :
  invalidated l m !! r = if decide (r ∈ l) then Some {| m_group := None |} else m !! r.
Proof.
  unfold invalidated. revert m. induction l as [| x l IH]; intros m; cbn [foldl].
  - destruct (decide (r ∈ [])) as [Hin|_]; [by apply elem_of_nil in Hin | done].
  - rewrite IH. destruct (decide (r ∈ x :: l)) as [Hin|Hnin].
    + destruct (decide (r ∈ l)) as [|Hnl]; [done |].
      apply elem_of_cons in Hin as [->|]; [apply lookup_insert_eq | done].
    + apply not_elem_of_cons in Hnin as [Hne Hnl].
      destruct (decide (r ∈ l)); [done |]. by apply lookup_insert_ne.
Qed.

Lemma freed_invalidate_calls l : freed (map call_invalidateResource l) = [].
Proof. induction l as [| r l IH]; [done |]. exact IH. Qed.

Lemma free_orphan t r w :
  resources w !! r = Some {| m_group := None |} ->
  free t r w = Done tt (set_resources (delete r) w).
Proof.
  intros HR. unfold free, the_resource, bind, gets, deref, ret, modify. by rewrite HR.
Qed.

(** X12. When destroy() takes the last context out of a share group
    that holds no multi-group resource, every resource the group still
    tracks is invalidated, not freed: invalidateResource() is called on it,
    freeResource() is not, the object stays alive and loses its group.  A
    later free() of such a resource just deletes the object, calling
    nothing. *)
Theorem last_context_invalidates_resources
    (w w' : World) (t : thread_id) (c : ctx_ptr) (C : QOpenGLContext)
    (g : grp_ptr) (G : QOpenGLContextGroup) (r : res_ptr) :
  contexts w !! c = Some C -> shareGroup C = Some g -> groups w !! g = Some G ->
  m_refs G = 1 -> m_resources G = [] ->
  r ∈ m_sharedResources G -> r ∉ m_pendingDeletion G ->
  destroy t c w = Done tt w' ->
  resources w' !! r = Some {| m_group := None |} /\
  call_invalidateResource r ∈ added w w' /\
  (forall cc, (r, cc) ∉ freed (added w w')) /\
  free t r w' = Done tt (set_resources (delete r) w').
Proof.
  intros HC Hg HG Href Hres Hr Hnp H.
  apply destroy_steps in H as (C0 & w2 & w3 & HC0 & Hdc & Hrm & Hr' & _ & _ & _ & Hl' & _).
  assert (C0 = C) as -> by congruence. rewrite Hg in Hrm. cbv zeta in Hdc.
  assert (H2 : exists G2 evs,
             groups w2 !! g = Some G2 /\ m_refs G2 = 1 /\ m_resources G2 = [] /\
             m_sharedResources G2 = m_sharedResources G /\
             (forall x, x ∈ m_pendingDeletion G2 -> x ∈ m_pendingDeletion G) /\
             resources w2 !! r = resources w !! r /\
             log w2 = log w ++ destroy_prologue c C ++ evs /\
             forall cc, (r, cc) ∉ freed evs).
  { destruct (decide (current w t = Some c)) as [Hcur|Hcur].
    - apply doneCurrent_spec in Hdc
        as [[_ ->] | (_ & C1 & p & HC1 & _ & _ & _ & _ & _ & _ & _ & tls & Htls & Hcase)].
      + exists G, []. rewrite app_nil_r. repeat split; try done.
        intros cc Hin. by apply elem_of_nil in Hin.
      + simpl in HC1. rewrite lookup_insert_eq in HC1. injection HC1 as <-.
        destruct Hcase as [(_ & g1 & G1 & Hg1 & HG1 & Hgr & Hrs & Hlg) | (Hn & _)];
          [| done].
        simpl in HG1, Hlg, Hg1. assert (g1 = g) as -> by congruence.
        assert (G1 = G) as -> by congruence.
        exists (set_pendingDeletion [] G),
               (map (fun r => call_freeResource r c) (m_pendingDeletion G)
                  ++ call_doneCurrent p :: tls).
        rewrite Hgr, lookup_insert_eq. repeat split; try done.
        * intros x Hx. by apply elem_of_nil in Hx.
        * rewrite Hrs. simpl. rewrite lookup_foldl_delete. by rewrite decide_False.
        * by rewrite Hlg, <- app_assoc.
        * intros cc Hin. rewrite freed_app, freed_free_calls in Hin.
          apply elem_of_app in Hin as [Hin | Hin].
          -- apply list_elem_of_fmap in Hin as (x & Heq & Hx). by injection Heq as -> ->.
          -- destruct Htls as [-> | ->]; by apply elem_of_nil in Hin.
    - subst w2. exists G, []. rewrite app_nil_r. repeat split; try done.
      intros cc Hin. by apply elem_of_nil in Hin. }
  destruct H2 as (G2 & evs & HG2 & Href2 & Hres2 & Hsh2 & Hp2 & Hr2 & Hl2 & Hfr2).
  apply (removeContext_last t g c w2 tt w3 G2 HG2) in Hrm as (Hr3 & Hl3);
    [| by rewrite Href2 | done].
  assert (Hlive : resources w' !! r = Some {| m_group := None |}).
  { rewrite Hr', Hr3, lookup_foldl_delete.
    rewrite decide_False by (intros Hx; by apply Hnp, Hp2).
    rewrite lookup_invalidated, Hsh2. by rewrite decide_True. }
  assert (Hadd : added w w' = destroy_prologue c C ++ evs
                   ++ map call_invalidateResource (m_sharedResources G) ++ destroy_epilogue C).
  { apply added_app. rewrite Hl', Hl3, Hl2, Hsh2. by rewrite <- !app_assoc. }
  split; [exact Hlive |]. split; [| split].
  - rewrite Hadd. apply elem_of_app. right. apply elem_of_app. right.
    apply elem_of_app. left. apply list_elem_of_fmap. by exists r.
  - intros cc Hin. rewrite Hadd, !freed_app, freed_invalidate_calls in Hin.
    apply elem_of_app in Hin as [Hin | Hin].
    { rewrite freed_prologue in Hin. by apply elem_of_nil in Hin. }
    apply elem_of_app in Hin as [Hin | Hin]; [by apply (Hfr2 cc) |].
    unfold destroy_epilogue in Hin. destruct (platformGLContext C);
      by apply elem_of_nil in Hin.
  - by apply free_orphan.
Qed.

Lemma last_context_invalidates_resources_witness :
  exists w', destroy 1 0 sample_world = Done tt w' /\
             resources w' !! 0%nat = Some {| m_group := None |} /\
             resources w' !! 1%nat = None /\
             freed (added sample_world w') = [].
Proof.
  assert (H : exists w', destroy 1 0 sample_world = Done tt w')
    by (eexists; vm_compute; reflexivity).
  destruct H as [w' H]. exists w'. split; [exact H |].
  destruct (last_context_invalidates_resources sample_world w' 1 0 sample_context 0
              sample_group 0 eq_refl eq_refl eq_refl eq_refl eq_refl) as (Hlive & _);
    [by apply list_elem_of_singleton
    | intros Hin; apply list_elem_of_singleton in Hin; discriminate Hin
    | exact H |].
  split; [exact Hlive |].
  vm_compute in H. injection H as <-. split; reflexivity.
Defined.

(** What destroy() of the last context of a group without multi-group
    resources does with the group's lists, in the two cases: the context is
    valid and the thread's current one, so that doneCurrent() drains the
    pending list first, or it is not. *)
Lemma destroy_last t c w w' C g G :
  contexts w !! c = Some C -> shareGroup C = Some g -> groups w !! g = Some G ->
  m_refs G = 1 -> m_resources G = [] ->
  destroy t c w = Done tt w' ->
  (isValid c w = Done true w /\ current w t = Some c /\
   resources w' = invalidated (m_sharedResources G)
                    (foldl (fun m r => delete r m) (resources w) (m_pendingDeletion G)) /\
   exists p tls, freed tls = [] /\
     added w w' = destroy_prologue c C
       ++ (map (fun r => call_freeResource r c) (m_pendingDeletion G)
             ++ call_doneCurrent p :: tls)
       ++ map call_invalidateResource (m_sharedResources G) ++ destroy_epilogue C)
  \/
  ((isValid c w = Done false w \/ current w t <> Some c) /\
   resources w' = foldl (fun m r => delete r m)
                    (invalidated (m_sharedResources G) (resources w)) (m_pendingDeletion G) /\
   added w w' = destroy_prologue c C
     ++ map call_invalidateResource (m_sharedResources G) ++ destroy_epilogue C).
Proof.
  intros HC Hg HG Href Hres H.
  apply destroy_steps in H as (C0 & w2 & w3 & HC0 & Hdc & Hrm & Hr' & _ & _ & _ & Hl' & _).
  assert (C0 = C) as -> by congruence. rewrite Hg in Hrm. cbv zeta in Hdc.
  assert (Hnot : forall w2, w2 = destroy_start c C w ->
            removeContext t g c w2 = Done tt w3 ->
            resources w' = foldl (fun m r => delete r m)
                    (invalidated (m_sharedResources G) (resources w)) (m_pendingDeletion G) /\
            added w w' = destroy_prologue c C
              ++ map call_invalidateResource (m_sharedResources G) ++ destroy_epilogue C).
  { intros ? -> Hrm'.
    apply (removeContext_last t g c (destroy_start c C w) tt w3 G HG)
      in Hrm' as (Hr3 & Hl3);
      [| by rewrite Href | done].
    simpl in Hr3, Hl3. split; [by rewrite Hr', Hr3 |].
    apply added_app. rewrite Hl', Hl3. by rewrite <- !app_assoc. }
  destruct (decide (current w t = Some c)) as [Hcur|Hcur]; [| right; split; [by right |]; eauto].
  apply doneCurrent_spec in Hdc
    as [[Hf ->] | (Hv & C1 & p & HC1 & _ & _ & _ & _ & _ & _ & _ & tls & Htls & Hcase)].
  { right. split; [left; by apply (isValid_destroy_start c C w false HC) in Hf |]. eauto. }
  left. apply (isValid_destroy_start c C w true HC) in Hv. split; [done |]. split; [done |].
  simpl in HC1. rewrite lookup_insert_eq in HC1. injection HC1 as <-.
  destruct Hcase as [(_ & g1 & G1 & Hg1 & HG1 & Hgr & Hrs & Hlg) | (Hn & _)]; [| done].
  simpl in HG1, Hlg, Hrs, Hgr, Hg1. assert (g1 = g) as -> by congruence.
  assert (G1 = G) as -> by congruence.
  apply (removeContext_last t g c w2 tt w3 (set_pendingDeletion [] G)) in Hrm as (Hr3 & Hl3);
    [| by rewrite Hgr, lookup_insert_eq | simpl; by rewrite Href | done].
  simpl in Hr3, Hl3. split; [by rewrite Hr', Hr3, Hrs |].
  exists p, tls. split; [by destruct Htls as [-> | ->] |].
  apply added_app. rewrite Hl', Hl3, Hlg. by rewrite <- !app_assoc.
Qed.


Lemma freed_epilogue C : freed (destroy_epilogue C) = [].
Proof. unfold destroy_epilogue. by destruct (platformGLContext C). Qed.

(** X13. The resources waiting on the pending list when destroy() takes
    the last context out of a group that holds no instance of a
    multi-group resource are deleted in any case.  They are
    handed to freeResource() first only if the context is valid and the
    current one of the destroying thread; otherwise destroy() frees
    nothing, and the objects go without freeResource(). *)
Theorem last_context_deletes_pending
    (w w' : World) (t : thread_id) (c : ctx_ptr) (C : QOpenGLContext)
    (g : grp_ptr) (G : QOpenGLContextGroup) (r : res_ptr) :
  contexts w !! c = Some C -> shareGroup C = Some g -> groups w !! g = Some G ->
  m_refs G = 1 -> m_resources G = [] ->
  r ∈ m_pendingDeletion G -> r ∉ m_sharedResources G ->
  destroy t c w = Done tt w' ->
  resources w' !! r = None /\
  (isValid c w = Done true w -> current w t = Some c ->
   freed (added w w') = map (fun r' => (r', c)) (m_pendingDeletion G)) /\
  (isValid c w = Done false w \/ current w t <> Some c -> freed (added w w') = []).
Proof.
  intros HC Hg HG Href Hres Hr Hns H.
  destruct (destroy_last t c w w' C g G HC Hg HG Href Hres H)
    as [(Hv & Hcur & Hrs & p & tls & Htls & Hadd) | (Hor & Hrs & Hadd)].
  - split; [| split].
    + rewrite Hrs, lookup_invalidated, decide_False by done.
      rewrite lookup_foldl_delete. by rewrite decide_True.
    + intros _ _. rewrite Hadd, !freed_app, freed_prologue, freed_epilogue,
        freed_invalidate_calls, freed_free_calls.
      change (freed (call_doneCurrent p :: tls)) with (freed tls). rewrite Htls.
      by rewrite !app_nil_r.
    + intros [Hf | Hn]; congruence.
  - split; [| split].
    + rewrite Hrs, lookup_foldl_delete. by rewrite decide_True.
    + intros Hv Hcur. destruct Hor; congruence.
    + intros _. rewrite Hadd, !freed_app, freed_prologue, freed_epilogue,
        freed_invalidate_calls. done.
Qed.

Lemma last_context_deletes_pending_witness :
  exists w', destroy 1 0 sample_world = Done tt w' /\
             pending sample_world 0%nat = [1%nat] /\
             resources w' !! 1%nat = None /\
             freed (added sample_world w') = [].
Proof.
  assert (H : exists w', destroy 1 0 sample_world = Done tt w')
    by (eexists; vm_compute; reflexivity).
  destruct H as [w' H]. exists w'. split; [exact H |]. split; [reflexivity |].
  destruct (last_context_deletes_pending sample_world w' 1 0 sample_context 0
              sample_group 1 eq_refl eq_refl eq_refl eq_refl eq_refl) as (Hgone & _ & Hleak);
    [by apply list_elem_of_singleton
    | intros Hin; apply list_elem_of_singleton in Hin; discriminate Hin
    | exact H |].
  split; [exact Hgone |]. apply Hleak. right. discriminate.
Defined.

(** * Multi-group shared resources *)

Lemma hash_value_insert_eq m v l : hash_value m (hash_insert m v l) = Some v.
Proof.
  unfold hash_insert, hash_contains. case_bool_decide as Hc.
  - induction l as [| [k x] l IH]; simpl in *; [by destruct Hc |].
    destruct (decide (k = m)) as [-> | Hne]; simpl.
    + by rewrite decide_True.
    + rewrite decide_False by done. by apply IH.
  - induction l as [| [k x] l IH]; simpl in *; [by rewrite decide_True |].
    destruct (decide (k = m)) as [-> | Hne]; [exfalso; apply Hc; eauto |].
    by apply IH.
Qed.

Lemma hash_value_insert_ne m m' v l :
  m' <> m -> hash_value m' (hash_insert m v l) = hash_value m' l.
Proof.
  intros Hne. unfold hash_insert. destruct (hash_contains m l).
  - induction l as [| [k x] l IH]; simpl; [done |].
    destruct (decide (k = m)) as [-> | Hkm]; simpl.
    + rewrite !decide_False by done. exact IH.
    + destruct (decide (k = m')); [done | exact IH].
  - induction l as [| [k x] l IH]; simpl.
    + by rewrite decide_False.
    + destruct (decide (k = m')); [done | exact IH].
Qed.

Lemma hash_value_remove_eq m l : hash_value m (hash_remove m l) = None.
Proof.
  unfold hash_remove. induction l as [| [k x] l IH]; [done |].
  rewrite filter_cons. simpl. destruct (decide (k <> m)) as [Hne | Heq]; simpl.
  - by rewrite decide_False.
  - exact IH.
Qed.

Lemma hash_value_remove_ne m m' l :
  m' <> m -> hash_value m' (hash_remove m l) = hash_value m' l.
Proof.
  intros Hne. unfold hash_remove. induction l as [| [k x] l IH]; [done |].
  rewrite filter_cons. simpl. destruct (decide (k <> m)) as [Hkm | Heq]; simpl.
  - destruct (decide (k = m')); [done | exact IH].
  - assert (k = m) as -> by (by destruct (decide (k = m)); [| exfalso; apply Heq]).
    by rewrite decide_False.
Qed.

Lemma multiGroup_value_value m c w C g G :
  contexts w !! c = Some C -> shareGroup C = Some g -> groups w !! g = Some G ->
  multiGroup_value m c w = Done (hash_value m (m_resources G)) w.
Proof.
  intros HC Hg HG.
  unfold multiGroup_value, get_shareGroup, the_context, the_group, bind, gets, deref, ret.
  rewrite HC. simpl. rewrite Hg. simpl. by rewrite HG.
Qed.

Lemma multiGroup_value_inv m c w x w' :
  multiGroup_value m c w = Done x w' ->
  w' = w /\ exists C g G, contexts w !! c = Some C /\ shareGroup C = Some g /\
                          groups w !! g = Some G /\ x = hash_value m (m_resources G).
Proof.
  unfold multiGroup_value. intros H.
  apply bind_inv in H as (g0 & w1 & Hg & H).
  apply get_shareGroup_inv in Hg as (C & HC & -> & ->).
  apply bind_inv in H as (g & w1 & Hd & H). apply deref_inv in Hd as [Hg ->].
  apply bind_inv in H as (G & w1 & HG & H). apply the_group_inv in HG as [HG ->].
  apply ret_inv in H as [-> ->]. split; [done |]. by exists C, g, G.
Qed.

Lemma multiGroup_insert_inv m c v w u w' :
  multiGroup_insert m c v w = Done u w' ->
  exists C g G R,
    contexts w !! c = Some C /\ shareGroup C = Some g /\ groups w !! g = Some G /\
    multiResources w !! m = Some R /\
    (QT_NO_DEBUG w = false -> hash_value m (m_resources G) = None) /\
    w' = set_multiResources
           <[m := {| active := int32 (active R + 1); m_groups := m_groups R ++ [g] |}]>
           (set_groups <[g := set_m_resources (hash_insert m v (m_resources G)) G]> w).
Proof.
  unfold multiGroup_insert. intros H.
  apply bind_inv in H as (g0 & w1 & Hg & H).
  apply get_shareGroup_inv in Hg as (C & HC & -> & ->).
  apply bind_inv in H as (g & w1 & Hd & H). apply deref_inv in Hd as [Hg ->].
  apply bind_inv in H as (G & w1 & HG & H). apply the_group_inv in HG as [HG ->].
  apply bind_inv in H as (nodebug & w1 & Hn & H). apply gets_inv in Hn as [-> ->].
  destruct (negb (QT_NO_DEBUG w) && hash_contains m (m_resources G)) eqn:Hassert;
    [discriminate H |].
  apply bind_inv in H as ([] & w1 & Hs & H). apply modify_inv in Hs as ->.
  apply bind_inv in H as (R & w1 & HR & H). apply the_multiResource_inv in HR as [HR ->].
  apply modify_inv in H as ->. simpl in HR.
  exists C, g, G, R. repeat split; try done.
  intros Hdbg. rewrite Hdbg in Hassert. simpl in Hassert.
  unfold hash_contains in Hassert. apply bool_decide_eq_false in Hassert.
  destruct (hash_value m (m_resources G)); [exfalso; apply Hassert; eauto | done].
Qed.

Lemma collect_resources_inv m gs w l w' :
  collect_resources m gs w = Done l w' ->
  w' = w /\
  forall g G v, g ∈ gs -> groups w !! g = Some G ->
    hash_value m (m_resources G) = Some v -> v ∈ l.
Proof.
  revert l w'. induction gs as [| g0 gs IH]; intros l w' H; simpl in H.
  - apply ret_inv in H as [_ ->]. split; [done |]. intros g G v Hin. by apply elem_of_nil in Hin.
  - apply bind_inv in H as (G0 & w1 & HG0 & H). apply the_group_inv in HG0 as [HG0 ->].
    apply bind_inv in H as (l0 & w1 & Hrec & H). apply IH in Hrec as [-> Hrec].
    apply ret_inv in H as [-> ->]. split; [done |].
    intros g G v Hin HG Hv. apply elem_of_cons in Hin as [-> | Hin].
    + assert (G0 = G) as -> by congruence. rewrite Hv. apply elem_of_cons. by left.
    + specialize (Hrec g G v Hin HG Hv).
      destruct (hash_value m (m_resources G0)); [apply elem_of_cons; by right | done].
Qed.

(** X14. insert(context, value) and then value() or resources(): value()
    returns the inserted instance for every context that shares with the
    one it was inserted for; for the contexts of other groups, and for
    other multi-group resources, it returns what it returned before; and
    resources() lists the inserted instance. *)
Theorem multiGroup_insert_then_value
    (w w' : World) (m : mgr_ptr) (c : ctx_ptr) (v : res_ptr) :
  multiGroup_insert m c v w = Done tt w' ->
  (forall c', areSharing c c' w = Done true w ->
     multiGroup_value m c' w' = Done (Some v) w') /\
  (forall m' c' x, m' <> m \/ areSharing c c' w = Done false w ->
     multiGroup_value m' c' w = Done x w -> multiGroup_value m' c' w' = Done x w') /\
  (forall l w'', multiGroup_resources m w' = Done l w'' -> v ∈ l).
Proof.
  intros H. apply multiGroup_insert_inv in H as (C & g & G & R & HC & Hg & HG & HR & _ & ->).
  set (G' := set_m_resources (hash_insert m v (m_resources G)) G).
  set (R' := {| active := int32 (active R + 1); m_groups := m_groups R ++ [g] |}).
  split; [| split].
  - intros c' Hsh. apply areSharing_inv in Hsh as (A & B & HA & HB & Hb & _).
    assert (A = C) as -> by congruence.
    symmetry in Hb. apply bool_decide_eq_true in Hb.
    rewrite (multiGroup_value_value m c' _ B g G'); simpl;
      [by rewrite hash_value_insert_eq | done | congruence | apply lookup_insert_eq].
  - intros m' c' x Hor Hval.
    apply multiGroup_value_inv in Hval as (_ & B & g' & GB & HB & HgB & HGB & ->).
    destruct (decide (g' = g)) as [-> | Hne].
    + assert (GB = G) as -> by congruence.
      rewrite (multiGroup_value_value m' c' _ B g G'); simpl;
        [| done | done | apply lookup_insert_eq].
      rewrite hash_value_insert_ne; [done |].
      destruct Hor as [Hm | Hsh]; [done |].
      rewrite (areSharing_value c c' w C B HC HB) in Hsh.
      injection Hsh as Hsh. apply bool_decide_eq_false in Hsh. congruence.
    + rewrite (multiGroup_value_value m' c' _ B g' GB); simpl;
        [done | done | done | by rewrite lookup_insert_ne].
  - intros l w'' Hres. unfold multiGroup_resources in Hres.
    apply bind_inv in Hres as (R0 & w1 & HR0 & Hres).
    apply the_multiResource_inv in HR0 as [HR0 ->]. simpl in HR0.
    rewrite lookup_insert_eq in HR0. injection HR0 as <-.
    apply collect_resources_inv in Hres as [_ Hres].
    apply (Hres g G' v); simpl.
    + apply elem_of_app. right. by apply list_elem_of_singleton.
    + apply lookup_insert_eq.
    + apply hash_value_insert_eq.
Qed.

Lemma multiGroup_insert_then_value_witness :
  multiGroup_insert 0 0 2 multi_start_world = Done tt multi_world /\
  multiGroup_value 0 0 multi_start_world = Done None multi_start_world /\
  multiGroup_value 0 0 multi_world = Done (Some 2%nat) multi_world /\
  multiGroup_resources 0 multi_world = Done [2%nat] multi_world.
Proof.
  assert (H : multiGroup_insert 0 0 2 multi_start_world = Done tt multi_world)
    by (vm_compute; reflexivity).
  split; [exact H |]. split; [vm_compute; reflexivity |].
  destruct (multiGroup_insert_then_value multi_start_world multi_world 0 0 2 H)
    as (Hval & _ & _).
  split; [apply Hval; vm_compute; reflexivity | vm_compute; reflexivity].
Defined.

(** X15. insert() for a group that already has an instance of the
    multi-group resource: a build with the assertions (no QT_NO_DEBUG)
    aborts; a build without them replaces the instance, lists the group a
    second time and counts it again, and does nothing with the instance
    that was replaced: it is neither freed nor invalidated nor deleted. *)
Theorem multiGroup_insert_for_a_group_twice
    (w : World) (m : mgr_ptr) (c : ctx_ptr) (v v0 : res_ptr)
    (C : QOpenGLContext) (g : grp_ptr) (G : QOpenGLContextGroup)
    (R : QOpenGLMultiGroupSharedResource) :
  contexts w !! c = Some C -> shareGroup C = Some g -> groups w !! g = Some G ->
  multiResources w !! m = Some R ->
  hash_value m (m_resources G) = Some v0 ->
  (QT_NO_DEBUG w = false -> multiGroup_insert m c v w = Fatal) /\
  (QT_NO_DEBUG w = true ->
   exists w', multiGroup_insert m c v w = Done tt w' /\
     multiGroup_value m c w' = Done (Some v) w' /\
     multiResources w' !! m =
       Some {| active := int32 (active R + 1); m_groups := m_groups R ++ [g] |} /\
     resources w' = resources w /\ log w' = log w).
Proof.
  intros HC Hg HG HR Hv0.
  assert (Hc : hash_contains m (m_resources G) = true).
  { unfold hash_contains. apply bool_decide_eq_true. rewrite Hv0. eauto. }
  unfold multiGroup_insert.
  rewrite (bind_Done _ _ _ _ _ (get_shareGroup_value c w C HC)), Hg.
  rewrite (bind_Done (deref (Some g)) _ w g w eq_refl).
  assert (HtG : the_group g w = Done G w).
  { unfold the_group, bind, gets, deref, ret. by rewrite HG. }
  rewrite (bind_Done _ _ _ _ _ HtG).
  rewrite (bind_Done (gets QT_NO_DEBUG) _ w (QT_NO_DEBUG w) w eq_refl), Hc.
  split; intros Hdbg; rewrite Hdbg; simpl; [done |].
  eexists. split.
  - unfold store_group, store_multiResource, the_multiResource, bind, gets, modify, deref, ret.
    simpl. rewrite HR. reflexivity.
  - split; [| split; [simpl; apply lookup_insert_eq | done]].
    rewrite (multiGroup_value_value m c _ C g
               (set_m_resources (hash_insert m v (m_resources G)) G));
      simpl; [by rewrite hash_value_insert_eq | done | done | apply lookup_insert_eq].
Qed.

Lemma multiGroup_insert_for_a_group_twice_witness :
  exists w', multiGroup_insert 0 0 0 multi_world = Done tt w' /\
             multiGroup_value 0 0 w' = Done (Some 0%nat) w' /\
             multiGroup_resources 0 w' = Done [0%nat; 0%nat] w'.
Proof.
  destruct (multiGroup_insert_for_a_group_twice multi_world 0 0 0 2
              sample_context 0
              {| m_shares := [0%nat]; m_refs := 1; m_context := None;
                 m_resources := [(0%nat, 2%nat)];
                 m_sharedResources := [0%nat; 2%nat]; m_pendingDeletion := [1%nat];
                 group_thread := Some 1%nat |}
              {| active := 1; m_groups := [0%nat] |}
              eq_refl eq_refl eq_refl eq_refl eq_refl) as (_ & Hrel).
  destruct (Hrel eq_refl) as (w' & H & Hval & _).
  exists w'. split; [exact H |]. split; [exact Hval |].
  vm_compute in H. injection H as <-. vm_compute. reflexivity.
Defined.

(** * Cleanup of a group that holds multi-group resources *)

Lemma multi_kept_refl w : multi_kept w w.
Proof. split; [done |]. exists []. by rewrite app_nil_r. Qed.

Lemma multi_kept_trans w1 w2 w3 : multi_kept w1 w2 -> multi_kept w2 w3 -> multi_kept w1 w3.
Proof.
  intros (A1 & e1 & A2) (B1 & e2 & B2). split; [congruence |].
  exists (e1 ++ e2). by rewrite B2, A2, app_assoc.
Qed.

Lemma multi_kept_same w w' :
  multiResources w' = multiResources w -> log w' = log w -> multi_kept w w'.
Proof. intros H1 H2. split; [done |]. exists []. by rewrite app_nil_r. Qed.

Ltac multi_kept :=
  first [ apply multi_kept_refl | apply multi_kept_trans
        | by intros; split; [| eexists]
        | by intros; apply multi_kept_same | by intros; exact I ].

Lemma multi_kept_free t r : preserves multi_kept (free t r).
Proof. apply (preserves_free _ t (fun _ => True)); multi_kept. Qed.

Lemma multi_kept_doneCurrent t c : preserves multi_kept (doneCurrent t c).
Proof. apply (preserves_doneCurrent _ t (fun _ => True)); multi_kept. Qed.

Lemma multi_kept_invalidate_all l : preserves multi_kept (invalidate_all l).
Proof. apply (preserves_invalidate_all _ (fun _ => True)); multi_kept. Qed.

Lemma multi_kept_qDeleteAll l : preserves multi_kept (qDeleteAll l).
Proof. apply preserves_qDeleteAll; multi_kept. Qed.

Lemma multi_kept_update_group g f : preserves multi_kept (update_group g f).
Proof. apply preserves_update_group; multi_kept. Qed.

Lemma multiGroup_cleanup_inv t m g v w u w' :
  multiGroup_cleanup t m g v w = Done u w' ->
  exists R evs, multiResources w !! m = Some R /\
    multiResources w' = <[m := unregistered g R]> (multiResources w) /\
    log w' = log w ++ call_invalidateResource v :: evs.
Proof.
  unfold multiGroup_cleanup. intros H.
  apply bind_inv in H as (X & w1 & HX & H). apply the_resource_inv in HX as [_ ->].
  apply bind_inv in H as ([] & w1 & He & H). apply emit_inv in He as ->.
  apply bind_inv in H as ([] & w2 & Hf & H).
  apply multi_kept_free in Hf as (Hm2 & evs & Hl2). simpl in Hm2, Hl2.
  apply bind_inv in H as (R & w2' & HR & H). apply the_multiResource_inv in HR as [HR ->].
  apply bind_inv in H as (nodebug & w2' & Hn & H). apply gets_inv in Hn as [-> ->].
  destruct (negb (QT_NO_DEBUG w2) && negb (bool_decide (g ∈ m_groups R))); [discriminate H |].
  apply modify_inv in H as ->. simpl.
  exists R, evs. rewrite <- Hm2. split; [done |]. split; [done |].
  by rewrite Hl2, <- app_assoc.
Qed.

Lemma cleanup_resources_inv t g l w u w' :
  NoDup l.*1 -> cleanup_resources t g l w = Done u w' ->
  (forall m, m ∉ l.*1 -> multiResources w' !! m = multiResources w !! m) /\
  (forall m v, (m, v) ∈ l ->
     exists R, multiResources w !! m = Some R /\
               multiResources w' !! m = Some (unregistered g R)) /\
  exists evs, log w' = log w ++ evs /\
              forall m v, (m, v) ∈ l -> call_invalidateResource v ∈ evs.
Proof.
  revert w. induction l as [| [m0 v0] l IH]; intros w Hnd H; simpl in H.
  - apply ret_inv in H as [_ ->]. split; [done |]. split.
    + intros m v Hin. by apply elem_of_nil in Hin.
    + exists []. rewrite app_nil_r. split; [done |]. intros m v Hin. by apply elem_of_nil in Hin.
  - rewrite fmap_cons in Hnd. apply NoDup_cons in Hnd as [Hm0 Hnd]. simpl in Hm0.
    apply bind_inv in H as ([] & w1 & H1 & H).
    apply multiGroup_cleanup_inv in H1 as (R0 & evs1 & HR0 & Hm1 & Hl1).
    apply IH in H as (Hother & Hin & evs2 & Hl2 & Hev2); [| done].
    split; [| split].
    + intros m Hm. rewrite fmap_cons in Hm. apply not_elem_of_cons in Hm as [Hne Hm].
      simpl in Hne. rewrite (Hother m Hm), Hm1. by rewrite lookup_insert_ne.
    + intros m v Hmv. apply elem_of_cons in Hmv as [Heq | Hmv].
      * injection Heq as -> ->. exists R0. split; [done |].
        rewrite (Hother m0 Hm0), Hm1. apply lookup_insert_eq.
      * destruct (Hin m v Hmv) as (R & HR & HR').
        assert (Hne : m <> m0).
        { intros ->. apply Hm0. apply list_elem_of_fmap. by exists (m0, v). }
        rewrite Hm1, lookup_insert_ne in HR by done. by exists R.
    + exists (call_invalidateResource v0 :: evs1 ++ evs2). split.
      * rewrite Hl2, Hl1. by rewrite <- app_assoc.
      * intros m v Hmv. apply elem_of_cons in Hmv as [Heq | Hmv].
        -- injection Heq as -> ->. apply elem_of_cons. by left.
        -- apply elem_of_cons. right. apply elem_of_app. right. by eapply Hev2.
Qed.

Lemma cleanup_unregisters t g w u w' G :
  groups w !! g = Some G -> NoDup (m_resources G).*1 ->
  cleanup t g w = Done u w' ->
  (forall m, m ∉ (m_resources G).*1 -> multiResources w' !! m = multiResources w !! m) /\
  (forall m v, (m, v) ∈ m_resources G ->
     exists R, multiResources w !! m = Some R /\
               multiResources w' !! m = Some (unregistered g R)) /\
  (exists evs, log w' = log w ++ evs /\
               forall m v, (m, v) ∈ m_resources G -> call_invalidateResource v ∈ evs) /\
  exists G', groups w' !! g = Some G' /\ m_resources G' = [].
Proof.
  intros HG Hnd H. unfold cleanup in H.
  apply bind_inv in H as (G0 & w0 & HG0 & H). apply the_group_inv in HG0 as [HG0 ->].
  assert (G0 = G) as -> by congruence.
  apply bind_inv in H as ([] & w1 & Hcr & H).
  apply cleanup_resources_inv in Hcr as (Hother & Hin & evs1 & Hl1 & Hev1); [| done].
  apply bind_inv in H as ([] & w2 & Hu & H).
  pose proof (multi_kept_update_group _ _ _ _ _ Hu) as K2.
  apply update_group_inv in Hu as (G1 & HG1 & ->).
  apply bind_inv in H as (G2 & w2 & HG2 & H). apply the_group_inv in HG2 as [HG2 ->].
  simpl in HG2. rewrite lookup_insert_eq in HG2. injection HG2 as <-.
  apply bind_inv in H as ([] & w3 & Hinv & H).
  pose proof (multi_kept_invalidate_all _ _ _ _ Hinv) as K3.
  apply invalidate_all_inv in Hinv as (_ & _ & Hg3). simpl in Hg3.
  apply bind_inv in H as ([] & w4 & Hu & H).
  pose proof (multi_kept_update_group _ _ _ _ _ Hu) as K4.
  apply update_group_inv in Hu as (G3 & HG3 & ->).
  rewrite Hg3, lookup_insert_eq in HG3. injection HG3 as <-.
  apply bind_inv in H as (G4 & w5 & HG4 & H). apply the_group_inv in HG4 as [HG4 ->].
  simpl in HG4. rewrite lookup_insert_eq in HG4. injection HG4 as <-.
  apply bind_inv in H as ([] & w6 & Hdel & H).
  pose proof (multi_kept_qDeleteAll _ _ _ _ Hdel) as K6.
  apply qDeleteAll_inv in Hdel as (_ & _ & Hg6). simpl in Hg6.
  pose proof (multi_kept_update_group _ _ _ _ _ H) as K7.
  apply update_group_inv in H as (G5 & HG5 & ->).
  rewrite Hg6, lookup_insert_eq in HG5. injection HG5 as <-.
  pose proof (multi_kept_trans _ _ _ K2 (multi_kept_trans _ _ _ K3
                (multi_kept_trans _ _ _ K4 (multi_kept_trans _ _ _ K6 K7))))
    as (Hm & evs2 & Hl).
  split; [| split; [| split]].
  - intros m Hm'. rewrite Hm. by apply Hother.
  - intros m v Hmv. rewrite Hm. by apply (Hin m v).
  - exists (evs1 ++ evs2). split; [by rewrite Hl, Hl1, app_assoc |].
    intros m v Hmv. apply elem_of_app. left. by eapply Hev1.
  - eexists. simpl. rewrite lookup_insert_eq. split; [reflexivity | done].
Qed.

Lemma removeContext_unregisters t g c w u w' G :
  groups w !! g = Some G -> int32 (m_refs G - 1) = 0 -> NoDup (m_resources G).*1 ->
  removeContext t g c w = Done u w' ->
  (forall m v, (m, v) ∈ m_resources G ->
     exists R, multiResources w !! m = Some R /\
               multiResources w' !! m = Some (unregistered g R)) /\
  exists evs, log w' = log w ++ evs /\
              forall m v, (m, v) ∈ m_resources G -> call_invalidateResource v ∈ evs.
Proof.
  intros HG Href Hnd H. unfold removeContext in H.
  apply bind_inv in H as (G0 & w0 & HG0 & H). apply the_group_inv in HG0 as [HG0 ->].
  assert (G0 = G) as -> by congruence. cbv zeta in H.
  apply bind_inv in H as ([] & w1 & Hs & H). apply modify_inv in Hs as ->.
  rewrite decide_True in H by done.
  apply bind_inv in H as ([] & w2 & Hcl & H).
  eapply cleanup_unregisters in Hcl; [| simpl; apply lookup_insert_eq | exact Hnd].
  destruct Hcl as (_ & Hin & (evs & Hl2 & Hev) & G2 & HG2 & Hres2).
  simpl in Hin, Hl2, Hev.
  apply bind_inv in H as (G2' & w2' & HG2' & H). apply the_group_inv in HG2' as [HG2' ->].
  assert (G2' = G2) as -> by congruence.
  apply bind_inv in H as (qt & w2' & Hq & H). apply gets_inv in Hq as [-> ->].
  destruct (decide _).
  - apply bind_inv in H as ([] & w3 & Hcl & H).
    eapply cleanup_unregisters in Hcl; [| exact HG2 | rewrite Hres2; constructor].
    destruct Hcl as (Hother & _ & (evs3 & Hl3 & _) & _).
    apply modify_inv in H as ->. simpl. split.
    + intros m v Hmv. rewrite Hother; [by apply (Hin m v) |].
      rewrite Hres2. apply not_elem_of_nil.
    + exists (evs ++ evs3). split; [by rewrite Hl3, Hl2, app_assoc |].
      intros m v Hmv. apply elem_of_app. left. by eapply Hev.
  - apply modify_inv in H as ->. simpl. split; [done |]. by exists evs.
Qed.

(** X16. When destroy() takes the last context out of a share group,
    every multi-group resource that has an instance in the group forgets
    the group: the group is taken off its list, its count of groups goes
    down by one, and invalidateResource() is called on the instance. *)
Theorem last_context_unregisters_group
    (w w' : World) (t : thread_id) (c : ctx_ptr) (C : QOpenGLContext)
    (g : grp_ptr) (G : QOpenGLContextGroup) (m : mgr_ptr) (v : res_ptr)
    (R : QOpenGLMultiGroupSharedResource) :
  contexts w !! c = Some C -> shareGroup C = Some g -> groups w !! g = Some G ->
  m_refs G = 1 -> NoDup (m_resources G).*1 ->
  (m, v) ∈ m_resources G -> multiResources w !! m = Some R ->
  destroy t c w = Done tt w' ->
  multiResources w' !! m = Some (unregistered g R) /\
  call_invalidateResource v ∈ added w w'.
Proof.
  intros HC Hg HG Href Hnd Hmv HR H.
  apply destroy_steps in H as (C0 & w2 & w3 & HC0 & Hdc & Hrm & _ & _ & Hm' & _ & Hl' & _).
  assert (C0 = C) as -> by congruence. rewrite Hg in Hrm. cbv zeta in Hdc.
  assert (H2 : exists G2, groups w2 !! g = Some G2 /\ m_refs G2 = 1 /\
                          m_resources G2 = m_resources G /\
                          multiResources w2 = multiResources w /\
                          exists evs, log w2 = log w ++ evs).
  { destruct (decide (current w t = Some c)) as [Hcur|Hcur].
    - pose proof (multi_kept_doneCurrent _ _ _ _ _ Hdc) as (Hm2 & evs & Hl2).
      simpl in Hm2, Hl2.
      assert (Hlog : exists evs, log w2 = log w ++ evs).
      { exists (destroy_prologue c C ++ evs). by rewrite Hl2, <- app_assoc. }
      apply doneCurrent_spec in Hdc
        as [[_ ->] | (_ & C1 & p & HC1 & _ & _ & _ & _ & _ & _ & _ & tls & _ & Hcase)].
      + by exists G.
      + simpl in HC1. rewrite lookup_insert_eq in HC1. injection HC1 as <-.
        destruct Hcase as [(_ & g1 & G1 & Hg1 & HG1 & Hgr & _) | (Hn & _)]; [| done].
        simpl in HG1, Hgr, Hg1. assert (g1 = g) as -> by congruence.
        assert (G1 = G) as -> by congruence.
        exists (set_pendingDeletion [] G). rewrite Hgr, lookup_insert_eq. done.
    - subst w2. exists G. repeat split; try done. by eexists. }
  destruct H2 as (G2 & HG2 & Href2 & Hres2 & Hm2 & evs2 & Hl2).
  apply (removeContext_unregisters t g c w2 tt w3 G2 HG2) in Hrm
    as (Hin & evs3 & Hl3 & Hev3); [| by rewrite Href2 | by rewrite Hres2].
  rewrite Hres2 in Hin, Hev3.
  destruct (Hin m v Hmv) as (R0 & HR0 & HR').
  rewrite Hm2 in HR0. assert (R0 = R) as -> by congruence.
  split; [by rewrite Hm' |].
  rewrite (added_app w w' (evs2 ++ evs3 ++ destroy_epilogue C));
    [| by rewrite Hl', Hl3, Hl2, <- !app_assoc].
  apply elem_of_app. right. apply elem_of_app. left. by eapply Hev3.
Qed.

Lemma last_context_unregisters_group_witness :
  exists w', destroy 1 0 multi_world = Done tt w' /\
             multiResources multi_world !! 0%nat = Some {| active := 1; m_groups := [0%nat] |} /\
             multiResources w' !! 0%nat = Some {| active := 0; m_groups := [] |} /\
             resources w' !! 2%nat = None.
Proof.
  assert (H : exists w', destroy 1 0 multi_world = Done tt w')
    by (eexists; vm_compute; reflexivity).
  destruct H as [w' H]. exists w'. split; [exact H |]. split; [reflexivity |].
  destruct (last_context_unregisters_group multi_world w' 1 0 sample_context 0
              {| m_shares := [0%nat]; m_refs := 1; m_context := None;
                 m_resources := [(0%nat, 2%nat)];
                 m_sharedResources := [0%nat; 2%nat]; m_pendingDeletion := [1%nat];
                 group_thread := Some 1%nat |}
              0 2 {| active := 1; m_groups := [0%nat] |}
              eq_refl eq_refl eq_refl eq_refl) as (Hun & _);
    [apply NoDup_singleton | by apply list_elem_of_singleton | reflexivity | exact H |].
  split; [exact Hun |].
  vm_compute in H. injection H as <-. reflexivity.
Defined.

(** * The destructor of a multi-group resource *)

Lemma entries_kept_refl w : entries_kept w w.
Proof. by intros g. Qed.

Lemma entries_kept_trans w1 w2 w3 :
  entries_kept w1 w2 -> entries_kept w2 w3 -> entries_kept w1 w3.
Proof. intros H1 H2 g. by rewrite H2, H1. Qed.

Lemma entries_kept_store_group w g G G' :
  groups w !! g = Some G -> m_resources G' = m_resources G ->
  entries_kept w (set_groups <[g := G']> w).
Proof.
  intros HG Hm g'. simpl. destruct (decide (g' = g)) as [-> | Hne].
  - rewrite lookup_insert_eq, HG. simpl. by rewrite Hm.
  - by rewrite lookup_insert_ne.
Qed.

Lemma free_entries_kept t r w u w' : free t r w = Done u w' -> entries_kept w w'.
Proof.
  intros H.
  destruct (resources w !! r) as [R|] eqn:HR.
  2:{ unfold free in H. apply bind_inv in H as (? & ? & HR' & _).
      apply the_resource_inv in HR' as [HR' _]. congruence. }
  pose proof (free_inv t r w u w' R HR H) as Hinv.
  destruct (m_group R) as [g|]; [| by subst w'].
  destruct Hinv as (G & HG & Hinv). cbv zeta in Hinv.
  set (G1 := set_pendingDeletion (m_pendingDeletion G ++ [r])
               (set_sharedResources (removeOne r (m_sharedResources G)) G)) in *.
  assert (H1 : entries_kept w (set_groups <[g := G1]> w)).
  { by eapply entries_kept_store_group. }
  destruct (current w t) as [cc|]; [| by subst w'].
  destruct Hinv as (CC & HCC & Hinv).
  destruct (decide (shareGroup CC = Some g)); [| by subst w'].
  subst w'. eapply entries_kept_trans; [exact H1 |].
  intros g'. unfold drained. simpl. destruct (decide (g' = g)) as [-> | Hne].
  - by rewrite !lookup_insert_eq.
  - by rewrite !lookup_insert_ne.
Qed.

Lemma frees_only_refl w : frees_only w w.
Proof. split; [done | apply log_grows_by_refl]. Qed.

Lemma frees_only_trans w1 w2 w3 : frees_only w1 w2 -> frees_only w2 w3 -> frees_only w1 w3.
Proof.
  intros (A1 & A2) (B1 & B2). split; [congruence | by eapply log_grows_by_trans].
Qed.

Lemma frees_only_release_groups t m gs : preserves frees_only (release_groups t m gs).
Proof.
  apply (preserves_release_groups _ t free_events);
    first [ apply frees_only_refl | apply frees_only_trans
          | by intros; split; [| apply log_grows_by_emit]
          | by intros; split; [| apply log_grows_by_same]
          | by intros; exact I ].
Qed.

Lemma deref_times_exact n a :
  - 2 ^ 31 <= a - Z.of_nat n -> a < 2 ^ 31 -> deref_times n a = a - Z.of_nat n.
Proof.
  unfold deref_times. induction n as [| n IH]; intros Hlo Hhi; simpl.
  - lia.
  - rewrite IH by lia. rewrite int32_small by lia. lia.
Qed.

Lemma deref_times_S n a : deref_times (S n) a = deref_times n (int32 (a - 1)).
Proof. unfold deref_times. by rewrite Nat.iter_succ_r. Qed.

Lemma release_groups_inv t m gs w u w' R :
  multiResources w !! m = Some R ->
  release_groups t m gs w = Done u w' ->
  multiResources w' !! m =
    Some {| active := deref_times (length gs) (active R); m_groups := m_groups R |} /\
  (forall g, g ∈ gs ->
     exists G', groups w' !! g = Some G' /\ hash_value m (m_resources G') = None) /\
  (forall g G, groups w !! g = Some G -> hash_value m (m_resources G) = None ->
     exists G', groups w' !! g = Some G' /\ hash_value m (m_resources G') = None).
Proof.
  revert w R. induction gs as [| g0 gs IH]; intros w R HR H; simpl in H.
  - apply ret_inv in H as [_ ->]. split; [by destruct R |]. split.
    + intros g Hin. by apply elem_of_nil in Hin.
    + intros g G HG Hn. by exists G.
  - apply bind_inv in H as (G0 & w0 & HG0 & H). apply the_group_inv in HG0 as [HG0 ->].
    apply bind_inv in H as ([] & w1 & Hfree & H).
    assert (H1 : entries_kept w w1 /\ multiResources w1 = multiResources w).
    { destruct (m_shares G0) as [| first rest].
      - apply ret_inv in Hfree as [_ ->]. split; [apply entries_kept_refl | done].
      - apply bind_inv in Hfree as (x & w0 & Hval & Hfree).
        apply multiGroup_value_inv in Hval as (-> & _).
        destruct x as [r|].
        + split; [by eapply free_entries_kept |]. by apply multi_kept_free in Hfree as (? & _).
        + apply ret_inv in Hfree as [_ ->]. split; [apply entries_kept_refl | done]. }
    destruct H1 as (Hent & Hm1).
    apply bind_inv in H as ([] & w2 & Hu & H).
    apply update_group_inv in Hu as (G1 & HG1 & ->).
    apply bind_inv in H as (R1 & w2 & HR1 & H). apply the_multiResource_inv in HR1 as [HR1 ->].
    simpl in HR1. rewrite Hm1, HR in HR1. injection HR1 as <-.
    apply bind_inv in H as ([] & w3 & Hs & H). apply modify_inv in Hs as ->.
    eapply IH in H; [| simpl; apply lookup_insert_eq].
    destruct H as (Hmulti & Hin & Hkeep). simpl in Hmulti, Hin, Hkeep.
    split; [| split].
    + rewrite Hmulti. change (length (g0 :: gs)) with (S (length gs)).
      by rewrite deref_times_S.
    + intros g Hg. apply elem_of_cons in Hg as [-> | Hg]; [| by apply Hin].
      apply (Hkeep g0 (set_m_resources (hash_remove m (m_resources G1)) G1)).
      * apply lookup_insert_eq.
      * simpl. apply hash_value_remove_eq.
    + intros g G HG Hn.
      pose proof (Hent g) as Hg1. rewrite HG in Hg1. simpl in Hg1.
      destruct (groups w1 !! g) as [Gg|] eqn:HGg; [| discriminate Hg1].
      injection Hg1 as Hg1.
      destruct (decide (g = g0)) as [-> | Hne].
      * apply (Hkeep g0 (set_m_resources (hash_remove m (m_resources G1)) G1)).
        -- apply lookup_insert_eq.
        -- simpl. apply hash_value_remove_eq.
      * apply (Hkeep g Gg); [by rewrite lookup_insert_ne | by rewrite Hg1].
Qed.

(** X17. The destructor of a multi-group resource: afterwards the
    object is gone and every group on its list has no instance of it any
    more, while no group acquires one.  In every build the destructor
    calls nothing but freeResource and prints nothing but the warning about
    resources still available.  A build with QT_NO_DEBUG never prints that
    warning; a debug build prints it exactly when the count of groups
    differs from the length of the list (the count being within the range
    of an int all the way down). *)
Theorem delete_multiGroup_releases_groups
    (w w' : World) (t : thread_id) (m : mgr_ptr) (R : QOpenGLMultiGroupSharedResource) :
  multiResources w !! m = Some R ->
  delete_QOpenGLMultiGroupSharedResource t m w = Done tt w' ->
  multiResources w' !! m = None /\
  (forall g, g ∈ m_groups R ->
     exists G', groups w' !! g = Some G' /\ hash_value m (m_resources G') = None) /\
  (forall g G, groups w !! g = Some G -> hash_value m (m_resources G) = None ->
     exists G', groups w' !! g = Some G' /\ hash_value m (m_resources G') = None) /\
  Forall (fun e => free_events e \/ e = qWarning leak_warning) (added w w') /\
  (QT_NO_DEBUG w = true -> Forall free_events (added w w')) /\
  (QT_NO_DEBUG w = false ->
   - 2 ^ 31 <= active R - Z.of_nat (length (m_groups R)) -> active R < 2 ^ 31 ->
   (qWarning leak_warning ∈ added w w' <-> active R <> Z.of_nat (length (m_groups R)))).
Proof.
  intros HR H. unfold delete_QOpenGLMultiGroupSharedResource in H.
  apply bind_inv in H as (R0 & w0 & HR0 & H). apply the_multiResource_inv in HR0 as [HR0 ->].
  assert (R0 = R) as -> by congruence.
  apply bind_inv in H as ([] & w1 & Hrel & H).
  pose proof (frees_only_release_groups _ _ _ _ _ _ Hrel) as (Hdbg & evs & Hl1 & Hevs).
  apply (release_groups_inv t m _ w tt w1 R HR) in Hrel as (Hm1 & Hin & Hkeep).
  apply bind_inv in H as (nodebug & w1' & Hn & H). apply gets_inv in Hn as [-> ->].
  apply bind_inv in H as (R1 & w1' & HR1 & H). apply the_multiResource_inv in HR1 as [HR1 ->].
  rewrite Hm1 in HR1. injection HR1 as <-. simpl in H.
  apply bind_inv in H as ([] & w2 & Hwarn & H). apply modify_inv in H as ->. simpl.
  split; [apply lookup_delete_eq |].
  assert (Hnot : qWarning leak_warning ∉ evs).
  { intros Hx. rewrite Forall_forall in Hevs. by apply Hevs in Hx. }
  rewrite Hdbg in Hwarn.
  destruct (QT_NO_DEBUG w); simpl in Hwarn.
  - apply ret_inv in Hwarn as [_ ->]. split; [exact Hin |]. split; [exact Hkeep |].
    assert (Hall : Forall free_events (added w w1)).
    { unfold added. by rewrite Hl1, drop_app_length. }
    split; [| split; [| done]].
    + eapply Forall_impl; [exact Hall |]. intros e He. by left.
    + intros _. exact Hall.
  - assert (Hgr : groups w2 = groups w1).
    { destruct (negb _); [by apply emit_inv in Hwarn as -> | by apply ret_inv in Hwarn as [_ ->]]. }
    rewrite Hgr. split; [exact Hin |]. split; [exact Hkeep |].
    assert (Hevs' : Forall (fun e => free_events e \/ e = qWarning leak_warning) evs).
    { eapply Forall_impl; [exact Hevs |]. intros e He. by left. }
    split; [| split; [done |]].
    { destruct (negb _).
      - apply emit_inv in Hwarn as ->. unfold added. simpl.
        rewrite Hl1, <- app_assoc, drop_app_length. apply Forall_app. split; [exact Hevs' |].
        apply Forall_cons. split; [by right | apply Forall_nil_2].
      - apply ret_inv in Hwarn as [_ ->]. unfold added. simpl.
        by rewrite Hl1, drop_app_length. }
    intros _ Hlo Hhi. rewrite (deref_times_exact _ _ Hlo Hhi) in Hwarn.
    case_bool_decide as Hz; simpl in Hwarn.
    + apply ret_inv in Hwarn as [_ ->]. unfold added. simpl. rewrite Hl1, drop_app_length.
      split; [done | lia].
    + apply emit_inv in Hwarn as ->. simpl.
      unfold added. simpl. rewrite Hl1, <- app_assoc, drop_app_length.
      split; [intros _; lia |]. intros _. apply elem_of_app. right.
      by apply list_elem_of_singleton.
Qed.

Lemma delete_multiGroup_releases_groups_witness :
  exists w', delete_QOpenGLMultiGroupSharedResource 1 0 multi_world = Done tt w' /\
             multiGroup_value 0 0 multi_world = Done (Some 2%nat) multi_world /\
             multiGroup_value 0 0 w' = Done None w' /\
             pending w' 0%nat = [1%nat; 2%nat].
Proof.
  assert (H : exists w', delete_QOpenGLMultiGroupSharedResource 1 0 multi_world = Done tt w')
    by (eexists; vm_compute; reflexivity).
  destruct H as [w' H]. exists w'. split; [exact H |]. split; [reflexivity |].
  destruct (delete_multiGroup_releases_groups multi_world w' 1 0
              {| active := 1; m_groups := [0%nat] |} eq_refl H) as (_ & Hin & _).
  destruct (Hin 0%nat) as (G' & HG' & Hnone); [by apply list_elem_of_singleton |].
  vm_compute in H. injection H as <-. split; reflexivity.
Defined.

(** * maxTextureSize *)

(** X18. maxTextureSize() caches its answer: whatever it returns, other
    than -1, is stored in max_texture_size and returned by every later
    call, whatever the driver would answer then and whether or not the
    context counts as OpenGL ES. *)
Theorem maxTextureSize_is_cached
    (fuel fuel' : nat) (gl gl' : GLDriver) (es2 es es2' es' : bool) (member v member' : Z) :
  maxTextureSize fuel gl es2 es member = (Found v, member') -> v <> -1 ->
  member' = v /\ maxTextureSize fuel' gl' es2' es' member' = (Found v, v).
Proof.
  intros H Hv.
  assert (Hm : member' = v).
  { unfold maxTextureSize in H.
    destruct (negb (member =? -1)); [by injection H as <- <- |].
    destruct (es2 || es); [by injection H as <- <- |].
    destruct (proxy_width gl 64 =? 0); [by injection H as <- <- |].
    destruct (probe fuel gl (GL_MAX_TEXTURE_SIZE gl) 64); [| discriminate H..].
    by injection H as <- <-. }
  split; [exact Hm |]. subst member'. unfold maxTextureSize.
  destruct (v =? -1) eqn:Heq; [apply Z.eqb_eq in Heq; done | done].
Qed.

Lemma maxTextureSize_is_cached_witness :
  maxTextureSize 30 sample_driver false false (-1) = (Found 4096, 4096) /\
  maxTextureSize 0 {| GL_MAX_TEXTURE_SIZE := 0; proxy_width := fun _ => 0 |} false false 4096
    = (Found 4096, 4096).
Proof.
  assert (H : maxTextureSize 30 sample_driver false false (-1) = (Found 4096, 4096))
    by (vm_compute; reflexivity).
  split; [exact H |].
  apply (maxTextureSize_is_cached 30 0 sample_driver _ false false false false (-1) 4096 4096 H).
  discriminate.
Defined.

Lemma probe_doubles (gl : GLDriver) (max : Z) (fuel k : nat) :
  proxy_rule gl -> max < 2 ^ 30 -> (6 <= k)%nat -> (30 <= fuel + k)%nat ->
  (forall j, (6 < j <= k)%nat -> proxy_width gl (2 ^ Z.of_nat j) = 2 ^ Z.of_nat j) ->
  (k = 6%nat \/ 2 ^ Z.of_nat k <= max) ->
  exists n, (k <= n)%nat /\
    probe fuel gl max (2 ^ Z.of_nat k) = Found (2 ^ Z.of_nat n) /\
    (n = 6%nat \/ 2 ^ Z.of_nat n <= max) /\
    (max < 2 ^ Z.of_nat (S n) \/ proxy_width gl (2 ^ Z.of_nat (S n)) = 0) /\
    forall j, (6 < j <= n)%nat -> proxy_width gl (2 ^ Z.of_nat j) = 2 ^ Z.of_nat j.
Proof.
  intros Hrule Hmax. revert k. induction fuel as [| fuel IH]; intros k Hk Hfuel Hacc Hle.
  - (* no iteration left: then k >= 30, which the bound on max excludes *)
    exfalso. assert (Hk30 : (30 <= k)%nat) by lia.
    destruct Hle as [-> | Hle]; [lia |].
    assert (2 ^ 30 <= 2 ^ Z.of_nat k) by (apply Z.pow_le_mono_r; lia). lia.
  - assert (Hpow : 2 ^ Z.of_nat (S k) = 2 ^ Z.of_nat k * 2).
    { rewrite Nat2Z.inj_succ, Z.pow_succ_r by lia. lia. }
    assert (Hpos : 0 < 2 ^ Z.of_nat k) by (apply Z.pow_pos_nonneg; lia).
    assert (Hk29 : (k <= 29)%nat).
    { destruct Hle as [-> | Hle]; [lia |].
      destruct (decide (k <= 29)%nat); [done |].
      assert (2 ^ 30 <= 2 ^ Z.of_nat k) by (apply Z.pow_le_mono_r; lia). lia. }
    assert (Hfit : fits_GLint (2 ^ Z.of_nat k * 2) = true).
    { unfold fits_GLint. apply andb_true_iff. split; [apply Z.leb_le; lia |].
      apply Z.ltb_lt. rewrite <- Hpow.
      assert (2 ^ Z.of_nat (S k) <= 2 ^ 30) by (apply Z.pow_le_mono_r; lia). lia. }
    cbn [probe]. cbv zeta. rewrite Hfit. simpl negb. cbv iota.
    destruct (2 ^ Z.of_nat k * 2 >? max) eqn:Hbreak.
    + exists k. split; [done |]. split; [done |]. split; [done |]. split; [| done].
      left. rewrite Hpow. by apply Z.gtb_lt in Hbreak.
    + assert (Hnb : 2 ^ Z.of_nat (S k) <= max).
      { rewrite Hpow. destruct (2 ^ Z.of_nat k * 2 >? max) eqn:E; [done |].
        rewrite Z.gtb_ltb in E. apply Z.ltb_ge in E. lia. }
      rewrite <- Hpow. destruct (Hrule (2 ^ Z.of_nat (S k))) as [Hok | Hzero].
      * rewrite Hok. replace (2 ^ Z.of_nat (S k) >? 2 ^ Z.of_nat k) with true
          by (symmetry; apply Z.gtb_lt; lia).
        destruct (IH (S k)) as (n & Hn & Hp & Hb & Hstop & Hall);
          [lia | lia | | by right |].
        { intros j Hj. destruct (decide (j = S k)) as [-> | Hne]; [done |].
          apply Hacc. lia. }
        exists n. split; [lia |]. done.
      * rewrite Hzero. replace (0 >? 2 ^ Z.of_nat k) with false
          by (symmetry; rewrite Z.gtb_ltb; apply Z.ltb_ge; lia).
        exists k. split; [done |]. split; [done |]. split; [done |]. split; [by right | done].
Qed.

(** X19. With a driver that follows the proxy-texture rule and reports
    a GL_MAX_TEXTURE_SIZE below 2^30, the first call of maxTextureSize()
    returns, after at most 24 rounds of the loop and without overflow.  On
    OpenGL ES, or when the 64x64 proxy texture is refused, the answer is
    GL_MAX_TEXTURE_SIZE.  Otherwise it is a power of two from 64 on: every
    doubling up to it was accepted by the driver, it does not exceed
    GL_MAX_TEXTURE_SIZE unless it is 64, and the next doubling either
    exceeds GL_MAX_TEXTURE_SIZE or was refused. *)
Theorem maxTextureSize_probes_by_doubling
    (gl : GLDriver) (fuel : nat) (opengles2 isOpenGLES : bool) :
  proxy_rule gl -> GL_MAX_TEXTURE_SIZE gl < 2 ^ 30 -> (24 <= fuel)%nat ->
  exists v, maxTextureSize fuel gl opengles2 isOpenGLES (-1) = (Found v, v) /\
    if opengles2 || isOpenGLES || (proxy_width gl 64 =? 0)
    then v = GL_MAX_TEXTURE_SIZE gl
    else exists n, (6 <= n)%nat /\ v = 2 ^ Z.of_nat n /\
           (n = 6%nat \/ v <= GL_MAX_TEXTURE_SIZE gl) /\
           (GL_MAX_TEXTURE_SIZE gl < 2 * v \/ proxy_width gl (2 * v) = 0) /\
           forall j, (6 < j <= n)%nat -> proxy_width gl (2 ^ Z.of_nat j) = 2 ^ Z.of_nat j.
Proof.
  intros Hrule Hmax Hfuel. unfold maxTextureSize. simpl negb. cbv iota zeta.
  destruct (opengles2 || isOpenGLES); [by eexists |]. simpl orb.
  destruct (proxy_width gl 64 =? 0); [by eexists |].
  destruct (probe_doubles gl (GL_MAX_TEXTURE_SIZE gl) fuel 6 Hrule Hmax)
    as (n & Hn & Hp & Hb & Hstop & Hall); [lia | lia | intros j Hj; lia | by left |].
  change (2 ^ Z.of_nat 6) with 64 in Hp. rewrite Hp.
  exists (2 ^ Z.of_nat n). split; [done |]. exists n.
  assert (Hpow : 2 ^ Z.of_nat (S n) = 2 * 2 ^ Z.of_nat n).
  { rewrite Nat2Z.inj_succ, Z.pow_succ_r by lia. lia. }
  rewrite Hpow in Hstop. done.
Qed.

Lemma sample_driver_proxy_rule : proxy_rule sample_driver.
Proof. intros n. simpl. destruct (n <=? 4096); [by left | by right]. Defined.

Lemma maxTextureSize_probes_by_doubling_witness :
  maxTextureSize 24 sample_driver false false (-1) = (Found 4096, 4096) /\
  exists v, maxTextureSize 24 sample_driver false false (-1) = (Found v, v) /\
            exists n, (6 <= n)%nat /\ v = 2 ^ Z.of_nat n.
Proof.
  split; [vm_compute; reflexivity |].
  destruct (maxTextureSize_probes_by_doubling sample_driver 24 false false
              sample_driver_proxy_rule) as (v & Hv & n & Hn & Hpow & _); [done | lia |].
  exists v. split; [exact Hv |]. by exists n.
Defined.

(** * The share groups and the contexts agree *)

Lemma elem_of_removeOne c x l : x ∈ removeOne c l -> x ∈ l.
Proof.
  induction l as [| y l IH]; simpl; [done |].
  destruct (decide (c = y)) as [-> | Hne]; intros Hin.
  - apply elem_of_cons. by right.
  - apply elem_of_cons in Hin as [-> | Hin]; apply elem_of_cons; [by left | right; by apply IH].
Qed.

Lemma elem_of_removeOne_ne c x l : x <> c -> x ∈ l -> x ∈ removeOne c l.
Proof.
  intros Hne. induction l as [| y l IH]; simpl; [done |].
  intros Hin. apply elem_of_cons in Hin as [-> | Hin].
  - rewrite decide_False by done. apply elem_of_cons. by left.
  - destruct (decide (c = y)); [done |]. apply elem_of_cons. right. by apply IH.
Qed.

Lemma NoDup_removeOne c l : NoDup l -> NoDup (removeOne c l).
Proof.
  induction l as [| y l IH]; simpl; intros Hnd; [done |].
  apply NoDup_cons in Hnd as [Hy Hnd].
  destruct (decide (c = y)); [done |].
  apply NoDup_cons. split; [| by apply IH].
  intros Hin. by apply Hy, (elem_of_removeOne c).
Qed.

Lemma length_le_size (l : list nat) (m : gmap nat QOpenGLContext) :
  NoDup l -> (forall x, x ∈ l -> is_Some (m !! x)) -> (length l <= size (dom m))%nat.
Proof.
  intros Hnd Hin. rewrite <- (size_list_to_set (C := gset nat) l Hnd).
  apply subseteq_size. intros x Hx. apply elem_of_list_to_set in Hx.
  apply elem_of_dom. by apply Hin.
Qed.

Lemma membership_lookup w w' g G' :
  membership <$> (groups w' !! g) = membership <$> (groups w !! g) ->
  groups w' !! g = Some G' ->
  exists G, groups w !! g = Some G /\ m_shares G = m_shares G' /\ m_refs G = m_refs G'.
Proof.
  intros Hm HG'. rewrite HG' in Hm. destruct (groups w !! g) as [G|]; [| discriminate Hm].
  exists G. split; [done |]. simpl in Hm. unfold membership in Hm. by injection Hm as -> -> _ _.
Qed.

Lemma membership_lookup_back w w' g G :
  membership <$> (groups w' !! g) = membership <$> (groups w !! g) ->
  groups w !! g = Some G ->
  exists G', groups w' !! g = Some G' /\ m_shares G' = m_shares G /\ m_refs G' = m_refs G.
Proof.
  intros Hm HG. rewrite HG in Hm. destruct (groups w' !! g) as [G'|]; [| discriminate Hm].
  exists G'. split; [done |]. simpl in Hm. unfold membership in Hm. by injection Hm as -> -> _ _.
Qed.

(** destroy() keeps the agreement. *)
Lemma sharing_wf_destroy t c w u w' :
  sharing_wf w -> destroy t c w = Done u w' -> sharing_wf w'.
Proof.
  intros (W1 & W2 & W3 & W4 & W5) H.
  apply destroy_spec in H as (C & C' & HC & Hctx & Hp' & Hg' & _ & _ & _ & _ & Hgrp).
  assert (Hdom : dom (contexts w') = dom (contexts w)).
  { rewrite Hctx. by apply dom_insert_lookup_L. }
  (* the groups other than the one of [c] have the members they had *)
  assert (Hother : forall g', shareGroup C <> Some g' ->
            membership <$> (groups w' !! g') = membership <$> (groups w !! g')).
  { intros g' Hne. destruct (shareGroup C) as [g|].
    - destruct Hgrp as (G & _ & Hoth & _). apply Hoth. congruence.
    - by destruct Hgrp as (_ & Hall). }
  (* the group of [c] has lost [c], if it is still there *)
  assert (Hown : forall g G G', shareGroup C = Some g -> groups w !! g = Some G ->
            groups w' !! g = Some G' ->
            m_shares G' = removeOne c (m_shares G) /\
            m_refs G' = Z.of_nat (length (m_shares G'))).
  { intros g G G' Hg HG HG'. rewrite Hg in Hgrp.
    destruct Hgrp as (G0 & HG0 & _ & Hrem). assert (G0 = G) as -> by congruence.
    destruct (W1 c C g HC Hg) as (G1 & HG1 & Hin). assert (G1 = G) as -> by congruence.
    destruct (W3 g G HG) as (Hnd & Hrefs).
    pose proof (removeOne_length c _ Hin) as Hlen.
    assert (Hbound : (length (m_shares G) <= size (dom (contexts w)))%nat).
    { apply length_le_size; [done |]. intros x Hx.
      destruct (W2 g G x HG Hx) as (X & HX & _). eauto. }
    unfold group_after_removal in Hrem.
    destruct (decide (int32 (m_refs G - 1) = 0)) as [Hz | Hnz].
    - rewrite int32_small in Hz by lia.
      destruct (decide (group_thread G = currentThread_of w t)).
      + destruct Hrem as (Hnone & _). congruence.
      + destruct Hrem as (_ & G2 & HG2 & Hsh & Hrf). assert (G2 = G') as -> by congruence.
        split; [done |]. rewrite Hrf, Hsh. lia.
    - destruct Hrem as (_ & G2 & HG2 & Hsh & Hrf & _). assert (G2 = G') as -> by congruence.
      split; [done |]. rewrite Hrf, Hsh, int32_small by lia. lia. }
  split; [| split; [| split; [| split]]].
  - intros c' X g' HX HgX. rewrite Hctx in HX.
    destruct (decide (c' = c)) as [-> | Hne].
    { rewrite lookup_insert_eq in HX. injection HX as <-. congruence. }
    rewrite lookup_insert_ne in HX by done.
    destruct (W1 c' X g' HX HgX) as (G & HG & Hin).
    destruct (decide (shareGroup C = Some g')) as [Hsame | Hdiff].
    + rewrite Hsame in Hgrp. destruct Hgrp as (G0 & HG0 & _ & Hrem).
      assert (G0 = G) as -> by congruence.
      destruct (W1 c C g' HC Hsame) as (G1 & HG1 & Hcin). assert (G1 = G) as -> by congruence.
      destruct (W3 g' G HG) as (Hnd & Hrefs).
      assert (Htwo : (2 <= length (m_shares G))%nat).
      { destruct (m_shares G) as [| x [| y l]]; simpl; [| | lia].
        - by apply elem_of_nil in Hin.
        - apply list_elem_of_singleton in Hin, Hcin. congruence. }
      assert (Hbound : (length (m_shares G) <= size (dom (contexts w)))%nat).
      { apply length_le_size; [done |]. intros x Hx.
        destruct (W2 g' G x HG Hx) as (Y & HY & _). eauto. }
      unfold group_after_removal in Hrem.
      rewrite decide_False in Hrem by (rewrite int32_small by lia; lia).
      destruct Hrem as (_ & G' & HG' & Hsh & _). exists G'. split; [done |].
      rewrite Hsh. by apply elem_of_removeOne_ne.
    + destruct (membership_lookup_back w w' g' G (Hother g' Hdiff) HG) as (G' & HG' & Hsh & _).
      exists G'. split; [done |]. by rewrite Hsh.
  - intros g' G' c' HG' Hin.
    assert (Hold : exists G, groups w !! g' = Some G /\ c' ∈ m_shares G /\
                             (shareGroup C = Some g' -> c' <> c)).
    { destruct (decide (shareGroup C = Some g')) as [Hsame | Hdiff].
      - destruct (W1 c C g' HC Hsame) as (G & HG & _).
        destruct (Hown g' G G' Hsame HG HG') as (Hsh & _). rewrite Hsh in Hin.
        exists G. split; [done |]. split; [by eapply elem_of_removeOne |].
        intros _ ->. destruct (W3 g' G HG) as (Hnd & _). by apply (removeOne_NoDup c _ Hnd).
      - destruct (membership_lookup w w' g' G' (Hother g' Hdiff) HG') as (G & HG & Hsh & _).
        exists G. rewrite Hsh. done. }
    destruct Hold as (G & HG & Hin0 & Hnc).
    destruct (W2 g' G c' HG Hin0) as (X & HX & HgX).
    assert (c' <> c).
    { intros ->. assert (X = C) as -> by congruence. by apply Hnc. }
    exists X. rewrite Hctx, lookup_insert_ne by done. done.
  - intros g' G' HG'.
    destruct (decide (shareGroup C = Some g')) as [Hsame | Hdiff].
    + destruct (W1 c C g' HC Hsame) as (G & HG & _).
      destruct (Hown g' G G' Hsame HG HG') as (Hsh & Hrf). split; [| done].
      rewrite Hsh. apply NoDup_removeOne. by destruct (W3 g' G HG).
    + destruct (membership_lookup w w' g' G' (Hother g' Hdiff) HG') as (G & HG & Hsh & Hrf).
      destruct (W3 g' G HG) as (Hnd & Hrefs). rewrite <- Hsh, <- Hrf. done.
  - intros c' X HX HpX. rewrite Hctx in HX.
    destruct (decide (c' = c)) as [-> | Hne].
    + rewrite lookup_insert_eq in HX. by injection HX as <-.
    + rewrite lookup_insert_ne in HX by done. by eapply W4.
  - by rewrite Hdom.
Qed.

(** adopt() keeps the agreement, for a context that has no group yet. *)
Lemma sharing_wf_adopt t c p w u w' C :
  sharing_wf w -> contexts w !! c = Some C -> shareGroup C = None ->
  adopt t c p w = Done u w' -> sharing_wf w'.
Proof.
  intros (W1 & W2 & W3 & W4 & W5) HC Hnone H.
  apply adopt_spec in H as (C0 & P & HC0 & HP & Hpost). cbv zeta in Hpost.
  assert (C0 = C) as -> by congruence.
  destruct Hpost as (g & G' & Hctx & _ & _ & _ & _ & Hgr & Hcase).
  set (sc := if platform_isSharing P then shareContext C else None) in *.
  assert (Hdom : dom (contexts w') = dom (contexts w)).
  { rewrite Hctx. by apply dom_insert_lookup_L. }
  (* [c] is in no group *)
  assert (Hfree : forall g0 G0, groups w !! g0 = Some G0 -> c ∉ m_shares G0).
  { intros g0 G0 HG0 Hin. destruct (W2 g0 G0 c HG0 Hin) as (X & HX & HgX). congruence. }
  (* the group that [c] joins: its members are the old ones and [c] *)
  assert (HG' : exists old, m_shares G' = old ++ [c] /\
                  m_refs G' = Z.of_nat (length (old ++ [c])) /\ NoDup (old ++ [c]) /\
                  match groups w !! g with
                  | Some G => old = m_shares G
                  | None => old = []
                  end).
  { destruct sc as [s|].
    - destruct Hcase as (SC & G & HSC & HgS & HG & ->). exists (m_shares G). simpl.
      rewrite HG. destruct (W3 g G HG) as (Hnd & Hrefs).
      assert (Hnd' : NoDup (m_shares G ++ [c])).
      { apply NoDup_app. split; [done |]. split; [| apply NoDup_singleton].
        intros x Hx Hxc. apply list_elem_of_singleton in Hxc as ->. by apply (Hfree g G). }
      assert (Hbound : (length (m_shares G ++ [c]) <= size (dom (contexts w)))%nat).
      { apply length_le_size; [done |]. intros x Hx. apply elem_of_app in Hx as [Hx | Hx].
        - destruct (W2 g G x HG Hx) as (Y & HY & _). eauto.
        - apply list_elem_of_singleton in Hx as ->. eauto. }
      rewrite length_app in *. simpl in *. rewrite Hrefs, int32_small by lia.
      split; [done |]. split; [lia | done].
    - destruct Hcase as (_ & Hnew & ->). exists []. simpl. rewrite Hnew.
      split; [done |]. split; [done |]. split; [apply NoDup_singleton | done]. }
  destruct HG' as (old & Hsh & Hrf & Hnd & Hold).
  split; [| split; [| split; [| split]]].
  - intros c' X g' HX HgX. rewrite Hctx in HX. rewrite Hgr.
    destruct (decide (c' = c)) as [-> | Hne].
    + rewrite lookup_insert_eq in HX. injection HX as <-. simpl in HgX. injection HgX as <-.
      exists G'. rewrite lookup_insert_eq. split; [done |]. rewrite Hsh.
      apply elem_of_app. right. by apply list_elem_of_singleton.
    + rewrite lookup_insert_ne in HX by done.
      destruct (W1 c' X g' HX HgX) as (G & HG & Hin).
      destruct (decide (g' = g)) as [-> | Hng].
      * exists G'. rewrite lookup_insert_eq. split; [done |]. rewrite Hsh, HG in *. subst old.
        apply elem_of_app. by left.
      * exists G. by rewrite lookup_insert_ne.
  - intros g' G0 c' HG0 Hin. rewrite Hgr in HG0. rewrite Hctx.
    destruct (decide (g' = g)) as [-> | Hng].
    + rewrite lookup_insert_eq in HG0. injection HG0 as <-. rewrite Hsh in Hin.
      apply elem_of_app in Hin as [Hin | Hin].
      * destruct (groups w !! g) as [G|] eqn:HG; subst old; [| by apply elem_of_nil in Hin].
        destruct (W2 g G c' HG Hin) as (X & HX & HgX).
        assert (c' <> c) by (intros ->; congruence).
        exists X. by rewrite lookup_insert_ne.
      * apply list_elem_of_singleton in Hin as ->. eexists. by rewrite lookup_insert_eq.
    + rewrite lookup_insert_ne in HG0 by done.
      destruct (W2 g' G0 c' HG0 Hin) as (X & HX & HgX).
      assert (c' <> c) by (intros ->; congruence).
      exists X. by rewrite lookup_insert_ne.
  - intros g' G0 HG0. rewrite Hgr in HG0.
    destruct (decide (g' = g)) as [-> | Hng].
    + rewrite lookup_insert_eq in HG0. injection HG0 as <-. by rewrite Hsh, Hrf.
    + rewrite lookup_insert_ne in HG0 by done. by apply (W3 g').
  - intros c' X HX HpX. rewrite Hctx in HX.
    destruct (decide (c' = c)) as [-> | Hne].
    + rewrite lookup_insert_eq in HX. by injection HX as <-.
    + rewrite lookup_insert_ne in HX by done. by eapply W4.
  - by rewrite Hdom.
Qed.

(** create() keeps the agreement. *)
Lemma sharing_wf_create t c made w b w' :
  sharing_wf w -> create t c made w = Done b w' -> sharing_wf w'.
Proof.
  intros Hwf H. unfold create in H.
  apply bind_inv in H as (p0 & w0 & Hh & H). apply handle_inv in Hh as (C & HC & -> & ->).
  apply bind_inv in H as ([] & w1 & Hd & H).
  assert (H1 : sharing_wf w1 /\ exists C1, contexts w1 !! c = Some C1 /\ shareGroup C1 = None).
  { destruct (platformGLContext C) eqn:Hp.
    - split; [by eapply sharing_wf_destroy |].
      apply destroy_spec in Hd as (C0 & C' & _ & Hctx & _ & Hg' & _).
      exists C'. by rewrite Hctx, lookup_insert_eq.
    - apply ret_inv in Hd as [_ ->]. split; [done |]. exists C. split; [done |].
      destruct Hwf as (_ & _ & _ & W4 & _). by eapply W4. }
  destruct H1 as (Hwf1 & C1 & HC1 & Hg1).
  destruct made as [P|]; [| by apply ret_inv in H as [_ ->]].
  apply bind_inv in H as (ps & w1' & Hps & H). apply gets_inv in Hps as [-> ->].
  apply bind_inv in H as ([] & w2 & Hm & H). apply modify_inv in Hm as ->.
  apply bind_inv in H as ([] & w3 & Had & H). apply isValid_reads in H as ->.
  eapply sharing_wf_adopt; [| | | exact Had]; [exact Hwf1 | exact HC1 | exact Hg1].
Qed.

(** The agreement only looks at the group and the platform context of
    each context, and at the members of each group. *)
Lemma sharing_wf_view w w' :
  sharing_wf w ->
  (forall c, (fun C => (shareGroup C, platformGLContext C)) <$> (contexts w' !! c)
             = (fun C => (shareGroup C, platformGLContext C)) <$> (contexts w !! c)) ->
  (forall g, membership <$> (groups w' !! g) = membership <$> (groups w !! g)) ->
  sharing_wf w'.
Proof.
  intros (W1 & W2 & W3 & W4 & W5) Hc Hg.
  assert (Hfwd : forall c X, contexts w' !! c = Some X ->
            exists Y, contexts w !! c = Some Y /\ shareGroup Y = shareGroup X /\
                      platformGLContext Y = platformGLContext X).
  { intros c X HX. specialize (Hc c). rewrite HX in Hc.
    destruct (contexts w !! c) as [Y|]; [| discriminate Hc].
    exists Y. simpl in Hc. by injection Hc as -> ->. }
  assert (Hbwd : forall c Y, contexts w !! c = Some Y ->
            exists X, contexts w' !! c = Some X /\ shareGroup X = shareGroup Y).
  { intros c Y HY. specialize (Hc c). rewrite HY in Hc.
    destruct (contexts w' !! c) as [X|]; [| discriminate Hc].
    exists X. simpl in Hc. by injection Hc as -> _. }
  assert (Hdom : dom (contexts w') = dom (contexts w)).
  { apply set_eq. intros c. rewrite !elem_of_dom. split; intros [X HX].
    - destruct (Hfwd c X HX) as (Y & HY & _). eauto.
    - destruct (Hbwd c X HX) as (Y & HY & _). eauto. }
  split; [| split; [| split; [| split]]].
  - intros c X g HX HgX. destruct (Hfwd c X HX) as (Y & HY & HgY & _).
    destruct (W1 c Y g HY) as (G & HG & Hin); [congruence |].
    destruct (membership_lookup_back w w' g G (Hg g) HG) as (G' & HG' & Hsh & _).
    exists G'. by rewrite Hsh.
  - intros g G' c HG' Hin.
    destruct (membership_lookup w w' g G' (Hg g) HG') as (G & HG & Hsh & _).
    rewrite <- Hsh in Hin. destruct (W2 g G c HG Hin) as (Y & HY & HgY).
    destruct (Hbwd c Y HY) as (X & HX & HgX). exists X. split; [done | congruence].
  - intros g G' HG'.
    destruct (membership_lookup w w' g G' (Hg g) HG') as (G & HG & Hsh & Hrf).
    rewrite <- Hsh, <- Hrf. by apply (W3 g).
  - intros c X HX HpX. destruct (Hfwd c X HX) as (Y & HY & HgY & HpY).
    rewrite <- HgY. apply (W4 c Y HY). congruence.
  - by rewrite Hdom.
Qed.

Lemma sharing_wf_doneCurrent t c w u w' :
  sharing_wf w -> doneCurrent t c w = Done u w' -> sharing_wf w'.
Proof.
  intros Hwf H.
  destruct (contexts w !! c) as [C|] eqn:HC.
  2:{ unfold doneCurrent in H. apply bind_inv in H as (v & w1 & Hv & _).
      unfold isValid in Hv. apply bind_inv in Hv as (X & w2 & HX & _).
      apply the_context_inv in HX as [HX _]. congruence. }
  destruct (doneCurrent_membership_frame t c w u w' C H HC)
    as (C2 & Hctx & Hp & Hg & _ & _ & _ & _ & _ & Hm).
  apply (sharing_wf_view w w' Hwf); [| exact Hm].
  intros c'. rewrite Hctx. destruct (decide (c' = c)) as [-> | Hne].
  - rewrite lookup_insert_eq, HC. simpl. by rewrite Hp, Hg.
  - by rewrite lookup_insert_ne.
Qed.

Lemma sharing_wf_makeCurrent t c surf w b w' :
  sharing_wf w -> makeCurrent t c surf w = Done b w' -> sharing_wf w'.
Proof.
  intros Hwf H. destruct surf as [s|].
  - destruct b.
    + apply makeCurrent_true_spec in H
        as (C & p & P & sf & h & g & G & tls & C' & gl & HC & Hp & _ & _ & _ & _ & _ & _
            & _ & Hg & HG & _ & _ & _ & Hgr & _ & _ & Hctx & _ & Hg' & Hp' & _).
      apply (sharing_wf_view w w' Hwf).
      * intros c'. rewrite Hctx. destruct (decide (c' = c)) as [-> | Hne].
        -- rewrite lookup_insert_eq, HC. simpl. by rewrite Hp, Hg, Hp', Hg'.
        -- by rewrite lookup_insert_ne.
      * intros g'. rewrite Hgr. destruct (decide (g' = g)) as [-> | Hne].
        -- by rewrite lookup_insert_eq, HG.
        -- by rewrite lookup_insert_ne.
    + apply makeCurrent_false_frame in H. rewrite H. exact Hwf.
  - unfold makeCurrent in H.
    apply bind_inv in H as (valid & w1 & Hv & H). apply isValid_reads in Hv as ->.
    destruct valid; simpl in H; [| by apply ret_inv in H as [_ ->]].
    apply bind_inv in H as (dc & w1 & Hdc & H). apply gets_inv in Hdc as [-> ->].
    apply bind_inv in H as (C & w1 & HC & H). apply the_context_inv in HC as [HC ->].
    apply bind_inv in H as (qt & w1 & Hq & H). apply gets_inv in Hq as [-> ->].
    destruct (negb _ && negb _); [discriminate H |].
    apply bind_inv in H as ([] & w1 & Hdone & H). apply ret_inv in H as [_ ->].
    by eapply sharing_wf_doneCurrent.
Qed.

Lemma sharing_wf_free t r w u w' :
  sharing_wf w -> free t r w = Done u w' -> sharing_wf w'.
Proof.
  intros Hwf H. apply free_same_membership in H as (Hc & _ & _ & _ & _ & _ & Hm).
  apply (sharing_wf_view w w' Hwf); [| done]. intros c. by rewrite Hc.
Qed.

Lemma sharing_wf_delete t c w u w' :
  sharing_wf w -> delete_QOpenGLContext t c w = Done u w' -> sharing_wf w'.
Proof.
  intros Hwf H. unfold delete_QOpenGLContext in H.
  apply bind_inv in H as ([] & w1 & Hd & H).
  pose proof (sharing_wf_destroy t c w tt w1 Hwf Hd) as (W1 & W2 & W3 & W4 & W5).
  apply destroy_spec in Hd as (C & C' & _ & Hctx & _ & Hg' & _).
  assert (HC' : contexts w1 !! c = Some C') by (by rewrite Hctx, lookup_insert_eq).
  apply bind_inv in H as (nodebug & w1' & Hn & H). apply gets_inv in Hn as [-> ->].
  apply bind_inv in H as ([] & w2 & Htr & H). apply modify_inv in H as ->.
  assert (H2 : contexts w2 = contexts w1 /\ groups w2 = groups w1).
  { destruct (QT_NO_DEBUG w1).
    - by apply ret_inv in Htr as [_ ->].
    - by apply modify_inv in Htr as ->. }
  destruct H2 as (Hc2 & Hg2).
  unfold sharing_wf. simpl. rewrite Hc2, Hg2.
  split; [| split; [| split; [| split]]].
  - intros c' X g HX. apply lookup_delete_Some in HX as [Hne HX]. by apply (W1 c' X g).
  - intros g G c' HG Hin. destruct (W2 g G c' HG Hin) as (X & HX & HgX).
    exists X. split; [| done]. apply lookup_delete_Some. split; [| done].
    intros ->. congruence.
  - done.
  - intros c' X HX. apply lookup_delete_Some in HX as [Hne HX]. by apply (W4 c' X).
  - assert ((size (dom (delete c (contexts w1))) <= size (dom (contexts w1)))%nat); [| lia].
    apply subseteq_size. rewrite dom_delete. apply subseteq_difference_l. done.
Qed.

(** X20. The agreement between contexts and share groups is an
    invariant of the interface: if it holds, it holds again after create(),
    destroy(), the destructor, makeCurrent(), doneCurrent(), swapBuffers()
    and free(), whenever these return. *)
Theorem sharing_wf_is_kept (w : World) (t : thread_id) :
  sharing_wf w ->
  (forall c made b w', create t c made w = Done b w' -> sharing_wf w') /\
  (forall c w', destroy t c w = Done tt w' -> sharing_wf w') /\
  (forall c w', delete_QOpenGLContext t c w = Done tt w' -> sharing_wf w') /\
  (forall c surf b w', makeCurrent t c surf w = Done b w' -> sharing_wf w') /\
  (forall c w', doneCurrent t c w = Done tt w' -> sharing_wf w') /\
  (forall c surf w', swapBuffers t c surf w = Done tt w' -> sharing_wf w') /\
  (forall r w', free t r w = Done tt w' -> sharing_wf w').
Proof.
  intros Hwf. split; [| split; [| split; [| split; [| split; [| split]]]]].
  - intros c made b w'. by apply sharing_wf_create.
  - intros c w'. by apply sharing_wf_destroy.
  - intros c w'. by apply sharing_wf_delete.
  - intros c surf b w'. by apply sharing_wf_makeCurrent.
  - intros c w'. by apply sharing_wf_doneCurrent.
  - intros c surf w' H. pose proof (same_objects_swapBuffers _ _ _ _ _ _ H) as (Hg & _).
    apply swapBuffers_contexts in H as (Hc & _).
    apply (sharing_wf_view w w' Hwf); intros x; [| by rewrite Hg].
    destruct Hc as [-> | (C & HC & _ & ->)]; [done |].
    destruct (decide (x = c)) as [-> | Hne].
    + by rewrite lookup_insert_eq, HC.
    + by rewrite lookup_insert_ne.
  - intros r w'. by apply sharing_wf_free.
Qed.

Lemma sample_world_sharing_wf : sharing_wf sample_world.
Proof.
  assert (Hc : forall c C, contexts sample_world !! c = Some C -> c = 0%nat /\ C = sample_context).
  { intros c C H. change (contexts sample_world) with ({[ 0%nat := sample_context ]} : gmap nat _) in H.
    by apply lookup_singleton_Some in H as [<- <-]. }
  assert (Hg : forall g G, groups sample_world !! g = Some G -> g = 0%nat /\ G = sample_group).
  { intros g G H. change (groups sample_world) with ({[ 0%nat := sample_group ]} : gmap nat _) in H.
    by apply lookup_singleton_Some in H as [<- <-]. }
  split; [| split; [| split; [| split]]].
  - intros c C g HC HgC. apply Hc in HC as [-> ->]. injection HgC as <-.
    exists sample_group. split; [reflexivity | by apply list_elem_of_singleton].
  - intros g G c HG Hin. apply Hg in HG as [-> ->].
    apply list_elem_of_singleton in Hin as ->. by exists sample_context.
  - intros g G HG. apply Hg in HG as [-> ->]. split; [apply NoDup_singleton | reflexivity].
  - intros c C HC Hp. apply Hc in HC as [-> ->]. discriminate Hp.
  - vm_compute. reflexivity.
Defined.

Lemma sharing_wf_is_kept_witness :
  exists w', create 1 0 (Some sharing_platformContext) sample_world = Done true w' /\
             sharing_wf w'.
Proof.
  assert (H : exists w', create 1 0 (Some sharing_platformContext) sample_world = Done true w')
    by (eexists; vm_compute; reflexivity).
  destruct H as [w' H]. exists w'. split; [exact H |].
  destruct (sharing_wf_is_kept sample_world 1 sample_world_sharing_wf) as (Hcreate & _).
  exact (Hcreate _ _ _ _ H).
Defined.

(** X21. Under this agreement shares() of a context's share group lists
    exactly the contexts that areSharing() relates to it, each once, the
    context itself among them. *)
Theorem shares_lists_the_sharing_contexts
    (w : World) (a : ctx_ptr) (A : QOpenGLContext) (g : grp_ptr) :
  sharing_wf w -> contexts w !! a = Some A -> shareGroup A = Some g ->
  exists l, shares g w = Done l w /\ NoDup l /\ a ∈ l /\
            forall b, b ∈ l <-> areSharing a b w = Done true w.
Proof.
  intros (W1 & W2 & W3 & _) HA Hg.
  destruct (W1 a A g HA Hg) as (G & HG & Hin).
  exists (m_shares G). split; [| split; [by apply (W3 g) | split; [done |]]].
  - unfold shares, the_group, bind, gets, deref, ret. by rewrite HG.
  - intros b. split.
    + intros Hb. destruct (W2 g G b HG Hb) as (B & HB & HgB).
      rewrite (areSharing_value a b w A B HA HB). f_equal.
      apply bool_decide_eq_true. congruence.
    + intros Hsh. apply areSharing_inv in Hsh as (A' & B & HA' & HB & Hb & _).
      assert (A' = A) as -> by congruence.
      symmetry in Hb. apply bool_decide_eq_true in Hb.
      destruct (W1 b B g HB) as (G' & HG' & Hbin); [congruence |].
      by assert (G' = G) as -> by congruence.
Qed.

Lemma shares_lists_the_sharing_contexts_witness :
  exists l, shares 0 sample_world = Done l sample_world /\ NoDup l /\ 0%nat ∈ l /\
            forall b, b ∈ l <-> areSharing 0 b sample_world = Done true sample_world.
Proof.
  exact (shares_lists_the_sharing_contexts sample_world 0 sample_context 0
           sample_world_sharing_wf eq_refl eq_refl).
Defined.

(** * The resources a group tracks *)

Lemma removeOne_perm r l : r ∈ l -> l ≡ₚ r :: removeOne r l.
Proof.
  induction l as [| y l IH]; intros Hin; [by apply elem_of_nil in Hin |].
  simpl. destruct (decide (r = y)) as [-> | Hne]; [done |].
  apply elem_of_cons in Hin as [-> | Hin]; [done |].
  rewrite (IH Hin) at 1. apply Permutation_swap.
Qed.

Lemma tracking_wf_ext w w' :
  groups w' = groups w -> resources w' = resources w -> tracking_wf w -> tracking_wf w'.
Proof. intros Hg Hr (T1 & T2 & T3). unfold tracking_wf. rewrite Hg, Hr. done. Qed.

(** One group changes its lists to a permutation of what it tracked. *)
Lemma tracking_wf_permuted w g G G' :
  tracking_wf w -> groups w !! g = Some G -> tracked G' ≡ₚ tracked G ->
  tracking_wf (set_groups <[g := G']> w).
Proof.
  intros (T1 & T2 & T3) HG Hperm. unfold tracking_wf. simpl.
  split; [| split].
  - intros g0 G0 HG0. destruct (decide (g0 = g)) as [-> | Hne].
    + rewrite lookup_insert_eq in HG0. injection HG0 as <-. rewrite Hperm. by apply (T1 g).
    + rewrite lookup_insert_ne in HG0 by done. by apply (T1 g0).
  - intros g0 G0 r HG0 Hin. destruct (decide (g0 = g)) as [-> | Hne].
    + rewrite lookup_insert_eq in HG0. injection HG0 as <-. rewrite Hperm in Hin.
      by apply (T2 g G).
    + rewrite lookup_insert_ne in HG0 by done. by apply (T2 g0 G0).
  - intros r R g0 G0 HR Hg0 HG0. destruct (decide (g0 = g)) as [-> | Hne].
    + rewrite lookup_insert_eq in HG0. injection HG0 as <-. rewrite Hperm.
      by apply (T3 r R g G).
    + rewrite lookup_insert_ne in HG0 by done. by apply (T3 r R g0 G0).
Qed.

(** The pending list of one group is drained. *)
Lemma tracking_wf_drained w w' g G :
  tracking_wf w -> groups w !! g = Some G ->
  groups w' = <[g := set_pendingDeletion [] G]> (groups w) ->
  resources w' = foldl (fun m r => delete r m) (resources w) (m_pendingDeletion G) ->
  tracking_wf w'.
Proof.
  intros (T1 & T2 & T3) HG Hgr Hres. unfold tracking_wf. rewrite Hgr, Hres.
  pose proof (T1 g G HG) as Hnd. unfold tracked in Hnd.
  apply NoDup_app in Hnd as (Hnd1 & Hdisj & Hnd2).
  split; [| split].
  - intros g0 G0 HG0. destruct (decide (g0 = g)) as [-> | Hne].
    + rewrite lookup_insert_eq in HG0. injection HG0 as <-. unfold tracked. simpl.
      by rewrite app_nil_r.
    + rewrite lookup_insert_ne in HG0 by done. by apply (T1 g0).
  - intros g0 G0 r HG0 Hin. rewrite lookup_foldl_delete.
    destruct (decide (g0 = g)) as [-> | Hne].
    + rewrite lookup_insert_eq in HG0. injection HG0 as <-. unfold tracked in Hin.
      simpl in Hin. rewrite app_nil_r in Hin.
      rewrite decide_False by (by apply Hdisj).
      apply (T2 g G); [done |]. apply elem_of_app. by left.
    + rewrite lookup_insert_ne in HG0 by done.
      destruct (T2 g0 G0 r HG0 Hin) as (R & HR & HgR).
      rewrite decide_False; [by exists R |].
      intros Hp. destruct (T2 g G r HG) as (R' & HR' & HgR');
        [apply elem_of_app; by right |]. congruence.
  - intros r R g0 G0 HR Hg0 HG0. rewrite lookup_foldl_delete in HR.
    destruct (decide (r ∈ m_pendingDeletion G)) as [| Hnp]; [discriminate HR |].
    destruct (decide (g0 = g)) as [-> | Hne].
    + rewrite lookup_insert_eq in HG0. injection HG0 as <-.
      pose proof (T3 r R g G HR Hg0 HG) as Hin. unfold tracked in *. simpl.
      rewrite app_nil_r. apply elem_of_app in Hin as [Hin | Hin]; done.
    + rewrite lookup_insert_ne in HG0 by done. by apply (T3 r R g0 G0).
Qed.

Lemma tracking_wf_doneCurrent t c w u w' :
  tracking_wf w -> doneCurrent t c w = Done u w' -> tracking_wf w'.
Proof.
  intros Hwf H.
  apply doneCurrent_spec in H
    as [[_ ->] | (_ & C & p & _ & _ & _ & _ & _ & _ & _ & _ & tls & _ & Hcase)]; [done |].
  destruct Hcase as [(_ & g & G & _ & HG & Hgr & Hres & _) | (_ & Hgr & Hres & _)].
  - by eapply tracking_wf_drained.
  - by eapply tracking_wf_ext.
Qed.

Lemma tracking_wf_makeCurrent t c surf w b w' :
  tracking_wf w -> makeCurrent t c surf w = Done b w' -> tracking_wf w'.
Proof.
  intros Hwf H. destruct surf as [s|].
  - destruct b.
    + apply makeCurrent_true_spec in H
        as (C & p & P & sf & h & g & G & tls & C' & gl & _ & _ & _ & _ & _ & _ & _ & _
            & _ & _ & HG & _ & _ & _ & Hgr & Hres & _).
      by eapply tracking_wf_drained.
    + apply makeCurrent_false_frame in H. rewrite H. exact Hwf.
  - unfold makeCurrent in H.
    apply bind_inv in H as (valid & w1 & Hv & H). apply isValid_reads in Hv as ->.
    destruct valid; simpl in H; [| by apply ret_inv in H as [_ ->]].
    apply bind_inv in H as (dc & w1 & Hdc & H). apply gets_inv in Hdc as [-> ->].
    apply bind_inv in H as (C & w1 & HC & H). apply the_context_inv in HC as [HC ->].
    apply bind_inv in H as (qt & w1 & Hq & H). apply gets_inv in Hq as [-> ->].
    destruct (negb _ && negb _); [discriminate H |].
    apply bind_inv in H as ([] & w1 & Hdone & H). apply ret_inv in H as [_ ->].
    by eapply tracking_wf_doneCurrent.
Qed.

Lemma tracking_wf_free t r w u w' :
  tracking_wf w -> (forall g, r ∉ pending w g) ->
  free t r w = Done u w' -> tracking_wf w'.
Proof.
  intros Hwf Hfresh H.
  destruct (resources w !! r) as [R|] eqn:HR.
  2:{ unfold free in H. apply bind_inv in H as (? & ? & HR' & _).
      apply the_resource_inv in HR' as [HR' _]. congruence. }
  pose proof (free_inv t r w u w' R HR H) as Hinv.
  destruct (m_group R) as [g|] eqn:HgR.
  - destruct Hinv as (G & HG & Hinv). cbv zeta in Hinv.
    set (G1 := set_pendingDeletion (m_pendingDeletion G ++ [r])
                 (set_sharedResources (removeOne r (m_sharedResources G)) G)) in *.
    assert (Hin : r ∈ m_sharedResources G).
    { destruct Hwf as (_ & _ & T3). pose proof (T3 r R g G HR HgR HG) as Hin.
      apply elem_of_app in Hin as [Hin | Hin]; [done |].
      exfalso. apply (Hfresh g). unfold pending. by rewrite HG. }
    assert (H1 : tracking_wf (set_groups <[g := G1]> w)).
    { apply (tracking_wf_permuted w g G G1 Hwf HG). unfold tracked, G1. simpl.
      trans (r :: removeOne r (m_sharedResources G) ++ m_pendingDeletion G).
      - rewrite app_assoc. symmetry. apply Permutation_cons_append.
      - change ((r :: removeOne r (m_sharedResources G)) ++ m_pendingDeletion G
                ≡ₚ m_sharedResources G ++ m_pendingDeletion G).
        apply Permutation_app_tail. symmetry. by apply removeOne_perm. }
    destruct (current w t) as [cc|]; [| by subst w'].
    destruct Hinv as (CC & HCC & Hinv).
    destruct (decide (shareGroup CC = Some g)); [| by subst w'].
    subst w'. eapply (tracking_wf_drained _ _ g G1 H1).
    + simpl. apply lookup_insert_eq.
    + unfold drained. simpl. reflexivity.
    + reflexivity.
  - subst w'. destruct Hwf as (T1 & T2 & T3). unfold tracking_wf. simpl.
    split; [done |]. split.
    + intros g0 G0 r0 HG0 Hin0. destruct (T2 g0 G0 r0 HG0 Hin0) as (R0 & HR0 & HgR0).
      exists R0. split; [| done]. rewrite lookup_delete_ne; [done |]. intros ->. congruence.
    + intros r0 R0 g0 G0 HR0. apply lookup_delete_Some in HR0 as [_ HR0]. by apply T3.
Qed.

Lemma tracking_wf_new g w r w' :
  tracking_wf w -> new_QOpenGLSharedResource g w = Done r w' ->
  tracking_wf w' /\ resources w !! r = None /\
  exists G, groups w' !! g = Some G /\ r ∈ m_sharedResources G.
Proof.
  intros (T1 & T2 & T3) H. unfold new_QOpenGLSharedResource, store_resource, store_group in H.
  apply bind_inv in H as (rs & w1 & Hrs & H). apply gets_inv in Hrs as [-> ->].
  apply bind_inv in H as ([] & w1 & Hst & H). apply modify_inv in Hst as ->.
  apply bind_inv in H as (G & w1 & HG & H). apply the_group_inv in HG as [HG ->].
  apply bind_inv in H as ([] & w1 & Hst & H). apply modify_inv in Hst as ->.
  apply ret_inv in H as [-> ->]. simpl in HG.
  set (r := fresh (dom (resources w))).
  assert (Hr : resources w !! r = None)
    by (apply not_elem_of_dom; apply is_fresh).
  assert (Hnew : forall g0 G0 r0, groups w !! g0 = Some G0 -> r0 ∈ tracked G0 -> r0 <> r).
  { intros g0 G0 r0 HG0 Hin ->. destruct (T2 g0 G0 r HG0 Hin) as (R & HR & _). congruence. }
  split; [| split; [exact Hr |]].
  2:{ eexists. simpl. split; [apply lookup_insert_eq |]. simpl.
      apply elem_of_app. right. by apply list_elem_of_singleton. }
  unfold tracking_wf. simpl. split; [| split].
  - intros g0 G0 HG0. destruct (decide (g0 = g)) as [-> | Hne].
    + rewrite lookup_insert_eq in HG0. injection HG0 as <-. unfold tracked. simpl.
      rewrite <- app_assoc. simpl.
      apply NoDup_app. pose proof (T1 g G HG) as Hnd. unfold tracked in Hnd.
      apply NoDup_app in Hnd as (Hnd1 & Hdisj & Hnd2).
      split; [done |]. split.
      * intros x Hx Hx'. apply elem_of_cons in Hx' as [-> | Hx'].
        -- apply (Hnew g G r HG); [| done]. apply elem_of_app. by left.
        -- by apply (Hdisj x).
      * apply NoDup_cons. split; [| done].
        intros Hp. apply (Hnew g G r HG); [| done]. apply elem_of_app. by right.
    + rewrite lookup_insert_ne in HG0 by done. by apply (T1 g0).
  - intros g0 G0 r0 HG0 Hin. destruct (decide (g0 = g)) as [-> | Hne].
    + rewrite lookup_insert_eq in HG0. injection HG0 as <-. unfold tracked in Hin.
      simpl in Hin. rewrite <- app_assoc in Hin. simpl in Hin.
      destruct (decide (r0 = r)) as [-> | Hnr].
      * eexists. split; [apply lookup_insert_eq | reflexivity].
      * rewrite lookup_insert_ne by done. apply (T2 g G r0 HG).
        apply elem_of_app in Hin as [Hin | Hin]; [apply elem_of_app; by left |].
        apply elem_of_cons in Hin as [-> | Hin]; [done |]. apply elem_of_app. by right.
    + rewrite lookup_insert_ne in HG0 by done.
      rewrite lookup_insert_ne by (by apply not_eq_sym, (Hnew g0 G0 r0)).
      by apply (T2 g0 G0).
  - intros r0 R0 g0 G0 HR0 HgR0 HG0.
    assert (Hsub : forall G1, groups w !! g0 = Some G1 ->
              (g0 = g -> r0 ∈ tracked G1 -> r0 ∈ tracked G0) ->
              (g0 <> g -> G0 = G1) -> r0 ∈ tracked G0).
    { intros G1 HG1 Hsame Hother. destruct (decide (r0 = r)) as [-> | Hnr].
      - rewrite lookup_insert_eq in HR0. injection HR0 as <-. simpl in HgR0.
        injection HgR0 as <-. rewrite lookup_insert_eq in HG0. injection HG0 as <-.
        unfold tracked. simpl. apply elem_of_app. left. apply elem_of_app. right.
        by apply list_elem_of_singleton.
      - rewrite lookup_insert_ne in HR0 by done.
        pose proof (T3 r0 R0 g0 G1 HR0 HgR0 HG1) as Hin.
        destruct (decide (g0 = g)) as [Heq | Hne]; [by apply Hsame |].
        by rewrite (Hother Hne). }
    destruct (decide (g0 = g)) as [-> | Hne].
    + rewrite lookup_insert_eq in HG0. injection HG0 as <-.
      apply (Hsub G HG); [| done]. intros _ Hin. unfold tracked in *. simpl.
      apply elem_of_app in Hin as [Hin | Hin]; apply elem_of_app; [left | by right].
      apply elem_of_app. by left.
    + rewrite lookup_insert_ne in HG0 by done. apply (Hsub G0 HG0); [done |]. done.
Qed.

Lemma tracking_wf_swapBuffers t c surf w u w' :
  tracking_wf w -> swapBuffers t c surf w = Done u w' -> tracking_wf w'.
Proof.
  intros Hwf H. apply same_objects_swapBuffers in H as (Hg & Hr & _).
  by eapply tracking_wf_ext.
Qed.

(** X22. The resources a group tracks.  Every resource on one of the two
    lists of a group is a live object of that group, listed once, and every
    live resource of a live group is on one of its lists.  Constructing a
    resource, free() of a resource that was not freed before, makeCurrent(),
    doneCurrent() and swapBuffers() keep this; the constructor returns an
    object that did not exist and puts it on the list of shared resources. *)
Theorem tracking_wf_is_kept (w : World) (t : thread_id) :
  tracking_wf w ->
  (forall g r w', new_QOpenGLSharedResource g w = Done r w' ->
     tracking_wf w' /\ resources w !! r = None /\
     exists G, groups w' !! g = Some G /\ r ∈ m_sharedResources G) /\
  (forall r w', (forall g, r ∉ pending w g) -> free t r w = Done tt w' -> tracking_wf w') /\
  (forall c surf b w', makeCurrent t c surf w = Done b w' -> tracking_wf w') /\
  (forall c w', doneCurrent t c w = Done tt w' -> tracking_wf w') /\
  (forall c surf w', swapBuffers t c surf w = Done tt w' -> tracking_wf w').
Proof.
  intros Hwf. split; [| split; [| split; [| split]]].
  - intros g r w' H. by apply tracking_wf_new.
  - intros r w' Hfresh H. by eapply tracking_wf_free.
  - intros c surf b w' H. by eapply tracking_wf_makeCurrent.
  - intros c w' H. by eapply tracking_wf_doneCurrent.
  - intros c surf w' H. by eapply tracking_wf_swapBuffers.
Qed.

Lemma sample_world_tracking_wf : tracking_wf sample_world.
Proof.
  assert (Hg : forall g G, groups sample_world !! g = Some G -> g = 0%nat /\ G = sample_group).
  { intros g G H. change (groups sample_world) with ({[ 0%nat := sample_group ]} : gmap nat _) in H.
    by apply lookup_singleton_Some in H as [<- <-]. }
  split; [| split].
  - intros g G HG. apply Hg in HG as [-> ->]. unfold tracked. simpl.
    apply NoDup_cons. split; [| apply NoDup_singleton].
    intros Hin. apply list_elem_of_singleton in Hin. discriminate Hin.
  - intros g G r HG Hin. apply Hg in HG as [-> ->]. unfold tracked in Hin. simpl in Hin.
    apply elem_of_cons in Hin as [-> | Hin]; [by eexists |].
    apply list_elem_of_singleton in Hin as ->. by eexists.
  - intros r R g G HR HgR HG. apply Hg in HG as [-> ->]. unfold tracked. simpl.
    change (resources sample_world)
      with (<[ 0%nat := {| m_group := Some 0%nat |} ]>
              ({[ 1%nat := {| m_group := Some 0%nat |} ]} : gmap nat _)) in HR.
    apply lookup_insert_Some in HR as [[<- _] | [_ HR]]; [apply elem_of_cons; by left |].
    apply lookup_singleton_Some in HR as [<- _]. apply elem_of_cons. right.
    by apply list_elem_of_singleton.
Defined.

Lemma tracking_wf_is_kept_witness :
  exists w', free 1 0 sample_world = Done tt w' /\ tracking_wf w'.
Proof.
  assert (H : exists w', free 1 0 sample_world = Done tt w')
    by (eexists; vm_compute; reflexivity).
  destruct H as [w' H]. exists w'. split; [exact H |].
  destruct (tracking_wf_is_kept sample_world 1 sample_world_tracking_wf) as (_ & Hfree & _).
  apply (Hfree 0%nat w'); [| exact H].
  intros g. unfold pending.
  change (groups sample_world) with ({[ 0%nat := sample_group ]} : gmap nat _).
  destruct (decide (g = 0%nat)) as [-> | Hne].
  - rewrite lookup_singleton_eq. simpl. intros Hin. apply list_elem_of_singleton in Hin.
    discriminate Hin.
  - rewrite lookup_singleton_ne by done. apply not_elem_of_nil.
Defined.

(** X23. free() of a resource that its group still lists as shared returns,
    whatever context is current, and the resource leaves that list for
    good: afterwards it is either waiting on the pending list or deleted. *)
Theorem free_of_a_shared_resource
    (w : World) (t : thread_id) (g : grp_ptr) (G : QOpenGLContextGroup) (r : res_ptr) :
  tracking_wf w -> groups w !! g = Some G -> r ∈ m_sharedResources G ->
  (forall cc, current w t = Some cc -> is_Some (contexts w !! cc)) ->
  exists w' G', free t r w = Done tt w' /\ tracking_wf w' /\
    groups w' !! g = Some G' /\ (r ∉ m_sharedResources G') /\
    (r ∈ m_pendingDeletion G' \/ resources w' !! r = None).
Proof.
  intros Hwf HG Hin Hcur. pose proof Hwf as (T1 & T2 & T3).
  pose proof (T1 g G HG) as Hnd. unfold tracked in Hnd.
  apply NoDup_app in Hnd as (Hnd1 & Hdisj & Hnd2).
  destruct (T2 g G r HG) as (R & HR & HgR); [apply elem_of_app; by left |].
  assert (Hnp : forall g0, r ∉ pending w g0).
  { intros g0 Hp. unfold pending in Hp. destruct (groups w !! g0) as [G0|] eqn:HG0;
      [| by apply elem_of_nil in Hp].
    destruct (T2 g0 G0 r HG0) as (R' & HR' & HgR'); [apply elem_of_app; by right |].
    assert (g0 = g) as -> by congruence. assert (G0 = G) as -> by congruence.
    by apply (Hdisj r). }
  destruct (free_returns_holds w t r R g HR HgR) as [w' Hfree].
  { exists G. split; [done |]. split; [done |]. intros x Hx.
    destruct (T2 g G x HG) as (X & HX & _); [apply elem_of_app; by right | by eexists]. }
  { apply Hnp. }
  { exact Hcur. }
  pose proof (tracking_wf_free t r w tt w' Hwf Hnp Hfree) as Hwf'.
  pose proof (free_inv t r w tt w' R HR Hfree) as Hinv. rewrite HgR in Hinv.
  destruct Hinv as (G0 & HG0 & Hinv). assert (G0 = G) as -> by congruence.
  cbv zeta in Hinv.
  assert (Hgone : r ∉ removeOne r (m_sharedResources G)).
  { intros Hx. pose proof (removeOne_perm r _ Hin) as Hperm.
    rewrite Hperm in Hnd1. apply NoDup_cons in Hnd1 as [Hx' _]. done. }
  assert (Hmoved : forall w1, w1 = set_groups <[g := set_pendingDeletion (m_pendingDeletion G ++ [r])
                 (set_sharedResources (removeOne r (m_sharedResources G)) G)]> w ->
     exists G', groups w1 !! g = Some G' /\ (r ∉ m_sharedResources G') /\
       (r ∈ m_pendingDeletion G' \/ resources w1 !! r = None)).
  { intros w1 ->. eexists. simpl. split; [apply lookup_insert_eq |]. simpl.
    split; [done |]. left. apply elem_of_app. right. by apply list_elem_of_singleton. }
  exists w'.
  destruct (current w t) as [cc|].
  - destruct Hinv as (CC & HCC & Hinv).
    destruct (decide (shareGroup CC = Some g)).
    + subst w'. eexists. split; [done |]. split; [done |]. unfold drained. simpl.
      split; [apply lookup_insert_eq |]. simpl. split; [done |]. right.
      rewrite lookup_foldl_delete. rewrite decide_True; [done |].
      apply elem_of_app. right. by apply list_elem_of_singleton.
    + destruct (Hmoved w' Hinv) as (G' & ? & ? & ?). by exists G'.
  - destruct (Hmoved w' Hinv) as (G' & ? & ? & ?). by exists G'.
Qed.

Lemma free_of_a_shared_resource_witness :
  exists w' G', free 1 0 sample_world = Done tt w' /\ tracking_wf w' /\
    groups w' !! 0%nat = Some G' /\ (0%nat ∉ m_sharedResources G') /\
    (0%nat ∈ m_pendingDeletion G' \/ resources w' !! 0%nat = None).
Proof.
  apply (free_of_a_shared_resource sample_world 1 0 sample_group 0 sample_world_tracking_wf).
  - reflexivity.
  - simpl. by apply list_elem_of_singleton.
  - intros cc Hcc. vm_compute in Hcc. discriminate Hcc.
Defined.
